(** * react-hotkeys: the focus-only key event strategy

    A shallow embedding of [AbstractKeyEventStrategy.js] and
    [FocusOnlyKeyEventStrategy.js]: the key combination history, the event
    propagation state, the lazy handler resolution and the sequence matcher,
    followed by the properties of the strategy that are checked against it.

    Conventions of the embedding:
    - a JavaScript object used as a dictionary is a [JsObject.t]: the list
      of its properties in creation order, enumerated the way
      [Object.keys] does (array-index keys first, ascending, then the
      other keys in creation order);
    - the strategy object is the record [Strategy]; every method takes the
      strategy and returns the new one;
    - a callback (a handler, [ignoreEventsCondition]) is called by
      appending to the [effects] field, the most recent call first;
    - reading a property of [undefined] is the outcome [Threw];
    - the collaborators imported from files outside the two modules are
      the fields of [Collaborators] and of [RegistrationCollaborators];
    - a callback does not call back into the strategy, and
      [ignoreEventsCondition] is a function of the event;
    - [handlersDictionary], the record of the handlers matched, the
      action dictionary being built and the key map read for the hard
      sequences are indexed by the names of actions and handlers, and
      answer to the names of the members of [Object.prototype] as well as
      to their own properties ([JsObject.lookup]); the other dictionaries
      are read for their own properties: a key of the keyboard is not
      named after a member of [Object.prototype], nor is a key sequence
      written with such a name.  [ordinaryNames] states it of the
      registered key sequences, and [ordinaryKeys], [ordinaryHistory]
      and [ordinaryKeyMaps] state it of the keys that the strategy hears
      of, in the properties that take them as hypotheses. *)

From Stdlib Require Import List String Ascii Bool Arith ZArith NArith Lia.
From Stdlib Require Import Sorted Permutation.
Import ListNotations.
Open Scope string_scope.
Open Scope list_scope.

Set Implicit Arguments.

(** ** JavaScript objects as ordered dictionaries *)

Module JsObject.

Definition t (V : Type) := list (string * V).

Definition empty {V} : t V := [].

Fixpoint get {V} (o : t V) (k : string) : option V :=
  match o with
  | [] => None
  | (k', v) :: o' => if String.eqb k k' then Some v else get o' k
  end.

Definition has {V} (o : t V) (k : string) : bool :=
  match get o k with Some _ => true | None => false end.

(** [o[k] = v]: an existing property keeps its place, a new one is
    created last. *)
Fixpoint set {V} (o : t V) (k : string) (v : V) : t V :=
  match o with
  | [] => [(k, v)]
  | (k', v') :: o' =>
      if String.eqb k k' then (k', v) :: o' else (k', v') :: set o' k v
  end.

Definition isDigit (c : ascii) : bool :=
  let n := nat_of_ascii c in (48 <=? n)%nat && (n <=? 57)%nat.

Definition digitValue (c : ascii) : N := N.of_nat (nat_of_ascii c - 48).

Fixpoint allDigits (s : string) : bool :=
  match s with
  | EmptyString => true
  | String c s' => isDigit c && allDigits s'
  end.

Fixpoint decimalValue (acc : N) (s : string) : N :=
  match s with
  | EmptyString => acc
  | String c s' => decimalValue (acc * 10 + digitValue c)%N s'
  end.

(** An array index is a canonical numeric string below 2^32 - 1. *)
Definition arrayIndex (s : string) : option N :=
  match s with
  | EmptyString => None
  | String c s' =>
      if allDigits s
         && (negb (Ascii.eqb c "0"%char) || String.eqb s' EmptyString)
         && (String.length s <=? 10)%nat
         && (decimalValue 0 s <? 4294967295)%N
      then Some (decimalValue 0 s) else None
  end.

Fixpoint insertIndex (n : N) (k : string) (l : list (N * string))
  : list (N * string) :=
  match l with
  | [] => [(n, k)]
  | (m, k') :: l' =>
      if (n <? m)%N then (n, k) :: l else (m, k') :: insertIndex n k l'
  end.

Fixpoint indexKeys {V} (o : t V) : list (N * string) :=
  match o with
  | [] => []
  | (k, _) :: o' =>
      match arrayIndex k with
      | Some n => insertIndex n k (indexKeys o')
      | None => indexKeys o'
      end
  end.

Fixpoint stringKeys {V} (o : t V) : list string :=
  match o with
  | [] => []
  | (k, _) :: o' =>
      match arrayIndex k with
      | Some _ => stringKeys o'
      | None => k :: stringKeys o'
      end
  end.

(** [Object.keys(o)] *)
Definition keys {V} (o : t V) : list string :=
  map snd (indexKeys o) ++ stringKeys o.

Fixpoint collect {V} (o : t V) (ks : list string) : list V :=
  match ks with
  | [] => []
  | k :: ks' =>
      match get o k with
      | Some v => v :: collect o ks'
      | None => collect o ks'
      end
  end.

(** [Object.values(o)] *)
Definition values {V} (o : t V) : list V := collect o (keys o).

(** [isEmpty(o)] of utils/collection *)
Definition isEmpty {V} (o : t V) : bool :=
  match o with [] => true | _ => false end.

(** The members of [Object.prototype]: an object created as [{}] answers
    to their names without having them as own properties. *)
Definition inheritedNames : list string :=
  ["constructor"; "hasOwnProperty"; "isPrototypeOf"; "propertyIsEnumerable";
   "toLocaleString"; "toString"; "valueOf"; "__proto__";
   "__defineGetter__"; "__defineSetter__"; "__lookupGetter__";
   "__lookupSetter__"].

Definition inherited (k : string) : bool :=
  existsb (String.eqb k) inheritedNames.

(** What [o[k]] finds: an own property, or the member of
    [Object.prototype] of that name, which is a function or an object
    and no array, or [undefined]. *)
Inductive Property (V : Type) :=
| Own (v : V)
| Inherited
| Undefined.
Arguments Inherited {V}.
Arguments Undefined {V}.

Definition lookup {V} (o : t V) (k : string) : Property V :=
  match get o k with
  | Some v => Own v
  | None => if inherited k then Inherited else Undefined
  end.

End JsObject.

(** ** Key event bitmaps *)

(** const/KeyEventBitmapIndex: keydown 0, keypress 1, keyup 2. *)
Inductive KeyEventBitmapIndex := keydown | keypress | keyup.

Definition KeyEventBitmapIndex_eqb (a b : KeyEventBitmapIndex) : bool :=
  match a, b with
  | keydown, keydown | keypress, keypress | keyup, keyup => true
  | _, _ => false
  end.

(** A bitmap is the array of three booleans [[keydown, keypress, keyup]]. *)
Record KeyEventBitmap := mkBitmap {
  keydownBit : bool;
  keypressBit : bool;
  keyupBit : bool
}.

Definition bit (b : KeyEventBitmap) (i : KeyEventBitmapIndex) : bool :=
  match i with
  | keydown => keydownBit b
  | keypress => keypressBit b
  | keyup => keyupBit b
  end.

Module KeyEventBitmapManager.

(** Modelled from the spec: [KeyEventBitmapManager.setBit] is defined
    outside the two modules; it sets one flag of the 3-bit flag set. *)
Definition setBit (b : KeyEventBitmap) (i : KeyEventBitmapIndex)
  : KeyEventBitmap :=
  match i with
  | keydown => mkBitmap true (keypressBit b) (keyupBit b)
  | keypress => mkBitmap (keydownBit b) true (keyupBit b)
  | keyup => mkBitmap (keydownBit b) (keypressBit b) true
  end.

(** Modelled from the spec: [KeyEventBitmapManager.clone] is defined
    outside the two modules; the current bitset is rotated into the
    previous one unchanged. *)
Definition clone (b : KeyEventBitmap) : KeyEventBitmap :=
  mkBitmap (keydownBit b) (keypressBit b) (keyupBit b).

End KeyEventBitmapManager.

(** ** Data model *)

(** [[previous, current]], indexed by const/KeyEventSequenceIndex. *)
Record KeyState := mkKeyState {
  previous : KeyEventBitmap;
  current : KeyEventBitmap
}.

Record KeyCombinationRecord := mkCombination {
  keys : JsObject.t KeyState;
  ids : list string
}.

Definition Handler := nat.

Record KeyboardEvent := mkEvent {
  key : string;
  detail : nat
}.

Record Options := mkOptions {
  ignoreEventsCondition : KeyboardEvent -> bool
}.

(** ActionConfiguration: one parsed key sequence of an action. *)
Record ActionConfiguration := mkMatcher {
  prefix : string;
  actionName : string;
  sequenceLength : nat;
  id : string;
  keyDictionary : JsObject.t bool;
  size : nat;
  eventBitmapIndex : KeyEventBitmapIndex
}.

Record ComponentOptions := mkComponent {
  actions : JsObject.t (list ActionConfiguration);
  handlers : JsObject.t Handler;
  componentId : nat;
  options : Options
}.

(** *** Resolved key maps *)

(** The entry of [events] bound to one event kind. *)
Record EventBinding := mkBinding {
  bindingActionName : string;
  bindingEventBitmapIndex : KeyEventBitmapIndex;
  handler : option Handler
}.

Definition Events := list (KeyEventBitmapIndex * EventBinding).

Fixpoint getEvent (es : Events) (i : KeyEventBitmapIndex)
  : option EventBinding :=
  match es with
  | [] => None
  | (j, b) :: es' => if KeyEventBitmapIndex_eqb i j then Some b else getEvent es' i
  end.

Fixpoint setEvent (es : Events) (i : KeyEventBitmapIndex) (b : EventBinding)
  : Events :=
  match es with
  | [] => [(i, b)]
  | (j, b') :: es' =>
      if KeyEventBitmapIndex_eqb i j then (j, b) :: es'
      else (j, b') :: setEvent es' i b
  end.

(** A combination registered under a sequence prefix. *)
Record CombinationMatcher := mkCombinationMatcher {
  matcherPrefix : string;
  matcherSequenceLength : nat;
  matcherId : string;
  matcherKeyDictionary : JsObject.t bool;
  matcherSize : nat;
  events : Events
}.

(** [keyMap.sequences[prefix]]: [order] is [None] until it is computed. *)
Record SequenceGroup := mkGroup {
  combinations : JsObject.t CombinationMatcher;
  order : option (list string)
}.

(** One element of [this.keyMaps]; a field that was never assigned is
    [None]. *)
Record KeyMap := mkKeyMap {
  sequences : option (JsObject.t SequenceGroup);
  eventBitmap : option KeyEventBitmap;
  keyMapLongestSequence : option nat
}.

(** *** The strategy object *)

Record RegisteredKeyMapsState := mkRegistered {
  componentList : list ComponentOptions;
  longestSequence : nat;
  longestSequenceComponentIndex : option nat;
  keyMapEventBitmap : KeyEventBitmap
}.

Record HandlerResolutionState := mkResolution {
  keyMaps : option (list KeyMap);
  searchIndex : nat;
  unmatchedHandlerStatus : option (list (Z * JsObject.t bool));
  handlersDictionary : JsObject.t (list nat);
  keySequencesDictionary : JsObject.t (list (nat * KeyEventBitmapIndex))
}.

(** An entry of [keypressEventsToSimulate]. *)
Record SimulatedKeypress := mkSimulated {
  simEvent : KeyboardEvent;
  simFocusTreeId : nat;
  simComponentId : nat;
  simOptions : Options
}.

Record KeyCombinationState := mkCombinations {
  keyCombinationIncludesKeyUp : bool;
  keypressEventsToSimulate : list SimulatedKeypress;
  keyCombinationHistory : list KeyCombinationRecord
}.

Record EventPropagationState := mkPropagation {
  previousComponentIndex : nat;
  actionHandled : bool;
  ignoreEvent : bool
}.

Record CurrentEvent := mkCurrentEvent {
  currentKey : option string;
  currentType : option KeyEventBitmapIndex;
  handled : bool
}.

(** A call of a callback supplied by the host. *)
Inductive Effect :=
| HandlerCalled (h : Handler) (e : KeyboardEvent)
| IgnoreEventsConditionCalled (e : KeyboardEvent).

Record Strategy := mkStrategy {
  registered : RegisteredKeyMapsState;
  resolution : HandlerResolutionState;
  combinationState : KeyCombinationState;
  eventPropagationState : EventPropagationState;
  focusTreeId : nat;
  currentEvent : CurrentEvent;
  componentIdCounter : nat;
  resetOnNextFocus : bool;
  keyEventCounter : nat;
  effects : list Effect
}.

Definition withResolution (s : Strategy) (r : HandlerResolutionState) :=
  mkStrategy (registered s) r (combinationState s) (eventPropagationState s)
    (focusTreeId s) (currentEvent s) (componentIdCounter s)
    (resetOnNextFocus s) (keyEventCounter s) (effects s).

Definition withCombinationState (s : Strategy) (c : KeyCombinationState) :=
  mkStrategy (registered s) (resolution s) c (eventPropagationState s)
    (focusTreeId s) (currentEvent s) (componentIdCounter s)
    (resetOnNextFocus s) (keyEventCounter s) (effects s).

Definition withPropagation (s : Strategy) (p : EventPropagationState) :=
  mkStrategy (registered s) (resolution s) (combinationState s) p
    (focusTreeId s) (currentEvent s) (componentIdCounter s)
    (resetOnNextFocus s) (keyEventCounter s) (effects s).

Definition withCurrentEvent (s : Strategy) (c : CurrentEvent) (counter : nat) :=
  mkStrategy (registered s) (resolution s) (combinationState s)
    (eventPropagationState s) (focusTreeId s) c (componentIdCounter s)
    (resetOnNextFocus s) counter (effects s).

Definition withEffect (s : Strategy) (e : Effect) :=
  mkStrategy (registered s) (resolution s) (combinationState s)
    (eventPropagationState s) (focusTreeId s) (currentEvent s)
    (componentIdCounter s) (resetOnNextFocus s) (keyEventCounter s)
    (e :: effects s).

Definition history (s : Strategy) : list KeyCombinationRecord :=
  keyCombinationHistory (combinationState s).

Definition withHistory (s : Strategy) (h : list KeyCombinationRecord) :=
  withCombinationState s
    (mkCombinations (keyCombinationIncludesKeyUp (combinationState s))
       (keypressEventsToSimulate (combinationState s)) h).

Definition withIncludesKeyUp (s : Strategy) (b : bool) :=
  withCombinationState s
    (mkCombinations b (keypressEventsToSimulate (combinationState s))
       (keyCombinationHistory (combinationState s))).

Definition withKeypressEventsToSimulate (s : Strategy)
  (q : list SimulatedKeypress) :=
  withCombinationState s
    (mkCombinations (keyCombinationIncludesKeyUp (combinationState s)) q
       (keyCombinationHistory (combinationState s))).

(** The result of a method: it returns a value, or a [TypeError] leaves it
    early; both carry the state as it was left. *)
Inductive Outcome (S A : Type) :=
| Returned (a : A) (s : S)
| Threw (s : S).
Arguments Returned {S A} a s.
Arguments Threw {S A} s.

Definition finalState {S A} (o : Outcome S A) : S :=
  match o with Returned _ s => s | Threw s => s end.

Definition bind {S A B} (o : Outcome S A) (f : A -> S -> Outcome S B)
  : Outcome S B :=
  match o with
  | Returned a s => f a s
  | Threw s => Threw s
  end.

(** [array[n] = x] for [n] within the array. *)
Fixpoint updateNth {A} (l : list A) (n : nat) (x : A) : list A :=
  match l, n with
  | [], _ => []
  | _ :: l', O => x :: l'
  | y :: l', S n' => y :: updateNth l' n' x
  end.

(** [array.slice(start, end)] *)
Definition slice {A} (l : list A) (start finish : Z) : list A :=
  let len := Z.of_nat (List.length l) in
  let k := if (start <? 0)%Z then Z.max (len + start) 0 else Z.min start len in
  let final := if (finish <? 0)%Z then Z.max (len + finish) 0 else Z.min finish len in
  firstn (Z.to_nat (final - k)) (skipn (Z.to_nat k) l).

(** [array.join(' ')] *)
Fixpoint join (l : list string) : string :=
  match l with
  | [] => EmptyString
  | [x] => x
  | x :: l' => (x ++ " " ++ join l')%string
  end.

(** A string is truthy when it is not empty. *)
Definition truthy (s : string) : bool := negb (String.eqb s EmptyString).

(** ** Collaborators *)

(** The functions the two modules import from the rest of the library. *)
Record Collaborators := mkCollaborators {
  (** helpers/resolving-handlers/normalizeKeyName *)
  normalizeKeyName : string -> string;
  (** helpers/resolving-handlers/hasKeyPressEvent *)
  hasKeyPressEvent : string -> bool;
  (** Configuration.option('simulateMissingKeyPressEvents') *)
  simulateMissingKeyPressEvents : bool;
  (** KeyCombinationSerializer.serialize *)
  serialize : JsObject.t KeyState -> list string;
  (** KeyEventBitmapManager.newBitmap, with or without an index *)
  newBitmap : option KeyEventBitmapIndex -> KeyEventBitmap;
  (** helpers/resolving-handlers/resolve...Alias *)
  resolveKeyAlias : string -> list string;
  resolveShiftedAlias : string -> list string;
  resolveAltedAlias : string -> list string;
  resolveAltShiftedAlias : string -> list string
}.

(** A fresh object with the own properties of [o], as [{...o}] builds it. *)
Definition spread {V} (o : JsObject.t V) : JsObject.t V :=
  fold_left
    (fun memo k =>
       match JsObject.get o k with
       | Some v => JsObject.set memo k v
       | None => memo
       end)
    (JsObject.keys o) JsObject.empty.

(** [array[array.length - 1] = x] on a non-empty array. *)
Definition replaceLast {A} (l : list A) (x : A) : list A := removelast l ++ [x].

Section Strategy.

Variable env : Collaborators.

(** ** AbstractKeyEventStrategy: recording key events *)

Definition emptyKeyCombination : KeyCombinationRecord :=
  mkCombination JsObject.empty [EmptyString].

Definition _getCurrentKeyCombination (s : Strategy) : KeyCombinationRecord :=
  if (0 <? List.length (history s))%nat
  then last (history s) emptyKeyCombination
  else emptyKeyCombination.

(** The state of a key on its first event in a combination. *)
Definition newKeyState (bitmapIndex : KeyEventBitmapIndex) : KeyState :=
  mkKeyState (newBitmap env None) (newBitmap env (Some bitmapIndex)).

Definition _addToCurrentKeyCombination (s : Strategy) (keyName : string)
  (bitmapIndex : KeyEventBitmapIndex) : Strategy :=
  let s1 :=
    if (List.length (history s) =? 0)%nat
    then withHistory s (history s ++ [emptyKeyCombination])
    else s in
  let keyCombination := _getCurrentKeyCombination s1 in
  let existingBitmap := JsObject.get (keys keyCombination) keyName in
  let keys' :=
    match existingBitmap with
    | None => JsObject.set (keys keyCombination) keyName (newKeyState bitmapIndex)
    | Some existing =>
        JsObject.set (keys keyCombination) keyName
          (mkKeyState (KeyEventBitmapManager.clone (current existing))
             (newBitmap env (Some bitmapIndex)))
    end in
  withHistory s1
    (replaceLast (history s1) (mkCombination keys' (serialize env keys'))).

Definition _withoutKeyUps (keyCombinationRecord : KeyCombinationRecord)
  : JsObject.t KeyState :=
  fold_left
    (fun memo keyName =>
       match JsObject.get (keys keyCombinationRecord) keyName with
       | Some keyState =>
           if negb (bit (current keyState) keyup)
           then JsObject.set memo keyName keyState
           else memo
       | None => memo
       end)
    (JsObject.keys (keys keyCombinationRecord)) JsObject.empty.

Definition _startNewKeyCombination (s : Strategy) (keyName : string)
  (eventBitmapIndex : KeyEventBitmapIndex) : Strategy :=
  let s1 :=
    if (longestSequence (registered s) <? List.length (history s))%nat
    then withHistory s (tl (history s))
    else s in
  let lastKeyCombination := _getCurrentKeyCombination s1 in
  let keys' :=
    JsObject.set (spread (_withoutKeyUps lastKeyCombination)) keyName
      (newKeyState eventBitmapIndex) in
  let s2 :=
    withHistory s1 (history s1 ++ [mkCombination keys' (serialize env keys')]) in
  withIncludesKeyUp s2 false.

(** ** FocusOnlyKeyEventStrategy: the event propagation state *)

Definition _clearEventPropagationState (s : Strategy) : Strategy :=
  withPropagation s (mkPropagation 0 false false).

Definition _alreadyEstablishedShouldIgnoreEvent (s : Strategy) : bool :=
  ignoreEvent (eventPropagationState s).

Definition _isNewKeyEvent (s : Strategy) (componentId : nat) : bool :=
  (componentId <=? previousComponentIndex (eventPropagationState s))%nat.

(** [componentId >= this.componentList.length - 1], on JavaScript numbers:
    the right-hand side is -1 for an empty list. *)
Definition _isFocusTreeRoot (s : Strategy) (componentId : nat) : bool :=
  (Z.of_nat (List.length (componentList (registered s))) - 1 <=? Z.of_nat componentId)%Z.

Definition _updateEventPropagationHistory (s : Strategy) (componentId : nat)
  : Strategy :=
  if _isFocusTreeRoot s componentId
  then _clearEventPropagationState s
  else
    withPropagation s
      (mkPropagation componentId
         (actionHandled (eventPropagationState s))
         (ignoreEvent (eventPropagationState s))).

Definition _setIgnoreEventFlag (s : Strategy) (event : KeyboardEvent)
  (options : Options) : Strategy :=
  let s1 := withEffect s (IgnoreEventsConditionCalled event) in
  withPropagation s1
    (mkPropagation (previousComponentIndex (eventPropagationState s1))
       (actionHandled (eventPropagationState s1))
       (ignoreEventsCondition options event)).

Definition _setNewEventParameters (s : Strategy) (event : KeyboardEvent)
  (type : KeyEventBitmapIndex) : Strategy :=
  withCurrentEvent s (mkCurrentEvent (Some (key event)) (Some type) false)
    (S (keyEventCounter s)).

(** ** AbstractKeyEventStrategy: resolving handlers *)

Definition emptyKeyMap : KeyMap := mkKeyMap None None None.

(** Lines 493-502: the resolution state is allocated on first use. *)
Definition initResolution (cl : list ComponentOptions)
  (r : HandlerResolutionState) : HandlerResolutionState :=
  match keyMaps r, unmatchedHandlerStatus r with
  | Some _, Some _ => r
  | _, _ =>
      mkResolution
        (Some (map (fun _ => emptyKeyMap) cl))
        (searchIndex r)
        (Some (map (fun c =>
                      (Z.of_nat (List.length (JsObject.keys (handlers c))),
                       JsObject.empty (V := bool))) cl))
        (handlersDictionary r)
        (keySequencesDictionary r)
  end.

(** Lines 526-532: the handlers of the component at [searchIndex].  For a
    handler named after a member of [Object.prototype] the dictionary
    answers with that member: no list is created, and [push] is not a
    function of what is found. *)
Fixpoint recordHandlers (index : nat) (names : list string)
  (dict : JsObject.t (list nat)) : Outcome (JsObject.t (list nat)) unit :=
  match names with
  | [] => Returned tt dict
  | actionName :: names' =>
      let dict1 :=
        match JsObject.lookup dict actionName with
        | JsObject.Undefined => JsObject.set dict actionName []
        | _ => dict
        end in
      match JsObject.lookup dict1 actionName with
      | JsObject.Own l =>
          recordHandlers index names'
            (JsObject.set dict1 actionName (l ++ [index]))
      | _ => Threw dict1
      end
  end.

Definition sequencesOf (keyMap : KeyMap) : JsObject.t SequenceGroup :=
  match sequences keyMap with Some q => q | None => JsObject.empty end.

Definition isFalsyLength (n : option nat) : bool :=
  match n with None | Some O => true | Some (S _) => false end.

(** Lines 571-653: one key matcher of an action, bound in the key map of
    the component [handlerComponentIndex] that owns the handler. *)
Definition bindKeyMatcher (handlerComponentIndex : nat)
  (h : option Handler)
  (st : KeyMap * JsObject.t (list (nat * KeyEventBitmapIndex)))
  (keyMatcher : ActionConfiguration)
  : KeyMap * JsObject.t (list (nat * KeyEventBitmapIndex)) :=
  let (keyMap, dict) := st in
  let keySequence := join [prefix keyMatcher; id keyMatcher] in
  let closestSequenceHandlerAlreadyFound :=
    match JsObject.get dict keySequence with
    | Some entries =>
        existsb (fun dictEntry =>
                   KeyEventBitmapIndex_eqb (snd dictEntry)
                     (eventBitmapIndex keyMatcher)) entries
    | None => false
    end in
  if closestSequenceHandlerAlreadyFound then st
  else
    let seqs := sequencesOf keyMap in
    let group :=
      match JsObject.get seqs (prefix keyMatcher) with
      | Some g => g
      | None => mkGroup JsObject.empty None
      end in
    let binding :=
      mkBinding (actionName keyMatcher) (eventBitmapIndex keyMatcher) h in
    let combination' :=
      match JsObject.get (combinations group) (id keyMatcher) with
      | None =>
          mkCombinationMatcher (prefix keyMatcher) (sequenceLength keyMatcher)
            (id keyMatcher) (keyDictionary keyMatcher) (size keyMatcher)
            [(eventBitmapIndex keyMatcher, binding)]
      | Some combination =>
          mkCombinationMatcher (matcherPrefix combination)
            (matcherSequenceLength combination) (matcherId combination)
            (matcherKeyDictionary combination) (matcherSize combination)
            (setEvent (events combination) (eventBitmapIndex keyMatcher) binding)
      end in
    let group' :=
      mkGroup (JsObject.set (combinations group) (id keyMatcher) combination')
        (order group) in
    let seqs' := JsObject.set seqs (prefix keyMatcher) group' in
    let eventBitmap' :=
      KeyEventBitmapManager.setBit
        (match eventBitmap keyMap with
         | Some b => b
         | None => newBitmap env None
         end)
        (eventBitmapIndex keyMatcher) in
    let longest' :=
      if isFalsyLength (keyMapLongestSequence keyMap)
         || (match keyMapLongestSequence keyMap with
             | Some n => (n <? sequenceLength keyMatcher)%nat
             | None => false
             end)
      then Some (sequenceLength keyMatcher)
      else keyMapLongestSequence keyMap in
    let entries :=
      match JsObject.get dict keySequence with Some l => l | None => [] end in
    (mkKeyMap (Some seqs') (Some eventBitmap') longest',
     JsObject.set dict keySequence
       (entries ++ [(handlerComponentIndex, eventBitmapIndex keyMatcher)])).

(** Lines 655-669: every component that defines a handler for the action
    has it counted as matched, once. *)
Fixpoint markHandlersMatched (actionName : string) (indexes : list nat)
  (r : HandlerResolutionState) : Outcome HandlerResolutionState unit :=
  match indexes with
  | [] => Returned tt r
  | handlerComponentIndex :: indexes' =>
      match unmatchedHandlerStatus r with
      | None => Threw r
      | Some statuses =>
          match nth_error statuses handlerComponentIndex with
          | None => Threw r
          | Some (count, matched) =>
              let r' :=
                match JsObject.lookup matched actionName with
                | JsObject.Own true | JsObject.Inherited => r
                | _ =>
                    mkResolution (keyMaps r) (searchIndex r)
                      (Some (updateNth statuses handlerComponentIndex
                               ((count - 1)%Z,
                                JsObject.set matched actionName true)))
                      (handlersDictionary r) (keySequencesDictionary r)
                end in
              markHandlersMatched actionName indexes' r'
          end
      end
  end.

(** Lines 539-671: one action of the component at [searchIndex].  What
    the dictionary inherits under the name of the action has no element
    0, so that no component is found to read the handler from. *)
Definition resolveAction (cl : list ComponentOptions)
  (actions : JsObject.t (list ActionConfiguration)) (actionName : string)
  (r : HandlerResolutionState) : Outcome HandlerResolutionState unit :=
  match JsObject.lookup (handlersDictionary r) actionName with
  | JsObject.Undefined => Returned tt r
  | JsObject.Inherited => Threw r
  | JsObject.Own handlerComponentIndexArray =>
      match handlerComponentIndexArray with
      | [] => Threw r
      | handlerComponentIndex :: _ =>
          match nth_error cl handlerComponentIndex with
          | None => Threw r
          | Some component =>
              let h := JsObject.get (handlers component) actionName in
              match keyMaps r with
              | None => Threw r
              | Some maps =>
                  match nth_error maps handlerComponentIndex with
                  | None => Threw r
                  | Some keyMap =>
                      let keyMap1 :=
                        mkKeyMap (Some (sequencesOf keyMap))
                          (eventBitmap keyMap) (keyMapLongestSequence keyMap) in
                      let keyMatchers :=
                        match JsObject.get actions actionName with
                        | Some l => l
                        | None => []
                        end in
                      let (keyMap2, dict) :=
                        fold_left (bindKeyMatcher handlerComponentIndex h)
                          keyMatchers (keyMap1, keySequencesDictionary r) in
                      markHandlersMatched actionName handlerComponentIndexArray
                        (mkResolution
                           (Some (updateNth maps handlerComponentIndex keyMap2))
                           (searchIndex r) (unmatchedHandlerStatus r)
                           (handlersDictionary r) dict)
                  end
              end
          end
      end
  end.

Fixpoint resolveActions (cl : list ComponentOptions)
  (actions : JsObject.t (list ActionConfiguration)) (names : list string)
  (r : HandlerResolutionState) : Outcome HandlerResolutionState unit :=
  match names with
  | [] => Returned tt r
  | actionName :: names' =>
      bind (resolveAction cl actions actionName r)
        (fun _ r' => resolveActions cl actions names' r')
  end.

(** Lines 519-678: the loop over the components from [searchIndex] on;
    [rest] is [componentList.slice(searchIndex)].  The loop condition
    tests the count read before the loop, which the body never updates,
    so the loop ends when [searchIndex] reaches the end of the list. *)
Fixpoint resolveComponents (cl rest : list ComponentOptions)
  (r : HandlerResolutionState) : Outcome HandlerResolutionState unit :=
  match rest with
  | [] => Returned tt r
  | component :: rest' =>
      let recorded (dict : JsObject.t (list nat)) :=
        mkResolution (keyMaps r) (searchIndex r) (unmatchedHandlerStatus r)
          dict (keySequencesDictionary r) in
      match recordHandlers (searchIndex r) (JsObject.keys (handlers component))
              (handlersDictionary r) with
      | Threw dict => Threw (recorded dict)
      | Returned _ dict =>
          bind (resolveActions cl (actions component)
                  (JsObject.keys (actions component)) (recorded dict))
            (fun _ r2 =>
               resolveComponents cl rest'
                 (mkResolution (keyMaps r2) (S (searchIndex r2))
                    (unmatchedHandlerStatus r2) (handlersDictionary r2)
                    (keySequencesDictionary r2)))
      end
  end.

(** Lines 493-679: the key maps are extended as far as the component that
    handles the event needs. *)
Definition resolveHandlers (cl : list ComponentOptions) (componentId : nat)
  (r : HandlerResolutionState) : Outcome HandlerResolutionState unit :=
  let r0 := initResolution cl r in
  match unmatchedHandlerStatus r0 with
  | None => Threw r0
  | Some statuses =>
      match nth_error statuses componentId with
      | None => Threw r0
      | Some (unmatchedHandlersCount, _) =>
          if (0 <? unmatchedHandlersCount)%Z then
            let r1 :=
              if (searchIndex r0 <? componentId)%nat
              then mkResolution (keyMaps r0) componentId
                     (unmatchedHandlerStatus r0) (handlersDictionary r0)
                     (keySequencesDictionary r0)
              else r0 in
            resolveComponents cl (skipn (searchIndex r1) cl) r1
          else Returned tt r0
      end
  end.

(** ** AbstractKeyEventStrategy: matching sequences *)

(** Lines 785-802, on the counters and sizes read from the end: the last
    counter is incremented modulo its size and the carry moves towards the
    front; the boolean tells that every counter wrapped around. *)
Fixpoint incrementCounters (sizesFromEnd countersFromEnd : list nat)
  : list nat * bool :=
  match countersFromEnd with
  | [] => ([], true)
  | count :: rest =>
      let idSize := hd 0 sizesFromEnd in
      let newIndex := (count + 1) mod (if (idSize =? 0)%nat then 1 else idSize) in
      if (newIndex =? 0)%nat then
        let (rest', triedAll) := incrementCounters (tl sizesFromEnd) rest in
        (newIndex :: rest', triedAll)
      else (newIndex :: rest, false)
  end.

Definition sequenceIdPermutation (sequenceIds : list (list string))
  (indexCounters : list nat) : list string :=
  map (fun p => nth (snd p) (fst p) EmptyString) (combine sequenceIds indexCounters).

(** The number of index permutations of [sequenceIds]. *)
Definition permutationCount (sequenceIds : list (list string)) : nat :=
  fold_right (fun l n => Nat.max 1 (List.length l) * n) 1 sequenceIds.

(** Lines 774-803: the loop over the permutations; [fuel] bounds the
    number of candidates tried. *)
Fixpoint tryPermutations (fuel : nat) (keyMatcher : JsObject.t SequenceGroup)
  (sequenceIds : list (list string)) (countersFromEnd : list nat)
  : option (string * SequenceGroup) :=
  match fuel with
  | O => None
  | S fuel' =>
      let candidateId :=
        join (sequenceIdPermutation sequenceIds (rev countersFromEnd)) in
      match JsObject.get keyMatcher candidateId with
      | Some group => Some (candidateId, group)
      | None =>
          let (counters', triedAllPossiblePermutations) :=
            incrementCounters (rev (map (@List.length string) sequenceIds))
              countersFromEnd in
          if triedAllPossiblePermutations then None
          else tryPermutations fuel' keyMatcher sequenceIds counters'
      end
  end.

(** The sequence group found, with the key it is registered under. *)
Definition _tryMatchSequenceWithKeyAliases
  (keyMatcher : JsObject.t SequenceGroup) (sequenceIds : list (list string))
  : option (string * SequenceGroup) :=
  if (List.length sequenceIds =? 0)%nat then
    match JsObject.get keyMatcher EmptyString with
    | Some group => Some (EmptyString, group)
    | None => None
    end
  else
    tryPermutations (permutationCount sequenceIds) keyMatcher sequenceIds
      (map (fun _ => 0) sequenceIds).

Definition _tryMatchWithKeyAliases (keyState : KeyCombinationRecord)
  (candidateKeyName : string) : option string :=
  let candidateKeyNames :=
    if JsObject.has (keys keyState) "Shift" then
      if JsObject.has (keys keyState) "Alt"
      then resolveAltShiftedAlias env candidateKeyName
      else resolveShiftedAlias env candidateKeyName
    else
      if JsObject.has (keys keyState) "Alt"
      then resolveAltedAlias env candidateKeyName
      else resolveKeyAlias env candidateKeyName in
  find (fun keyName => JsObject.has (keys keyState) keyName) candidateKeyNames.

Definition _keyNameAsItAppearsInKeyboardState (s : Strategy)
  (keyName : string) : option string :=
  let keyboardState := _getCurrentKeyCombination s in
  if JsObject.has (keys keyboardState) keyName then Some keyName
  else _tryMatchWithKeyAliases keyboardState keyName.

Definition _keyIsCurrentlyTriggeringEvent (keyState : KeyState)
  (eventBitmapIndex : KeyEventBitmapIndex) : bool :=
  bit (current keyState) eventBitmapIndex.

Definition _keyAlreadyTriggeredEvent (keyState : KeyState)
  (eventBitmapIndex : KeyEventBitmapIndex) : bool :=
  bit (previous keyState) eventBitmapIndex.

(** Lines 816-836: the callback of [some] over the keys of the
    dictionary; the result is the value of [some] with the final
    [keyCompletesCombination], or [None] on a [TypeError]. *)
Fixpoint someKeyNotPressed (s : Strategy) (keyBeingPressed : string)
  (keyboardState : KeyCombinationRecord)
  (eventBitmapIndex : KeyEventBitmapIndex) (candidates : list string)
  (keyCompletesCombination : bool) : option (bool * bool) :=
  match candidates with
  | [] => Some (false, keyCompletesCombination)
  | candidateKeyName :: candidates' =>
      match _keyNameAsItAppearsInKeyboardState s candidateKeyName with
      | Some keyInKeyboardState =>
          if truthy keyInKeyboardState then
            match JsObject.get (keys keyboardState) keyInKeyboardState with
            | None => None
            | Some keyState =>
                if _keyIsCurrentlyTriggeringEvent keyState eventBitmapIndex then
                  someKeyNotPressed s keyBeingPressed keyboardState
                    eventBitmapIndex candidates'
                    (if truthy keyBeingPressed
                        && String.eqb keyInKeyboardState keyBeingPressed
                     then negb (_keyAlreadyTriggeredEvent keyState eventBitmapIndex)
                     else keyCompletesCombination)
                else Some (true, keyCompletesCombination)
            end
          else Some (true, keyCompletesCombination)
      | None => Some (true, keyCompletesCombination)
      end
  end.

Definition _combinationMatchesKeys (s : Strategy) (keyBeingPressed : string)
  (keyboardState : KeyCombinationRecord) (combinationMatch : CombinationMatcher)
  (eventBitmapIndex : KeyEventBitmapIndex) : option bool :=
  match getEvent (events combinationMatch) eventBitmapIndex with
  | None => Some false
  | Some _ =>
      match someKeyNotPressed s keyBeingPressed keyboardState eventBitmapIndex
              (JsObject.keys (matcherKeyDictionary combinationMatch)) false with
      | None => None
      | Some (someNotPressed, keyCompletesCombination) =>
          Some (negb someNotPressed && keyCompletesCombination)
      end
  end.

(** Lines 718-726: [memo[size].push(id)], the sizes in creation order. *)
Fixpoint addToPartition (memo : list (nat * list string)) (size : nat)
  (id : string) : list (nat * list string) :=
  match memo with
  | [] => [(size, [id])]
  | (size', l) :: memo' =>
      if (size' =? size)%nat then (size', l ++ [id]) :: memo'
      else (size', l) :: addToPartition memo' size id
  end.

Definition combinationsPartitionedBySize
  (combinations : JsObject.t CombinationMatcher) : list (nat * list string) :=
  fold_left (fun memo c => addToPartition memo (matcherSize c) (matcherId c))
    (JsObject.values combinations) [].

Fixpoint partitionGet (memo : list (nat * list string)) (size : nat)
  : list string :=
  match memo with
  | [] => []
  | (size', l) :: memo' =>
      if (size' =? size)%nat then l else partitionGet memo' size
  end.

Fixpoint insertDescending (n : nat) (l : list nat) : list nat :=
  match l with
  | [] => [n]
  | m :: l' => if (m <? n)%nat then n :: l else m :: insertDescending n l'
  end.

(** [sizes.sort((a, b) => b - a)]: the sizes are the distinct keys of the
    partition, so the comparator leaves one possible result. *)
Definition sortDescending (l : list nat) : list nat :=
  fold_right insertDescending [] l.

(** Line 728: the combination ids, the larger combinations first. *)
Definition combinationOrder (combinations : JsObject.t CombinationMatcher)
  : list string :=
  let partition := combinationsPartitionedBySize combinations in
  fold_left (fun memo size => memo ++ partitionGet partition size)
    (sortDescending (map fst partition)) [].

(** Lines 737-749: the combinations are tried in order and the handler of
    the first one that matches is called. *)
Fixpoint callFirstMatchingCombination (s : Strategy) (event : KeyboardEvent)
  (keyName : string) (eventBitmapIndex : KeyEventBitmapIndex)
  (currentKeyState : KeyCombinationRecord)
  (combinations : JsObject.t CombinationMatcher)
  (combinationOrder : list string) : Outcome Strategy bool :=
  match combinationOrder with
  | [] => Returned false s
  | combinationId :: rest =>
      match JsObject.get combinations combinationId with
      | None => Threw s
      | Some combinationMatcher =>
          match _combinationMatchesKeys s keyName currentKeyState
                  combinationMatcher eventBitmapIndex with
          | None => Threw s
          | Some true =>
              match getEvent (events combinationMatcher) eventBitmapIndex with
              | Some binding =>
                  match handler binding with
                  | Some h => Returned true (withEffect s (HandlerCalled h event))
                  | None => Threw s
                  end
              | None => Threw s
              end
          | Some false =>
              callFirstMatchingCombination s event keyName eventBitmapIndex
                currentKeyState combinations rest
          end
      end
  end.

(** [matchingSequence.order = order] in the key map of [componentId]. *)
Definition storeOrder (s : Strategy) (componentId : nat) (groupKey : string)
  (group : SequenceGroup) (order : list string) : Strategy :=
  match keyMaps (resolution s) with
  | Some maps =>
      match nth_error maps componentId with
      | Some keyMap =>
          withResolution s
            (mkResolution
               (Some (updateNth maps componentId
                        (mkKeyMap
                           (Some (JsObject.set (sequencesOf keyMap) groupKey
                                    (mkGroup (combinations group) (Some order))))
                           (eventBitmap keyMap) (keyMapLongestSequence keyMap))))
               (searchIndex (resolution s))
               (unmatchedHandlerStatus (resolution s))
               (handlersDictionary (resolution s))
               (keySequencesDictionary (resolution s)))
      | None => s
      end
  | None => s
  end.

Definition currentSequences (s : Strategy) (componentId : nat)
  : JsObject.t SequenceGroup :=
  match keyMaps (resolution s) with
  | Some maps =>
      match nth_error maps componentId with
      | Some keyMap => sequencesOf keyMap
      | None => JsObject.empty
      end
  | None => JsObject.empty
  end.

(** Lines 705-751: the body of the loop for one [sequenceLengthCounter]. *)
Definition matchSequenceOfLength (s : Strategy) (event : KeyboardEvent)
  (keyName : string) (eventBitmapIndex : KeyEventBitmapIndex)
  (componentId : nat) (currentKeyState : KeyCombinationRecord)
  (sequenceLengthCounter : nat) : Outcome Strategy bool :=
  let sequenceHistory :=
    slice (history s) (- Z.of_nat sequenceLengthCounter) (-1) in
  let sequenceHistoryIds := map ids sequenceHistory in
  match _tryMatchSequenceWithKeyAliases (currentSequences s componentId)
          sequenceHistoryIds with
  | None => Returned false s
  | Some (groupKey, matchingSequence) =>
      match order matchingSequence with
      | Some cachedOrder =>
          callFirstMatchingCombination s event keyName eventBitmapIndex
            currentKeyState (combinations matchingSequence) cachedOrder
      | None =>
          let computedOrder := combinationOrder (combinations matchingSequence) in
          callFirstMatchingCombination
            (storeOrder s componentId groupKey matchingSequence computedOrder)
            event keyName eventBitmapIndex
            currentKeyState (combinations matchingSequence) computedOrder
      end
  end.

(** Lines 704-754: [sequenceLengthCounter] counts down to 0 inclusive. *)
Fixpoint matchSequences (s : Strategy) (event : KeyboardEvent)
  (keyName : string) (eventBitmapIndex : KeyEventBitmapIndex)
  (componentId : nat) (currentKeyState : KeyCombinationRecord)
  (sequenceLengthCounter : nat) : Outcome Strategy bool :=
  bind (matchSequenceOfLength s event keyName eventBitmapIndex componentId
          currentKeyState sequenceLengthCounter)
    (fun handlerCalled s' =>
       if handlerCalled then Returned true s'
       else
         match sequenceLengthCounter with
         | O => Returned false s'
         | S counter' =>
             matchSequences s' event keyName eventBitmapIndex componentId
               currentKeyState counter'
         end).

(** Modelled from the spec: [isEmpty] of utils/collection is defined
    outside the two modules; a scope without resolved sequences (the
    property was never assigned, or holds no sequence) has no match. *)
Definition isEmpty (sequences : option (JsObject.t SequenceGroup)) : bool :=
  match sequences with
  | None => true
  | Some q => JsObject.isEmpty q
  end.

Definition _callMatchingHandlerClosestToEventTarget (s : Strategy)
  (event : KeyboardEvent) (keyName : string)
  (eventBitmapIndex : KeyEventBitmapIndex) (componentId : nat)
  : Outcome Strategy bool :=
  match resolveHandlers (componentList (registered s)) componentId
          (resolution s) with
  | Threw r => Threw (withResolution s r)
  | Returned _ r =>
      let s1 := withResolution s r in
      match keyMaps r with
      | None => Threw s1
      | Some maps =>
          match nth_error maps componentId with
          | None => Returned false s1
          | Some keyMap =>
              if isEmpty (sequences keyMap) then Returned false s1
              else
                match eventBitmap keyMap with
                | None => Threw s1
                | Some bitmap =>
                    if negb (bit bitmap eventBitmapIndex) then Returned false s1
                    else
                      match keyMapLongestSequence keyMap with
                      | None => Returned false s1
                      | Some longestSequence =>
                          matchSequences s1 event keyName eventBitmapIndex
                            componentId (_getCurrentKeyCombination s1)
                            longestSequence
                      end
                end
          end
      end
  end.

(** ** FocusOnlyKeyEventStrategy: calling handlers *)

Definition _callHandlerIfActionNotHandled (s : Strategy)
  (event : KeyboardEvent) (keyName : string)
  (eventBitmapIndex : KeyEventBitmapIndex) (componentId : nat)
  : Outcome Strategy unit :=
  if bit (keyMapEventBitmap (registered s)) eventBitmapIndex then
    if actionHandled (eventPropagationState s) then Returned tt s
    else
      bind (_callMatchingHandlerClosestToEventTarget s event keyName
              eventBitmapIndex componentId)
        (fun handlerWasCalled s' =>
           if handlerWasCalled then
             let s1 :=
               withPropagation s'
                 (mkPropagation
                    (previousComponentIndex (eventPropagationState s'))
                    true
                    (ignoreEvent (eventPropagationState s'))) in
             Returned tt
               (withCurrentEvent s1
                  (mkCurrentEvent (currentKey (currentEvent s1))
                     (currentType (currentEvent s1)) true)
                  (keyEventCounter s1))
           else Returned tt s')
  else Returned tt s.

(** ** FocusOnlyKeyEventStrategy: recording key events *)

(** The first sighting of an event: [_setNewEventParameters] and
    [_setIgnoreEventFlag]. *)
Definition firstSighting (s : Strategy) (event : KeyboardEvent)
  (type : KeyEventBitmapIndex) (options : Options) : Strategy :=
  _setIgnoreEventFlag (_setNewEventParameters s event type) event options.

(** Lines 281-295 of [handleKeydown]. *)
Definition keydownStartsNewCombination (s : Strategy) (_key : string) : bool :=
  let keyInCurrentCombination :=
    JsObject.has (keys (_getCurrentKeyCombination s)) _key in
  keyInCurrentCombination || keyCombinationIncludesKeyUp (combinationState s).

Definition recordKeydown (s : Strategy) (_key : string) : Strategy :=
  if keydownStartsNewCombination s _key
  then _startNewKeyCombination s _key keydown
  else _addToCurrentKeyCombination s _key keydown.

(** Lines 399-410 of [handleKeypress]. *)
Definition keypressStartsNewCombination (s : Strategy) (_key : string) : bool :=
  match JsObject.get (keys (_getCurrentKeyCombination s)) _key with
  | Some keyCombination =>
      bit (current keyCombination) keypress || bit (current keyCombination) keyup
  | None => false
  end.

Definition recordKeypress (s : Strategy) (_key : string) : Strategy :=
  if keypressStartsNewCombination s _key
  then _startNewKeyCombination s _key keypress
  else _addToCurrentKeyCombination s _key keypress.

(** Lines 482-496 of [handleKeyup]. *)
Definition keyupStartsNewCombination (s : Strategy) (_key : string) : bool :=
  match JsObject.get (keys (_getCurrentKeyCombination s)) _key with
  | Some keyCombination => bit (current keyCombination) keyup
  | None => false
  end.

Definition recordKeyup (s : Strategy) (_key : string) : Strategy :=
  if keyupStartsNewCombination s _key
  then _startNewKeyCombination s _key keyup
  else withIncludesKeyUp (_addToCurrentKeyCombination s _key keyup) true.

(** The value a handler of key events returns: [Some b] for a boolean,
    [None] for [undefined]. *)
Definition ReturnValue := option bool.

Definition handleKeypress (s : Strategy) (event : KeyboardEvent)
  (focusTreeId' componentId : nat) (options : Options)
  : Outcome Strategy ReturnValue :=
  let _key := normalizeKeyName env (key event) in
  if negb (focusTreeId' =? focusTreeId s)%nat then Returned (Some true) s
  else if _alreadyEstablishedShouldIgnoreEvent s then
    Returned None (_updateEventPropagationHistory s componentId)
  else
    let callHandler (s1 : Strategy) :=
      bind (_callHandlerIfActionNotHandled s1 event _key keypress componentId)
        (fun _ s2 => Returned None (_updateEventPropagationHistory s2 componentId)) in
    if _isNewKeyEvent s componentId then
      let s1 := firstSighting s event keypress options in
      if _alreadyEstablishedShouldIgnoreEvent s1 then
        Returned None (_updateEventPropagationHistory s1 componentId)
      else callHandler (recordKeypress s1 _key)
    else callHandler s.

Definition handleKeyup (s : Strategy) (event : KeyboardEvent)
  (focusTreeId' componentId : nat) (options : Options)
  : Outcome Strategy ReturnValue :=
  let _key := normalizeKeyName env (key event) in
  if negb (focusTreeId' =? focusTreeId s)%nat then Returned (Some true) s
  else if _alreadyEstablishedShouldIgnoreEvent s then
    Returned None (_updateEventPropagationHistory s componentId)
  else
    let callHandler (s1 : Strategy) :=
      bind (_callHandlerIfActionNotHandled s1 event _key keyup componentId)
        (fun _ s2 => Returned None (_updateEventPropagationHistory s2 componentId)) in
    if _isNewKeyEvent s componentId then
      let s1 := firstSighting s event keyup options in
      if _alreadyEstablishedShouldIgnoreEvent s1 then
        Returned None (_updateEventPropagationHistory s1 componentId)
      else callHandler (recordKeyup s1 _key)
    else callHandler s.

(** Lines 317-323 of [handleKeydown]: the queued keypress events are
    replayed in order. *)
Fixpoint simulateKeypressEvents (s : Strategy) (queue : list SimulatedKeypress)
  : Outcome Strategy unit :=
  match queue with
  | [] => Returned tt s
  | q :: queue' =>
      bind (handleKeypress s (simEvent q) (simFocusTreeId q)
              (simComponentId q) (simOptions q))
        (fun _ s' => simulateKeypressEvents s' queue')
  end.

(** Lines 298-330 of [handleKeydown]. *)
Definition finishKeydown (s : Strategy) (event : KeyboardEvent)
  (_key : string) (focusTreeId' componentId : nat) (options : Options)
  : Outcome Strategy ReturnValue :=
  bind (_callHandlerIfActionNotHandled s event _key keydown componentId)
    (fun _ s1 =>
       let s2 :=
         if negb (hasKeyPressEvent env _key) && simulateMissingKeyPressEvents env
         then
           withKeypressEventsToSimulate s1
             (keypressEventsToSimulate (combinationState s1)
              ++ [mkSimulated event focusTreeId' componentId options])
         else s1 in
       bind
         (if _isFocusTreeRoot s2 componentId then
            bind (simulateKeypressEvents s2
                    (keypressEventsToSimulate (combinationState s2)))
              (fun _ s3 => Returned tt (withKeypressEventsToSimulate s3 []))
          else Returned tt s2)
         (fun _ s4 =>
            Returned (Some false) (_updateEventPropagationHistory s4 componentId))).

Definition handleKeydown (s : Strategy) (event : KeyboardEvent)
  (focusTreeId' componentId : nat) (options : Options)
  : Outcome Strategy ReturnValue :=
  let _key := normalizeKeyName env (key event) in
  if negb (focusTreeId' =? focusTreeId s)%nat then Returned (Some true) s
  else if _alreadyEstablishedShouldIgnoreEvent s then
    Returned (Some false) (_updateEventPropagationHistory s componentId)
  else if _isNewKeyEvent s componentId then
    let s1 := firstSighting s event keydown options in
    if _alreadyEstablishedShouldIgnoreEvent s1 then
      Returned (Some false) (_updateEventPropagationHistory s1 componentId)
    else finishKeydown (recordKeydown s1 _key) event _key focusTreeId' componentId options
  else finishKeydown s event _key focusTreeId' componentId options.

(** ** Init and reset *)

Definition _resetRegisteredKeyMapsState : RegisteredKeyMapsState :=
  mkRegistered [] 1 None (newBitmap env None).

Definition _resetHandlerResolutionState : HandlerResolutionState :=
  mkResolution None 0 None JsObject.empty JsObject.empty.

(** The keys of the current combination that are still pressed. *)
Definition keysStillPressed (currentKeyCombination : KeyCombinationRecord)
  : JsObject.t KeyState :=
  fold_left
    (fun memo keyName =>
       match JsObject.get (keys currentKeyCombination) keyName with
       | Some keyState =>
           if bit (current keyState) keydown && negb (bit (current keyState) keyup)
           then JsObject.set memo keyName keyState
           else memo
       | None => memo
       end)
    (JsObject.keys (keys currentKeyCombination)) JsObject.empty.

Definition _resetKeyCombinationState (s : Strategy) : KeyCombinationState :=
  mkCombinations false []
    (if (List.length (history s) <? 1)%nat then []
     else
       let pressed := keysStillPressed (_getCurrentKeyCombination s) in
       [mkCombination pressed (serialize env pressed)]).

(** [_reset] of FocusOnlyKeyEventStrategy, after the one it overrides. *)
Definition _reset (s : Strategy) : Strategy :=
  mkStrategy _resetRegisteredKeyMapsState _resetHandlerResolutionState
    (_resetKeyCombinationState s) (mkPropagation 0 false false)
    (focusTreeId s + 1) (currentEvent s) 0 (resetOnNextFocus s)
    (keyEventCounter s) (effects s).

(** The strategy as its constructor leaves it. *)
Definition newStrategy : Strategy :=
  mkStrategy _resetRegisteredKeyMapsState _resetHandlerResolutionState
    (mkCombinations false [] []) (mkPropagation 0 false false)
    0 (mkCurrentEvent None None false) 0 false 0 [].


End Strategy.

(** ** Delivering key events *)

(** One call of a handler of key events by a HotKeys component. *)
Record KeyEventCall := mkCall {
  callType : KeyEventBitmapIndex;
  callEvent : KeyboardEvent;
  callFocusTreeId : nat;
  callComponentId : nat;
  callOptions : Options
}.

Definition handleKeyEvent (env : Collaborators) (s : Strategy)
  (c : KeyEventCall) : Outcome Strategy ReturnValue :=
  match callType c with
  | keydown =>
      handleKeydown env s (callEvent c) (callFocusTreeId c)
        (callComponentId c) (callOptions c)
  | keypress =>
      handleKeypress env s (callEvent c) (callFocusTreeId c)
        (callComponentId c) (callOptions c)
  | keyup =>
      handleKeyup env s (callEvent c) (callFocusTreeId c)
        (callComponentId c) (callOptions c)
  end.

(** The strategy after a series of calls; a call that throws leaves the
    strategy as it was when the error was raised. *)
Definition handleKeyEvents (env : Collaborators) (s : Strategy)
  (calls : list KeyEventCall) : Strategy :=
  fold_left (fun s c => finalState (handleKeyEvent env s c)) calls s.

(** The recording step of the handler of each kind of event, and its
    decision to start a new combination. *)
Definition startsNewCombination (type : KeyEventBitmapIndex) (s : Strategy)
  (_key : string) : bool :=
  match type with
  | keydown => keydownStartsNewCombination s _key
  | keypress => keypressStartsNewCombination s _key
  | keyup => keyupStartsNewCombination s _key
  end.

Definition recordKeyEvent (env : Collaborators) (type : KeyEventBitmapIndex)
  (s : Strategy) (_key : string) : Strategy :=
  match type with
  | keydown => recordKeydown env s _key
  | keypress => recordKeypress env s _key
  | keyup => recordKeyup env s _key
  end.

(** The position of an event kind in a bitmap. *)
Definition bitmapPosition (i : KeyEventBitmapIndex) : nat :=
  match i with keydown => 0 | keypress => 1 | keyup => 2 end.

(** [newBitmap(i)] sets the bit of [i] and the bits before it: a key that
    fires keypress has fired keydown, one that fires keyup has fired
    both. *)
Definition cumulativeBitmaps (env : Collaborators) : Prop :=
  forall i j,
    bitmapPosition j <= bitmapPosition i ->
    bit (newBitmap env (Some i)) j = true.

(** An event bubbling through the scopes [0 .. n-1]: the same call made
    by each component in turn, the innermost first. *)
Definition bubble (type : KeyEventBitmapIndex) (event : KeyboardEvent)
  (focusTreeId' : nat) (options : Options) (first n : nat)
  : list KeyEventCall :=
  map (fun componentId => mkCall type event focusTreeId' componentId options)
    (seq first n).

(** The calls of handlers and of [ignoreEventsCondition] among effects. *)
Definition isHandlerCall (e : Effect) : bool :=
  match e with HandlerCalled _ _ => true | _ => false end.

Definition isIgnoreEventsConditionCall (e : Effect) : bool :=
  match e with IgnoreEventsConditionCalled _ => true | _ => false end.

Definition handlerCalls (s : Strategy) : nat :=
  List.length (filter isHandlerCall (effects s)).

Definition ignoreEventsConditionCalls (s : Strategy) : nat :=
  List.length (filter isIgnoreEventsConditionCall (effects s)).

(** ** A concrete focus tree

    Two HotKeys components: the inner one binds [a] and [Shift+a] on
    keydown, the outer one binds [b] and [1]. *)

Module Example.

(** A bitmap with the event of the index and the events before it. *)
Definition newBitmap (i : option KeyEventBitmapIndex) : KeyEventBitmap :=
  match i with
  | None => mkBitmap false false false
  | Some keydown => mkBitmap true false false
  | Some keypress => mkBitmap true true false
  | Some keyup => mkBitmap true true true
  end.

Definition serialize (o : JsObject.t KeyState) : list string :=
  [fold_left
     (fun acc k => if String.eqb acc EmptyString then k else (acc ++ "+" ++ k)%string)
     (JsObject.keys o) EmptyString].

Definition alias (k : string) : list string := [k].

Definition env : Collaborators :=
  mkCollaborators (fun k => k) (fun k => negb (String.eqb k "Shift")) true
    serialize newBitmap alias alias alias alias.

Definition neverIgnore : Options := mkOptions (fun _ => false).

Definition onKeydown (id : string) (keyNames : list string)
  (actionName : string) : ActionConfiguration :=
  mkMatcher EmptyString actionName 1 id (map (fun k => (k, true)) keyNames)
    (List.length keyNames) keydown.

Definition inner : ComponentOptions :=
  mkComponent
    [("A", [onKeydown "a" ["a"] "A"]);
     ("SHIFT_A", [onKeydown "Shift+a" ["Shift"; "a"] "SHIFT_A"])]
    [("A", 10); ("SHIFT_A", 11)] 0 neverIgnore.

Definition outer : ComponentOptions :=
  mkComponent
    [("B", [onKeydown "b" ["b"] "B"]); ("ONE", [onKeydown "1" ["1"] "ONE"])]
    [("B", 20); ("ONE", 21)] 1 neverIgnore.

(** The strategy once both components have been registered. *)
Definition focused : Strategy :=
  mkStrategy (mkRegistered [inner; outer] 1 None (mkBitmap true false false))
    (_resetHandlerResolutionState) (mkCombinations false [] [])
    (mkPropagation 0 false false) 0 (mkCurrentEvent None None false) 0
    false 0 [].

Definition press (k : string) : KeyboardEvent := mkEvent k 0.

Definition call (type : KeyEventBitmapIndex) (k : string) (componentId : nat)
  : KeyEventCall :=
  mkCall type (press k) 0 componentId neverIgnore.

(** [a] is pressed and released, then pressed again. *)
Definition tapTwice : list KeyEventCall :=
  [call keydown "a" 0; call keydown "a" 1;
   call keyup "a" 0; call keyup "a" 1;
   call keydown "a" 0; call keydown "a" 1].

(** The strategy after [a] was tapped twice. *)
Definition tapped : Strategy := handleKeyEvents env focused tapTwice.

(** [a] is held down. *)
Definition holdingA : Strategy :=
  handleKeyEvents env focused [call keydown "a" 0; call keydown "a" 1].

(** [a] is released twice in a row. *)
Definition releasedTwice : Strategy :=
  handleKeyEvents env focused
    [call keyup "a" 0; call keyup "a" 1; call keyup "a" 0; call keyup "a" 1].

(** The handlers of the inner component have been resolved. *)
Definition resolved : Strategy :=
  handleKeyEvents env focused [call keydown "b" 0].

End Example.

(** Whether a key of the combination has a keyup recorded. *)
Definition includesKeyUp (c : KeyCombinationRecord) : bool :=
  existsb
    (fun keyName =>
       match JsObject.get (keys c) keyName with
       | Some keyState => bit (current keyState) keyup
       | None => false
       end)
    (JsObject.keys (keys c)).

Unset Implicit Arguments.

(** ** Well-formed resolution state *)

(** Every component recorded for the name of a handler defines it. *)
Definition handlersKnown (cl : list ComponentOptions)
  (dict : JsObject.t (list nat)) : Prop :=
  forall name l,
    JsObject.get dict name = Some l ->
    l <> [] /\
    forall i, In i l ->
      exists c h,
        nth_error cl i = Some c /\ JsObject.get (handlers c) name = Some h.

(** A combination is registered under its id, with a handler for every
    event it is bound to. *)
Definition combinationOk (id : string) (c : CombinationMatcher) : Prop :=
  matcherId c = id /\
  forall i b, getEvent (events c) i = Some b -> handler b <> None.

Definition groupOk (g : SequenceGroup) : Prop :=
  (forall id c, JsObject.get (combinations g) id = Some c -> combinationOk id c) /\
  (forall o id,
      order g = Some o -> In id o -> JsObject.has (combinations g) id = true).

Definition keyMapOk (keyMap : KeyMap) : Prop :=
  (isEmpty (sequences keyMap) = false -> eventBitmap keyMap <> None) /\
  (forall p g, JsObject.get (sequencesOf keyMap) p = Some g -> groupOk g).

(** The resolution state once it is allocated: a key map and a counter
    for every component. *)
Definition resolutionReady (cl : list ComponentOptions)
  (r : HandlerResolutionState) : Prop :=
  exists maps statuses,
    keyMaps r = Some maps /\
    unmatchedHandlerStatus r = Some statuses /\
    List.length maps = List.length cl /\
    List.length statuses = List.length cl /\
    Forall keyMapOk maps /\
    handlersKnown cl (handlersDictionary r).

(** The resolution state as the strategy keeps it: not yet allocated, or
    ready. *)
Definition resolutionOk (cl : list ComponentOptions)
  (r : HandlerResolutionState) : Prop :=
  handlersKnown cl (handlersDictionary r) /\
  match keyMaps r, unmatchedHandlerStatus r with
  | Some maps, Some statuses =>
      List.length maps = List.length cl /\
      List.length statuses = List.length cl /\
      Forall keyMapOk maps
  | _, _ => True
  end.

(** A key sequence that is not written with the name of a member of
    [Object.prototype]: neither its prefix, nor the id of its
    combination, nor one of its keys is such a name. *)
Definition ordinaryKeySequence (m : ActionConfiguration) : bool :=
  negb (JsObject.inherited (prefix m))
  && negb (JsObject.inherited (id m))
  && forallb (fun k => negb (JsObject.inherited k))
       (JsObject.keys (keyDictionary m)).

(** No handler and no action of the component is named after a member
    of [Object.prototype], and no key sequence of its actions is written
    with such a name. *)
Definition ordinaryComponent (c : ComponentOptions) : bool :=
  forallb (fun name => negb (JsObject.inherited name))
    (JsObject.keys (handlers c) ++ JsObject.keys (actions c))
  && forallb (forallb ordinaryKeySequence) (JsObject.values (actions c)).

Definition ordinaryNames (cl : list ComponentOptions) : Prop :=
  forallb ordinaryComponent cl = true.

(** The strategy can handle the events of the components of its list:
    its resolution state is well formed, the keypress events to simulate
    belong to components of the list, and the handlers, the actions and
    the key sequences of the components have ordinary names. *)
Definition strategyOk (s : Strategy) : Prop :=
  resolutionOk (componentList (registered s)) (resolution s) /\
  Forall
    (fun q => simComponentId q < List.length (componentList (registered s)))
    (keypressEventsToSimulate (combinationState s)) /\
  ordinaryNames (componentList (registered s)).

(** *** Keys of ordinary names

    The dictionaries of keys are read for their own properties.  The
    source reads them as [o[k]], which answers to the names of the
    members of [Object.prototype] as well, and the two read the same
    when the names below are ordinary. *)

Definition ordinary (k : string) : Prop := JsObject.inherited k = false.

(** The collaborators keep to ordinary names: the aliases of a key of
    ordinary name are such keys, and so are the ids that serialize a
    combination of such keys. *)
Definition ordinaryKeys (env : Collaborators) : Prop :=
  (forall k,
      ordinary k ->
      Forall ordinary
        (resolveKeyAlias env k ++ resolveShiftedAlias env k
         ++ resolveAltedAlias env k ++ resolveAltShiftedAlias env k)) /\
  (forall o,
      Forall ordinary (JsObject.keys o) -> Forall ordinary (serialize env o)).

(** A [+] is written in the name. *)
Fixpoint mentionsPlus (x : string) : bool :=
  match x with
  | EmptyString => false
  | String c x' => Ascii.eqb c "+" || mentionsPlus x'
  end.

(** The key combinations recorded so far have keys and ids of ordinary
    names. *)
Definition ordinaryHistory (s : Strategy) : Prop :=
  Forall
    (fun c => Forall ordinary (JsObject.keys (keys c)) /\ Forall ordinary (ids c))
    (keyCombinationHistory (combinationState s)).

(** The key combinations bound in the key maps resolved so far are made
    of keys of ordinary names. *)
Definition ordinaryKeyMaps (r : HandlerResolutionState) : Prop :=
  forall maps keyMap groups p g i c,
    keyMaps r = Some maps ->
    In keyMap maps ->
    sequences keyMap = Some groups ->
    JsObject.get groups p = Some g ->
    JsObject.get (combinations g) i = Some c ->
    Forall ordinary (JsObject.keys (matcherKeyDictionary c)).

(** ** Predicates of the properties *)

Section Predicates.

Variable env : Collaborators.

(** [s'] differs from [s] in the resolution state and the effects only. *)
Definition sameButResolution (s s' : Strategy) : Prop :=
  registered s' = registered s /\
  combinationState s' = combinationState s /\
  eventPropagationState s' = eventPropagationState s /\
  focusTreeId s' = focusTreeId s /\
  currentEvent s' = currentEvent s /\
  keyEventCounter s' = keyEventCounter s.

(** What a call of the matcher does to the effects: one handler call when
    it returns [true], none otherwise. *)
Definition matcherEffects (event : KeyboardEvent) (s : Strategy)
  (o : Outcome Strategy bool) : Prop :=
  sameButResolution s (finalState o) /\
  match o with
  | Returned true s' => exists h, effects s' = HandlerCalled h event :: effects s
  | Returned false s' => effects s' = effects s
  | Threw s' => effects s' = effects s
  end.

(** A property of the registered key maps and the key combination
    history that recording a key event maintains. *)
Definition maintainedByRecording
  (P : RegisteredKeyMapsState -> list KeyCombinationRecord -> Prop) : Prop :=
  forall s keyName i,
    P (registered s) (history s) ->
    P (registered s) (history (_addToCurrentKeyCombination env s keyName i)) /\
    P (registered s) (history (_startNewKeyCombination env s keyName i)).

(** [P] holds of the registered key maps and the history of [s]. *)
Definition holds
  (P : RegisteredKeyMapsState -> list KeyCombinationRecord -> Prop)
  (s : Strategy) : Prop := P (registered s) (history s).

Definition historyBounded (r : RegisteredKeyMapsState)
  (h : list KeyCombinationRecord) : Prop :=
  List.length h <= longestSequence r + 1.

(** The properties of [o] that satisfy [keep], copied into [memo] in the
    order of [names]: the shape of the reductions over [Object.keys]. *)
Definition copyWhere {V} (keep : V -> bool) (o : JsObject.t V)
  (names : list string) (memo : JsObject.t V) : JsObject.t V :=
  fold_left
    (fun memo keyName =>
       match JsObject.get o keyName with
       | Some v => if keep v then JsObject.set memo keyName v else memo
       | None => memo
       end)
    names memo.

(** What the search for a handler and the update of the propagation
    history leave as they found it. *)
Definition sameRecord (s s' : Strategy) : Prop :=
  registered s' = registered s /\
  combinationState s' = combinationState s /\
  keyEventCounter s' = keyEventCounter s /\
  ignoreEventsConditionCalls s' = ignoreEventsConditionCalls s.

(** A keydown call replays queued keypress events when it is handled at
    the root of the focus tree and the queue is not empty, or the key has
    no keypress event of its own. *)
Definition replaysKeypress (s : Strategy) (type : KeyEventBitmapIndex)
  (k : string) (cid : nat) : bool :=
  match type with
  | keydown =>
      _isFocusTreeRoot s cid
      && (negb (hasKeyPressEvent env k) && simulateMissingKeyPressEvents env
          || match keypressEventsToSimulate (combinationState s) with
             | [] => false
             | _ => true
             end)
  | _ => false
  end.

(** A call that leaves the record of key events as it found it. *)
Definition recordsNothing (s s' : Strategy) : Prop :=
  history s' = history s /\
  keyEventCounter s' = keyEventCounter s /\
  ignoreEventsConditionCalls s' = ignoreEventsConditionCalls s.

(** What follows the recording step in the handler of each kind. *)
Definition afterRecording (type : KeyEventBitmapIndex) (s : Strategy)
  (event : KeyboardEvent) (k : string) (ftid cid : nat) (options : Options)
  : Outcome Strategy ReturnValue :=
  match type with
  | keydown => finishKeydown env s event k ftid cid options
  | keypress =>
      bind (_callHandlerIfActionNotHandled env s event k keypress cid)
        (fun _ s2 => Returned None (_updateEventPropagationHistory s2 cid))
  | keyup =>
      bind (_callHandlerIfActionNotHandled env s event k keyup cid)
        (fun _ s2 => Returned None (_updateEventPropagationHistory s2 cid))
  end.

Definition alreadyHandled (s : Strategy) : bool :=
  actionHandled (eventPropagationState s).

(** The calls of handlers an event may still make: none once a handler
    was called for it. *)
Definition callsLeft (s : Strategy) : nat := if alreadyHandled s then 0 else 1.

Definition queue (s : Strategy) : list SimulatedKeypress :=
  keypressEventsToSimulate (combinationState s).

(** [s'] follows [s] with at most the call of a handler that [s] allows. *)
Definition callsAtMostLeft (s s' : Strategy) : Prop :=
  handlerCalls s <= handlerCalls s' /\
  handlerCalls s' <= handlerCalls s + callsLeft s /\
  registered s' = registered s.

(** [s'] follows [s] in the same bubble: a handler called in between is
    remembered by [actionHandled]. *)
Definition callsAccounted (s s' : Strategy) : Prop :=
  handlerCalls s <= handlerCalls s' /\
  handlerCalls s' + callsLeft s' <= handlerCalls s + callsLeft s /\
  registered s' = registered s.


(** No keypress is simulated for the event: it is not a keydown, or its
    key has a keypress event of its own (or the option is off) and no
    keypress is waiting to be simulated. *)
Definition noKeypressSimulated (type : KeyEventBitmapIndex) (k : string)
  (s : Strategy) : Prop :=
  type = keydown ->
  negb (hasKeyPressEvent env k) && simulateMissingKeyPressEvents env = false /\
  queue s = [].

Definition previousIndex (s : Strategy) : nat :=
  previousComponentIndex (eventPropagationState s).

Definition ignoring (s : Strategy) : bool :=
  ignoreEvent (eventPropagationState s).

(** The sizes that occur among the combinations of a sequence. *)
Definition sizesOf (cs : JsObject.t CombinationMatcher) : list nat :=
  map fst (combinationsPartitionedBySize cs).

Definition radix (idSize : nat) : nat := if (idSize =? 0)%nat then 1 else idSize.

(** The number the counters spell, the last counter the least digit. *)
Fixpoint counterValue (sizesFromEnd countersFromEnd : list nat) : nat :=
  match countersFromEnd, sizesFromEnd with
  | c :: cs, n :: ns => c + radix n * counterValue ns cs
  | _, _ => 0
  end.

Definition radixProduct (sizes : list nat) : nat :=
  fold_right (fun n acc => radix n * acc) 1 sizes.

Definition validCounters (sizesFromEnd countersFromEnd : list nat) : Prop :=
  Forall2 (fun n c => c < radix n) sizesFromEnd countersFromEnd.

End Predicates.

(** * Registering key maps and handlers

    The methods by which a HotKeys component registers its key map and
    its handlers, updates them and gives them up.  The calls of the
    logger, which read the strategy and change nothing, are left out;
    an error thrown by the parser of key sequences is the outcome
    [Threw], like a [TypeError]. *)

(** One option of a key map: a key sequence, or an object
    [{sequence, action}] whose [action], when it is given, names the
    event to bind: one of the names of const/KeyEventBitmapIndex. *)
Inductive KeyMapOption :=
| KeySequence (keySequence : string)
| KeySequenceOptions (keySequence : string)
    (eventName : option KeyEventBitmapIndex).

(** What a key map holds for an action: one option, or an array of
    them. *)
Inductive KeyMapValue :=
| OneOption (keyMapOption : KeyMapOption)
| ManyOptions (keyMapOptions : list KeyMapOption).

(** [!!actionNameToKeyMap[name]]: an object or an array is truthy, a
    string unless it is empty, an inherited member is, a missing property
    is not. *)
Definition truthyKeyMapValue (v : JsObject.Property KeyMapValue) : bool :=
  match v with
  | JsObject.Own (OneOption (KeySequence keySequence)) => truthy keySequence
  | JsObject.Own _ => true
  | JsObject.Inherited => true
  | JsObject.Undefined => false
  end.

(** The options hash of a registration: [defaultKeyEvent] is read while
    the key map is built, and the hash is kept with the component. *)
Record RegistrationOptions := mkRegistrationOptions {
  defaultKeyEvent : KeyEventBitmapIndex;
  componentOptions : Options
}.

(** The result of [KeySequenceParser.parse]: [sequence.prefix],
    [sequence.size] and the properties of [combination], which are those
    of an ActionConfiguration that [_buildActionDictionary] does not set
    itself: [id], [keyDictionary], [size] and [eventBitmapIndex]. *)
Record ParsedKeySequence := mkParsed {
  sequencePrefix : string;
  sequenceSize : nat;
  combinationId : string;
  combinationKeyDictionary : JsObject.t bool;
  combinationSize : nat;
  combinationEventBitmapIndex : KeyEventBitmapIndex
}.

(** The functions that the registration of a component imports from the
    rest of the library. *)
Record RegistrationCollaborators := mkRegistrationCollaborators {
  (** KeySequenceParser.parse(keySequence, { eventBitmapIndex }); [None]
      when it throws *)
  parse : string -> KeyEventBitmapIndex -> option ParsedKeySequence;
  (** KeyCombinationSerializer.isValidKeySerialization *)
  isValidKeySerialization : string -> bool;
  (** utils/array/arrayFrom *)
  arrayFrom : KeyMapValue -> list KeyMapOption
}.

Definition withRegistered (s : Strategy) (r : RegisteredKeyMapsState) :=
  mkStrategy r (resolution s) (combinationState s) (eventPropagationState s)
    (focusTreeId s) (currentEvent s) (componentIdCounter s)
    (resetOnNextFocus s) (keyEventCounter s) (effects s).

Definition withComponentId (s : Strategy) (n : nat) :=
  mkStrategy (registered s) (resolution s) (combinationState s)
    (eventPropagationState s) (focusTreeId s) (currentEvent s) n
    (resetOnNextFocus s) (keyEventCounter s) (effects s).

Definition withResetOnNextFocus (s : Strategy) (b : bool) :=
  mkStrategy (registered s) (resolution s) (combinationState s)
    (eventPropagationState s) (focusTreeId s) (currentEvent s)
    (componentIdCounter s) b (keyEventCounter s) (effects s).

Definition withComponentList (s : Strategy) (cl : list ComponentOptions) :=
  withRegistered s
    (mkRegistered cl (longestSequence (registered s))
       (longestSequenceComponentIndex (registered s))
       (keyMapEventBitmap (registered s))).

(** The own properties of [o] copied onto [target], as [...o] does inside
    an object literal. *)
Definition spreadOnto {V} (target o : JsObject.t V) : JsObject.t V :=
  fold_left
    (fun memo k =>
       match JsObject.get o k with
       | Some v => JsObject.set memo k v
       | None => memo
       end)
    (JsObject.keys o) target.

Section Registration.

Variable env : Collaborators.
Variable library : RegistrationCollaborators.

(** ** AbstractKeyEventStrategy: registering key maps and handlers *)

Definition _applyHardSequences (actionNameToKeyMap : JsObject.t KeyMapValue)
  (actionNameToHandlersMap : JsObject.t Handler)
  : JsObject.t KeyMapValue * JsObject.t Handler :=
  fold_left
    (fun memo actionNameOrKeyExpression =>
       let actionNameIsInKeyMap :=
         truthyKeyMapValue
           (JsObject.lookup actionNameToKeyMap actionNameOrKeyExpression) in
       let keyMap' :=
         if negb actionNameIsInKeyMap
            && isValidKeySerialization library actionNameOrKeyExpression
         then JsObject.set (fst memo) actionNameOrKeyExpression
                (OneOption (KeySequence actionNameOrKeyExpression))
         else fst memo in
       match JsObject.get actionNameToHandlersMap actionNameOrKeyExpression with
       | Some handler =>
           (keyMap', JsObject.set (snd memo) actionNameOrKeyExpression handler)
       | None => (keyMap', snd memo)
       end)
    (JsObject.keys actionNameToHandlersMap) (JsObject.empty, JsObject.empty).

(** Lines 324-338: the key sequence of an option and the event it binds. *)
Definition keySequenceAndEvent (options : RegistrationOptions)
  (keyMapOption : KeyMapOption) : string * KeyEventBitmapIndex :=
  match keyMapOption with
  | KeySequenceOptions keySequence eventName =>
      (keySequence,
       match eventName with
       | None => defaultKeyEvent options
       | Some name => name
       end)
  | KeySequence keySequence => (keySequence, defaultKeyEvent options)
  end.

(** Lines 323-363: the body of [forEach] for one option of an action.
    For an action named after a member of [Object.prototype] the
    dictionary being built answers with that member: no list is created,
    and [push] is not a function of what is found. *)
Definition addKeyMapOption (options : RegistrationOptions) (componentId : nat)
  (actionName : string) (keyMapMemo : JsObject.t (list ActionConfiguration))
  (s : Strategy) (keyMapOption : KeyMapOption)
  : Outcome Strategy (JsObject.t (list ActionConfiguration)) :=
  let (keySequence, eventBitmapIndex) :=
    keySequenceAndEvent options keyMapOption in
  match parse library keySequence eventBitmapIndex with
  | None => Threw s
  | Some parsed =>
      let r := registered s in
      let r1 :=
        if (longestSequence r <? sequenceSize parsed)%nat
        then mkRegistered (componentList r) (sequenceSize parsed)
               (Some componentId) (keyMapEventBitmap r)
        else r in
      let r2 :=
        mkRegistered (componentList r1) (longestSequence r1)
          (longestSequenceComponentIndex r1)
          (KeyEventBitmapManager.setBit (keyMapEventBitmap r1) eventBitmapIndex) in
      let memo1 :=
        match JsObject.lookup keyMapMemo actionName with
        | JsObject.Undefined => JsObject.set keyMapMemo actionName []
        | _ => keyMapMemo
        end in
      match JsObject.lookup memo1 actionName with
      | JsObject.Own l =>
          Returned
            (JsObject.set memo1 actionName
               (l ++ [mkMatcher (sequencePrefix parsed) actionName
                        (sequenceSize parsed) (combinationId parsed)
                        (combinationKeyDictionary parsed)
                        (combinationSize parsed)
                        (combinationEventBitmapIndex parsed)]))
            (withRegistered s r2)
      | _ => Threw (withRegistered s r2)
      end
  end.

Fixpoint addKeyMapOptions (options : RegistrationOptions) (componentId : nat)
  (actionName : string) (keyMapOptions : list KeyMapOption)
  (keyMapMemo : JsObject.t (list ActionConfiguration)) (s : Strategy)
  : Outcome Strategy (JsObject.t (list ActionConfiguration)) :=
  match keyMapOptions with
  | [] => Returned keyMapMemo s
  | keyMapOption :: rest =>
      bind (addKeyMapOption options componentId actionName keyMapMemo s
              keyMapOption)
        (fun memo' s' =>
           addKeyMapOptions options componentId actionName rest memo' s')
  end.

(** Lines 320-366: the reduction over the names of the actions. *)
Fixpoint addActions (actionNameToKeyMap : JsObject.t KeyMapValue)
  (options : RegistrationOptions) (componentId : nat) (names : list string)
  (keyMapMemo : JsObject.t (list ActionConfiguration)) (s : Strategy)
  : Outcome Strategy (JsObject.t (list ActionConfiguration)) :=
  match names with
  | [] => Returned keyMapMemo s
  | actionName :: names' =>
      let keyMapOptions :=
        match JsObject.get actionNameToKeyMap actionName with
        | Some v => arrayFrom library v
        | None => []
        end in
      bind (addKeyMapOptions options componentId actionName keyMapOptions
              keyMapMemo s)
        (fun memo' s' =>
           addActions actionNameToKeyMap options componentId names' memo' s')
  end.

Definition _buildActionDictionary (s : Strategy)
  (actionNameToKeyMap : JsObject.t KeyMapValue) (options : RegistrationOptions)
  (componentId : nat)
  : Outcome Strategy (JsObject.t (list ActionConfiguration)) :=
  addActions actionNameToKeyMap options componentId
    (JsObject.keys actionNameToKeyMap) JsObject.empty s.

Definition _buildComponentOptions (s : Strategy) (componentId : nat)
  (actionNameToKeyMap : JsObject.t KeyMapValue)
  (actionNameToHandlersMap : JsObject.t Handler)
  (options : RegistrationOptions) : Outcome Strategy ComponentOptions :=
  let (hardSequenceKeyMap, includingHardSequenceHandlers) :=
    _applyHardSequences actionNameToKeyMap actionNameToHandlersMap in
  bind (_buildActionDictionary s
          (spreadOnto (spreadOnto JsObject.empty actionNameToKeyMap)
             hardSequenceKeyMap)
          options componentId)
    (fun actions s' =>
       Returned
         (mkComponent actions includingHardSequenceHandlers componentId
            (componentOptions options))
         s').

Definition _addComponentToList (s : Strategy) (componentId : nat)
  (actionNameToKeyMap : JsObject.t KeyMapValue)
  (actionNameToHandlersMap : JsObject.t Handler)
  (options : RegistrationOptions) : Outcome Strategy unit :=
  bind (_buildComponentOptions s componentId actionNameToKeyMap
          actionNameToHandlersMap options)
    (fun componentOptions s' =>
       Returned tt
         (withComponentList s'
            (componentList (registered s') ++ [componentOptions]))).

(** ** FocusOnlyKeyEventStrategy: registering key maps and handlers *)

(** The pair returned is [[focusTreeId, componentId]]. *)
Definition addHotKeys (s : Strategy)
  (actionNameToKeyMap : JsObject.t KeyMapValue)
  (actionNameToHandlersMap : JsObject.t Handler)
  (options : RegistrationOptions) : Outcome Strategy (nat * nat) :=
  let s1 :=
    if resetOnNextFocus s
    then withResetOnNextFocus (_reset env s) false
    else s in
  let s2 := withComponentId s1 (List.length (componentList (registered s1))) in
  bind (_addComponentToList s2 (componentIdCounter s2) actionNameToKeyMap
          actionNameToHandlersMap options)
    (fun _ s3 => Returned (focusTreeId s3, componentIdCounter s3) s3).

Definition updateHotKeys (s : Strategy) (focusTreeId' componentId : nat)
  (actionNameToKeyMap : JsObject.t KeyMapValue)
  (actionNameToHandlersMap : JsObject.t Handler)
  (options : RegistrationOptions) : Outcome Strategy unit :=
  if negb (focusTreeId' =? focusTreeId s)%nat
     || match nth_error (componentList (registered s)) componentId with
        | Some _ => false
        | None => true
        end
  then Returned tt s
  else
    bind (_buildComponentOptions s componentId actionNameToKeyMap
            actionNameToHandlersMap options)
      (fun componentOptions s' =>
         Returned tt
           (withComponentList s'
              (updateNth (componentList (registered s')) componentId
                 componentOptions))).

Definition removeHotKeys (s : Strategy) (focusTreeId' componentId : nat)
  : bool * Strategy :=
  let s1 := if negb (resetOnNextFocus s) then withResetOnNextFocus s true else s in
  let outstandingEventPropagation :=
    (previousComponentIndex (eventPropagationState s1) + 1 <? componentId)%nat in
  (outstandingEventPropagation, s1).

End Registration.

(** ** Predicates of the further properties *)

(** The index of one alias for each combination of a sequence, an empty
    list of aliases being read at index 0. *)
Definition aliasChoice (sequenceIds : list (list string))
  (choice : list nat) : Prop :=
  Forall2 (fun ids c => c < Nat.max 1 (List.length ids)) sequenceIds choice.

(** The key [candidateKeyName] of a combination is triggering the event
    [i]: it appears in the current combination of [s] under a name, its
    own or an alias, that [keyboardState] holds with [i] in its current
    bitmap. *)
Definition triggering (env : Collaborators) (s : Strategy)
  (keyboardState : KeyCombinationRecord) (i : KeyEventBitmapIndex)
  (candidateKeyName name : string) : Prop :=
  _keyNameAsItAppearsInKeyboardState env s candidateKeyName = Some name /\
  truthy name = true /\
  exists keyState,
    JsObject.get (keys keyboardState) name = Some keyState /\
    bit (current keyState) i = true.

(** The count of handlers of the component [componentId] that are not
    matched with an action yet, as [resolveHandlers] reads it before its
    loop. *)
Definition unmatchedHandlersCount (cl : list ComponentOptions)
  (componentId : nat) (r : HandlerResolutionState) : option Z :=
  match unmatchedHandlerStatus (initResolution cl r) with
  | Some statuses => option_map fst (nth_error statuses componentId)
  | None => None
  end.

(** Every handler bound in [keyMap] is one that [component] defines. *)
Definition ownHandlers (component : ComponentOptions) (keyMap : KeyMap)
  : Prop :=
  forall p g id c i b h,
    JsObject.get (sequencesOf keyMap) p = Some g ->
    JsObject.get (combinations g) id = Some c ->
    getEvent (events c) i = Some b ->
    handler b = Some h ->
    exists name, JsObject.get (handlers component) name = Some h.

(** The key map resolved for each component binds handlers of that
    component only. *)
Definition handlersOwned (s : Strategy) : Prop :=
  forall maps index component keyMap,
    keyMaps (resolution s) = Some maps ->
    nth_error (componentList (registered s)) index = Some component ->
    nth_error maps index = Some keyMap ->
    ownHandlers component keyMap.

(** ** Sessions *)

(** What the HotKeys components ask of the strategy: a component gains
    focus, updates its key map and handlers or loses focus, or a key
    event reaches a component. *)
Inductive Operation :=
| Focus (actionNameToKeyMap : JsObject.t KeyMapValue)
    (actionNameToHandlersMap : JsObject.t Handler)
    (options : RegistrationOptions)
| Update (focusTreeId' componentId : nat)
    (actionNameToKeyMap : JsObject.t KeyMapValue)
    (actionNameToHandlersMap : JsObject.t Handler)
    (options : RegistrationOptions)
| Blur (focusTreeId' componentId : nat)
| KeyEvent (call : KeyEventCall).

(** The strategy after an operation; one that throws leaves the strategy
    as it was when the error was raised. *)
Definition perform (env : Collaborators) (library : RegistrationCollaborators)
  (s : Strategy) (operation : Operation) : Strategy :=
  match operation with
  | Focus actionNameToKeyMap actionNameToHandlersMap options =>
      finalState
        (addHotKeys env library s actionNameToKeyMap actionNameToHandlersMap
           options)
  | Update focusTreeId' componentId actionNameToKeyMap actionNameToHandlersMap
      options =>
      finalState
        (updateHotKeys library s focusTreeId' componentId actionNameToKeyMap
           actionNameToHandlersMap options)
  | Blur focusTreeId' componentId =>
      snd (removeHotKeys s focusTreeId' componentId)
  | KeyEvent call => finalState (handleKeyEvent env s call)
  end.

Definition session (env : Collaborators) (library : RegistrationCollaborators)
  (s : Strategy) (operations : list Operation) : Strategy :=
  fold_left (perform env library) operations s.

(** ** Predicates of the registration *)

(** What building the actions of a component changes of the strategy:
    the longest sequence is raised at most, bits of the key map event
    bitmap are set at most, and the rest is left as it was. *)
Definition summaryExtended (s s' : Strategy) : Prop :=
  componentList (registered s') = componentList (registered s) /\
  longestSequence (registered s) <= longestSequence (registered s') /\
  (forall i,
      bit (keyMapEventBitmap (registered s)) i = true ->
      bit (keyMapEventBitmap (registered s')) i = true) /\
  resolution s' = resolution s /\
  combinationState s' = combinationState s /\
  eventPropagationState s' = eventPropagationState s /\
  focusTreeId s' = focusTreeId s /\
  currentEvent s' = currentEvent s /\
  componentIdCounter s' = componentIdCounter s /\
  resetOnNextFocus s' = resetOnNextFocus s /\
  keyEventCounter s' = keyEventCounter s /\
  effects s' = effects s.

(** The parser binds a combination to the event it is given. *)
Definition parserKeepsEvent (library : RegistrationCollaborators) : Prop :=
  forall keySequence i parsed,
    parse library keySequence i = Some parsed ->
    combinationEventBitmapIndex parsed = i.

(** The parser accepts every key sequence. *)
Definition parserAccepts (library : RegistrationCollaborators) : Prop :=
  forall keySequence i, parse library keySequence i <> None.

(** A key sequence of the action [name] is accounted for by the
    strategy: it is no longer than the longest sequence and, for a parser
    that keeps the event, its event is in the key map event bitmap. *)
Definition configCovered (library : RegistrationCollaborators) (s : Strategy)
  (name : string) (m : ActionConfiguration) : Prop :=
  actionName m = name /\
  sequenceLength m <= longestSequence (registered s) /\
  (parserKeepsEvent library ->
   bit (keyMapEventBitmap (registered s)) (eventBitmapIndex m) = true).

Definition actionsCovered (library : RegistrationCollaborators) (s : Strategy)
  (actions : JsObject.t (list ActionConfiguration)) : Prop :=
  forall name l m,
    JsObject.get actions name = Some l -> In m l ->
    configCovered library s name m.

(** Every key sequence of every registered component is accounted for,
    and the longest sequence is 1 at least. *)
Definition registeredCovered (library : RegistrationCollaborators)
  (s : Strategy) : Prop :=
  1 <= longestSequence (registered s) /\
  forall c,
    In c (componentList (registered s)) ->
    actionsCovered library s (actions c).

(** The components of the list are numbered by their position. *)
Definition numbered (cl : list ComponentOptions) : Prop :=
  forall i c, nth_error cl i = Some c -> componentId c = i.

(** The handler resolution state is as a reset leaves it and no keypress
    waits to be simulated. *)
Definition unresolved (s : Strategy) : Prop :=
  resolution s = _resetHandlerResolutionState /\
  keypressEventsToSimulate (combinationState s) = [].

(** A component to register: its key map, its handlers and the options. *)
Record Registration := mkRegistration {
  registrationKeyMap : JsObject.t KeyMapValue;
  registrationHandlers : JsObject.t Handler;
  registrationOptions : RegistrationOptions
}.

Definition focusOn (registration : Registration) : Operation :=
  Focus (registrationKeyMap registration) (registrationHandlers registration)
    (registrationOptions registration).

(** The action configuration that [_buildActionDictionary] makes of a
    parsed key sequence of the action [name]. *)
Definition configurationOf (name : string) (parsed : ParsedKeySequence)
  : ActionConfiguration :=
  mkMatcher (sequencePrefix parsed) name (sequenceSize parsed)
    (combinationId parsed) (combinationKeyDictionary parsed)
    (combinationSize parsed) (combinationEventBitmapIndex parsed).

(** The key sequences of the options of an action, parsed in order;
    [None] when the parser throws on one of them. *)
Fixpoint parseOptions (library : RegistrationCollaborators)
  (options : RegistrationOptions) (keyMapOptions : list KeyMapOption)
  : option (list ParsedKeySequence) :=
  match keyMapOptions with
  | [] => Some []
  | keyMapOption :: rest =>
      match parse library (fst (keySequenceAndEvent options keyMapOption))
              (snd (keySequenceAndEvent options keyMapOption)) with
      | Some parsed =>
          option_map (cons parsed) (parseOptions library options rest)
      | None => None
      end
  end.

(** The options that [_buildActionDictionary] reads for an action. *)
Definition keyMapOptionsOf (library : RegistrationCollaborators)
  (actionNameToKeyMap : JsObject.t KeyMapValue) (name : string)
  : list KeyMapOption :=
  match JsObject.get actionNameToKeyMap name with
  | Some v => arrayFrom library v
  | None => []
  end.

(** What the key map with the hard sequences applied holds for a name:
    the name itself as a key sequence when it has a handler, the key map
    answers to it with nothing truthy and it is a valid key
    serialization, and the entry of the key map otherwise. *)
Definition keyMapEntry (library : RegistrationCollaborators)
  (actionNameToKeyMap : JsObject.t KeyMapValue)
  (actionNameToHandlersMap : JsObject.t Handler) (name : string)
  : option KeyMapValue :=
  if JsObject.has actionNameToHandlersMap name
     && negb (truthyKeyMapValue (JsObject.lookup actionNameToKeyMap name))
     && isValidKeySerialization library name
  then Some (OneOption (KeySequence name))
  else JsObject.get actionNameToKeyMap name.

(** The options of that entry, as [arrayFrom] lists them. *)
Definition keyMapEntryOptions (library : RegistrationCollaborators)
  (actionNameToKeyMap : JsObject.t KeyMapValue)
  (actionNameToHandlersMap : JsObject.t Handler) (name : string)
  : list KeyMapOption :=
  match keyMapEntry library actionNameToKeyMap actionNameToHandlersMap name with
  | Some v => arrayFrom library v
  | None => []
  end.

(** The action [name] of a key map can be registered: the parser accepts
    each of its key sequences and, when it has any, it is not named after
    a member of [Object.prototype]. *)
Definition accepted (library : RegistrationCollaborators)
  (options : RegistrationOptions)
  (actionNameToKeyMap : JsObject.t KeyMapValue)
  (actionNameToHandlersMap : JsObject.t Handler) (name : string) : Prop :=
  parseOptions library options
    (keyMapEntryOptions library actionNameToKeyMap actionNameToHandlersMap name)
  <> None /\
  (keyMapEntryOptions library actionNameToKeyMap actionNameToHandlersMap name
   <> [] ->
   JsObject.inherited name = false).

(** The ids of a combination are those that serialize its keys. *)
Definition serialized (env : Collaborators) (c : KeyCombinationRecord) : Prop :=
  ids c = serialize env (keys c).

(** The components that [handlersDictionary] lists for an action are in
    ascending order, the nearest to the event target first, and none is
    beyond the search index. *)
Definition nearestFirst (r : HandlerResolutionState) : Prop :=
  forall name l,
    JsObject.get (handlersDictionary r) name = Some l ->
    StronglySorted le l /\ Forall (fun i => i <= searchIndex r) l.

(** ** A concrete library

    A parser of key sequences written as combinations separated by
    spaces, each the names of its keys joined by [+]. *)

Module ExampleLibrary.

Fixpoint split (separator : ascii) (s : string) : list string :=
  match s with
  | EmptyString => [EmptyString]
  | String c rest =>
      if Ascii.eqb c separator then EmptyString :: split separator rest
      else
        match split separator rest with
        | [] => [String c EmptyString]
        | word :: words => String c word :: words
        end
  end.

(** The empty key sequence is rejected. *)
Definition parse (keySequence : string) (i : KeyEventBitmapIndex)
  : option ParsedKeySequence :=
  if String.eqb keySequence EmptyString then None
  else
    let combinations := split " " keySequence in
    let final := last combinations EmptyString in
    let keyNames := split "+" final in
    Some (mkParsed (join (removelast combinations)) (List.length combinations)
            final (map (fun k => (k, true)) keyNames) (List.length keyNames) i).

Definition isKeyName (k : string) : bool :=
  (String.length k =? 1)%nat
  || existsb (String.eqb k) ["Shift"; "Alt"; "Control"; "Escape"; "Enter"].

Definition isValidKeySerialization (keySequence : string) : bool :=
  forallb (fun combination => forallb isKeyName (split "+" combination))
    (split " " keySequence).

Definition arrayFrom (v : KeyMapValue) : list KeyMapOption :=
  match v with
  | OneOption keyMapOption => [keyMapOption]
  | ManyOptions keyMapOptions => keyMapOptions
  end.

Definition library : RegistrationCollaborators :=
  mkRegistrationCollaborators parse isValidKeySerialization arrayFrom.

Definition onKeydown : RegistrationOptions :=
  mkRegistrationOptions keydown Example.neverIgnore.

(** The inner and the outer component of the concrete focus tree, as
    they are registered. *)
Definition inner : Registration :=
  mkRegistration
    [("A", OneOption (KeySequence "a"));
     ("SHIFT_A", OneOption (KeySequence "Shift+a"))]
    [("A", 10); ("SHIFT_A", 11)] onKeydown.

Definition outer : Registration :=
  mkRegistration
    [("B", OneOption (KeySequence "b")); ("ONE", OneOption (KeySequence "1"))]
    [("B", 20); ("ONE", 21)] onKeydown.

(** A component with a sequence of two combinations, an action bound to
    two events and a handler named after a key. *)
Definition editor : Registration :=
  mkRegistration
    [("SAVE", OneOption (KeySequence "Control+k s"));
     ("UNDO",
      ManyOptions
        [KeySequence "Control+z"; KeySequenceOptions "u" (Some keyup)])]
    [("SAVE", 30); ("UNDO", 31); ("Escape", 32)] onKeydown.

(** A key map with a key sequence that the parser rejects. *)
Definition broken : Registration :=
  mkRegistration [("NOTHING", ManyOptions [KeySequence EmptyString])]
    [("NOTHING", 40)] onKeydown.

(** Both components of the concrete focus tree gain focus. *)
Definition focused : Strategy :=
  session Example.env library (newStrategy Example.env)
    [focusOn inner; focusOn outer].

(** A component in between that handles the action of the inner one
    too. *)
Definition shadowed : Registration :=
  mkRegistration [("A", OneOption (KeySequence "a"))] [("A", 50)] onKeydown.

(** The editor alone has focus. *)
Definition editing : Strategy :=
  session Example.env library (newStrategy Example.env) [focusOn editor].

(** The inner component inside one that handles the same action. *)
Definition nested : Strategy :=
  session Example.env library (newStrategy Example.env)
    [focusOn inner; focusOn shadowed].

Definition saveAction : ActionConfiguration :=
  mkMatcher "Control+k" "SAVE" 2 "s" [("s", true)] 1 keydown.

Definition undoOnKeyup : ActionConfiguration :=
  mkMatcher EmptyString "UNDO" 1 "u" [("u", true)] 1 keyup.

(** An action, and a handler, named after a member of
    [Object.prototype]. *)
Definition inheritedAction : Registration :=
  mkRegistration [("constructor", OneOption (KeySequence "c"))]
    [("constructor", 80)] onKeydown.

Definition inheritedHandler : Registration :=
  mkRegistration [("A", OneOption (KeySequence "a"))]
    [("A", 10); ("toString", 81)] onKeydown.






(** A component with a handler for an action that the component around
    it binds, which gains focus after a key event. *)
Definition twoHandlers : Registration :=
  mkRegistration [("OPEN", OneOption (KeySequence "o"))]
    [("OPEN", 10); ("SAVE", 12)] onKeydown.

Definition bindingSave : Registration :=
  mkRegistration [("SAVE", OneOption (KeySequence "s"))] [] onKeydown.

Definition extended : Strategy :=
  session Example.env library (newStrategy Example.env)
    [focusOn twoHandlers;
     KeyEvent (Example.call keydown "o" 0);
     KeyEvent (Example.call keyup "o" 0);
     focusOn bindingSave].

End ExampleLibrary.

(** * Properties *)

Section Properties.

Variable env : Collaborators.

(** ** What the resolution of handlers leaves alone *)

Lemma sameButResolution_refl s : sameButResolution s s.
Proof. repeat split. Qed.

Lemma sameButResolution_trans s1 s2 s3 :
  sameButResolution s1 s2 -> sameButResolution s2 s3 -> sameButResolution s1 s3.
Proof.
  unfold sameButResolution; intros (?&?&?&?&?&?) (?&?&?&?&?&?).
  repeat split; congruence.
Qed.

Lemma callFirstMatchingCombination_effects s event keyName i state cs ord :
  matcherEffects event s
    (callFirstMatchingCombination env s event keyName i state cs ord).
Proof.
  induction ord as [|cid ord IH]; simpl.
  - split; [apply sameButResolution_refl | reflexivity].
  - destruct (JsObject.get cs cid) as [cm|];
      [|split; [apply sameButResolution_refl | reflexivity]].
    destruct (_combinationMatchesKeys env s keyName state cm i) as [[|]|];
      try (split; [apply sameButResolution_refl | reflexivity]).
    + destruct (getEvent (events cm) i) as [b|];
        [|split; [apply sameButResolution_refl | reflexivity]].
      destruct (handler b) as [h|];
        [|split; [apply sameButResolution_refl | reflexivity]].
      split; [repeat split | exists h; reflexivity].
    + exact IH.
Qed.

Lemma storeOrder_same s cid k g o :
  sameButResolution s (storeOrder s cid k g o) /\
  effects (storeOrder s cid k g o) = effects s.
Proof.
  unfold storeOrder.
  destruct (keyMaps (resolution s)) as [maps|];
    [|split; [apply sameButResolution_refl | reflexivity]].
  destruct (nth_error maps cid);
    split; try apply sameButResolution_refl; try reflexivity.
  repeat split.
Qed.

Lemma matcherEffects_from s s1 event o :
  sameButResolution s s1 -> effects s1 = effects s ->
  matcherEffects event s1 o -> matcherEffects event s o.
Proof.
  intros Hs He [Hf Ho]; split.
  - eapply sameButResolution_trans; eauto.
  - destruct o as [[|] s'|s']; rewrite <- He; exact Ho.
Qed.

Lemma matchSequenceOfLength_effects s event keyName i cid state n :
  matcherEffects event s
    (matchSequenceOfLength env s event keyName i cid state n).
Proof.
  unfold matchSequenceOfLength.
  destruct (_tryMatchSequenceWithKeyAliases _ _) as [[k g]|];
    [|split; [apply sameButResolution_refl | reflexivity]].
  destruct (order g) as [o|].
  - apply callFirstMatchingCombination_effects.
  - destruct (storeOrder_same s cid k g (combinationOrder (combinations g)))
      as [Hs He].
    eapply matcherEffects_from; eauto.
    apply callFirstMatchingCombination_effects.
Qed.

Lemma matchSequences_effects event keyName i cid state n :
  forall s,
    matcherEffects event s
      (matchSequences env s event keyName i cid state n).
Proof.
  induction n as [|n IH]; intros s; simpl;
    pose proof (matchSequenceOfLength_effects s event keyName i cid state) as H.
  - specialize (H 0).
    destruct (matchSequenceOfLength env s event keyName i cid state 0)
      as [[|] s'|s']; simpl; exact H.
  - specialize (H (S n)).
    destruct (matchSequenceOfLength env s event keyName i cid state (S n))
      as [[|] s'|s']; simpl; try exact H.
    destruct H as [Hs He]; simpl in Hs.
    eapply matcherEffects_from; eauto.
Qed.

Lemma withResolution_same s r :
  sameButResolution s (withResolution s r) /\
  effects (withResolution s r) = effects s.
Proof. split; [repeat split | reflexivity]. Qed.

Lemma _callMatchingHandlerClosestToEventTarget_effects s event keyName i cid :
  matcherEffects event s
    (_callMatchingHandlerClosestToEventTarget env s event keyName i cid).
Proof.
  unfold _callMatchingHandlerClosestToEventTarget.
  destruct (resolveHandlers _ _ _ _) as [[] r|r];
    [|split; [apply withResolution_same | reflexivity]].
  destruct (withResolution_same s r) as [Hs He].
  assert (Hfalse : matcherEffects event s (Returned false (withResolution s r)))
    by (split; [exact Hs | exact He]).
  assert (Hthrew : matcherEffects event s
                     (Threw (A := bool) (withResolution s r)))
    by (split; [exact Hs | exact He]).
  destruct (keyMaps r) as [maps|]; [|exact Hthrew].
  destruct (nth_error maps cid) as [km|]; [|exact Hfalse].
  destruct (isEmpty (sequences km)); [exact Hfalse|].
  destruct (eventBitmap km) as [b|]; [|exact Hthrew].
  destruct (negb (bit b i)); [exact Hfalse|].
  destruct (keyMapLongestSequence km) as [n|]; [|exact Hfalse].
  eapply matcherEffects_from; eauto.
  apply matchSequences_effects.
Qed.

(** ** What a handler of key events does to the strategy *)

Lemma _callHandlerIfActionNotHandled_cases s event keyName i cid :
  let o := _callHandlerIfActionNotHandled env s event keyName i cid in
  registered (finalState o) = registered s /\
  combinationState (finalState o) = combinationState s /\
  focusTreeId (finalState o) = focusTreeId s /\
  keyEventCounter (finalState o) = keyEventCounter s /\
  previousComponentIndex (eventPropagationState (finalState o)) =
    previousComponentIndex (eventPropagationState s) /\
  ignoreEvent (eventPropagationState (finalState o)) =
    ignoreEvent (eventPropagationState s) /\
  ((effects (finalState o) = effects s /\
    actionHandled (eventPropagationState (finalState o)) =
      actionHandled (eventPropagationState s))
   \/
   (actionHandled (eventPropagationState s) = false /\
    actionHandled (eventPropagationState (finalState o)) = true /\
    exists h, effects (finalState o) = HandlerCalled h event :: effects s)).
Proof.
  unfold _callHandlerIfActionNotHandled.
  destruct (bit (keyMapEventBitmap (registered s)) i);
    [|cbn; repeat split; left; split; reflexivity].
  destruct (actionHandled (eventPropagationState s)) eqn:Hh;
    [cbn; rewrite Hh; repeat split; left; split; reflexivity|].
  destruct (_callMatchingHandlerClosestToEventTarget_effects s event keyName i cid)
    as [(Hr & Hc & Hp & Hf & He & Hk) Ho].
  destruct (_callMatchingHandlerClosestToEventTarget env s event keyName i cid)
    as [[|] s'|s']; cbn in *.
  - rewrite Hp. repeat split; try assumption. right. repeat split.
    destruct Ho as [h Ho]; exists h; exact Ho.
  - rewrite Hp, Hh. repeat split; try assumption. left; split; congruence.
  - rewrite Hp, Hh. repeat split; try assumption. left; split; congruence.
Qed.

Lemma _updateEventPropagationHistory_same s cid :
  registered (_updateEventPropagationHistory s cid) = registered s /\
  combinationState (_updateEventPropagationHistory s cid) = combinationState s /\
  resolution (_updateEventPropagationHistory s cid) = resolution s /\
  focusTreeId (_updateEventPropagationHistory s cid) = focusTreeId s /\
  effects (_updateEventPropagationHistory s cid) = effects s.
Proof.
  unfold _updateEventPropagationHistory.
  destruct (_isFocusTreeRoot s cid); repeat split.
Qed.

Lemma firstSighting_same s event type options :
  registered (firstSighting s event type options) = registered s /\
  combinationState (firstSighting s event type options) = combinationState s /\
  resolution (firstSighting s event type options) = resolution s /\
  focusTreeId (firstSighting s event type options) = focusTreeId s.
Proof. repeat split. Qed.

Lemma firstSighting_ignoreEvent s event type options :
  _alreadyEstablishedShouldIgnoreEvent (firstSighting s event type options) =
    ignoreEventsCondition options event.
Proof. reflexivity. Qed.

Lemma _addToCurrentKeyCombination_registered s k i :
  registered (_addToCurrentKeyCombination env s k i) = registered s /\
  focusTreeId (_addToCurrentKeyCombination env s k i) = focusTreeId s.
Proof.
  unfold _addToCurrentKeyCombination.
  destruct (List.length (history s) =? 0)%nat; split; reflexivity.
Qed.

Lemma _startNewKeyCombination_registered s k i :
  registered (_startNewKeyCombination env s k i) = registered s /\
  focusTreeId (_startNewKeyCombination env s k i) = focusTreeId s.
Proof.
  unfold _startNewKeyCombination.
  destruct (longestSequence (registered s) <? List.length (history s))%nat;
    split; reflexivity.
Qed.

Section Maintained.

Variable P : RegisteredKeyMapsState -> list KeyCombinationRecord -> Prop.
Hypothesis HP : maintainedByRecording env P.

Lemma holds_same s s' :
  registered s' = registered s -> combinationState s' = combinationState s ->
  holds P s -> holds P s'.
Proof. unfold holds, history; intros -> ->; trivial. Qed.

Lemma recordKeydown_holds s k :
  holds P s ->
  holds P (recordKeydown env s k) /\
  registered (recordKeydown env s k) = registered s.
Proof.
  intros H; unfold recordKeydown, holds.
  destruct (keydownStartsNewCombination s k).
  - rewrite (proj1 (_startNewKeyCombination_registered s k keydown)).
    split; [apply HP; exact H | reflexivity].
  - rewrite (proj1 (_addToCurrentKeyCombination_registered s k keydown)).
    split; [apply HP; exact H | reflexivity].
Qed.

Lemma recordKeypress_holds s k :
  holds P s ->
  holds P (recordKeypress env s k) /\
  registered (recordKeypress env s k) = registered s.
Proof.
  intros H; unfold recordKeypress, holds.
  destruct (keypressStartsNewCombination s k).
  - rewrite (proj1 (_startNewKeyCombination_registered s k keypress)).
    split; [apply HP; exact H | reflexivity].
  - rewrite (proj1 (_addToCurrentKeyCombination_registered s k keypress)).
    split; [apply HP; exact H | reflexivity].
Qed.

Lemma recordKeyup_holds s k :
  holds P s ->
  holds P (recordKeyup env s k) /\
  registered (recordKeyup env s k) = registered s.
Proof.
  intros H; unfold recordKeyup, holds.
  destruct (keyupStartsNewCombination s k).
  - rewrite (proj1 (_startNewKeyCombination_registered s k keyup)).
    split; [apply HP; exact H | reflexivity].
  - change (registered (withIncludesKeyUp ?x true)) with (registered x).
    change (history (withIncludesKeyUp ?x true)) with (history x).
    rewrite (proj1 (_addToCurrentKeyCombination_registered s k keyup)).
    split; [apply HP; exact H | reflexivity].
Qed.

Lemma callThenUpdate_holds s event k i cid (v : ReturnValue) :
  holds P s ->
  let o :=
    bind (_callHandlerIfActionNotHandled env s event k i cid)
      (fun _ s2 => Returned v (_updateEventPropagationHistory s2 cid)) in
  holds P (finalState o) /\ registered (finalState o) = registered s.
Proof.
  intros H.
  destruct (_callHandlerIfActionNotHandled_cases s event k i cid)
    as (Hr & Hc & _).
  destruct (_callHandlerIfActionNotHandled env s event k i cid) as [[] s'|s'];
    cbn in *.
  - destruct (_updateEventPropagationHistory_same s' cid) as (Hr' & Hc' & _).
    split; [|congruence].
    eapply holds_same; [| |exact H]; congruence.
  - split; [|congruence]. eapply holds_same; eauto.
Qed.

Lemma handleKeypress_holds s event ftid cid options :
  holds P s ->
  holds P (finalState (handleKeypress env s event ftid cid options)) /\
  registered (finalState (handleKeypress env s event ftid cid options)) =
    registered s.
Proof.
  intros H; unfold handleKeypress.
  destruct (negb (ftid =? focusTreeId s)%nat); [split; [exact H|reflexivity]|].
  destruct (_alreadyEstablishedShouldIgnoreEvent s).
  { cbn. destruct (_updateEventPropagationHistory_same s cid) as (Hr & Hc & _).
    split; [eapply holds_same; eauto | exact Hr]. }
  destruct (_isNewKeyEvent s cid); [|apply callThenUpdate_holds; exact H].
  destruct (_alreadyEstablishedShouldIgnoreEvent (firstSighting _ _ _ _)).
  { cbn. destruct (_updateEventPropagationHistory_same
                     (firstSighting s event keypress options) cid)
      as (Hr & Hc & _).
    split; [eapply holds_same; [exact Hr|exact Hc|exact H] | exact Hr]. }
  destruct (recordKeypress_holds (firstSighting s event keypress options)
              (normalizeKeyName env (key event)) H) as [H1 R1].
  destruct (callThenUpdate_holds _ event (normalizeKeyName env (key event))
              keypress cid None H1) as [H2 R2].
  split; [exact H2 | etransitivity; [exact R2 | exact R1]].
Qed.

Lemma handleKeyup_holds s event ftid cid options :
  holds P s ->
  holds P (finalState (handleKeyup env s event ftid cid options)) /\
  registered (finalState (handleKeyup env s event ftid cid options)) =
    registered s.
Proof.
  intros H; unfold handleKeyup.
  destruct (negb (ftid =? focusTreeId s)%nat); [split; [exact H|reflexivity]|].
  destruct (_alreadyEstablishedShouldIgnoreEvent s).
  { cbn. destruct (_updateEventPropagationHistory_same s cid) as (Hr & Hc & _).
    split; [eapply holds_same; eauto | exact Hr]. }
  destruct (_isNewKeyEvent s cid); [|apply callThenUpdate_holds; exact H].
  destruct (_alreadyEstablishedShouldIgnoreEvent (firstSighting _ _ _ _)).
  { cbn. destruct (_updateEventPropagationHistory_same
                     (firstSighting s event keyup options) cid)
      as (Hr & Hc & _).
    split; [eapply holds_same; [exact Hr|exact Hc|exact H] | exact Hr]. }
  destruct (recordKeyup_holds (firstSighting s event keyup options)
              (normalizeKeyName env (key event)) H) as [H1 R1].
  destruct (callThenUpdate_holds _ event (normalizeKeyName env (key event))
              keyup cid None H1) as [H2 R2].
  split; [exact H2 | etransitivity; [exact R2 | exact R1]].
Qed.

Lemma simulateKeypressEvents_holds queue :
  forall s,
    holds P s ->
    holds P (finalState (simulateKeypressEvents env s queue)) /\
    registered (finalState (simulateKeypressEvents env s queue)) = registered s.
Proof.
  induction queue as [|q queue IH]; intros s H; simpl.
  - split; [exact H | reflexivity].
  - destruct (handleKeypress_holds s (simEvent q) (simFocusTreeId q)
                (simComponentId q) (simOptions q) H) as [H1 R1].
    destruct (handleKeypress env s (simEvent q) (simFocusTreeId q)
                (simComponentId q) (simOptions q)) as [v s'|s']; cbn in *.
    + destruct (IH s' H1) as [H2 R2]. split; [exact H2 | congruence].
    + split; assumption.
Qed.

Lemma finishKeydown_holds s event k ftid cid options :
  holds P s ->
  holds P (finalState (finishKeydown env s event k ftid cid options)) /\
  registered (finalState (finishKeydown env s event k ftid cid options)) =
    registered s.
Proof.
  intros H; unfold finishKeydown.
  destruct (_callHandlerIfActionNotHandled_cases s event k keydown cid)
    as (Hr & Hc & _).
  destruct (_callHandlerIfActionNotHandled env s event k keydown cid)
    as [[] s1|s1]; cbn in Hr, Hc |- *;
    [|split; [eapply holds_same; eauto | exact Hr]].
  assert (H1 : holds P s1) by (eapply holds_same; eauto).
  set (s2 := if negb (hasKeyPressEvent env k) && simulateMissingKeyPressEvents env
             then _ else s1).
  assert (H2 : holds P s2 /\ registered s2 = registered s1).
  { subst s2. destruct (_ && _); split; trivial. }
  destruct H2 as [H2 R2].
  destruct (_isFocusTreeRoot s2 cid); cbn.
  - destruct (simulateKeypressEvents_holds
                (keypressEventsToSimulate (combinationState s2)) s2 H2) as [H3 R3].
    destruct (simulateKeypressEvents env s2 _) as [[] s3|s3]; cbn in *.
    + destruct (_updateEventPropagationHistory_same
                  (withKeypressEventsToSimulate s3 []) cid) as (Hr' & Hc' & _).
      split.
      * unfold holds, history in *. rewrite Hr', Hc'. exact H3.
      * rewrite Hr'. change (registered s3 = registered s). congruence.
    + split; [exact H3 | congruence].
  - destruct (_updateEventPropagationHistory_same s2 cid) as (Hr' & Hc' & _).
    split; [|congruence]. eapply holds_same; eauto.
Qed.

Lemma handleKeydown_holds s event ftid cid options :
  holds P s ->
  holds P (finalState (handleKeydown env s event ftid cid options)) /\
  registered (finalState (handleKeydown env s event ftid cid options)) =
    registered s.
Proof.
  intros H; unfold handleKeydown.
  destruct (negb (ftid =? focusTreeId s)%nat); [split; [exact H|reflexivity]|].
  destruct (_alreadyEstablishedShouldIgnoreEvent s).
  { cbn. destruct (_updateEventPropagationHistory_same s cid) as (Hr & Hc & _).
    split; [eapply holds_same; eauto | exact Hr]. }
  destruct (_isNewKeyEvent s cid); [|apply finishKeydown_holds; exact H].
  destruct (_alreadyEstablishedShouldIgnoreEvent (firstSighting _ _ _ _)).
  { cbn. destruct (_updateEventPropagationHistory_same
                     (firstSighting s event keydown options) cid)
      as (Hr & Hc & _).
    split; [eapply holds_same; [exact Hr|exact Hc|exact H] | exact Hr]. }
  destruct (recordKeydown_holds (firstSighting s event keydown options)
              (normalizeKeyName env (key event)) H) as [H1 R1].
  destruct (finishKeydown_holds _ event (normalizeKeyName env (key event))
              ftid cid options H1) as [H2 R2].
  split; [exact H2 | etransitivity; [exact R2 | exact R1]].
Qed.

Lemma handleKeyEvents_holds calls :
  forall s,
    holds P s ->
    holds P (handleKeyEvents env s calls) /\
    registered (handleKeyEvents env s calls) = registered s.
Proof.
  induction calls as [|c calls IH]; intros s H; simpl.
  - split; [exact H | reflexivity].
  - assert (H1 : holds P (finalState (handleKeyEvent env s c)) /\
                 registered (finalState (handleKeyEvent env s c)) = registered s).
    { unfold handleKeyEvent; destruct (callType c);
        [apply handleKeydown_holds | apply handleKeypress_holds
        | apply handleKeyup_holds]; exact H. }
    destruct H1 as [H1 R1]. destruct (IH _ H1) as [H2 R2].
    split; [exact H2 | congruence].
Qed.

End Maintained.

(** ** The bound on the key combination history *)

Lemma removelast_length {A} (l : list A) :
  List.length (removelast l) = List.length l - 1.
Proof.
  induction l as [|x l IH]; [reflexivity|].
  destruct l as [|y l]; [reflexivity|].
  change (removelast (x :: y :: l)) with (x :: removelast (y :: l)).
  simpl List.length in *. rewrite IH. lia.
Qed.

Lemma replaceLast_length {A} (l : list A) x :
  l <> [] -> List.length (replaceLast l x) = List.length l.
Proof.
  intros Hl; unfold replaceLast.
  rewrite length_app, removelast_length; simpl.
  destruct l; [congruence | simpl; lia].
Qed.

Lemma _addToCurrentKeyCombination_length s k i :
  List.length (history (_addToCurrentKeyCombination env s k i)) =
    Nat.max 1 (List.length (history s)).
Proof.
  unfold _addToCurrentKeyCombination.
  destruct (List.length (history s) =? 0)%nat eqn:E.
  - apply Nat.eqb_eq in E.
    change (history (withHistory ?x ?h)) with h.
    rewrite replaceLast_length.
    + change (history (withHistory s ?h)) with h.
      rewrite length_app, E. reflexivity.
    + change (history (withHistory s ?h)) with h.
      destruct (history s); discriminate.
  - apply Nat.eqb_neq in E.
    change (history (withHistory s ?h)) with h.
    rewrite replaceLast_length; [lia|].
    intros Hn; rewrite Hn in E; apply E; reflexivity.
Qed.

Lemma _startNewKeyCombination_history s k i :
  history (_startNewKeyCombination env s k i) =
    (if (longestSequence (registered s) <? List.length (history s))%nat
     then tl (history s) else history s)
    ++ [_getCurrentKeyCombination (_startNewKeyCombination env s k i)].
Proof.
  unfold _startNewKeyCombination.
  destruct (longestSequence (registered s) <? List.length (history s))%nat.
  - set (c := mkCombination _ _).
    change (history (withIncludesKeyUp (withHistory ?x ?h) false)) with h.
    unfold _getCurrentKeyCombination.
    change (history (withIncludesKeyUp (withHistory ?x ?h) false)) with h.
    change (history (withHistory s ?h)) with h.
    rewrite length_app, last_last; simpl.
    replace (0 <? _)%nat with true; [reflexivity|].
    symmetry; apply Nat.ltb_lt; lia.
  - set (c := mkCombination _ _).
    change (history (withIncludesKeyUp (withHistory ?x ?h) false)) with h.
    unfold _getCurrentKeyCombination.
    change (history (withIncludesKeyUp (withHistory ?x ?h) false)) with h.
    rewrite length_app, last_last; simpl.
    replace (0 <? _)%nat with true; [reflexivity|].
    symmetry; apply Nat.ltb_lt; lia.
Qed.

Lemma tl_length {A} (l : list A) : List.length (tl l) = List.length l - 1.
Proof. destruct l; simpl; lia. Qed.

Lemma historyBounded_maintained : maintainedByRecording env historyBounded.
Proof.
  intros s k i H; unfold historyBounded in *; split.
  - rewrite _addToCurrentKeyCombination_length. lia.
  - rewrite _startNewKeyCombination_history, length_app; simpl.
    destruct (longestSequence (registered s) <? List.length (history s))%nat eqn:E.
    + rewrite tl_length. lia.
    + apply Nat.ltb_ge in E. lia.
Qed.

(** C3. With the registered components fixed, the key combination
    history holds at most [longestSequence + 1] combinations after any
    series of keydown, keypress and keyup calls, whether they return or
    throw; and a new combination that starts when the history is longer
    than [longestSequence] replaces the oldest entry: the history becomes
    its tail followed by the new combination. *)
Theorem history_never_exceeds_longest_sequence :
  forall s,
    List.length (history s) <= longestSequence (registered s) + 1 ->
    (forall calls,
        registered (handleKeyEvents env s calls) = registered s /\
        List.length (history (handleKeyEvents env s calls))
          <= longestSequence (registered s) + 1) /\
    (forall keyName i,
        longestSequence (registered s) < List.length (history s) ->
        history (_startNewKeyCombination env s keyName i) =
          tl (history s)
          ++ [_getCurrentKeyCombination
                (_startNewKeyCombination env s keyName i)]).
Proof.
  intros s H; split.
  - intros calls.
    destruct (handleKeyEvents_holds historyBounded historyBounded_maintained
                calls s H) as [H1 R1].
    split; [exact R1|]. unfold holds, historyBounded in H1.
    rewrite R1 in H1. exact H1.
  - intros k i Hlt. rewrite _startNewKeyCombination_history.
    apply Nat.ltb_lt in Hlt. rewrite Hlt. reflexivity.
Qed.

(** ** JavaScript objects: reading what was written *)

Lemma JsObject_get_set_same {V} (o : JsObject.t V) k v :
  JsObject.get (JsObject.set o k v) k = Some v.
Proof.
  induction o as [|[k' v'] o IH]; simpl.
  - rewrite String.eqb_refl; reflexivity.
  - destruct (String.eqb k k') eqn:E; simpl; rewrite E; [reflexivity | exact IH].
Qed.

Lemma JsObject_get_set_other {V} (o : JsObject.t V) k k' v :
  k' <> k -> JsObject.get (JsObject.set o k v) k' = JsObject.get o k'.
Proof.
  intros Hne; induction o as [|[k0 v0] o IH]; simpl.
  - destruct (String.eqb k' k) eqn:E; [apply String.eqb_eq in E; congruence|].
    reflexivity.
  - destruct (String.eqb k k0) eqn:E; simpl.
    + apply String.eqb_eq in E; subst k0.
      destruct (String.eqb k' k) eqn:E'; [apply String.eqb_eq in E'; congruence|].
      reflexivity.
    + rewrite IH; reflexivity.
Qed.

Lemma JsObject_get_set {V} (o : JsObject.t V) k k' v :
  JsObject.get (JsObject.set o k v) k' =
    if String.eqb k' k then Some v else JsObject.get o k'.
Proof.
  destruct (String.eqb k' k) eqn:E.
  - apply String.eqb_eq in E; subst. apply JsObject_get_set_same.
  - apply String.eqb_neq in E. apply JsObject_get_set_other; exact E.
Qed.

Lemma JsObject_has_set {V} (o : JsObject.t V) k k' v :
  JsObject.has o k' = true -> JsObject.has (JsObject.set o k v) k' = true.
Proof.
  unfold JsObject.has. rewrite JsObject_get_set.
  destruct (String.eqb k' k); [reflexivity | trivial].
Qed.

Lemma JsObject_get_In {V} (o : JsObject.t V) k v :
  JsObject.get o k = Some v -> In k (map fst o).
Proof.
  induction o as [|[k' v'] o IH]; simpl; [discriminate|].
  destruct (String.eqb k k') eqn:E.
  - apply String.eqb_eq in E; subst; auto.
  - auto.
Qed.

Lemma JsObject_In_get {V} (o : JsObject.t V) k :
  In k (map fst o) -> exists v, JsObject.get o k = Some v.
Proof.
  induction o as [|[k' v'] o IH]; simpl; [tauto|].
  intros [->|H].
  - rewrite String.eqb_refl; eauto.
  - destruct (String.eqb k k'); eauto.
Qed.

Lemma insertIndex_In n k l x :
  In x (map snd (JsObject.insertIndex n k l)) <-> x = k \/ In x (map snd l).
Proof.
  induction l as [|[m k'] l IH]; simpl.
  - intuition congruence.
  - destruct (n <? m)%N; simpl; [intuition congruence|].
    rewrite IH; intuition congruence.
Qed.

(** [Object.keys] lists the names of the properties, each of them. *)
Lemma JsObject_keys_In {V} (o : JsObject.t V) k :
  In k (JsObject.keys o) <-> In k (map fst o).
Proof.
  unfold JsObject.keys; rewrite in_app_iff.
  induction o as [|[k' v'] o IH]; simpl; [tauto|].
  destruct (JsObject.arrayIndex k') eqn:E; simpl.
  - rewrite insertIndex_In. intuition congruence.
  - intuition congruence.
Qed.

Lemma JsObject_keys_has {V} (o : JsObject.t V) k :
  In k (JsObject.keys o) <-> JsObject.has o k = true.
Proof.
  rewrite JsObject_keys_In; unfold JsObject.has; split.
  - intros H; destruct (JsObject_In_get o k H) as [v ->]; reflexivity.
  - destruct (JsObject.get o k) eqn:E; [|discriminate].
    intros _; eapply JsObject_get_In; eauto.
Qed.

Lemma copyWhere_get_notin {V} keep (o : JsObject.t V) names :
  forall memo k,
    ~ In k names ->
    JsObject.get (copyWhere keep o names memo) k = JsObject.get memo k.
Proof.
  induction names as [|n names IH]; intros memo k Hn; simpl; [reflexivity|].
  unfold copyWhere in *; simpl.
  rewrite IH by (intros H; apply Hn; right; exact H).
  assert (k <> n) by (intros ->; apply Hn; left; reflexivity).
  destruct (JsObject.get o n) as [v|]; [|reflexivity].
  destruct (keep v); [|reflexivity].
  apply JsObject_get_set_other; assumption.
Qed.

Lemma copyWhere_get_in {V} keep (o : JsObject.t V) names :
  forall memo k v,
    In k names -> JsObject.get o k = Some v ->
    JsObject.get (copyWhere keep o names memo) k =
      if keep v then Some v else JsObject.get memo k.
Proof.
  induction names as [|n names IH]; intros memo k v Hin Hget; [destruct Hin|].
  unfold copyWhere in *; simpl.
  destruct (in_dec string_dec k names) as [Hk|Hk].
  - rewrite (IH _ k v Hk Hget).
    destruct (keep v) eqn:Ek; [reflexivity|].
    destruct (string_dec k n) as [->|Hne].
    + rewrite Hget, Ek; reflexivity.
    + destruct (JsObject.get o n) as [v'|]; [|reflexivity].
      destruct (keep v'); [|reflexivity].
      apply JsObject_get_set_other; assumption.
  - destruct Hin as [->|Hin]; [|contradiction].
    fold (copyWhere keep o names
            (match JsObject.get o k with
             | Some v0 => if keep v0 then JsObject.set memo k v0 else memo
             | None => memo
             end)).
    rewrite copyWhere_get_notin by assumption.
    rewrite Hget. destruct (keep v); [apply JsObject_get_set_same | reflexivity].
Qed.

(** Reading a property of the copy of the properties that satisfy
    [keep]. *)
Lemma copyWhere_keys_get {V} keep (o : JsObject.t V) k :
  JsObject.get (copyWhere keep o (JsObject.keys o) JsObject.empty) k =
    match JsObject.get o k with
    | Some v => if keep v then Some v else None
    | None => None
    end.
Proof.
  destruct (JsObject.get o k) as [v|] eqn:E.
  - rewrite (copyWhere_get_in keep o (JsObject.keys o) JsObject.empty k v);
      [reflexivity| |exact E].
    apply JsObject_keys_In. eapply JsObject_get_In; eauto.
  - rewrite copyWhere_get_notin; [reflexivity|].
    intros H. apply JsObject_keys_In, JsObject_In_get in H.
    destruct H as [v H]; congruence.
Qed.



(** ** Starting a new combination *)

Lemma last_tl {A} (l : list A) d :
  2 <= List.length l -> last (tl l) d = last l d.
Proof.
  destruct l as [|x [|y l]]; simpl; intros H; try lia. reflexivity.
Qed.

Lemma _getCurrentKeyCombination_push s h c :
  _getCurrentKeyCombination (withHistory s (h ++ [c])) = c.
Proof.
  unfold _getCurrentKeyCombination.
  change (history (withHistory s ?x)) with x.
  rewrite length_app, last_last; simpl.
  replace (0 <? _)%nat with true; [reflexivity|].
  symmetry; apply Nat.ltb_lt; lia.
Qed.

(** The combination the new one is derived from is the current one, also
    when the oldest entry has just been dropped. *)
Lemma _getCurrentKeyCombination_shift s :
  1 <= longestSequence (registered s) ->
  _getCurrentKeyCombination
    (if (longestSequence (registered s) <? List.length (history s))%nat
     then withHistory s (tl (history s)) else s)
  = _getCurrentKeyCombination s.
Proof.
  intros HL.
  destruct (longestSequence (registered s) <? List.length (history s))%nat eqn:E;
    [|reflexivity].
  apply Nat.ltb_lt in E.
  unfold _getCurrentKeyCombination.
  change (history (withHistory s ?x)) with x.
  rewrite tl_length, last_tl by lia.
  replace (0 <? List.length (history s) - 1)%nat with true
    by (symmetry; apply Nat.ltb_lt; lia).
  replace (0 <? List.length (history s))%nat with true
    by (symmetry; apply Nat.ltb_lt; lia).
  reflexivity.
Qed.

Lemma _startNewKeyCombination_current s keyName i :
  1 <= longestSequence (registered s) ->
  let keys' :=
    JsObject.set (spread (_withoutKeyUps (_getCurrentKeyCombination s)))
      keyName (newKeyState env i) in
  _getCurrentKeyCombination (_startNewKeyCombination env s keyName i) =
    mkCombination keys' (serialize env keys').
Proof.
  intros HL keys'. unfold _startNewKeyCombination.
  set (s1 := if (_ <? _)%nat then _ else s).
  assert (H1 : _getCurrentKeyCombination s1 = _getCurrentKeyCombination s)
    by (apply _getCurrentKeyCombination_shift; exact HL).
  rewrite H1.
  change (_getCurrentKeyCombination (withIncludesKeyUp ?x false))
    with (_getCurrentKeyCombination x).
  apply _getCurrentKeyCombination_push.
Qed.


(** ** The decision taken on a keydown *)

Lemma _isFocusTreeRoot_registered s s' cid :
  registered s' = registered s ->
  _isFocusTreeRoot s' cid = _isFocusTreeRoot s cid.
Proof. unfold _isFocusTreeRoot; intros ->; reflexivity. Qed.

(** Below the root of the focus tree, what follows the recording of a
    keydown leaves the key combination history as it is. *)
Lemma finishKeydown_history s event k ftid cid options :
  _isFocusTreeRoot s cid = false ->
  let s' := finalState (finishKeydown env s event k ftid cid options) in
  history s' = history s /\
  keyCombinationIncludesKeyUp (combinationState s') =
    keyCombinationIncludesKeyUp (combinationState s).
Proof.
  intros Hroot; unfold finishKeydown.
  destruct (_callHandlerIfActionNotHandled_cases s event k keydown cid)
    as (Hr & Hc & _).
  destruct (_callHandlerIfActionNotHandled env s event k keydown cid)
    as [[] s1|s1]; cbn in Hr, Hc |- *;
    [|unfold history; rewrite Hc; split; reflexivity].
  set (s2 := if negb (hasKeyPressEvent env k) && simulateMissingKeyPressEvents env
             then _ else s1).
  assert (H2 : registered s2 = registered s1 /\ history s2 = history s1 /\
               keyCombinationIncludesKeyUp (combinationState s2) =
                 keyCombinationIncludesKeyUp (combinationState s1)).
  { subst s2. destruct (_ && _); repeat split. }
  destruct H2 as (R2 & H2 & F2).
  rewrite (_isFocusTreeRoot_registered s s2 cid) by congruence.
  rewrite Hroot; cbn.
  destruct (_updateEventPropagationHistory_same s2 cid) as (_ & Hc' & _).
  unfold history in *. rewrite Hc', H2, F2, Hc. split; reflexivity.
Qed.

(** The decision of [handleKeydown]. A keydown of the current focus tree
    that is seen for the first time and is not ignored is recorded before
    the handlers are searched: it starts a new combination exactly when
    its key is part of the current combination or the flag
    [keyCombinationIncludesKeyUp] is set, and is added to the current
    combination otherwise; below the root of the focus tree this is the
    key combination history the call leaves. *)
Theorem keydown_starts_or_extends_combination :
  forall s event ftid cid options,
    ftid = focusTreeId s ->
    ignoreEvent (eventPropagationState s) = false ->
    _isNewKeyEvent s cid = true ->
    ignoreEventsCondition options event = false ->
    let k := normalizeKeyName env (key event) in
    let s1 := firstSighting s event keydown options in
    let inCombination := JsObject.has (keys (_getCurrentKeyCombination s)) k in
    let includesKeyUp := keyCombinationIncludesKeyUp (combinationState s) in
    handleKeydown env s event ftid cid options =
      finishKeydown env (recordKeydown env s1 k) event k ftid cid options /\
    (inCombination || includesKeyUp = true ->
     recordKeydown env s1 k = _startNewKeyCombination env s1 k keydown) /\
    (inCombination || includesKeyUp = false ->
     recordKeydown env s1 k = _addToCurrentKeyCombination env s1 k keydown) /\
    (_isFocusTreeRoot s cid = false ->
     history (finalState (handleKeydown env s event ftid cid options)) =
       history (recordKeydown env s1 k)).
Proof.
  intros s event ftid cid options Hft Hig Hnew Hcond k s1 inC incl.
  assert (Hcall : handleKeydown env s event ftid cid options =
                    finishKeydown env (recordKeydown env s1 k) event k ftid cid
                      options).
  { unfold handleKeydown. subst ftid. rewrite Nat.eqb_refl; simpl.
    unfold _alreadyEstablishedShouldIgnoreEvent at 1. rewrite Hig, Hnew.
    rewrite firstSighting_ignoreEvent, Hcond. reflexivity. }
  split; [exact Hcall|].
  assert (Hdec : keydownStartsNewCombination s1 k = inC || incl) by reflexivity.
  split; [|split].
  - intros H. unfold recordKeydown. rewrite Hdec, H. reflexivity.
  - intros H. unfold recordKeydown. rewrite Hdec, H. reflexivity.
  - intros Hroot. rewrite Hcall.
    apply finishKeydown_history.
    rewrite <- Hroot. apply _isFocusTreeRoot_registered.
    unfold recordKeydown. destruct (keydownStartsNewCombination s1 k).
    + exact (proj1 (_startNewKeyCombination_registered s1 k keydown)).
    + exact (proj1 (_addToCurrentKeyCombination_registered s1 k keydown)).
Qed.

(** ** The bits of a key within one combination *)

Lemma _addToCurrentKeyCombination_current s keyName i :
  let c := _getCurrentKeyCombination s in
  let keys' :=
    match JsObject.get (keys c) keyName with
    | None => JsObject.set (keys c) keyName (newKeyState env i)
    | Some existing =>
        JsObject.set (keys c) keyName
          (mkKeyState (KeyEventBitmapManager.clone (current existing))
             (newBitmap env (Some i)))
    end in
  _getCurrentKeyCombination (_addToCurrentKeyCombination env s keyName i) =
    mkCombination keys' (serialize env keys').
Proof.
  intros c keys'. unfold _addToCurrentKeyCombination.
  destruct (List.length (history s) =? 0)%nat eqn:E.
  - apply Nat.eqb_eq in E.
    assert (Hc : _getCurrentKeyCombination
                   (withHistory s (history s ++ [emptyKeyCombination])) = c).
    { rewrite _getCurrentKeyCombination_push. subst c.
      unfold _getCurrentKeyCombination. rewrite E. reflexivity. }
    rewrite Hc. unfold replaceLast.
    change (withHistory (withHistory s ?a) ?b) with (withHistory s b).
    apply _getCurrentKeyCombination_push.
  - unfold replaceLast. apply _getCurrentKeyCombination_push.
Qed.

(** The keys of the combination after an event was added to it. *)
Lemma _addToCurrentKeyCombination_get s keyName i k :
  JsObject.get
    (keys (_getCurrentKeyCombination
             (_addToCurrentKeyCombination env s keyName i))) k =
    if String.eqb k keyName then
      Some (match JsObject.get (keys (_getCurrentKeyCombination s)) keyName with
            | None => newKeyState env i
            | Some existing =>
                mkKeyState (KeyEventBitmapManager.clone (current existing))
                  (newBitmap env (Some i))
            end)
    else JsObject.get (keys (_getCurrentKeyCombination s)) k.
Proof.
  rewrite _addToCurrentKeyCombination_current; simpl.
  destruct (String.eqb k keyName) eqn:E.
  - apply String.eqb_eq in E; subst k.
    destruct (JsObject.get (keys (_getCurrentKeyCombination s)) keyName);
      apply JsObject_get_set_same.
  - apply String.eqb_neq in E.
    destruct (JsObject.get (keys (_getCurrentKeyCombination s)) keyName);
      apply JsObject_get_set_other; exact E.
Qed.

Lemma recordKeyEvent_adds type s k :
  startsNewCombination type s k = false ->
  _getCurrentKeyCombination (recordKeyEvent env type s k) =
    _getCurrentKeyCombination (_addToCurrentKeyCombination env s k type).
Proof.
  destruct type; simpl; intros H.
  - unfold recordKeydown; rewrite H; reflexivity.
  - unfold recordKeypress; rewrite H; reflexivity.
  - unfold recordKeyup; rewrite H; reflexivity.
Qed.


(** ** First sightings *)

Lemma _updateEventPropagationHistory_counter s cid :
  keyEventCounter (_updateEventPropagationHistory s cid) = keyEventCounter s.
Proof.
  unfold _updateEventPropagationHistory.
  destruct (_isFocusTreeRoot s cid); reflexivity.
Qed.

Lemma ignoreEventsConditionCalls_effects s s' :
  effects s' = effects s ->
  ignoreEventsConditionCalls s' = ignoreEventsConditionCalls s.
Proof. unfold ignoreEventsConditionCalls; intros ->; reflexivity. Qed.

Lemma handlerCalls_effects s s' :
  effects s' = effects s -> handlerCalls s' = handlerCalls s.
Proof. unfold handlerCalls; intros ->; reflexivity. Qed.

Lemma _callHandlerIfActionNotHandled_ignoreCalls s event k i cid :
  ignoreEventsConditionCalls
    (finalState (_callHandlerIfActionNotHandled env s event k i cid)) =
  ignoreEventsConditionCalls s.
Proof.
  destruct (_callHandlerIfActionNotHandled_cases s event k i cid)
    as (_ & _ & _ & _ & _ & _ & [[He _]|(_ & _ & h & He)]).
  - apply ignoreEventsConditionCalls_effects; exact He.
  - unfold ignoreEventsConditionCalls; rewrite He; reflexivity.
Qed.

Lemma callThenUpdate_sameRecord s event k i cid (v : ReturnValue) :
  sameRecord s
    (finalState
       (bind (_callHandlerIfActionNotHandled env s event k i cid)
          (fun _ s2 => Returned v (_updateEventPropagationHistory s2 cid)))).
Proof.
  pose proof (_callHandlerIfActionNotHandled_ignoreCalls s event k i cid) as Hi.
  destruct (_callHandlerIfActionNotHandled_cases s event k i cid)
    as (Hr & Hc & _ & Hk & _).
  destruct (_callHandlerIfActionNotHandled env s event k i cid) as [[] s'|s'];
    cbn in *; [|repeat split; assumption].
  destruct (_updateEventPropagationHistory_same s' cid)
    as (Hr' & Hc' & _ & _ & He').
  repeat split; try congruence.
  - rewrite _updateEventPropagationHistory_counter; exact Hk.
  - rewrite (ignoreEventsConditionCalls_effects _ _ He'); exact Hi.
Qed.

Lemma update_sameRecord s cid :
  sameRecord s (_updateEventPropagationHistory s cid).
Proof.
  destruct (_updateEventPropagationHistory_same s cid) as (Hr & Hc & _ & _ & He).
  repeat split; try assumption.
  - apply _updateEventPropagationHistory_counter.
  - apply ignoreEventsConditionCalls_effects; exact He.
Qed.

Lemma finishKeydown_sameRecord s event k ftid cid options :
  replaysKeypress env s keydown k cid = false ->
  sameRecord s (finalState (finishKeydown env s event k ftid cid options)) \/
  (exists q,
      let s' := finalState (finishKeydown env s event k ftid cid options) in
      registered s' = registered s /\
      combinationState s' =
        mkCombinations (keyCombinationIncludesKeyUp (combinationState s)) q
          (history s) /\
      keyEventCounter s' = keyEventCounter s /\
      ignoreEventsConditionCalls s' = ignoreEventsConditionCalls s).
Proof.
  intros Hrep; unfold finishKeydown.
  pose proof (_callHandlerIfActionNotHandled_ignoreCalls s event k keydown cid)
    as Hi.
  destruct (_callHandlerIfActionNotHandled_cases s event k keydown cid)
    as (Hr & Hc & _ & Hk & _).
  destruct (_callHandlerIfActionNotHandled env s event k keydown cid)
    as [[] s1|s1]; cbn in Hr, Hc, Hk, Hi |- *;
    [|left; repeat split; assumption].
  simpl in Hrep.
  destruct (negb (hasKeyPressEvent env k) && simulateMissingKeyPressEvents env)
    eqn:Esim.
  - rewrite orb_true_l, andb_true_r in Hrep.
    rewrite (_isFocusTreeRoot_registered s _ cid) by exact Hr.
    rewrite Hrep; cbn. right. eexists.
    set (s2 := withKeypressEventsToSimulate s1 _).
    destruct (_updateEventPropagationHistory_same s2 cid)
      as (Hr' & Hc' & _ & _ & He').
    rewrite Hr', Hc', _updateEventPropagationHistory_counter,
      (ignoreEventsConditionCalls_effects _ _ He').
    subst s2; cbn. unfold history. rewrite Hc.
    repeat split; try assumption.
  - rewrite orb_false_l in Hrep.
    rewrite (_isFocusTreeRoot_registered s s1 cid) by exact Hr.
    destruct (_isFocusTreeRoot s cid) eqn:Eroot; cbn.
    + simpl in Hrep. rewrite Hc.
      destruct (keypressEventsToSimulate (combinationState s)); [|discriminate].
      cbn. right. exists [].
      set (s2 := withKeypressEventsToSimulate s1 []).
      destruct (_updateEventPropagationHistory_same s2 cid)
        as (Hr' & Hc' & _ & _ & He').
      rewrite Hr', Hc', _updateEventPropagationHistory_counter,
        (ignoreEventsConditionCalls_effects _ _ He').
      subst s2; cbn. unfold history. rewrite Hc.
      repeat split; try assumption.
    + left. destruct (update_sameRecord s1 cid) as (A & B & C & D).
      repeat split; congruence.
Qed.

Lemma recordKeyEvent_frame type s k :
  let s' := recordKeyEvent env type s k in
  registered s' = registered s /\
  keyEventCounter s' = keyEventCounter s /\
  effects s' = effects s /\
  eventPropagationState s' = eventPropagationState s /\
  keypressEventsToSimulate (combinationState s') =
    keypressEventsToSimulate (combinationState s) /\
  resolution s' = resolution s /\
  focusTreeId s' = focusTreeId s.
Proof.
  destruct type; simpl;
    unfold recordKeydown, recordKeypress, recordKeyup;
    match goal with |- context [if ?b then _ else _] => destruct b end;
    unfold _startNewKeyCombination, _addToCurrentKeyCombination;
    match goal with |- context [if ?b then _ else _] => destruct b end;
    repeat split.
Qed.

(** The recording step depends on the registered key maps and the
    combination state only. *)
Lemma recordKeyEvent_history type s s' k :
  registered s' = registered s ->
  combinationState s' = combinationState s ->
  history (recordKeyEvent env type s' k) = history (recordKeyEvent env type s k).
Proof.
  intros Hr Hc.
  destruct type; simpl;
    unfold recordKeydown, recordKeypress, recordKeyup,
      keydownStartsNewCombination, keypressStartsNewCombination,
      keyupStartsNewCombination, _getCurrentKeyCombination, history;
    rewrite Hc;
    match goal with |- context [if ?b then _ else _] => destruct b end;
    unfold _startNewKeyCombination, _addToCurrentKeyCombination,
      _getCurrentKeyCombination, history; cbn; rewrite ?Hc, ?Hr;
    match goal with
    | |- context [if ?b then _ else _] => destruct b; cbn; rewrite ?Hc
    | _ => idtac
    end; reflexivity.
Qed.

Lemma sameRecord_recordsNothing s s' : sameRecord s s' -> recordsNothing s s'.
Proof.
  intros (_ & Hc & Hk & Hi); unfold recordsNothing, history.
  rewrite Hc; repeat split; assumption.
Qed.

Lemma finishKeydown_recordsNothing s event k ftid cid options :
  replaysKeypress env s keydown k cid = false ->
  recordsNothing s (finalState (finishKeydown env s event k ftid cid options)).
Proof.
  intros H.
  destruct (finishKeydown_sameRecord s event k ftid cid options H)
    as [Hs|(q & _ & Hc & Hk & Hi)].
  - apply sameRecord_recordsNothing; exact Hs.
  - unfold recordsNothing, history. rewrite Hc. repeat split; assumption.
Qed.

Lemma afterRecording_recordsNothing type s event k ftid cid options :
  replaysKeypress env s type k cid = false ->
  recordsNothing s (finalState (afterRecording env type s event k ftid cid options)).
Proof.
  destruct type; intros H; simpl.
  - apply finishKeydown_recordsNothing; exact H.
  - apply sameRecord_recordsNothing, callThenUpdate_sameRecord.
  - apply sameRecord_recordsNothing, callThenUpdate_sameRecord.
Qed.

(** The three handlers, read as one: the checks, the first sighting, the
    recording step and what follows it. *)
Lemma handleKeyEvent_unfold type s event ftid cid options :
  handleKeyEvent env s (mkCall type event ftid cid options) =
    let k := normalizeKeyName env (key event) in
    if negb (ftid =? focusTreeId s)%nat then Returned (Some true) s
    else if _alreadyEstablishedShouldIgnoreEvent s then
      Returned (match type with keydown => Some false | _ => None end)
        (_updateEventPropagationHistory s cid)
    else if _isNewKeyEvent s cid then
      let s1 := firstSighting s event type options in
      if _alreadyEstablishedShouldIgnoreEvent s1 then
        Returned (match type with keydown => Some false | _ => None end)
          (_updateEventPropagationHistory s1 cid)
      else afterRecording env type (recordKeyEvent env type s1 k) event k ftid cid
             options
    else afterRecording env type s event k ftid cid options.
Proof.
  destruct type; unfold handleKeyEvent; simpl;
    unfold handleKeydown, handleKeypress, handleKeyup;
    destruct (negb (ftid =? focusTreeId s)%nat); try reflexivity;
    destruct (_alreadyEstablishedShouldIgnoreEvent s); try reflexivity;
    destruct (_isNewKeyEvent s cid); reflexivity.
Qed.

Lemma replaysKeypress_recorded type s event options k k' cid :
  replaysKeypress env
    (recordKeyEvent env type (firstSighting s event type options) k') type k cid
  = replaysKeypress env s type k cid.
Proof.
  destruct (recordKeyEvent_frame type (firstSighting s event type options) k')
    as (Hr & _ & _ & _ & Hq & _).
  destruct type; simpl; try reflexivity.
  simpl in Hq, Hr. rewrite Hq.
  rewrite (_isFocusTreeRoot_registered s _ cid) by exact Hr.
  reflexivity.
Qed.

(** A call that replays no keypress leaves the key combination history
    as it was, or as the recording step of its handler makes it: for an
    event of the current focus tree that is new and not ignored. *)
Lemma handleKeyEvent_history type s event ftid cid options :
  let k := normalizeKeyName env (key event) in
  replaysKeypress env s type k cid = false ->
  let s' :=
    finalState (handleKeyEvent env s (mkCall type event ftid cid options)) in
  history s' = history s \/
  (ftid = focusTreeId s /\
   ignoreEvent (eventPropagationState s) = false /\
   _isNewKeyEvent s cid = true /\
   ignoreEventsCondition options event = false /\
   history s' = history (recordKeyEvent env type s k)).
Proof.
  intros k Hrep. cbv zeta. rewrite handleKeyEvent_unfold. cbv zeta. fold k.
  destruct (ftid =? focusTreeId s)%nat eqn:Hft; simpl negb; cbv iota;
    [|left; reflexivity].
  apply Nat.eqb_eq in Hft.
  change (_alreadyEstablishedShouldIgnoreEvent s)
    with (ignoreEvent (eventPropagationState s)).
  destruct (ignoreEvent (eventPropagationState s)) eqn:Hig.
  { left. apply (sameRecord_recordsNothing _ _ (update_sameRecord s cid)). }
  destruct (_isNewKeyEvent s cid) eqn:Hnew.
  - rewrite firstSighting_ignoreEvent.
    destruct (ignoreEventsCondition options event) eqn:Hcond.
    + left.
      apply (sameRecord_recordsNothing _ _
               (update_sameRecord (firstSighting s event type options) cid)).
    + right. split; [exact Hft|]. do 3 (split; [reflexivity|]).
      destruct (afterRecording_recordsNothing type
                  (recordKeyEvent env type
                     (firstSighting s event type options) k)
                  event k ftid cid options) as (Hh & _).
      { rewrite replaysKeypress_recorded. exact Hrep. }
      etransitivity; [exact Hh|]. apply recordKeyEvent_history; reflexivity.
  - left. apply afterRecording_recordsNothing. exact Hrep.
Qed.

(** C4. Provided [newBitmap] is cumulative, an event that the handlers
    add to the current combination clears no bit of the current bitmap of
    any key of the combination: a key that had a bit set before the event
    is still in the combination afterwards, with that bit set.  The
    handlers change the key combination history by this recording step
    only: a call that replays no keypress leaves the history as it was,
    or as the recording step makes it. *)
Theorem current_bits_are_kept_within_a_combination :
  cumulativeBitmaps env ->
  (forall type s keyName,
      startsNewCombination type s keyName = false ->
      forall k keyState b,
        JsObject.get (keys (_getCurrentKeyCombination s)) k = Some keyState ->
        bit (current keyState) b = true ->
        exists keyState',
          JsObject.get
            (keys (_getCurrentKeyCombination
                     (recordKeyEvent env type s keyName)))
            k = Some keyState' /\
          bit (current keyState') b = true) /\
  (forall type s event ftid cid options,
      replaysKeypress env s type (normalizeKeyName env (key event)) cid = false ->
      let s' :=
        finalState (handleKeyEvent env s (mkCall type event ftid cid options)) in
      history s' = history s \/
      history s' =
        history (recordKeyEvent env type s (normalizeKeyName env (key event)))).
Proof.
  intros Hcum. split.
  2:{ intros type s event ftid cid options Hrep.
      destruct (handleKeyEvent_history type s event ftid cid options Hrep)
        as [H|(_ & _ & _ & _ & H)]; [left | right]; exact H. }
  intros type s keyName Hadd k keyState b Hget Hbit.
  rewrite (recordKeyEvent_adds type s keyName Hadd).
  rewrite _addToCurrentKeyCombination_get.
  destruct (String.eqb k keyName) eqn:E; [|exists keyState; split; assumption].
  apply String.eqb_eq in E; subst k. rewrite Hget.
  eexists; split; [reflexivity|]. simpl.
  destruct type; simpl in Hadd.
  - unfold keydownStartsNewCombination, JsObject.has in Hadd.
    rewrite Hget in Hadd. discriminate.
  - unfold keypressStartsNewCombination in Hadd. rewrite Hget in Hadd.
    apply orb_false_iff in Hadd. destruct Hadd as [Hp Hu].
    destruct b; [apply Hcum; simpl; lia | congruence | congruence].
  - unfold keyupStartsNewCombination in Hadd. rewrite Hget in Hadd.
    destruct b; [apply Hcum; simpl; lia | apply Hcum; simpl; lia | congruence].
Qed.

(** C2, as the strategy tells events apart. A call of the current focus
    tree that finds no ignore flag set, and replays no queued keypress,
    treats the event as seen for the first time exactly when
    [previousComponentIndex >= componentId]: the event counter advances,
    [ignoreEventsCondition] is evaluated once, and the event is recorded
    in the key combination history unless the condition rejects it.  When
    [previousComponentIndex < componentId] the event has been seen
    before: nothing is counted, evaluated or recorded. *)
Theorem event_is_new_when_previous_index_reaches_scope :
  forall type s event ftid cid options,
    ftid = focusTreeId s ->
    ignoreEvent (eventPropagationState s) = false ->
    let k := normalizeKeyName env (key event) in
    replaysKeypress env s type k cid = false ->
    let s' :=
      finalState (handleKeyEvent env s (mkCall type event ftid cid options)) in
    (cid <= previousComponentIndex (eventPropagationState s) ->
     keyEventCounter s' = S (keyEventCounter s) /\
     ignoreEventsConditionCalls s' = S (ignoreEventsConditionCalls s) /\
     history s' =
       if ignoreEventsCondition options event then history s
       else history (recordKeyEvent env type s k)) /\
    (previousComponentIndex (eventPropagationState s) < cid ->
     recordsNothing s s').
Proof.
  intros type s event ftid cid options Hft Hig k Hrep s'.
  set (s1 := firstSighting s event type options).
  assert (Hcall :
    handleKeyEvent env s (mkCall type event ftid cid options) =
      if (cid <=? previousComponentIndex (eventPropagationState s))%nat then
        if ignoreEventsCondition options event then
          Returned (match type with keydown => Some false | _ => None end)
            (_updateEventPropagationHistory s1 cid)
        else afterRecording env type (recordKeyEvent env type s1 k) event k ftid cid
               options
      else afterRecording env type s event k ftid cid options).
  { rewrite handleKeyEvent_unfold. cbv zeta.
    subst ftid. rewrite Nat.eqb_refl; simpl negb; cbv iota.
    unfold _alreadyEstablishedShouldIgnoreEvent at 1. rewrite Hig.
    rewrite firstSighting_ignoreEvent. reflexivity. }
  subst s'. rewrite Hcall. split; intros Hcmp.
  - apply Nat.leb_le in Hcmp. rewrite Hcmp.
    destruct (ignoreEventsCondition options event).
    + simpl finalState.
      destruct (sameRecord_recordsNothing _ _ (update_sameRecord s1 cid))
        as (Hh & Hk & Hi).
      rewrite Hh, Hk, Hi. repeat split.
    + destruct (afterRecording_recordsNothing type
                  (recordKeyEvent env type s1 k) event k ftid cid
                  options) as (Hh & Hk & Hi).
      { subst s1. rewrite replaysKeypress_recorded. exact Hrep. }
      rewrite Hh, Hk, Hi.
      destruct (recordKeyEvent_frame type s1 k) as (_ & Hk1 & He1 & _).
      rewrite Hk1, (ignoreEventsConditionCalls_effects _ _ He1).
      repeat split.
      apply recordKeyEvent_history; reflexivity.
  - apply Nat.leb_gt in Hcmp. rewrite Hcmp.
    apply afterRecording_recordsNothing. exact Hrep.
Qed.

(** ** One handler for each event *)

Lemma callsAccounted_atMostLeft s s' :
  callsAccounted s s' -> callsAtMostLeft s s'.
Proof. unfold callsAccounted, callsAtMostLeft; intros (?&?&?); repeat split; trivial; lia. Qed.

Lemma callsAccounted_refl s : callsAccounted s s.
Proof. unfold callsAccounted; repeat split; lia. Qed.

Lemma callsAccounted_trans s1 s2 s3 :
  callsAccounted s1 s2 -> callsAccounted s2 s3 -> callsAccounted s1 s3.
Proof.
  unfold callsAccounted; intros (?&?&?) (?&?&?); repeat split; try lia; congruence.
Qed.

Lemma callsAccounted_then_atMostLeft s1 s2 s3 :
  callsAccounted s1 s2 -> callsAtMostLeft s2 s3 -> callsAtMostLeft s1 s3.
Proof.
  unfold callsAccounted, callsAtMostLeft; intros (?&?&?) (?&?&?);
    repeat split; try lia; congruence.
Qed.

(** Steps that call no handler and leave [actionHandled] alone. *)
Lemma callsAccounted_same s s' :
  effects s' = effects s \/
  (exists e, effects s' = IgnoreEventsConditionCalled e :: effects s) ->
  alreadyHandled s' = alreadyHandled s -> registered s' = registered s ->
  callsAccounted s s'.
Proof.
  intros He Hh Hr. unfold callsAccounted, callsLeft, handlerCalls.
  rewrite Hh.
  destruct He as [->|[e ->]]; simpl; repeat split; trivial; lia.
Qed.

Lemma _callHandlerIfActionNotHandled_accounted s event k i cid :
  let s' := finalState (_callHandlerIfActionNotHandled env s event k i cid) in
  callsAccounted s s' /\ combinationState s' = combinationState s.
Proof.
  destruct (_callHandlerIfActionNotHandled_cases s event k i cid)
    as (Hr & Hc & _ & _ & _ & _ & [[He Hh]|(Hh & Hh' & h & He)]);
    (split; [|exact Hc]).
  - apply callsAccounted_same; auto.
  - unfold callsAccounted, callsLeft, handlerCalls, alreadyHandled.
    rewrite Hh, Hh', He; simpl. repeat split; trivial; lia.
Qed.

Lemma _updateEventPropagationHistory_accounted s cid :
  _isFocusTreeRoot s cid = false ->
  callsAccounted s (_updateEventPropagationHistory s cid).
Proof.
  intros Hroot. unfold _updateEventPropagationHistory. rewrite Hroot.
  apply callsAccounted_same; auto.
Qed.

Lemma _updateEventPropagationHistory_atMostLeft s cid :
  callsAtMostLeft s (_updateEventPropagationHistory s cid).
Proof.
  destruct (_updateEventPropagationHistory_same s cid) as (Hr & _ & _ & _ & He).
  unfold callsAtMostLeft. rewrite (handlerCalls_effects _ _ He).
  repeat split; trivial; lia.
Qed.

Lemma firstSighting_accounted s event type options :
  callsAccounted s (firstSighting s event type options).
Proof.
  apply callsAccounted_same; try reflexivity.
  right; exists event; reflexivity.
Qed.

Lemma recordKeyEvent_accounted type s k :
  callsAccounted s (recordKeyEvent env type s k).
Proof.
  destruct (recordKeyEvent_frame type s k) as (Hr & _ & He & Hp & _).
  apply callsAccounted_same; auto.
  unfold alreadyHandled; rewrite Hp; reflexivity.
Qed.

(** The search for a handler followed by the update of the propagation
    history, as [handleKeypress] and [handleKeyup] end. *)
Lemma callThenUpdate_calls s event k i cid (v : ReturnValue) :
  let s' :=
    finalState
      (bind (_callHandlerIfActionNotHandled env s event k i cid)
         (fun _ s2 => Returned v (_updateEventPropagationHistory s2 cid))) in
  callsAtMostLeft s s' /\
  (_isFocusTreeRoot s cid = false -> callsAccounted s s') /\
  queue s' = queue s.
Proof.
  destruct (_callHandlerIfActionNotHandled_accounted s event k i cid)
    as [Ha Hc]. cbv zeta in Ha, Hc.
  destruct (_callHandlerIfActionNotHandled env s event k i cid) as [[] s1|s1];
    cbn in *.
  - destruct (_updateEventPropagationHistory_same s1 cid) as (_ & Hc' & _).
    split; [|split].
    + eapply callsAccounted_then_atMostLeft; eauto.
      apply _updateEventPropagationHistory_atMostLeft.
    + intros Hroot. eapply callsAccounted_trans; eauto.
      apply _updateEventPropagationHistory_accounted.
      rewrite <- Hroot. apply _isFocusTreeRoot_registered. apply Ha.
    + unfold queue. rewrite Hc', Hc. reflexivity.
  - split; [|split].
    + apply callsAccounted_atMostLeft; exact Ha.
    + intros _; exact Ha.
    + unfold queue; rewrite Hc; reflexivity.
Qed.



(** [handleKeypress] and [handleKeyup] call at most the handler that is
    left to call, and account for it below the root. *)
Lemma handleKeyEvent_calls type s event ftid cid options :
  type <> keydown ->
  let s' :=
    finalState (handleKeyEvent env s (mkCall type event ftid cid options)) in
  callsAtMostLeft s s' /\
  (_isFocusTreeRoot s cid = false -> callsAccounted s s') /\
  queue s' = queue s.
Proof.
  intros Htype. cbv zeta. rewrite handleKeyEvent_unfold. cbv zeta.
  assert (Hafter : forall s0,
    afterRecording env type s0 event (normalizeKeyName env (key event)) ftid cid
      options =
    bind (_callHandlerIfActionNotHandled env s0 event
            (normalizeKeyName env (key event)) type cid)
      (fun _ s2 => Returned None (_updateEventPropagationHistory s2 cid))).
  { intros s0; destruct type; [congruence | reflexivity | reflexivity]. }
  destruct (negb (ftid =? focusTreeId s)%nat).
  { simpl. split; [|split; [intros _|reflexivity]];
      [apply callsAccounted_atMostLeft|]; apply callsAccounted_refl. }
  destruct (_alreadyEstablishedShouldIgnoreEvent s).
  { simpl. destruct (_updateEventPropagationHistory_same s cid) as (_ & Hc & _).
    split; [apply _updateEventPropagationHistory_atMostLeft|].
    split; [apply _updateEventPropagationHistory_accounted|].
    unfold queue; rewrite Hc; reflexivity. }
  destruct (_isNewKeyEvent s cid).
  - set (s1 := firstSighting s event type options).
    assert (H1 : callsAccounted s s1) by apply firstSighting_accounted.
    destruct (_alreadyEstablishedShouldIgnoreEvent s1).
    + simpl.
      destruct (_updateEventPropagationHistory_same s1 cid) as (_ & Hc & _).
      split; [|split].
      * eapply callsAccounted_then_atMostLeft; eauto.
        apply _updateEventPropagationHistory_atMostLeft.
      * intros Hroot. eapply callsAccounted_trans; eauto.
        apply _updateEventPropagationHistory_accounted. exact Hroot.
      * unfold queue; rewrite Hc; reflexivity.
    + set (k := normalizeKeyName env (key event)).
      set (s2 := recordKeyEvent env type s1 k).
      assert (H2 : callsAccounted s1 s2) by apply recordKeyEvent_accounted.
      destruct (recordKeyEvent_frame type s1 k) as (Hr2 & _ & _ & _ & Hq2 & _).
      rewrite Hafter.
      destruct (callThenUpdate_calls s2 event k type cid None) as (A & B & C).
      split; [|split].
      * eapply callsAccounted_then_atMostLeft; [|exact A].
        eapply callsAccounted_trans; [exact H1 | exact H2].
      * intros Hroot. eapply callsAccounted_trans; [exact H1|].
        eapply callsAccounted_trans; [exact H2|]. apply B.
        rewrite <- Hroot. apply _isFocusTreeRoot_registered. exact Hr2.
      * etransitivity; [exact C|]. exact Hq2.
  - rewrite Hafter. apply callThenUpdate_calls.
Qed.









(** ** The queue of keypress events stays below the root *)

Lemma finishKeydown_root_queue s event k ftid cid options v s' :
  finishKeydown env s event k ftid cid options = Returned v s' ->
  _isFocusTreeRoot s cid = true ->
  queue s' = [].
Proof.
  unfold finishKeydown. intros H Hroot.
  destruct (_callHandlerIfActionNotHandled_cases s event k keydown cid)
    as (Hr & _).
  destruct (_callHandlerIfActionNotHandled env s event k keydown cid)
    as [[] s1|s1]; simpl in H, Hr; [|discriminate].
  set (s2 := if negb (hasKeyPressEvent env k) && simulateMissingKeyPressEvents env
             then _ else s1) in H.
  assert (R2 : registered s2 = registered s)
    by (subst s2; destruct (_ && _); exact Hr).
  rewrite (_isFocusTreeRoot_registered s s2 cid R2), Hroot in H.
  destruct (simulateKeypressEvents env s2 _) as [[] s3|s3]; simpl in H;
    [|discriminate].
  inversion H; subst s'.
  destruct (_updateEventPropagationHistory_same
              (withKeypressEventsToSimulate s3 []) cid) as (_ & Hc & _).
  unfold queue. rewrite Hc. reflexivity.
Qed.



(** ** Events of an old focus tree *)

(** C9. A keydown, keypress or keyup call that carries a focus tree id
    other than the current one returns [true] and leaves the strategy as
    it was: the key combination history, the propagation state, the
    resolution state, the component list and the effects are those of
    before the call. *)
Theorem events_of_an_old_focus_tree_are_discarded :
  forall s event ftid cid options,
    ftid <> focusTreeId s ->
    handleKeydown env s event ftid cid options = Returned (Some true) s /\
    handleKeypress env s event ftid cid options = Returned (Some true) s /\
    handleKeyup env s event ftid cid options = Returned (Some true) s.
Proof.
  intros s event ftid cid options Hne.
  apply Nat.eqb_neq in Hne.
  unfold handleKeydown, handleKeypress, handleKeyup.
  rewrite Hne. repeat split.
Qed.

(** ** The ignore flag *)

Lemma noKeypressSimulated_replays type k s cid :
  noKeypressSimulated env type k s -> replaysKeypress env s type k cid = false.
Proof.
  unfold noKeypressSimulated, replaysKeypress, queue.
  destruct type; try reflexivity.
  intros H; destruct (H eq_refl) as [-> ->].
  apply andb_false_r.
Qed.







(** ** The order of the combinations of a sequence *)

Lemma partitionGet_add memo size id n :
  partitionGet (addToPartition memo size id) n =
    if (size =? n)%nat then partitionGet memo n ++ [id] else partitionGet memo n.
Proof.
  induction memo as [|[size' l] memo IH]; simpl.
  - destruct (size =? n)%nat; reflexivity.
  - destruct (size' =? size)%nat eqn:E; simpl.
    + apply Nat.eqb_eq in E; subst size'.
      destruct (size =? n)%nat; reflexivity.
    + destruct (size' =? n)%nat eqn:E'.
      * apply Nat.eqb_eq in E'; subst size'.
        rewrite Nat.eqb_sym, E. reflexivity.
      * exact IH.
Qed.

Lemma partitionGet_fold vs :
  forall memo n,
    partitionGet
      (fold_left (fun memo c => addToPartition memo (matcherSize c) (matcherId c))
         vs memo) n =
    partitionGet memo n
    ++ map matcherId (filter (fun c => (matcherSize c =? n)%nat) vs).
Proof.
  induction vs as [|c vs IH]; intros memo n; simpl.
  - rewrite app_nil_r; reflexivity.
  - rewrite IH, partitionGet_add.
    destruct (matcherSize c =? n)%nat; simpl; [|reflexivity].
    rewrite <- app_assoc. reflexivity.
Qed.

Lemma addToPartition_sizes memo size id n :
  In n (map fst (addToPartition memo size id)) <->
  n = size \/ In n (map fst memo).
Proof.
  induction memo as [|[size' l] memo IH]; simpl.
  - intuition.
  - destruct (size' =? size)%nat eqn:E; simpl.
    + apply Nat.eqb_eq in E; subst. intuition.
    + rewrite IH. intuition.
Qed.

Lemma addToPartition_NoDup memo size id :
  NoDup (map fst memo) -> NoDup (map fst (addToPartition memo size id)).
Proof.
  induction memo as [|[size' l] memo IH]; simpl; intros H.
  - constructor; [intros []|constructor].
  - inversion H as [|? ? Hn Hd]; subst.
    destruct (size' =? size)%nat eqn:E; simpl.
    + constructor; assumption.
    + constructor; [|apply IH; exact Hd].
      rewrite addToPartition_sizes. intros [->|Hin]; [|contradiction].
      rewrite Nat.eqb_refl in E. discriminate.
Qed.

Lemma partition_NoDup vs :
  forall memo,
    NoDup (map fst memo) ->
    NoDup (map fst
             (fold_left
                (fun memo c => addToPartition memo (matcherSize c) (matcherId c))
                vs memo)).
Proof.
  induction vs as [|c vs IH]; intros memo H; simpl; [exact H|].
  apply IH, addToPartition_NoDup, H.
Qed.

Lemma insertDescending_In n l x :
  In x (insertDescending n l) <-> x = n \/ In x l.
Proof.
  induction l as [|m l IH]; simpl; [intuition|].
  destruct (m <? n)%nat; simpl; [intuition|]. rewrite IH. intuition.
Qed.

Lemma sortDescending_In l x : In x (sortDescending l) <-> In x l.
Proof.
  induction l as [|n l IH]; simpl; [tauto|].
  rewrite insertDescending_In, IH. intuition.
Qed.

Lemma insertDescending_sorted n l :
  ~ In n l ->
  StronglySorted (fun a b => b < a) l ->
  StronglySorted (fun a b => b < a) (insertDescending n l).
Proof.
  intros Hn Hs. induction Hs as [|m l Hs IH Hall]; simpl.
  - constructor; [constructor | constructor].
  - destruct (m <? n)%nat eqn:E.
    + apply Nat.ltb_lt in E. constructor; [constructor; assumption|].
      constructor; [exact E|].
      rewrite Forall_forall in *. intros x Hx. specialize (Hall x Hx). lia.
    + apply Nat.ltb_ge in E.
      assert (n <> m) by (intros ->; apply Hn; left; reflexivity).
      constructor.
      * apply IH. intros Hin; apply Hn; right; exact Hin.
      * rewrite Forall_forall in *. intros x Hx.
        apply insertDescending_In in Hx. destruct Hx as [->|Hx]; [lia|].
        apply Hall; exact Hx.
Qed.

Lemma sortDescending_sorted l :
  NoDup l -> StronglySorted (fun a b => b < a) (sortDescending l).
Proof.
  induction 1 as [|n l Hn Hd IH]; simpl; [constructor|].
  apply insertDescending_sorted; [|exact IH].
  rewrite sortDescending_In. exact Hn.
Qed.

Lemma fold_left_concat {A B} (f : A -> list B) l :
  forall acc, fold_left (fun memo x => memo ++ f x) l acc = acc ++ flat_map f l.
Proof.
  induction l as [|x l IH]; intros acc; simpl.
  - rewrite app_nil_r; reflexivity.
  - rewrite IH, app_assoc. reflexivity.
Qed.

(** The order is the ids of the combinations of each size, the sizes in
    strictly descending order, the combinations of one size in the order
    [Object.values] lists them. *)
Lemma combinationOrder_by_size cs :
  combinationOrder cs =
    flat_map
      (fun n =>
         map matcherId
           (filter (fun c => (matcherSize c =? n)%nat) (JsObject.values cs)))
      (sortDescending (sizesOf cs)) /\
  StronglySorted (fun a b => b < a) (sortDescending (sizesOf cs)).
Proof.
  split.
  - unfold combinationOrder. rewrite fold_left_concat. simpl.
    apply flat_map_ext. intros n.
    unfold combinationsPartitionedBySize. rewrite partitionGet_fold.
    reflexivity.
  - apply sortDescending_sorted. unfold sizesOf, combinationsPartitionedBySize.
    apply partition_NoDup. constructor.
Qed.

Lemma JsObject_keys_creation_order {V} (o : JsObject.t V) :
  (forall k, In k (map fst o) -> JsObject.arrayIndex k = None) ->
  JsObject.keys o = map fst o.
Proof.
  intros H.
  assert (Hi : JsObject.indexKeys o = [] /\ JsObject.stringKeys o = map fst o).
  { induction o as [|[k v] o IH]; [split; reflexivity|].
    simpl. rewrite (H k) by (left; reflexivity).
    destruct IH as [IH1 IH2];
      [intros k' Hk'; apply H; right; exact Hk'|].
    split; [exact IH1 | rewrite IH2; reflexivity]. }
  unfold JsObject.keys. destruct Hi as [-> ->]. reflexivity.
Qed.

Lemma collect_cons_notin {V} (o : JsObject.t V) k v ks :
  ~ In k ks ->
  JsObject.collect ((k, v) :: o) ks = JsObject.collect o ks.
Proof.
  induction ks as [|k' ks IH]; intros Hn; simpl; [reflexivity|].
  destruct (String.eqb k' k) eqn:E.
  - apply String.eqb_eq in E; subst. exfalso; apply Hn; left; reflexivity.
  - rewrite IH by (intros H; apply Hn; right; exact H). reflexivity.
Qed.

Lemma collect_creation_order {V} (o : JsObject.t V) :
  NoDup (map fst o) -> JsObject.collect o (map fst o) = map snd o.
Proof.
  induction o as [|[k v] o IH]; simpl; intros H; [reflexivity|].
  inversion H as [|? ? Hn Hd]; subst.
  rewrite String.eqb_refl, collect_cons_notin by exact Hn.
  rewrite IH by exact Hd. reflexivity.
Qed.

Lemma callFirstMatchingCombination_resolution s event keyName i state cs ord :
  resolution
    (finalState (callFirstMatchingCombination env s event keyName i state cs ord))
  = resolution s.
Proof.
  induction ord as [|cid ord IH]; simpl; [reflexivity|].
  destruct (JsObject.get cs cid) as [cm|]; [|reflexivity].
  destruct (_combinationMatchesKeys env s keyName state cm i) as [[|]|];
    [|exact IH|reflexivity].
  destruct (getEvent (events cm) i) as [b|]; [|reflexivity].
  destruct (handler b); reflexivity.
Qed.

Lemma tryPermutations_get fuel seqs sequenceIds :
  forall counters k g,
    tryPermutations fuel seqs sequenceIds counters = Some (k, g) ->
    JsObject.get seqs k = Some g.
Proof.
  induction fuel as [|fuel IH]; intros counters k g; simpl; [discriminate|].
  destruct (JsObject.get seqs _) as [g'|] eqn:E.
  - intros H; inversion H; subst. exact E.
  - destruct (incrementCounters _ counters) as [counters' [|]]; [discriminate|].
    apply IH.
Qed.

Lemma _tryMatchSequenceWithKeyAliases_get seqs sequenceIds k g :
  _tryMatchSequenceWithKeyAliases seqs sequenceIds = Some (k, g) ->
  JsObject.get seqs k = Some g.
Proof.
  unfold _tryMatchSequenceWithKeyAliases.
  destruct (List.length sequenceIds =? 0)%nat.
  - destruct (JsObject.get seqs EmptyString) as [g'|] eqn:E; [|discriminate].
    intros H; inversion H; subst. exact E.
  - apply tryPermutations_get.
Qed.

Lemma updateNth_nth_same {A} (l : list A) n x y :
  nth_error l n = Some y -> nth_error (updateNth l n x) n = Some x.
Proof.
  revert n; induction l as [|z l IH]; intros [|n]; simpl; try discriminate.
  - reflexivity.
  - apply IH.
Qed.

Lemma storeOrder_get s cid k g g0 o :
  JsObject.get (currentSequences s cid) k = Some g0 ->
  JsObject.get (currentSequences (storeOrder s cid k g o) cid) k =
    Some (mkGroup (combinations g) (Some o)).
Proof.
  unfold currentSequences, storeOrder.
  destruct (keyMaps (resolution s)) as [maps|]; [|discriminate].
  destruct (nth_error maps cid) as [km|] eqn:E; [|discriminate].
  intros _. simpl. rewrite (updateNth_nth_same maps cid _ km E).
  unfold sequencesOf at 1. simpl. apply JsObject_get_set_same.
Qed.

(** Binding one more key matcher keeps the order a group holds. *)
Lemma bindKeyMatcher_order handlerComponentIndex h st keyMatcher p g :
  JsObject.get (sequencesOf (fst st)) p = Some g ->
  exists g',
    JsObject.get
      (sequencesOf
         (fst (bindKeyMatcher env handlerComponentIndex h st keyMatcher))) p
    = Some g' /\
    order g' = order g.
Proof.
  intros Hg. destruct st as [km dict]. unfold bindKeyMatcher.
  destruct (match JsObject.get dict _ with Some _ => _ | None => false end);
    [exists g; split; [exact Hg | reflexivity]|].
  simpl fst in *. unfold sequencesOf at 1. simpl sequences. cbv iota.
  rewrite JsObject_get_set.
  destruct (String.eqb p (prefix keyMatcher)) eqn:Ep;
    [|exists g; split; [exact Hg | reflexivity]].
  apply String.eqb_eq in Ep. subst p. rewrite Hg.
  eexists; split; reflexivity.
Qed.

(** C7, with the ties as [Object.values] orders them. The order of the
    combinations of a sequence lists their ids by strictly descending
    size, the combinations of one size in the order [Object.values]
    enumerates them, which is the order of registration when no id is an
    array index.  A sequence that holds an order is matched with it and
    the resolution state is left as it is; one that holds none has the
    order computed and stored, for the later matches to use; and binding
    further key matchers leaves the order a sequence holds as it is. *)
Theorem combinations_are_tried_by_descending_size :
  (forall cs,
      combinationOrder cs =
        flat_map
          (fun n =>
             map matcherId
               (filter (fun c => (matcherSize c =? n)%nat) (JsObject.values cs)))
          (sortDescending (sizesOf cs)) /\
      StronglySorted (fun a b => b < a) (sortDescending (sizesOf cs))) /\
  (forall cs : JsObject.t CombinationMatcher,
      (forall k, In k (map fst cs) -> JsObject.arrayIndex k = None) ->
      NoDup (map fst cs) ->
      JsObject.values cs = map snd cs) /\
  (forall s event keyName i cid state n groupKey group,
      _tryMatchSequenceWithKeyAliases (currentSequences s cid)
        (map ids (slice (history s) (- Z.of_nat n) (-1)))
      = Some (groupKey, group) ->
      let o := matchSequenceOfLength env s event keyName i cid state n in
      match order group with
      | Some cached =>
          o = callFirstMatchingCombination env s event keyName i state
                (combinations group) cached /\
          resolution (finalState o) = resolution s
      | None =>
          o = callFirstMatchingCombination env
                (storeOrder s cid groupKey group
                   (combinationOrder (combinations group)))
                event keyName i state (combinations group)
                (combinationOrder (combinations group)) /\
          JsObject.get (currentSequences (finalState o) cid) groupKey =
            Some (mkGroup (combinations group)
                    (Some (combinationOrder (combinations group))))
      end) /\
  (forall handlerComponentIndex h st keyMatcher p g,
      JsObject.get (sequencesOf (fst st)) p = Some g ->
      exists g',
        JsObject.get
          (sequencesOf
             (fst (bindKeyMatcher env handlerComponentIndex h st keyMatcher))) p
        = Some g' /\
        order g' = order g).
Proof.
  split; [exact combinationOrder_by_size|]. split; [|split].
  3:{ exact bindKeyMatcher_order. }
  - intros cs Hidx Hdup. unfold JsObject.values.
    rewrite (JsObject_keys_creation_order cs Hidx).
    apply collect_creation_order. exact Hdup.
  - intros s event keyName i cid state n gk g Hfound o. subst o.
    unfold matchSequenceOfLength. rewrite Hfound.
    destruct (order g) as [cached|].
    + split; [reflexivity|]. apply callFirstMatchingCombination_resolution.
    + split; [reflexivity|].
      unfold currentSequences at 1.
      rewrite callFirstMatchingCombination_resolution.
      fold (currentSequences
              (storeOrder s cid gk g (combinationOrder (combinations g))) cid).
      eapply storeOrder_get.
      eapply _tryMatchSequenceWithKeyAliases_get. exact Hfound.
Qed.

(** ** Handlers of key events return *)

Lemma updateNth_length {A} (l : list A) n x :
  List.length (updateNth l n x) = List.length l.
Proof.
  revert n; induction l as [|y l IH]; intros [|n]; simpl; try reflexivity.
  rewrite IH; reflexivity.
Qed.

Lemma updateNth_Forall {A} (P : A -> Prop) (l : list A) n x :
  Forall P l -> P x -> Forall P (updateNth l n x).
Proof.
  intros Hl Hx. revert n; induction Hl as [|y l Hy Hl IH]; intros [|n]; simpl;
    constructor; auto.
Qed.

Lemma handlersKnown_empty cl : handlersKnown cl JsObject.empty.
Proof. intros name l H; discriminate H. Qed.

Lemma lookup_get {V} (o : JsObject.t V) k v :
  JsObject.get o k = Some v -> JsObject.lookup o k = JsObject.Own v.
Proof. unfold JsObject.lookup; intros ->; reflexivity. Qed.

Lemma lookup_ordinary {V} (o : JsObject.t V) k :
  JsObject.inherited k = false ->
  JsObject.lookup o k =
    match JsObject.get o k with
    | Some v => JsObject.Own v
    | None => JsObject.Undefined
    end.
Proof. unfold JsObject.lookup; intros ->; reflexivity. Qed.

Lemma lookup_Own {V} (o : JsObject.t V) k v :
  JsObject.lookup o k = JsObject.Own v -> JsObject.get o k = Some v.
Proof.
  unfold JsObject.lookup. destruct (JsObject.get o k) as [v'|].
  - intros H; inversion H; reflexivity.
  - destruct (JsObject.inherited k); discriminate.
Qed.

(** Recording one handler: the list of its name gains the index, a list
    being created for an ordinary name that has none. *)
Lemma recordHandlers_cons index name names dict :
  recordHandlers index (name :: names) dict =
    match JsObject.get dict name with
    | Some l =>
        recordHandlers index names (JsObject.set dict name (l ++ [index]))
    | None =>
        if JsObject.inherited name then Threw dict
        else
          recordHandlers index names
            (JsObject.set (JsObject.set dict name []) name [index])
    end.
Proof.
  cbn [recordHandlers]. unfold JsObject.lookup.
  destruct (JsObject.get dict name) as [l|] eqn:E; cbv beta iota zeta.
  - rewrite E. reflexivity.
  - destruct (JsObject.inherited name) eqn:Ei; cbv beta iota zeta.
    + rewrite E. reflexivity.
    + rewrite JsObject_get_set_same. reflexivity.
Qed.

Lemma recordHandlers_returns index names :
  (forall n, In n names -> JsObject.inherited n = false) ->
  forall dict,
    exists dict', recordHandlers index names dict = Returned tt dict'.
Proof.
  induction names as [|n names IH]; intros Hn dict; [eexists; reflexivity|].
  rewrite recordHandlers_cons.
  assert (Hnames : forall n', In n' names -> JsObject.inherited n' = false)
    by (intros n' Hn'; apply Hn; right; exact Hn').
  rewrite (Hn n (or_introl eq_refl)).
  destruct (JsObject.get dict n); apply IH; exact Hnames.
Qed.

Lemma recordHandlers_known cl index component names :
  nth_error cl index = Some component ->
  (forall n, In n names -> JsObject.has (handlers component) n = true) ->
  forall dict,
    handlersKnown cl dict ->
    handlersKnown cl (finalState (recordHandlers index names dict)).
Proof.
  intros Hnth. induction names as [|n names IH]; intros Hn dict Hd; [exact Hd|].
  rewrite recordHandlers_cons.
  assert (Hnames : forall n', In n' names ->
                     JsObject.has (handlers component) n' = true)
    by (intros n' Hn'; apply Hn; right; exact Hn').
  assert (Hhas : exists h, JsObject.get (handlers component) n = Some h).
  { specialize (Hn n (or_introl eq_refl)). unfold JsObject.has in Hn.
    destruct (JsObject.get (handlers component) n) as [h|]; [eauto|discriminate]. }
  destruct Hhas as [h Hh].
  destruct (JsObject.get dict n) as [l0|] eqn:E.
  - apply IH; [exact Hnames|]. intros name l. rewrite JsObject_get_set.
    destruct (String.eqb name n) eqn:En; [|apply Hd].
    apply String.eqb_eq in En; subst name. intros H; inversion H; subst l.
    destruct (Hd n l0 E) as [_ Hl0].
    split; [destruct l0; discriminate|].
    intros i Hi. apply in_app_or in Hi. destruct Hi as [Hi|[<-|[]]]; eauto.
  - destruct (JsObject.inherited n); [exact Hd|].
    apply IH; [exact Hnames|]. intros name l. rewrite JsObject_get_set.
    destruct (String.eqb name n) eqn:En.
    + apply String.eqb_eq in En; subst name. intros H; inversion H; subst l.
      split; [discriminate|]. intros i [<-|[]]; eauto.
    + rewrite JsObject_get_set, En. apply Hd.
Qed.

Lemma getEvent_setEvent es i j b :
  getEvent (setEvent es i b) j =
    if KeyEventBitmapIndex_eqb j i then Some b else getEvent es j.
Proof.
  induction es as [|[i' b'] es IH]; simpl.
  - destruct (KeyEventBitmapIndex_eqb j i); reflexivity.
  - destruct (KeyEventBitmapIndex_eqb i i') eqn:E; simpl.
    + assert (i = i') by (destruct i, i'; simpl in E; congruence). subst i'.
      destruct (KeyEventBitmapIndex_eqb j i); reflexivity.
    + rewrite IH. destruct (KeyEventBitmapIndex_eqb j i') eqn:E'; [|reflexivity].
      assert (j = i') by (destruct j, i'; simpl in E'; congruence). subst i'.
      destruct (KeyEventBitmapIndex_eqb j i) eqn:E''; [|reflexivity].
      assert (j = i) by (destruct j, i; simpl in E''; congruence). subst j.
      destruct i; discriminate.
Qed.

Lemma bindKeyMatcher_ok handlerComponentIndex h st keyMatcher :
  h <> None ->
  keyMapOk (fst st) ->
  keyMapOk (fst (bindKeyMatcher env handlerComponentIndex h st keyMatcher)).
Proof.
  intros Hh Hok. destruct st as [km dict]. unfold bindKeyMatcher.
  destruct (match JsObject.get dict _ with Some _ => _ | None => false end);
    [exact Hok|].
  simpl fst in *. destruct Hok as [Hbitmap Hgroups].
  split; [intros _; discriminate|].
  intros p g. unfold sequencesOf at 1. simpl sequences. cbv iota.
  rewrite JsObject_get_set.
  destruct (String.eqb p (prefix keyMatcher)) eqn:Ep; [|apply Hgroups].
  intros Hg; inversion Hg; subst g; clear Hg.
  set (group := match JsObject.get (sequencesOf km) (prefix keyMatcher) with
                | Some g => g
                | None => mkGroup JsObject.empty None
                end).
  assert (Hgroup : groupOk group).
  { subst group.
    destruct (JsObject.get (sequencesOf km) (prefix keyMatcher)) as [g|] eqn:Eg.
    - eapply Hgroups; eauto.
    - split; [intros id c H; discriminate H | intros o id H; discriminate H]. }
  destruct Hgroup as [Hcombs Horder].
  split; simpl.
  - intros name c. rewrite JsObject_get_set.
    destruct (String.eqb name (id keyMatcher)) eqn:Eid; [|apply Hcombs].
    apply String.eqb_eq in Eid; subst name.
    intros Hc; inversion Hc; subst c; clear Hc.
    destruct (JsObject.get (combinations group) (id keyMatcher))
      as [c0|] eqn:Ec0.
    + destruct (Hcombs _ _ Ec0) as [Hid Hev]. split; [exact Hid|].
      simpl. intros i b. rewrite getEvent_setEvent.
      destruct (KeyEventBitmapIndex_eqb i (eventBitmapIndex keyMatcher));
        [|apply Hev].
      intros Hb; inversion Hb; subst b. exact Hh.
    + split; [reflexivity|]. simpl. intros i b.
      destruct (KeyEventBitmapIndex_eqb i (eventBitmapIndex keyMatcher));
        [|discriminate].
      intros Hb; inversion Hb; subst b. exact Hh.
  - intros o id Ho Hin. apply JsObject_has_set. eapply Horder; eauto.
Qed.

Lemma bindKeyMatchers_ok handlerComponentIndex h keyMatchers :
  h <> None ->
  forall st,
    keyMapOk (fst st) ->
    keyMapOk
      (fst (fold_left (bindKeyMatcher env handlerComponentIndex h) keyMatchers st)).
Proof.
  intros Hh. induction keyMatchers as [|m ms IH]; intros st Hok; [exact Hok|].
  simpl. apply IH. apply bindKeyMatcher_ok; assumption.
Qed.

Lemma markHandlersMatched_returns actionName indexes :
  forall r statuses,
    unmatchedHandlerStatus r = Some statuses ->
    (forall i, In i indexes -> i < List.length statuses) ->
    exists r' statuses',
      markHandlersMatched actionName indexes r = Returned tt r' /\
      keyMaps r' = keyMaps r /\
      searchIndex r' = searchIndex r /\
      handlersDictionary r' = handlersDictionary r /\
      keySequencesDictionary r' = keySequencesDictionary r /\
      unmatchedHandlerStatus r' = Some statuses' /\
      List.length statuses' = List.length statuses.
Proof.
  induction indexes as [|i indexes IH]; intros r statuses Hs Hin; simpl.
  - exists r, statuses. repeat split; assumption.
  - rewrite Hs.
    destruct (nth_error statuses i) as [[count matched]|] eqn:E.
    2:{ apply nth_error_None in E. specialize (Hin i (or_introl eq_refl)). lia. }
    match goal with
    | |- context [markHandlersMatched _ _ ?x] => set (r1 := x)
    end.
    assert (H1 : exists statuses1,
               unmatchedHandlerStatus r1 = Some statuses1 /\
               List.length statuses1 = List.length statuses /\
               keyMaps r1 = keyMaps r /\ searchIndex r1 = searchIndex r /\
               handlersDictionary r1 = handlersDictionary r /\
               keySequencesDictionary r1 = keySequencesDictionary r).
    { subst r1. destruct (JsObject.lookup matched actionName) as [[|]| |].
      - exists statuses. repeat split; assumption.
      - eexists. split; [reflexivity|]. rewrite updateNth_length. repeat split.
      - exists statuses. repeat split; assumption.
      - eexists. split; [reflexivity|]. rewrite updateNth_length. repeat split. }
    destruct H1 as (statuses1 & Hs1 & Hl1 & A & B & C & D).
    destruct (IH r1 statuses1 Hs1) as (r' & st' & E1 & E2 & E3 & E4 & E5 & E6 & E7).
    { intros j Hj. rewrite Hl1. apply Hin. right; exact Hj. }
    exists r', st'. repeat split; try congruence.
Qed.

Lemma resolutionReady_intro cl r maps statuses :
  keyMaps r = Some maps ->
  unmatchedHandlerStatus r = Some statuses ->
  List.length maps = List.length cl ->
  List.length statuses = List.length cl ->
  Forall keyMapOk maps ->
  handlersKnown cl (handlersDictionary r) ->
  resolutionReady cl r.
Proof. intros; exists maps, statuses; auto 10. Qed.

Lemma ordinaryNames_In cl c :
  ordinaryNames cl -> In c cl ->
  (forall n, In n (JsObject.keys (handlers c)) ->
     JsObject.inherited n = false) /\
  (forall n, In n (JsObject.keys (actions c)) ->
     JsObject.inherited n = false).
Proof.
  unfold ordinaryNames, ordinaryComponent. intros Hcl Hc.
  rewrite forallb_forall in Hcl. specialize (Hcl c Hc).
  apply andb_true_iff in Hcl. destruct Hcl as [Hcl _].
  rewrite forallb_forall in Hcl.
  split; intros n Hn; apply negb_true_iff, Hcl, in_or_app; auto.
Qed.

Lemma resolveAction_ready cl acts name r :
  JsObject.inherited name = false ->
  resolutionReady cl r ->
  exists r',
    resolveAction env cl acts name r = Returned tt r' /\
    resolutionReady cl r' /\
    searchIndex r' = searchIndex r /\
    handlersDictionary r' = handlersDictionary r.
Proof.
  intros Hname (maps & statuses & Hm & Hs & Hlm & Hls & Hok & Hd).
  unfold resolveAction. rewrite (lookup_ordinary _ _ Hname).
  destruct (JsObject.get (handlersDictionary r) name) as [l|] eqn:El.
  2:{ exists r. split; [reflexivity|]. split; [|split; reflexivity].
      eapply resolutionReady_intro; eassumption. }
  destruct (Hd name l El) as [Hne Hl].
  destruct l as [|hci l']; [congruence|].
  destruct (Hl hci (or_introl eq_refl)) as (c & h & Hc & Hh).
  rewrite Hc, Hm.
  assert (Hlt : hci < List.length cl)
    by (apply nth_error_Some; rewrite Hc; discriminate).
  destruct (nth_error maps hci) as [km|] eqn:Ekm.
  2:{ apply nth_error_None in Ekm. lia. }
  rewrite Hh.
  set (km1 := mkKeyMap (Some (sequencesOf km)) (eventBitmap km)
                (keyMapLongestSequence km)).
  assert (Hkm : keyMapOk km).
  { rewrite Forall_forall in Hok. apply Hok. eapply nth_error_In; eauto. }
  assert (Hkm1 : keyMapOk km1).
  { destruct Hkm as [A B]. split; [|exact B].
    simpl. intros He. apply A. unfold sequencesOf in He.
    destruct (sequences km); [exact He | discriminate]. }
  pose proof (bindKeyMatchers_ok hci (Some h)
                (match JsObject.get acts name with Some l0 => l0 | None => [] end)
                ltac:(discriminate) (km1, keySequencesDictionary r) Hkm1) as Hfold.
  destruct (fold_left _ _ (km1, keySequencesDictionary r)) as [km2 dict].
  simpl in Hfold.
  set (r1 := mkResolution _ _ _ _ _).
  destruct (markHandlersMatched_returns name (hci :: l') r1 statuses Hs)
    as (r' & st' & E1 & E2 & E3 & E4 & E5 & E6 & E7).
  { intros i Hi. rewrite Hls. destruct (Hl i Hi) as (ci & hi & Hci & _).
    apply nth_error_Some. rewrite Hci. discriminate. }
  exists r'. split; [exact E1|]. split; [|split; [exact E3 | exact E4]].
  exists (updateNth maps hci km2), st'.
  split; [rewrite E2; reflexivity|]. split; [exact E6|].
  split; [rewrite updateNth_length; exact Hlm|].
  split; [rewrite E7; exact Hls|].
  split; [apply updateNth_Forall; assumption|].
  rewrite E4. exact Hd.
Qed.

Lemma resolveActions_ready cl acts names :
  (forall n, In n names -> JsObject.inherited n = false) ->
  forall r,
    resolutionReady cl r ->
    exists r',
      resolveActions env cl acts names r = Returned tt r' /\
      resolutionReady cl r' /\
      searchIndex r' = searchIndex r.
Proof.
  induction names as [|name names IH]; intros Hnames r Hr; simpl.
  - exists r. split; [reflexivity|]. split; [exact Hr | reflexivity].
  - destruct (resolveAction_ready cl acts name r (Hnames name (or_introl eq_refl))
                Hr) as (r1 & E1 & H1 & S1 & _).
    rewrite E1. simpl.
    destruct (IH (fun n Hn => Hnames n (or_intror Hn)) r1 H1)
      as (r2 & E2 & H2 & S2).
    exists r2. split; [exact E2|]. split; [exact H2 | congruence].
Qed.

Lemma skipn_next {A} (l : list A) :
  forall n x rest, skipn n l = x :: rest -> skipn (S n) l = rest.
Proof.
  induction l as [|y l IH]; intros [|n] x rest H; simpl in *; try discriminate.
  - inversion H; reflexivity.
  - eapply IH; eauto.
Qed.

Lemma resolveComponents_ready cl rest :
  ordinaryNames cl ->
  forall r,
    resolutionReady cl r ->
    skipn (searchIndex r) cl = rest ->
    exists r',
      resolveComponents env cl rest r = Returned tt r' /\
      resolutionReady cl r'.
Proof.
  intros Hnames.
  induction rest as [|component rest IH]; intros r Hr Hskip; simpl.
  - exists r. split; [reflexivity | exact Hr].
  - assert (Hnth : nth_error cl (searchIndex r) = Some component).
    { rewrite <- (Nat.add_0_r (searchIndex r)), <- nth_error_skipn, Hskip.
      reflexivity. }
    destruct (ordinaryNames_In cl component Hnames (nth_error_In _ _ Hnth))
      as [Hhandlers Hactions].
    pose proof (recordHandlers_known cl (searchIndex r) component
                  (JsObject.keys (handlers component)) Hnth
                  (fun n Hn => proj1 (JsObject_keys_has _ _) Hn)) as Hknown.
    destruct (recordHandlers_returns (searchIndex r) _ Hhandlers
                (handlersDictionary r)) as [dict Hdict].
    rewrite Hdict.
    set (r1 := mkResolution _ _ _ _ _).
    assert (H1 : resolutionReady cl r1).
    { destruct Hr as (maps & statuses & Hm & Hs & Hlm & Hls & Hok & Hd).
      apply (resolutionReady_intro cl r1 maps statuses); try assumption.
      simpl. specialize (Hknown _ Hd). rewrite Hdict in Hknown. exact Hknown. }
    destruct (resolveActions_ready cl (actions component)
                (JsObject.keys (actions component)) Hactions r1 H1)
      as (r2 & E2 & H2 & S2).
    rewrite E2. simpl.
    apply IH.
    + destruct H2 as (maps & statuses & Hm & Hs & Hlm & Hls & Hok & Hd).
      eapply resolutionReady_intro; eassumption.
    + simpl. rewrite S2. simpl. eapply skipn_next. exact Hskip.
Qed.

Lemma initResolution_ready cl r :
  resolutionOk cl r -> resolutionReady cl (initResolution cl r).
Proof.
  intros [Hd Hr]. unfold initResolution.
  assert (Hfresh : resolutionReady cl
            (mkResolution (Some (map (fun _ => emptyKeyMap) cl)) (searchIndex r)
               (Some (map (fun c =>
                             (Z.of_nat (List.length (JsObject.keys (handlers c))),
                              JsObject.empty (V := bool))) cl))
               (handlersDictionary r) (keySequencesDictionary r))).
  { eapply resolutionReady_intro; try reflexivity; try exact Hd.
    - apply length_map.
    - apply length_map.
    - apply Forall_forall. intros km Hkm. apply in_map_iff in Hkm.
      destruct Hkm as (c & <- & _). split; [intros H; discriminate H|].
      intros p g H; discriminate H. }
  destruct (keyMaps r) as [maps|] eqn:Em; [|exact Hfresh].
  destruct (unmatchedHandlerStatus r) as [statuses|] eqn:Es; [|exact Hfresh].
  destruct Hr as (A & B & C).
  apply (resolutionReady_intro cl r maps statuses); assumption.
Qed.

Lemma resolveHandlers_ready cl cid r :
  ordinaryNames cl ->
  resolutionOk cl r ->
  cid < List.length cl ->
  exists r',
    resolveHandlers env cl cid r = Returned tt r' /\
    resolutionReady cl r'.
Proof.
  intros Hnames Hr Hcid. unfold resolveHandlers.
  pose proof (initResolution_ready cl r Hr) as H0.
  set (r0 := initResolution cl r) in *.
  destruct H0 as (maps & statuses & Hm & Hs & Hlm & Hls & Hok & Hd).
  rewrite Hs.
  destruct (nth_error statuses cid) as [[count matched]|] eqn:E.
  2:{ apply nth_error_None in E. lia. }
  assert (H0 : resolutionReady cl r0).
  { apply (resolutionReady_intro cl r0 maps statuses); assumption. }
  destruct (0 <? count)%Z; [|exists r0; split; [reflexivity | exact H0]].
  apply resolveComponents_ready; [exact Hnames| |reflexivity].
  destruct (searchIndex r0 <? cid)%nat; [|exact H0].
  apply (resolutionReady_intro cl _ maps statuses); simpl;
    assumption || reflexivity.
Qed.

Lemma _keyNameAsItAppearsInKeyboardState_has s keyName k :
  _keyNameAsItAppearsInKeyboardState env s keyName = Some k ->
  JsObject.has (keys (_getCurrentKeyCombination s)) k = true.
Proof.
  unfold _keyNameAsItAppearsInKeyboardState.
  destruct (JsObject.has (keys (_getCurrentKeyCombination s)) keyName) eqn:E.
  - intros H; inversion H; subst; exact E.
  - unfold _tryMatchWithKeyAliases. intros H.
    apply find_some in H. apply H.
Qed.

Lemma someKeyNotPressed_defined s keyBeingPressed i candidates :
  forall completes,
    someKeyNotPressed env s keyBeingPressed (_getCurrentKeyCombination s) i
      candidates completes <> None.
Proof.
  induction candidates as [|c candidates IH]; intros completes; simpl;
    [discriminate|].
  destruct (_keyNameAsItAppearsInKeyboardState env s c) as [k|] eqn:E;
    [|discriminate].
  destruct (truthy k); [|discriminate].
  apply _keyNameAsItAppearsInKeyboardState_has in E.
  unfold JsObject.has in E.
  destruct (JsObject.get (keys (_getCurrentKeyCombination s)) k) as [ks|];
    [|discriminate].
  destruct (_keyIsCurrentlyTriggeringEvent ks i); [apply IH | discriminate].
Qed.

Lemma _combinationMatchesKeys_defined s keyBeingPressed c i :
  _combinationMatchesKeys env s keyBeingPressed (_getCurrentKeyCombination s)
    c i <> None.
Proof.
  unfold _combinationMatchesKeys.
  destruct (getEvent (events c) i); [|discriminate].
  destruct (someKeyNotPressed env s keyBeingPressed _ i _ false)
    as [[a b]|] eqn:E; [discriminate|].
  exfalso. eapply someKeyNotPressed_defined; eauto.
Qed.

Lemma _combinationMatchesKeys_bound s keyBeingPressed state c i :
  _combinationMatchesKeys env s keyBeingPressed state c i = Some true ->
  getEvent (events c) i <> None.
Proof.
  unfold _combinationMatchesKeys.
  destruct (getEvent (events c) i); [discriminate|]. discriminate.
Qed.

(** The combinations of an order are tried without an error when each of
    them is registered with its handlers. *)
Lemma callFirstMatchingCombination_returns s event keyName i cs ord :
  (forall id, In id ord ->
     exists c, JsObject.get cs id = Some c /\
               forall j b, getEvent (events c) j = Some b -> handler b <> None) ->
  exists v s',
    callFirstMatchingCombination env s event keyName i
      (_getCurrentKeyCombination s) cs ord = Returned v s'.
Proof.
  induction ord as [|id ord IH]; intros Hord; simpl; [eauto|].
  destruct (Hord id (or_introl eq_refl)) as (c & Hc & Hh). rewrite Hc.
  destruct (_combinationMatchesKeys env s keyName (_getCurrentKeyCombination s)
              c i) as [[|]|] eqn:E.
  - apply _combinationMatchesKeys_bound in E.
    destruct (getEvent (events c) i) as [b|] eqn:Eb; [|congruence].
    specialize (Hh i b Eb). destruct (handler b); [eauto | congruence].
  - apply IH. intros id' Hid'. apply Hord. right; exact Hid'.
  - exfalso. eapply _combinationMatchesKeys_defined; eauto.
Qed.

Lemma collect_In {V} (o : JsObject.t V) ks c :
  In c (JsObject.collect o ks) -> exists k, JsObject.get o k = Some c.
Proof.
  induction ks as [|k ks IH]; simpl; [intros []|].
  destruct (JsObject.get o k) as [v|] eqn:E; [|exact IH].
  intros [<-|H]; [eauto | apply IH; exact H].
Qed.

Lemma combinationOrder_In cs id :
  In id (combinationOrder cs) ->
  exists k c, JsObject.get cs k = Some c /\ matcherId c = id.
Proof.
  rewrite (proj1 (combinationOrder_by_size cs)).
  intros H. apply in_flat_map in H. destruct H as (n & _ & H).
  apply in_map_iff in H. destruct H as (c & Hid & Hc).
  apply filter_In in Hc. destruct Hc as [Hc _].
  apply collect_In in Hc. destruct Hc as [k Hk]. eauto.
Qed.

Lemma groupOk_order g o :
  groupOk g ->
  order g = Some o \/ o = combinationOrder (combinations g) ->
  forall id, In id o ->
    exists c, JsObject.get (combinations g) id = Some c /\
              forall j b, getEvent (events c) j = Some b -> handler b <> None.
Proof.
  intros [Hc Ho] Horder id Hid.
  assert (Hhas : exists c, JsObject.get (combinations g) id = Some c).
  { destruct Horder as [Horder| ->].
    - specialize (Ho o id Horder Hid). unfold JsObject.has in Ho.
      destruct (JsObject.get (combinations g) id); [eauto | discriminate].
    - apply combinationOrder_In in Hid. destruct Hid as (k & c & Hk & Hidc).
      destruct (Hc k c Hk) as [Hm _]. exists c. congruence. }
  destruct Hhas as [c Hget]. exists c. split; [exact Hget|].
  apply (Hc id c Hget).
Qed.

Lemma currentSequences_ok cl s cid k g :
  resolutionReady cl (resolution s) ->
  JsObject.get (currentSequences s cid) k = Some g ->
  groupOk g /\
  exists maps km,
    keyMaps (resolution s) = Some maps /\ nth_error maps cid = Some km /\
    keyMapOk km /\ JsObject.get (sequencesOf km) k = Some g.
Proof.
  intros (maps & statuses & Hm & Hs & Hlm & Hls & Hok & Hd).
  unfold currentSequences. rewrite Hm.
  destruct (nth_error maps cid) as [km|] eqn:E; [|discriminate].
  intros Hg.
  assert (Hkm : keyMapOk km).
  { rewrite Forall_forall in Hok. apply Hok. eapply nth_error_In; eauto. }
  split; [eapply Hkm; eauto|]. exists maps, km. auto.
Qed.

Lemma storeOrder_ready cl s cid k g :
  resolutionReady cl (resolution s) ->
  JsObject.get (currentSequences s cid) k = Some g ->
  resolutionReady cl
    (resolution (storeOrder s cid k g (combinationOrder (combinations g)))).
Proof.
  intros Hr Hg.
  destruct (currentSequences_ok cl s cid k g Hr Hg)
    as (Hgroup & maps & km & Hm & Hnth & Hkm & Hget).
  destruct Hr as (maps' & statuses & Hm' & Hs & Hlm & Hls & Hok & Hd).
  assert (maps' = maps) by congruence. subst maps'.
  unfold storeOrder. rewrite Hm, Hnth. simpl.
  eapply resolutionReady_intro; simpl; try reflexivity; try eassumption.
  - rewrite updateNth_length. exact Hlm.
  - apply updateNth_Forall; [exact Hok|].
    destruct Hkm as [Hbitmap Hgroups]. split; simpl.
    + intros _. apply Hbitmap. unfold sequencesOf in Hget.
      destruct (sequences km) as [q|]; [|discriminate].
      destruct q; [discriminate | reflexivity].
    + intros p g'. unfold sequencesOf at 1. simpl. rewrite JsObject_get_set.
      destruct (String.eqb p k); [|apply Hgroups].
      intros H; inversion H; subst g'; clear H.
      destruct Hgroup as [Hc Ho]. split; simpl; [exact Hc|].
      intros o id Hsome Hid. inversion Hsome; subst o.
      apply combinationOrder_In in Hid. destruct Hid as (k' & c & Hk' & Hidc).
      destruct (Hc k' c Hk') as [Hmid _].
      unfold JsObject.has. replace id with k' by congruence.
      rewrite Hk'. reflexivity.
Qed.

Lemma _getCurrentKeyCombination_same s s' :
  combinationState s' = combinationState s ->
  _getCurrentKeyCombination s' = _getCurrentKeyCombination s.
Proof. unfold _getCurrentKeyCombination, history; intros ->; reflexivity. Qed.

Lemma matchSequenceOfLength_returns cl s event keyName i cid n :
  resolutionReady cl (resolution s) ->
  exists v s',
    matchSequenceOfLength env s event keyName i cid
      (_getCurrentKeyCombination s) n = Returned v s' /\
    resolutionReady cl (resolution s') /\
    combinationState s' = combinationState s.
Proof.
  intros Hr.
  pose proof (matchSequenceOfLength_effects s event keyName i cid
                (_getCurrentKeyCombination s) n) as [(_ & Hcs & _) _].
  unfold matchSequenceOfLength in *.
  destruct (_tryMatchSequenceWithKeyAliases _ _) as [[k g]|] eqn:E.
  2:{ exists false, s. repeat split; auto. }
  apply _tryMatchSequenceWithKeyAliases_get in E.
  destruct (currentSequences_ok cl s cid k g Hr E) as (Hgroup & _).
  destruct (order g) as [o|] eqn:Eo.
  - destruct (callFirstMatchingCombination_returns s event keyName i
                (combinations g) o) as (v & s' & Hcall).
    { apply groupOk_order; [exact Hgroup | left; exact Eo]. }
    rewrite Hcall in *. exists v, s'. split; [reflexivity|].
    split; [|exact Hcs].
    pose proof (callFirstMatchingCombination_resolution s event keyName i
                  (_getCurrentKeyCombination s) (combinations g) o) as Hres.
    rewrite Hcall in Hres. simpl in Hres. rewrite Hres. exact Hr.
  - set (o := combinationOrder (combinations g)) in *.
    set (s1 := storeOrder s cid k g o) in *.
    assert (Hc1 : combinationState s1 = combinationState s)
      by apply (storeOrder_same s cid k g o).
    rewrite <- (_getCurrentKeyCombination_same s s1 Hc1) in *.
    destruct (callFirstMatchingCombination_returns s1 event keyName i
                (combinations g) o) as (v & s' & Hcall).
    { apply groupOk_order; [exact Hgroup | right; reflexivity]. }
    rewrite Hcall in *. exists v, s'. split; [reflexivity|].
    split; [|exact Hcs].
    pose proof (callFirstMatchingCombination_resolution s1 event keyName i
                  (_getCurrentKeyCombination s1) (combinations g) o) as Hres.
    rewrite Hcall in Hres. simpl in Hres. rewrite Hres.
    apply storeOrder_ready; assumption.
Qed.

Lemma matchSequences_returns cl event keyName i cid n :
  forall s state,
    resolutionReady cl (resolution s) ->
    state = _getCurrentKeyCombination s ->
    exists v s',
      matchSequences env s event keyName i cid state n = Returned v s' /\
      resolutionReady cl (resolution s').
Proof.
  induction n as [|n IH]; intros s state Hr ->; simpl.
  - destruct (matchSequenceOfLength_returns cl s event keyName i cid 0 Hr)
      as (v & s' & E & Hr' & _).
    rewrite E. simpl. destruct v; eauto.
  - destruct (matchSequenceOfLength_returns cl s event keyName i cid (S n) Hr)
      as (v & s' & E & Hr' & Hc).
    rewrite E. simpl. destruct v; [eauto|].
    apply IH; [exact Hr'|].
    symmetry. apply _getCurrentKeyCombination_same. exact Hc.
Qed.

Lemma resolutionReady_ok cl r : resolutionReady cl r -> resolutionOk cl r.
Proof.
  intros (maps & statuses & Hm & Hs & Hlm & Hls & Hok & Hd).
  split; [exact Hd|]. rewrite Hm, Hs. auto.
Qed.

Lemma _callMatchingHandlerClosestToEventTarget_returns s event keyName i cid :
  ordinaryNames (componentList (registered s)) ->
  resolutionOk (componentList (registered s)) (resolution s) ->
  cid < List.length (componentList (registered s)) ->
  exists v s',
    _callMatchingHandlerClosestToEventTarget env s event keyName i cid =
      Returned v s' /\
    resolutionOk (componentList (registered s)) (resolution s').
Proof.
  intros Hnames Hr Hcid. unfold _callMatchingHandlerClosestToEventTarget.
  set (cl := componentList (registered s)) in *.
  destruct (resolveHandlers_ready cl cid (resolution s) Hnames Hr Hcid)
    as (r' & E & Hr').
  rewrite E.
  set (s1 := withResolution s r').
  assert (H1 : resolutionReady cl (resolution s1)) by exact Hr'.
  assert (Hdone : forall v : bool, exists v' s',
             Returned (S := Strategy) v s1 = Returned v' s' /\
             resolutionOk cl (resolution s')).
  { intros v. exists v, s1. split; [reflexivity|].
    apply resolutionReady_ok; exact H1. }
  destruct Hr' as (maps & statuses & Hm & Hs & Hlm & Hls & Hok & Hd).
  rewrite Hm.
  destruct (nth_error maps cid) as [km|] eqn:Ekm; [|apply Hdone].
  destruct (isEmpty (sequences km)) eqn:Eempty; [apply Hdone|].
  assert (Hkm : keyMapOk km).
  { rewrite Forall_forall in Hok. apply Hok. eapply nth_error_In; eauto. }
  destruct (eventBitmap km) as [b|] eqn:Eb.
  2:{ exfalso. apply (proj1 Hkm Eempty). exact Eb. }
  destruct (negb (bit b i)); [apply Hdone|].
  destruct (keyMapLongestSequence km) as [n|]; [|apply Hdone].
  destruct (matchSequences_returns cl event keyName i cid n s1
              (_getCurrentKeyCombination s1) H1 eq_refl) as (v & s' & E' & Hr'').
  exists v, s'. split; [exact E'|]. apply resolutionReady_ok; exact Hr''.
Qed.

Lemma _callHandlerIfActionNotHandled_returns s event k i cid :
  ordinaryNames (componentList (registered s)) ->
  resolutionOk (componentList (registered s)) (resolution s) ->
  cid < List.length (componentList (registered s)) ->
  exists s',
    _callHandlerIfActionNotHandled env s event k i cid = Returned tt s' /\
    resolutionOk (componentList (registered s)) (resolution s').
Proof.
  intros Hnames Hr Hcid. unfold _callHandlerIfActionNotHandled.
  destruct (bit (keyMapEventBitmap (registered s)) i); [|eauto].
  destruct (actionHandled (eventPropagationState s)); [eauto|].
  destruct (_callMatchingHandlerClosestToEventTarget_returns s event k i cid
              Hnames Hr Hcid) as (v & s' & E & Hr').
  rewrite E. simpl. destruct v; eexists; split; try reflexivity; exact Hr'.
Qed.

Lemma callThenUpdate_returns s event k i cid (v : ReturnValue) :
  ordinaryNames (componentList (registered s)) ->
  resolutionOk (componentList (registered s)) (resolution s) ->
  cid < List.length (componentList (registered s)) ->
  exists s',
    bind (_callHandlerIfActionNotHandled env s event k i cid)
      (fun _ s2 => Returned v (_updateEventPropagationHistory s2 cid))
    = Returned v s' /\
    resolutionOk (componentList (registered s)) (resolution s').
Proof.
  intros Hnames Hr Hcid.
  destruct (_callHandlerIfActionNotHandled_returns s event k i cid Hnames Hr
              Hcid) as (s1 & E & H1).
  rewrite E. simpl. eexists; split; [reflexivity|].
  destruct (_updateEventPropagationHistory_same s1 cid) as (_ & _ & -> & _).
  exact H1.
Qed.

Lemma strategyOk_same s s' :
  registered s' = registered s ->
  queue s' = queue s ->
  resolutionOk (componentList (registered s)) (resolution s') ->
  strategyOk s -> strategyOk s'.
Proof.
  intros Hr Hq Hres (_ & Hqueue & Hnames). unfold strategyOk, queue in *.
  rewrite Hr, Hq. split; [exact Hres | split; assumption].
Qed.

(** [handleKeypress] and [handleKeyup] return, [true] for an event of an
    old focus tree and [undefined] otherwise, and leave a strategy that
    can handle the next event. *)
Lemma handleKeyEvent_returns type s event ftid cid options :
  type <> keydown ->
  strategyOk s ->
  cid < List.length (componentList (registered s)) ->
  exists s',
    handleKeyEvent env s (mkCall type event ftid cid options) =
      Returned (if (ftid =? focusTreeId s)%nat then None else Some true) s' /\
    strategyOk s' /\
    registered s' = registered s.
Proof.
  intros Htype Hok Hcid.
  destruct (handleKeyEvent_calls type s event ftid cid options Htype)
    as ((_ & _ & Hreg) & _ & Hq). cbv zeta in Hreg, Hq.
  assert (Hres : exists s',
    handleKeyEvent env s (mkCall type event ftid cid options) =
      Returned (if (ftid =? focusTreeId s)%nat then None else Some true) s' /\
    resolutionOk (componentList (registered s)) (resolution s')).
  { rewrite handleKeyEvent_unfold. cbv zeta.
    assert (Hafter : forall s0,
      afterRecording env type s0 event (normalizeKeyName env (key event)) ftid cid
        options =
      bind (_callHandlerIfActionNotHandled env s0 event
              (normalizeKeyName env (key event)) type cid)
        (fun _ s2 => Returned None (_updateEventPropagationHistory s2 cid))).
    { intros s0; destruct type; [congruence | reflexivity | reflexivity]. }
    assert (Hnone : match type with keydown => Some false | _ => None end = None)
      by (destruct type; [congruence | reflexivity | reflexivity]).
    rewrite Hnone.
    destruct Hok as (Hr & _ & Hnames).
    destruct (ftid =? focusTreeId s)%nat; simpl negb; cbv iota; [|eauto].
    destruct (_alreadyEstablishedShouldIgnoreEvent s).
    { eexists; split; [reflexivity|].
      destruct (_updateEventPropagationHistory_same s cid) as (_ & _ & -> & _).
      exact Hr. }
    destruct (_isNewKeyEvent s cid).
    - destruct (_alreadyEstablishedShouldIgnoreEvent _).
      + eexists; split; [reflexivity|].
        destruct (_updateEventPropagationHistory_same
                    (firstSighting s event type options) cid)
          as (_ & _ & -> & _).
        exact Hr.
      + rewrite Hafter.
        set (s2 := recordKeyEvent env type _ _).
        destruct (recordKeyEvent_frame type
                    (firstSighting s event type options)
                    (normalizeKeyName env (key event)))
          as (Hr2 & _ & _ & _ & _ & Hres2 & _). fold s2 in Hr2, Hres2.
        simpl in Hr2, Hres2.
        destruct (callThenUpdate_returns s2 event
                    (normalizeKeyName env (key event)) type cid None)
          as (s' & E & H').
        { rewrite Hr2. exact Hnames. }
        { rewrite Hr2, Hres2. exact Hr. }
        { rewrite Hr2. exact Hcid. }
        rewrite Hr2 in H'. eauto.
    - rewrite Hafter. apply callThenUpdate_returns; assumption. }
  destruct Hres as (s' & E & Hres).
  rewrite E in Hreg, Hq. simpl in Hreg, Hq.
  exists s'. split; [exact E|]. split; [|exact Hreg].
  eapply strategyOk_same; eauto.
Qed.

Lemma simulateKeypressEvents_returns qs :
  forall s,
    strategyOk s ->
    Forall (fun q => simComponentId q < List.length (componentList (registered s)))
      qs ->
    exists s',
      simulateKeypressEvents env s qs = Returned tt s' /\
      strategyOk s' /\ registered s' = registered s.
Proof.
  induction qs as [|q qs IH]; intros s Hok Hqs; simpl.
  - exists s. split; [reflexivity|]. split; [exact Hok | reflexivity].
  - inversion Hqs as [|? ? Hq Hqs']; subst.
    destruct (handleKeyEvent_returns keypress s (simEvent q) (simFocusTreeId q)
                (simComponentId q) (simOptions q)) as (s1 & E & H1 & R1);
      [discriminate | exact Hok | exact Hq |].
    change (handleKeyEvent env s
              (mkCall keypress (simEvent q) (simFocusTreeId q)
                 (simComponentId q) (simOptions q)))
      with (handleKeypress env s (simEvent q) (simFocusTreeId q)
              (simComponentId q) (simOptions q)) in E.
    rewrite E. simpl.
    destruct (IH s1 H1) as (s' & E' & H' & R').
    { rewrite R1. exact Hqs'. }
    exists s'. split; [exact E'|]. split; [exact H' | congruence].
Qed.

Lemma strategyOk_frame s s' :
  registered s' = registered s ->
  combinationState s' = combinationState s ->
  resolution s' = resolution s ->
  strategyOk s -> strategyOk s'.
Proof. unfold strategyOk; intros -> -> ->; trivial. Qed.

Lemma strategyOk_update s cid :
  strategyOk s -> strategyOk (_updateEventPropagationHistory s cid).
Proof.
  destruct (_updateEventPropagationHistory_same s cid) as (A & B & C & _).
  apply strategyOk_frame; assumption.
Qed.

Lemma finishKeydown_returns s event k ftid cid options :
  strategyOk s ->
  cid < List.length (componentList (registered s)) ->
  exists s',
    finishKeydown env s event k ftid cid options = Returned (Some false) s' /\
    strategyOk s' /\ registered s' = registered s.
Proof.
  intros Hok Hcid. unfold finishKeydown.
  destruct (_callHandlerIfActionNotHandled_cases s event k keydown cid)
    as (Hr & Hc & _).
  destruct (_callHandlerIfActionNotHandled_returns s event k keydown cid
              (proj2 (proj2 Hok)) (proj1 Hok) Hcid) as (s1 & E & Hres1).
  rewrite E in Hr, Hc |- *. simpl in Hr, Hc |- *.
  assert (H1 : strategyOk s1).
  { apply (strategyOk_same s); [exact Hr | unfold queue; rewrite Hc; reflexivity
                               | exact Hres1 | exact Hok]. }
  set (s2 := if negb (hasKeyPressEvent env k) && simulateMissingKeyPressEvents env
             then _ else s1).
  assert (H2 : strategyOk s2 /\ registered s2 = registered s1).
  { subst s2. destruct (_ && _); [|split; [exact H1 | reflexivity]].
    split; [|reflexivity]. destruct H1 as (A & B & C).
    split; [exact A|]. split; [|exact C].
    simpl. apply Forall_app. split; [exact B|].
    constructor; [|constructor]. simpl. rewrite Hr. exact Hcid. }
  destruct H2 as [H2 R2].
  destruct (_isFocusTreeRoot s2 cid).
  - destruct (simulateKeypressEvents_returns
                (keypressEventsToSimulate (combinationState s2)) s2 H2
                (proj1 (proj2 H2)))
      as (s3 & E3 & H3 & R3).
    rewrite E3. simpl. eexists; split; [reflexivity|].
    set (s4 := withKeypressEventsToSimulate s3 []).
    assert (H4 : strategyOk s4).
    { destruct H3 as (A & _ & C). split; [exact A|]. split; [constructor|].
      exact C. }
    split; [apply strategyOk_update; exact H4|].
    destruct (_updateEventPropagationHistory_same s4 cid) as (-> & _).
    simpl. congruence.
  - simpl. eexists; split; [reflexivity|].
    split; [apply strategyOk_update; exact H2|].
    destruct (_updateEventPropagationHistory_same s2 cid) as (-> & _).
    congruence.
Qed.

(** [handleKeydown] returns for every event delivered to a component of
    the list: [true] for an event of an old focus tree, [false]
    otherwise. *)
Lemma handleKeydown_returns s event ftid cid options :
  strategyOk s ->
  cid < List.length (componentList (registered s)) ->
  exists s',
    handleKeydown env s event ftid cid options =
      Returned (Some (negb (ftid =? focusTreeId s)%nat)) s' /\
    strategyOk s' /\ registered s' = registered s.
Proof.
  intros Hok Hcid. unfold handleKeydown.
  destruct (ftid =? focusTreeId s)%nat; simpl negb; cbv iota.
  2:{ exists s. split; [reflexivity|]. split; [exact Hok | reflexivity]. }
  destruct (_alreadyEstablishedShouldIgnoreEvent s).
  { eexists; split; [reflexivity|]. split; [apply strategyOk_update; exact Hok|].
    apply _updateEventPropagationHistory_same. }
  destruct (_isNewKeyEvent s cid); [|apply finishKeydown_returns; assumption].
  set (s1 := firstSighting s event keydown options).
  assert (H1 : strategyOk s1) by exact Hok.
  destruct (_alreadyEstablishedShouldIgnoreEvent s1).
  { eexists; split; [reflexivity|]. split; [apply strategyOk_update; exact H1|].
    apply (_updateEventPropagationHistory_same s1 cid). }
  set (k := normalizeKeyName env (key event)).
  destruct (recordKeyEvent_frame keydown s1 k)
    as (Hr2 & _ & _ & _ & Hq2 & Hres2 & _).
  simpl in Hr2, Hq2, Hres2.
  assert (H2 : strategyOk (recordKeydown env s1 k)).
  { apply (strategyOk_same s1); [exact Hr2 | exact Hq2 | | exact H1].
    rewrite Hres2. apply H1. }
  destruct (finishKeydown_returns (recordKeydown env s1 k) event k ftid cid
              options H2) as (s' & E & H' & R').
  { rewrite Hr2. exact Hcid. }
  exists s'. split; [exact E|]. split; [exact H'|]. rewrite R', Hr2. reflexivity.
Qed.

Lemma finishKeydown_value s event k ftid cid options v s' :
  finishKeydown env s event k ftid cid options = Returned v s' ->
  v = Some false.
Proof.
  unfold finishKeydown.
  destruct (_callHandlerIfActionNotHandled env s event k keydown cid)
    as [[] s1|s1]; simpl; [|discriminate].
  match goal with
  | |- context [if _isFocusTreeRoot ?x cid then _ else _] =>
      destruct (_isFocusTreeRoot x cid)
  end.
  - match goal with
    | |- context [simulateKeypressEvents env ?x ?q] =>
        destruct (simulateKeypressEvents env x q) as [[] s3|s3]
    end; simpl; [|discriminate].
    intros H; inversion H; reflexivity.
  - simpl. intros H; inversion H; reflexivity.
Qed.

(** A strategy whose resolution state was just reset, with no keypress
    to simulate, can handle the events of its components. *)
Lemma strategyOk_reset s :
  resolution s = _resetHandlerResolutionState ->
  keypressEventsToSimulate (combinationState s) = [] ->
  ordinaryNames (componentList (registered s)) ->
  strategyOk s.
Proof.
  intros Hr Hq Hnames. unfold strategyOk. rewrite Hr, Hq.
  split; [|split; [constructor | exact Hnames]].
  split; [apply handlersKnown_empty | exact I].
Qed.

(** The handlers keep the strategy able to handle the events that the
    components of the list deliver. *)
Lemma strategyOk_invariant calls :
  forall s,
    strategyOk s ->
    Forall (fun c => callComponentId c
                     < List.length (componentList (registered s))) calls ->
    strategyOk (handleKeyEvents env s calls) /\
    registered (handleKeyEvents env s calls) = registered s.
Proof.
  induction calls as [|c calls IH]; intros s Hok Hcalls; simpl.
  - split; [exact Hok | reflexivity].
  - inversion Hcalls as [|? ? Hc Hcalls']; subst.
    assert (H1 : exists v s',
               handleKeyEvent env s c = Returned v s' /\
               strategyOk s' /\ registered s' = registered s).
    { destruct c as [type event ftid cid options]. simpl in Hc.
      destruct type.
      - destruct (handleKeydown_returns s event ftid cid options Hok Hc)
          as (s' & E & H). eauto.
      - destruct (handleKeyEvent_returns keypress s event ftid cid options)
          as (s' & E & H); [discriminate | exact Hok | exact Hc |]. eauto.
      - destruct (handleKeyEvent_returns keyup s event ftid cid options)
          as (s' & E & H); [discriminate | exact Hok | exact Hc |]. eauto. }
    destruct H1 as (v & s' & E & H' & R'). rewrite E. simpl.
    destruct (IH s' H') as [A B].
    { rewrite R'. exact Hcalls'. }
    split; [exact A | congruence].
Qed.

(** C10. [handleKeydown] returns [true] only for an event of an old
    focus tree: whenever it returns, its value is [true] for another
    focus tree id and [false] for the current one; an event of the
    current focus tree that the ignore flag or [ignoreEventsCondition]
    rejects returns [false]; and for every strategy with a well-formed
    resolution state and components of ordinary names ([strategyOk]),
    and every component of the list, the call does return, with a
    handler called or not, leaving such a strategy. *)
Theorem keydown_is_discarded_only_for_an_old_focus_tree :
  forall s event ftid cid options,
    (forall v s',
        handleKeydown env s event ftid cid options = Returned v s' ->
        v = Some (negb (ftid =? focusTreeId s)%nat)) /\
    (ftid = focusTreeId s ->
     ignoreEvent (eventPropagationState s) = true \/
     (_isNewKeyEvent s cid = true /\
      ignoreEventsCondition options event = true) ->
     exists s',
       handleKeydown env s event ftid cid options = Returned (Some false) s') /\
    (strategyOk s ->
     cid < List.length (componentList (registered s)) ->
     exists s',
       handleKeydown env s event ftid cid options =
         Returned (Some (negb (ftid =? focusTreeId s)%nat)) s' /\
       strategyOk s').
Proof.
  intros s event ftid cid options. split; [|split].
  - intros v s'. unfold handleKeydown.
    destruct (ftid =? focusTreeId s)%nat; simpl negb; cbv iota;
      [|intros H; inversion H; reflexivity].
    destruct (_alreadyEstablishedShouldIgnoreEvent s);
      [intros H; inversion H; reflexivity|].
    destruct (_isNewKeyEvent s cid); [|apply finishKeydown_value].
    destruct (_alreadyEstablishedShouldIgnoreEvent _);
      [intros H; inversion H; reflexivity | apply finishKeydown_value].
  - intros Hft Hignored. unfold handleKeydown. subst ftid.
    rewrite Nat.eqb_refl. simpl negb. cbv iota.
    unfold _alreadyEstablishedShouldIgnoreEvent at 1.
    destruct (ignoreEvent (eventPropagationState s)) eqn:Hig; [eauto|].
    destruct Hignored as [Hig'|[Hnew Hcond]]; [discriminate|].
    rewrite Hnew, firstSighting_ignoreEvent, Hcond. eauto.
  - intros Hok Hcid.
    destruct (handleKeydown_returns s event ftid cid options Hok Hcid)
      as (s' & E & H' & _).
    eauto.
Qed.

(** ** The search over the alias permutations ends *)

Lemma radix_pos n : 0 < radix n.
Proof. unfold radix. destruct n; simpl; lia. Qed.

Lemma counterValue_bound sizes counters :
  validCounters sizes counters -> counterValue sizes counters < radixProduct sizes.
Proof.
  induction 1 as [|n c ns cs Hc Hv IH]; simpl; [lia|].
  pose proof (radix_pos n). nia.
Qed.

Lemma incrementCounters_value sizes counters :
  validCounters sizes counters ->
  validCounters sizes (fst (incrementCounters sizes counters)) /\
  if snd (incrementCounters sizes counters)
  then counterValue sizes counters + 1 = radixProduct sizes
  else counterValue sizes (fst (incrementCounters sizes counters)) =
         counterValue sizes counters + 1.
Proof.
  induction 1 as [|n c ns cs Hc Hv IH]; simpl; [split; [constructor | reflexivity]|].
  fold (radix n). pose proof (radix_pos n) as Hpos.
  destruct ((c + 1) mod radix n =? 0)%nat eqn:E.
  - apply Nat.eqb_eq in E.
    assert (Hfull : c + 1 = radix n).
    { destruct (Nat.eq_dec (c + 1) (radix n)) as [|Hne]; [assumption|].
      rewrite Nat.mod_small in E by lia. lia. }
    destruct (incrementCounters ns cs) as [cs' all]. simpl in IH |- *.
    destruct IH as [IHv IHn]. rewrite E.
    split; [constructor; [exact Hpos | exact IHv]|].
    destruct all; simpl; nia.
  - apply Nat.eqb_neq in E. simpl.
    assert (Hsmall : c + 1 < radix n).
    { destruct (Nat.eq_dec (c + 1) (radix n)) as [Heq|Hne]; [|lia].
      rewrite Heq, Nat.Div0.mod_same in E. congruence. }
    rewrite Nat.mod_small by lia.
    split; [constructor; assumption | lia].
Qed.

(** More fuel than the permutations that are left changes nothing. *)
Lemma tryPermutations_fuel keyMatcher sequenceIds extra :
  forall fuel counters,
    validCounters (rev (map (@List.length string) sequenceIds)) counters ->
    radixProduct (rev (map (@List.length string) sequenceIds))
      <= fuel
         + counterValue (rev (map (@List.length string) sequenceIds)) counters ->
    tryPermutations (fuel + extra) keyMatcher sequenceIds counters =
      tryPermutations fuel keyMatcher sequenceIds counters.
Proof.
  set (sizes := rev (map (@List.length string) sequenceIds)).
  induction fuel as [|fuel IH]; intros counters Hv Hfuel.
  - pose proof (counterValue_bound sizes counters Hv). lia.
  - simpl.
    destruct (JsObject.get keyMatcher _); [reflexivity|].
    destruct (incrementCounters_value sizes counters Hv) as [Hv' Hn].
    fold sizes.
    destruct (incrementCounters sizes counters) as [counters' all].
    simpl in Hv', Hn. destruct all; [reflexivity|].
    apply IH; [exact Hv'|]. lia.
Qed.

Lemma radixProduct_app l1 l2 :
  radixProduct (l1 ++ l2) = radixProduct l1 * radixProduct l2.
Proof.
  induction l1 as [|n l1 IH]; simpl; [lia|]. rewrite IH. lia.
Qed.

Lemma radixProduct_rev l : radixProduct (rev l) = radixProduct l.
Proof.
  induction l as [|n l IH]; simpl; [reflexivity|].
  rewrite radixProduct_app, IH. simpl. lia.
Qed.

Lemma permutationCount_product sequenceIds :
  permutationCount sequenceIds =
    radixProduct (map (@List.length string) sequenceIds).
Proof.
  unfold permutationCount, radixProduct.
  induction sequenceIds as [|l ids IH]; [reflexivity|].
  cbn [fold_right map]. rewrite IH.
  unfold radix. destruct (List.length l); reflexivity.
Qed.

Lemma validCounters_zero sizes :
  validCounters sizes (map (fun _ => 0) sizes).
Proof.
  induction sizes as [|n sizes IH]; simpl; constructor; [apply radix_pos | exact IH].
Qed.

Lemma counterValue_zero sizes counters :
  Forall (fun c => c = 0) counters -> counterValue sizes counters = 0.
Proof.
  intros H. revert sizes. induction H as [|c cs Hc _ IH]; intros [|n ns];
    simpl; trivial. rewrite IH. subst c. lia.
Qed.

Lemma map_const_repeat {A} (l : list A) :
  map (fun _ => 0) l = repeat 0 (List.length l).
Proof. induction l as [|x l IH]; simpl; congruence. Qed.

(** The fuel of [_tryMatchSequenceWithKeyAliases] is enough: the loop
    over the permutations ends for having tried them all, and more fuel
    gives the same result. *)
Lemma _tryMatchSequenceWithKeyAliases_fuel keyMatcher sequenceIds extra :
  tryPermutations (permutationCount sequenceIds + extra) keyMatcher sequenceIds
    (map (fun _ => 0) sequenceIds)
  = tryPermutations (permutationCount sequenceIds) keyMatcher sequenceIds
      (map (fun _ => 0) sequenceIds).
Proof.
  apply tryPermutations_fuel.
  - assert (H : map (fun _ : list string => 0) sequenceIds =
                map (fun _ : nat => 0)
                  (rev (map (@List.length string) sequenceIds))).
    { rewrite !map_const_repeat, length_rev, length_map. reflexivity. }
    rewrite H. apply validCounters_zero.
  - rewrite radixProduct_rev, <- permutationCount_product.
    rewrite counterValue_zero; [lia|].
    apply Forall_forall. intros c Hc. apply in_map_iff in Hc.
    destruct Hc as (x & <- & _). reflexivity.
Qed.

End Properties.

(** * The strategy at work *)

(** [Object.keys] lists the array indices first, by value. *)
Example keys_of_an_object_lists_indices_first :
  JsObject.keys [("b", 1); ("10", 2); ("2", 3); ("a", 4); ("01", 5)]
  = ["2"; "10"; "b"; "a"; "01"].
Proof. reflexivity. Qed.

(** [slice(-n, -1)] is the [n - 1] entries before the last one, and
    [slice(-0, -1)] every entry but the last. *)
Example slice_before_the_last_entry :
  slice [1; 2; 3; 4] (-2) (-1) = [3] /\
  slice [1; 2; 3; 4] (-1) (-1) = [] /\
  slice [1; 2; 3; 4] (- 0) (-1) = [1; 2; 3].
Proof. repeat split. Qed.

(** A key pressed, released and pressed again makes two combinations, and
    its handler is called for each keydown by the inner component only. *)
Example tapping_twice_makes_two_combinations :
  map ids (history Example.tapped) = [["a"]; ["a"]] /\
  filter isHandlerCall (effects Example.tapped)
  = [HandlerCalled 10 (Example.press "a"); HandlerCalled 10 (Example.press "a")].
Proof. vm_compute. split; reflexivity. Qed.

(** With [a] and [Shift+a] both bound, pressing [Shift] then [a] calls
    the handler of the larger combination. *)
Example larger_combination_wins :
  filter isHandlerCall
    (effects
       (handleKeyEvents Example.env Example.focused
          (bubble keydown (Example.press "Shift") 0 Example.neverIgnore 0 2
           ++ bubble keydown (Example.press "a") 0 Example.neverIgnore 0 2)))
  = [HandlerCalled 11 (Example.press "a")].
Proof. vm_compute. reflexivity. Qed.

(** * The properties on the concrete focus tree *)

Lemma Example_cumulativeBitmaps : cumulativeBitmaps Example.env.
Proof. intros [] []; simpl; intros H; try reflexivity; lia. Defined.


Lemma event_is_new_when_previous_index_reaches_scope_witness :
  0 = focusTreeId Example.focused /\
  ignoreEvent (eventPropagationState Example.focused) = false /\
  replaysKeypress Example.env Example.focused keyup "a" 0 = false /\
  ignoreEventsConditionCalls
    (finalState
       (handleKeyEvent Example.env Example.focused (Example.call keyup "a" 0)))
  = 1.
Proof.
  split; [reflexivity|]. split; [reflexivity|]. split; [reflexivity|].
  apply (proj1 (event_is_new_when_previous_index_reaches_scope Example.env
                  keyup Example.focused (Example.press "a") 0 0
                  Example.neverIgnore eq_refl eq_refl eq_refl)).
  simpl. lia.
Defined.


(** C2 as stated fails: with [previousComponentIndex >= componentId] the
    event is recorded and the condition evaluated; without, neither. *)
Lemma previous_index_reaching_scope_is_not_previously_seen :
  let s := Example.focused in
  let atInner :=
    finalState (handleKeyup Example.env s (Example.press "a") 0 0
                  Example.neverIgnore) in
  let atOuter :=
    finalState (handleKeyup Example.env s (Example.press "a") 0 1
                  Example.neverIgnore) in
  (previousComponentIndex (eventPropagationState s) >= 0 /\
   ignoreEventsConditionCalls atInner = 1 /\
   List.length (history atInner) = 1 /\ history s = []) /\
  (~ previousComponentIndex (eventPropagationState s) >= 1 /\
   ignoreEventsConditionCalls atOuter = 0 /\
   history atOuter = history s).
Proof.
  vm_compute. repeat split; try lia; auto.
Qed.

(** The keydown that replays queued keypress events is the exception:
    at the root the keydown of [Shift] has been seen before, and the
    keypress replayed for the inner component is counted, evaluated and
    recorded as an event of its own. *)
Example root_keydown_records_the_replayed_keypress :
  let s :=
    handleKeyEvents Example.env Example.focused [Example.call keydown "Shift" 0] in
  let s' :=
    finalState (handleKeyEvent Example.env s (Example.call keydown "Shift" 1)) in
  previousComponentIndex (eventPropagationState s) < 1 /\
  ignoreEvent (eventPropagationState s) = false /\
  replaysKeypress Example.env s keydown "Shift" 1 = true /\
  keyEventCounter s' = S (keyEventCounter s) /\
  ignoreEventsConditionCalls s' = S (ignoreEventsConditionCalls s) /\
  history s' <> history s.
Proof.
  vm_compute. repeat split; try lia. discriminate.
Qed.

Lemma history_never_exceeds_longest_sequence_witness :
  List.length (history Example.tapped)
    <= longestSequence (registered Example.tapped) + 1 /\
  List.length
    (history (handleKeyEvents Example.env Example.tapped Example.tapTwice))
    <= longestSequence (registered Example.tapped) + 1 /\
  longestSequence (registered Example.tapped)
    < List.length (history Example.tapped) /\
  history (_startNewKeyCombination Example.env Example.tapped "b" keydown) =
    tl (history Example.tapped)
    ++ [_getCurrentKeyCombination
          (_startNewKeyCombination Example.env Example.tapped "b" keydown)].
Proof.
  assert (H : List.length (history Example.tapped)
              <= longestSequence (registered Example.tapped) + 1)
    by (vm_compute; lia).
  assert (H' : longestSequence (registered Example.tapped)
               < List.length (history Example.tapped))
    by (vm_compute; lia).
  destruct (history_never_exceeds_longest_sequence Example.env Example.tapped H)
    as [A B].
  split; [exact H|]. split; [apply A|]. split; [exact H'|].
  apply B. exact H'.
Defined.

Lemma current_bits_are_kept_within_a_combination_witness :
  cumulativeBitmaps Example.env /\
  startsNewCombination keypress Example.holdingA "a" = false /\
  JsObject.get (keys (_getCurrentKeyCombination Example.holdingA)) "a" =
    Some (mkKeyState (mkBitmap false false false) (mkBitmap true false false)) /\
  exists keyState',
    JsObject.get
      (keys (_getCurrentKeyCombination
               (recordKeyEvent Example.env keypress Example.holdingA "a")))
      "a" = Some keyState' /\
    bit (current keyState') keydown = true.
Proof.
  split; [exact Example_cumulativeBitmaps|].
  split; [reflexivity|]. split; [reflexivity|].
  exact (proj1 (current_bits_are_kept_within_a_combination Example.env
                  Example_cumulativeBitmaps)
           keypress Example.holdingA "a" eq_refl "a" _ keydown eq_refl eq_refl).
Defined.

Lemma keydown_starts_or_extends_combination_witness :
  0 = focusTreeId Example.focused /\
  ignoreEvent (eventPropagationState Example.focused) = false /\
  _isNewKeyEvent Example.focused 0 = true /\
  ignoreEventsCondition Example.neverIgnore (Example.press "a") = false /\
  history
    (finalState
       (handleKeydown Example.env Example.focused (Example.press "a") 0 0
          Example.neverIgnore))
  = history
      (recordKeydown Example.env
         (firstSighting Example.focused (Example.press "a") keydown
            Example.neverIgnore) "a").
Proof.
  split; [reflexivity|]. split; [reflexivity|]. split; [reflexivity|].
  split; [reflexivity|].
  apply (proj2 (proj2 (proj2
           (keydown_starts_or_extends_combination Example.env Example.focused
              (Example.press "a") 0 0 Example.neverIgnore
              eq_refl eq_refl eq_refl eq_refl)))).
  reflexivity.
Defined.

(** C5, on the code. After [a] was released twice in a row the second
    keyup has started a combination that holds the keyup of [a], with the
    flag [keyCombinationIncludesKeyUp] cleared; the keydown of [b] that
    follows is seen for the first time and is added to this combination,
    where the rule starts a new one for a combination that contains a
    keyup. *)
Lemma keydown_extends_a_combination_that_includes_a_keyup :
  let s := Example.releasedTwice in
  let s' :=
    finalState (handleKeydown Example.env s (Example.press "b") 0 0
                  Example.neverIgnore) in
  includesKeyUp (_getCurrentKeyCombination s) = true /\
  keyCombinationIncludesKeyUp (combinationState s) = false /\
  JsObject.has (keys (_getCurrentKeyCombination s)) "b" = false /\
  _isNewKeyEvent s 0 = true /\
  history s' =
    history (_addToCurrentKeyCombination Example.env s "b" keydown) /\
  history s' <>
    history (_startNewKeyCombination Example.env s "b" keydown) /\
  map fst (keys (_getCurrentKeyCombination s')) = ["a"; "b"].
Proof.
  split; [reflexivity|]. split; [reflexivity|]. split; [reflexivity|].
  split; [reflexivity|]. split; [reflexivity|].
  split; [|reflexivity].
  intros H. vm_compute in H. discriminate H.
Qed.


Lemma combinations_are_tried_by_descending_size_witness :
  exists group,
    _tryMatchSequenceWithKeyAliases (currentSequences Example.resolved 1)
      (map ids (slice (history Example.resolved) (- Z.of_nat 1) (-1)))
    = Some (EmptyString, group) /\
    order group = None /\
    JsObject.get
      (currentSequences
         (finalState
            (matchSequenceOfLength Example.env Example.resolved
               (Example.press "b") "b" keydown 1
               (_getCurrentKeyCombination Example.resolved) 1)) 1) EmptyString
    = Some (mkGroup (combinations group)
              (Some (combinationOrder (combinations group)))).
Proof.
  destruct (_tryMatchSequenceWithKeyAliases (currentSequences Example.resolved 1)
              (map ids (slice (history Example.resolved) (- Z.of_nat 1) (-1))))
    as [[k g]|] eqn:E; [|vm_compute in E; discriminate E].
  assert (Hk : k = EmptyString) by (vm_compute in E; congruence).
  assert (Ho : order g = None) by (vm_compute in E; inversion E; reflexivity).
  subst k. exists g. split; [reflexivity|]. split; [exact Ho|].
  pose proof (proj1 (proj2 (proj2 (combinations_are_tried_by_descending_size
                                     Example.env)))
                Example.resolved (Example.press "b") "b" keydown 1
                (_getCurrentKeyCombination Example.resolved) 1 EmptyString g E) as H.
  cbv zeta in H. rewrite Ho in H. exact (proj2 H).
Defined.

(** C7 as stated fails on the ties: the outer component registers [b]
    before [1], both of one key, and [1] is tried first. *)
Lemma digit_combination_is_tried_before_earlier_registered_one :
  let s :=
    handleKeyEvents Example.env Example.focused
      (bubble keydown (Example.press "b") 0 Example.neverIgnore 0 2) in
  match JsObject.get (currentSequences s 1) EmptyString with
  | Some group =>
      map fst (combinations group) = ["b"; "1"] /\
      map (fun c => matcherSize (snd c)) (combinations group) = [1; 1] /\
      order group = Some ["1"; "b"]
  | None => False
  end.
Proof. vm_compute. repeat split. Qed.



Lemma events_of_an_old_focus_tree_are_discarded_witness :
  7 <> focusTreeId Example.tapped /\
  handleKeydown Example.env Example.tapped (Example.press "a") 7 0
    Example.neverIgnore
  = Returned (Some true) Example.tapped.
Proof.
  assert (H : 7 <> focusTreeId Example.tapped)
    by (vm_compute; discriminate).
  split; [exact H|].
  exact (proj1 (events_of_an_old_focus_tree_are_discarded Example.env
                  Example.tapped (Example.press "a") 7 0 Example.neverIgnore H)).
Defined.

Lemma keydown_is_discarded_only_for_an_old_focus_tree_witness :
  strategyOk Example.focused /\
  1 < List.length (componentList (registered Example.focused)) /\
  exists s',
    handleKeydown Example.env Example.focused (Example.press "a") 0 1
      Example.neverIgnore
    = Returned (Some false) s' /\
    strategyOk s'.
Proof.
  assert (Hok : strategyOk Example.focused)
    by (apply strategyOk_reset; reflexivity).
  assert (Hcid : 1 < List.length (componentList (registered Example.focused)))
    by (simpl; lia).
  split; [exact Hok|]. split; [exact Hcid|].
  exact (proj2 (proj2 (keydown_is_discarded_only_for_an_old_focus_tree
                         Example.env Example.focused (Example.press "a") 0 1
                         Example.neverIgnore)) Hok Hcid).
Defined.

(** * Further properties of the strategy *)

Section FurtherProperties.

Variable env : Collaborators.

(** ** The end of a call *)

Lemma simulateKeypressEvents_registered queue :
  forall s,
    registered (finalState (simulateKeypressEvents env s queue)) = registered s.
Proof.
  intros s.
  refine (proj2 (simulateKeypressEvents_holds env (fun _ _ => True) _ queue s I)).
  intros s0 k i _. split; exact I.
Qed.

(** A call that gets past the recording step and returns ends with
    [_updateEventPropagationHistory], the registered key maps being those
    it started with. *)
Lemma afterRecording_ends_with_update type s event k ftid cid options v s' :
  afterRecording env type s event k ftid cid options = Returned v s' ->
  exists s4,
    s' = _updateEventPropagationHistory s4 cid /\
    registered s4 = registered s /\
    v = match type with keydown => Some false | _ => None end.
Proof.
  assert (Hcall : forall i (w : ReturnValue),
            bind (_callHandlerIfActionNotHandled env s event k i cid)
              (fun _ s2 => Returned w (_updateEventPropagationHistory s2 cid))
            = Returned v s' ->
            exists s4,
              s' = _updateEventPropagationHistory s4 cid /\
              registered s4 = registered s /\ v = w).
  { intros i w H.
    destruct (_callHandlerIfActionNotHandled_cases env s event k i cid)
      as (Hr & _).
    destruct (_callHandlerIfActionNotHandled env s event k i cid)
      as [[] s1|s1]; simpl in H, Hr; [|discriminate].
    inversion H; subst. exists s1. repeat split. exact Hr. }
  destruct type; simpl; [|apply Hcall|apply Hcall].
  unfold finishKeydown. intros H.
  destruct (_callHandlerIfActionNotHandled_cases env s event k keydown cid)
    as (Hr & _).
  destruct (_callHandlerIfActionNotHandled env s event k keydown cid)
    as [[] s1|s1]; simpl in H, Hr; [|discriminate].
  set (s2 := if negb (hasKeyPressEvent env k) && simulateMissingKeyPressEvents env
             then _ else s1) in H.
  assert (R2 : registered s2 = registered s)
    by (subst s2; destruct (_ && _); exact Hr).
  destruct (_isFocusTreeRoot s2 cid).
  - pose proof (simulateKeypressEvents_registered
                  (keypressEventsToSimulate (combinationState s2)) s2) as R3.
    destruct (simulateKeypressEvents env s2 _) as [[] s3|s3]; simpl in H, R3;
      [|discriminate].
    inversion H; subst. eexists. split; [reflexivity|].
    split; [|reflexivity]. simpl. congruence.
  - simpl in H. inversion H; subst. exists s2. repeat split. exact R2.
Qed.

Lemma handleKeyEvent_ends_with_update type s event cid options v s' :
  handleKeyEvent env s (mkCall type event (focusTreeId s) cid options)
  = Returned v s' ->
  exists s4,
    s' = _updateEventPropagationHistory s4 cid /\
    registered s4 = registered s /\
    v = match type with keydown => Some false | _ => None end.
Proof.
  rewrite handleKeyEvent_unfold. cbv zeta.
  rewrite Nat.eqb_refl. simpl negb. cbv iota.
  destruct (_alreadyEstablishedShouldIgnoreEvent s).
  { intros H; inversion H; subst. exists s. repeat split. }
  destruct (_isNewKeyEvent s cid);
    [|apply afterRecording_ends_with_update].
  destruct (_alreadyEstablishedShouldIgnoreEvent _).
  { intros H; inversion H; subst. eexists. repeat split. }
  intros H. apply afterRecording_ends_with_update in H.
  destruct H as (s4 & E & R & V). exists s4. repeat split; trivial.
  rewrite R.
  rewrite (proj1 (recordKeyEvent_frame env type _ _)). reflexivity.
Qed.

(** X1. A call of [handleKeydown], [handleKeypress] or [handleKeyup] for
    the current focus tree that returns leaves the event propagation
    state cleared (previous component 0, no action handled, no event
    ignored) when the component is the root of the focus tree, and
    records the component as the previous one otherwise. *)
Theorem propagation_state_is_cleared_at_the_root :
  forall s c v s',
    callFocusTreeId c = focusTreeId s ->
    handleKeyEvent env s c = Returned v s' ->
    (_isFocusTreeRoot s (callComponentId c) = true ->
     eventPropagationState s' = mkPropagation 0 false false) /\
    (_isFocusTreeRoot s (callComponentId c) = false ->
     previousComponentIndex (eventPropagationState s') = callComponentId c).
Proof.
  intros s [type event ftid cid options] v s' Hft Hcall. simpl in Hft; subst ftid.
  apply handleKeyEvent_ends_with_update in Hcall.
  destruct Hcall as (s4 & -> & R & _). simpl callComponentId.
  unfold _updateEventPropagationHistory.
  rewrite (_isFocusTreeRoot_registered s s4 cid R).
  split; intros ->; reflexivity.
Qed.

(** X2. Whenever they return, [handleKeypress] and [handleKeyup] return
    [true] for a focus tree id other than the current one and [undefined]
    otherwise.  They do return for a component id of the list when the
    resolution state is well formed and the names are ordinary: those of
    the handlers, the actions and the key sequences of the components
    ([strategyOk]), those that the collaborators give, those of the keys
    and ids recorded and of the keys bound in the key maps, and that of
    the key of the event. *)
Theorem keypress_and_keyup_return_true_only_for_an_old_focus_tree :
  forall s event ftid cid options,
    let expected := if (ftid =? focusTreeId s)%nat then None else Some true in
    (forall v s',
        handleKeypress env s event ftid cid options = Returned v s' ->
        v = expected) /\
    (forall v s',
        handleKeyup env s event ftid cid options = Returned v s' ->
        v = expected) /\
    (strategyOk s ->
     cid < List.length (componentList (registered s)) ->
     ordinaryKeys env ->
     ordinaryHistory s ->
     ordinaryKeyMaps (resolution s) ->
     ordinary (normalizeKeyName env (key event)) ->
     exists s1 s2,
       handleKeypress env s event ftid cid options = Returned expected s1 /\
       handleKeyup env s event ftid cid options = Returned expected s2).
Proof.
  intros s event ftid cid options expected.
  assert (Hvalue : forall type v s',
            type <> keydown ->
            handleKeyEvent env s (mkCall type event ftid cid options)
            = Returned v s' ->
            v = expected).
  { intros type v s' Htype H. subst expected.
    destruct (ftid =? focusTreeId s)%nat eqn:Hft.
    - apply Nat.eqb_eq in Hft; subst ftid.
      apply handleKeyEvent_ends_with_update in H.
      destruct H as (_ & _ & _ & ->). destruct type; congruence.
    - rewrite handleKeyEvent_unfold in H. cbv zeta in H. rewrite Hft in H.
      simpl in H. inversion H; reflexivity. }
  split; [intros v s'; apply (Hvalue keypress); discriminate|].
  split; [intros v s'; apply (Hvalue keyup); discriminate|].
  intros Hok Hcid _ _ _ _.
  destruct (handleKeyEvent_returns env keypress s event ftid cid options
              ltac:(discriminate) Hok Hcid) as (s1 & H1 & _).
  destruct (handleKeyEvent_returns env keyup s event ftid cid options
              ltac:(discriminate) Hok Hcid) as (s2 & H2 & _).
  exists s1, s2. split; assumption.
Qed.

(** ** The keypress events to simulate *)

Lemma finishKeydown_queue_below_root s event k ftid cid options v s' :
  finishKeydown env s event k ftid cid options = Returned v s' ->
  _isFocusTreeRoot s cid = false ->
  queue s' =
    queue s
    ++ (if negb (hasKeyPressEvent env k) && simulateMissingKeyPressEvents env
        then [mkSimulated event ftid cid options] else []).
Proof.
  unfold finishKeydown. intros H Hroot.
  destruct (_callHandlerIfActionNotHandled_cases env s event k keydown cid)
    as (Hr & Hc & _).
  destruct (_callHandlerIfActionNotHandled env s event k keydown cid)
    as [[] s1|s1]; simpl in H, Hr, Hc; [|discriminate].
  set (s2 := if negb (hasKeyPressEvent env k) && simulateMissingKeyPressEvents env
             then _ else s1) in H.
  assert (R2 : registered s2 = registered s)
    by (subst s2; destruct (_ && _); exact Hr).
  rewrite (_isFocusTreeRoot_registered s s2 cid R2), Hroot in H.
  simpl in H. inversion H; subst s'.
  destruct (_updateEventPropagationHistory_same s2 cid) as (_ & Hc2 & _).
  unfold queue. rewrite Hc2. subst s2.
  destruct (_ && _); simpl; rewrite Hc; [reflexivity|].
  rewrite app_nil_r; reflexivity.
Qed.

(** X3. A keydown call for the current focus tree that returns: when the
    event is ignored the keypress events to simulate are left as they
    were; otherwise a call at the root of the focus tree leaves none to
    simulate, and a call below the root adds one for the event exactly
    when its key has no keypress event of its own and
    [simulateMissingKeyPressEvents] is on. *)
Theorem keypress_events_to_simulate_after_a_keydown :
  forall s event cid options v s',
    handleKeydown env s event (focusTreeId s) cid options = Returned v s' ->
    let k := normalizeKeyName env (key event) in
    let ignored :=
      ignoring s || _isNewKeyEvent s cid && ignoreEventsCondition options event in
    (ignored = true -> queue s' = queue s) /\
    (ignored = false -> _isFocusTreeRoot s cid = true -> queue s' = []) /\
    (ignored = false -> _isFocusTreeRoot s cid = false ->
     queue s' =
       queue s
       ++ (if negb (hasKeyPressEvent env k) && simulateMissingKeyPressEvents env
           then [mkSimulated event (focusTreeId s) cid options] else [])).
Proof.
  intros s event cid options v s' H k ignored. subst ignored.
  unfold handleKeydown in H. rewrite Nat.eqb_refl in H. simpl negb in H.
  cbv iota in H.
  unfold ignoring. fold (_alreadyEstablishedShouldIgnoreEvent s).
  destruct (_alreadyEstablishedShouldIgnoreEvent s).
  { inversion H; subst s'.
    destruct (_updateEventPropagationHistory_same s cid) as (_ & Hc & _).
    unfold queue. rewrite Hc. simpl.
    split; [reflexivity|]. split; discriminate. }
  simpl orb.
  destruct (_isNewKeyEvent s cid).
  - change (_alreadyEstablishedShouldIgnoreEvent
              (firstSighting s event keydown options))
      with (ignoreEventsCondition options event) in H.
    simpl andb.
    destruct (ignoreEventsCondition options event).
    + inversion H; subst s'.
      destruct (_updateEventPropagationHistory_same
                  (firstSighting s event keydown options) cid) as (_ & Hc & _).
      unfold queue. rewrite Hc. simpl.
      split; [reflexivity|]. split; discriminate.
    + fold k in H.
      set (s1 := recordKeydown env (firstSighting s event keydown options) k)
        in H.
      destruct (recordKeyEvent_frame env keydown
                  (firstSighting s event keydown options) k)
        as (R1 & _ & _ & _ & Q1 & _).
      change (recordKeyEvent env keydown ?a ?b) with (recordKeydown env a b)
        in R1, Q1. fold s1 in R1, Q1.
      assert (Hroot1 : _isFocusTreeRoot s1 cid = _isFocusTreeRoot s cid)
        by (apply _isFocusTreeRoot_registered; exact R1).
      assert (Hq1 : queue s1 = queue s) by exact Q1.
      split; [discriminate|]. split; intros _ Hroot.
      * apply (finishKeydown_root_queue env _ _ _ _ _ _ _ _ H). congruence.
      * rewrite <- Hq1.
        apply (finishKeydown_queue_below_root _ _ _ _ _ _ _ _ H). congruence.
  - simpl andb. fold k in H.
    split; [discriminate|]. split; intros _ Hroot.
    + apply (finishKeydown_root_queue env _ _ _ _ _ _ _ _ H Hroot).
    + apply (finishKeydown_queue_below_root _ _ _ _ _ _ _ _ H Hroot).
Qed.

(** ** Reset *)

Lemma keysStillPressed_get c k :
  JsObject.get (keysStillPressed c) k =
    match JsObject.get (keys c) k with
    | Some keyState =>
        if bit (current keyState) keydown && negb (bit (current keyState) keyup)
        then Some keyState else None
    | None => None
    end.
Proof.
  change (keysStillPressed c)
    with (copyWhere
            (fun v => bit (current v) keydown && negb (bit (current v) keyup))
            (keys c) (JsObject.keys (keys c)) JsObject.empty).
  apply copyWhere_keys_get.
Qed.

(** X4. [_reset] moves on to the next focus tree id with no component
    registered and nothing resolved, and keeps of the key combination
    history one combination at most: an empty history stays empty, and
    otherwise the only combination left holds the keys of the current
    combination whose current bitmap has keydown set and keyup clear,
    each with its state, under the ids that serialize them. *)
Theorem reset_keeps_the_keys_still_pressed :
  forall s,
    let s' := _reset env s in
    focusTreeId s' = focusTreeId s + 1 /\
    componentList (registered s') = [] /\
    resolution s' = _resetHandlerResolutionState /\
    queue s' = [] /\
    (history s = [] -> history s' = []) /\
    (history s <> [] ->
     exists kept,
       history s' = [kept] /\
       ids kept = serialize env (keys kept) /\
       forall k,
         JsObject.get (keys kept) k =
           match JsObject.get (keys (_getCurrentKeyCombination s)) k with
           | Some keyState =>
               if bit (current keyState) keydown
                  && negb (bit (current keyState) keyup)
               then Some keyState else None
           | None => None
           end).
Proof.
  intros s s'. subst s'.
  split; [reflexivity|]. split; [reflexivity|]. split; [reflexivity|].
  split; [reflexivity|].
  unfold _reset, history at 2 4. simpl.
  split.
  - intros ->. reflexivity.
  - intros Hne. destruct (history s) as [|c h] eqn:Hh; [congruence|].
    simpl. eexists. split; [reflexivity|]. split; [reflexivity|].
    intros k. simpl. apply keysStillPressed_get.
Qed.

(** ** The aliases of a sequence *)

Lemma Forall2_rev {A B} (R : A -> B -> Prop) l l' :
  Forall2 R l l' -> Forall2 R (rev l) (rev l').
Proof.
  induction 1; simpl; [constructor|].
  apply Forall2_app; [assumption|]. constructor; [assumption|constructor].
Qed.

Lemma radix_max n : radix n = Nat.max 1 n.
Proof. unfold radix. destruct n; simpl; [reflexivity|]. lia. Qed.

Lemma validCounters_choice sequenceIds countersFromEnd :
  validCounters (rev (map (@List.length string) sequenceIds)) countersFromEnd ->
  aliasChoice sequenceIds (rev countersFromEnd).
Proof.
  unfold validCounters, aliasChoice. intros H.
  apply Forall2_rev in H. rewrite rev_involutive in H.
  remember (rev countersFromEnd) as choice eqn:E. clear E.
  revert choice H.
  induction sequenceIds as [|ids rest IH]; intros choice H; inversion H; subst;
    constructor.
  - rewrite <- radix_max. assumption.
  - apply IH. assumption.
Qed.

Lemma choice_validCounters sequenceIds choice :
  aliasChoice sequenceIds choice ->
  validCounters (rev (map (@List.length string) sequenceIds)) (rev choice).
Proof.
  unfold validCounters, aliasChoice. intros H.
  apply Forall2_rev.
  induction H; simpl; constructor; [|assumption].
  rewrite radix_max. assumption.
Qed.

Lemma counterValue_injective sizes :
  forall c1 c2,
    validCounters sizes c1 -> validCounters sizes c2 ->
    counterValue sizes c1 = counterValue sizes c2 ->
    c1 = c2.
Proof.
  unfold validCounters.
  induction sizes as [|n ns IH]; intros c1 c2 H1 H2 E;
    inversion H1; subst; inversion H2; subst; [reflexivity|].
  simpl in E.
  match goal with
  | A : ?x < radix n, B : ?y < radix n |- ?x :: ?l = ?y :: ?l' =>
      assert (Hq : counterValue ns l = counterValue ns l' /\ x = y)
  end.
  { match goal with
    | A : ?x < radix n, B : ?y < radix n |- counterValue ns ?l = counterValue ns ?l' /\ _ =>
        apply (Nat.div_mod_unique (radix n) (counterValue ns l) (counterValue ns l') x y);
          [assumption|assumption|lia]
    end. }
  destruct Hq as [Hq ->]. f_equal. apply IH; assumption.
Qed.

Lemma validCounters_zero_sequence (sequenceIds : list (list string)) :
  validCounters (rev (map (@List.length string) sequenceIds))
    (map (fun _ => 0) sequenceIds).
Proof.
  assert (H : map (fun _ : list string => 0) sequenceIds =
              map (fun _ : nat => 0)
                (rev (map (@List.length string) sequenceIds))).
  { rewrite !map_const_repeat, length_rev, length_map. reflexivity. }
  rewrite H. apply validCounters_zero.
Qed.

Lemma tryPermutations_choice fuel keyMatcher sequenceIds :
  forall counters k g,
    validCounters (rev (map (@List.length string) sequenceIds)) counters ->
    tryPermutations fuel keyMatcher sequenceIds counters = Some (k, g) ->
    exists counters',
      validCounters (rev (map (@List.length string) sequenceIds)) counters' /\
      k = join (sequenceIdPermutation sequenceIds (rev counters')).
Proof.
  induction fuel as [|fuel IH]; intros counters k g Hv H; simpl in H;
    [discriminate|].
  destruct (JsObject.get keyMatcher
              (join (sequenceIdPermutation sequenceIds (rev counters)))).
  - inversion H; subst. exists counters. split; [assumption|reflexivity].
  - destruct (incrementCounters_value _ _ Hv) as [Hv' _].
    destruct (incrementCounters _ counters) as [counters' triedAll].
    destruct triedAll; [discriminate|].
    apply (IH counters' k g Hv' H).
Qed.

Lemma tryPermutations_finds keyMatcher sequenceIds target :
  validCounters (rev (map (@List.length string) sequenceIds)) target ->
  JsObject.has keyMatcher
    (join (sequenceIdPermutation sequenceIds (rev target))) = true ->
  forall fuel counters,
    validCounters (rev (map (@List.length string) sequenceIds)) counters ->
    counterValue (rev (map (@List.length string) sequenceIds)) counters
      <= counterValue (rev (map (@List.length string) sequenceIds)) target ->
    radixProduct (rev (map (@List.length string) sequenceIds))
      <= fuel
         + counterValue (rev (map (@List.length string) sequenceIds)) counters ->
    tryPermutations fuel keyMatcher sequenceIds counters <> None.
Proof.
  intros Ht Hhas.
  set (sizes := rev (map (@List.length string) sequenceIds)) in *.
  pose proof (counterValue_bound sizes target Ht) as Hbound.
  induction fuel as [|fuel IH]; intros counters Hv Hle Hfuel.
  - pose proof (counterValue_bound sizes counters Hv). simpl in Hfuel. lia.
  - simpl.
    destruct (JsObject.get keyMatcher
                (join (sequenceIdPermutation sequenceIds (rev counters))))
      eqn:Hget; [discriminate|].
    assert (Hne : counterValue sizes counters <> counterValue sizes target).
    { intros E. apply (counterValue_injective sizes _ _ Hv Ht) in E. subst.
      unfold JsObject.has in Hhas. rewrite Hget in Hhas. discriminate. }
    pose proof (incrementCounters_value sizes counters Hv) as [Hv' Hstep].
    fold sizes.
    destruct (incrementCounters sizes counters) as [counters' triedAll].
    simpl in Hv', Hstep.
    destruct triedAll; [lia|].
    apply IH; [assumption|lia|lia].
Qed.

(** X5. [_tryMatchSequenceWithKeyAliases] finds a sequence exactly when
    some choice of one alias for each combination of the history is
    registered: the value it returns is registered under the ids of such
    a choice joined by spaces, and it returns a value whenever the ids of
    some choice are registered. *)
Theorem every_choice_of_aliases_is_tried :
  forall keyMatcher sequenceIds,
    (forall k group,
        _tryMatchSequenceWithKeyAliases keyMatcher sequenceIds
        = Some (k, group) ->
        JsObject.get keyMatcher k = Some group /\
        exists choice,
          aliasChoice sequenceIds choice /\
          k = join (sequenceIdPermutation sequenceIds choice)) /\
    (forall choice,
        aliasChoice sequenceIds choice ->
        JsObject.has keyMatcher
          (join (sequenceIdPermutation sequenceIds choice)) = true ->
        _tryMatchSequenceWithKeyAliases keyMatcher sequenceIds <> None).
Proof.
  intros keyMatcher sequenceIds. split.
  - intros k group H.
    split; [exact (_tryMatchSequenceWithKeyAliases_get _ _ _ _ H)|].
    unfold _tryMatchSequenceWithKeyAliases in H.
    destruct sequenceIds as [|ids rest].
    + simpl in H. destruct (JsObject.get keyMatcher EmptyString);
        [|discriminate].
      inversion H; subst. exists []. split; [constructor|reflexivity].
    + cbn [List.length Nat.eqb] in H.
      apply tryPermutations_choice in H.
      * destruct H as (counters' & Hv & ->).
        exists (rev counters'). split; [|reflexivity].
        apply validCounters_choice. exact Hv.
      * apply validCounters_zero_sequence.
  - intros choice Hc Hhas.
    unfold _tryMatchSequenceWithKeyAliases.
    destruct sequenceIds as [|ids rest].
    + inversion Hc; subst. simpl in Hhas |- *.
      unfold JsObject.has in Hhas.
      destruct (JsObject.get keyMatcher EmptyString); discriminate.
    + cbn [List.length Nat.eqb].
      rewrite <- (rev_involutive choice) in Hhas.
      apply (tryPermutations_finds keyMatcher (ids :: rest) (rev choice)
               (choice_validCounters _ _ Hc) Hhas).
      * apply validCounters_zero_sequence.
      * rewrite counterValue_zero; [lia|].
        apply Forall_forall. intros x Hx. apply in_map_iff in Hx.
        destruct Hx as (? & <- & _). reflexivity.
      * rewrite counterValue_zero.
        -- rewrite permutationCount_product, radixProduct_rev. lia.
        -- apply Forall_forall. intros x Hx. apply in_map_iff in Hx.
           destruct Hx as (? & <- & _). reflexivity.
Qed.

(** ** The keys of a combination *)

Section CombinationKeys.

Variable s : Strategy.
Variable keyBeingPressed : string.
Variable keyboardState : KeyCombinationRecord.
Variable i : KeyEventBitmapIndex.

Let resolvesToKey (candidate : string) : bool :=
  match _keyNameAsItAppearsInKeyboardState env s candidate with
  | Some name => String.eqb name keyBeingPressed
  | None => false
  end.

Let completes : bool :=
  match JsObject.get (keys keyboardState) keyBeingPressed with
  | Some keyState => negb (bit (previous keyState) i)
  | None => false
  end.

Lemma someKeyNotPressed_all_triggering candidates :
  forall acc,
    (forall c, In c candidates ->
               exists name, triggering env s keyboardState i c name) ->
    someKeyNotPressed env s keyBeingPressed keyboardState i candidates acc =
      Some (false,
            if truthy keyBeingPressed && existsb resolvesToKey candidates
            then completes else acc).
Proof.
  induction candidates as [|c l IH]; intros acc Hall; simpl.
  - rewrite andb_false_r. reflexivity.
  - destruct (Hall c (or_introl eq_refl))
      as (name & Hname & Htruthy & keyState & Hget & Hbit).
    unfold resolvesToKey at 1. rewrite Hname, Htruthy, Hget.
    unfold _keyIsCurrentlyTriggeringEvent. rewrite Hbit.
    rewrite IH by (intros c' Hc'; apply Hall; right; exact Hc').
    f_equal. f_equal.
    destruct (truthy keyBeingPressed); simpl; [|reflexivity].
    destruct (existsb resolvesToKey l); [rewrite orb_true_r; reflexivity|].
    rewrite orb_false_r.
    destruct (String.eqb name keyBeingPressed) eqn:E; [|reflexivity].
    apply String.eqb_eq in E. subst name.
    unfold completes, _keyAlreadyTriggeredEvent. rewrite Hget. reflexivity.
Qed.

Lemma someKeyNotPressed_none_missing candidates :
  forall acc acc',
    someKeyNotPressed env s keyBeingPressed keyboardState i candidates acc =
      Some (false, acc') ->
    forall c, In c candidates ->
              exists name, triggering env s keyboardState i c name.
Proof.
  induction candidates as [|c l IH]; intros acc acc' H c' Hc';
    [destruct Hc'|].
  simpl in H.
  destruct (_keyNameAsItAppearsInKeyboardState env s c) as [name|] eqn:Hname;
    [|discriminate].
  destruct (truthy name) eqn:Htruthy; [|discriminate].
  destruct (JsObject.get (keys keyboardState) name) as [keyState|] eqn:Hget;
    [|discriminate].
  destruct (_keyIsCurrentlyTriggeringEvent keyState i) eqn:Hbit;
    [|discriminate].
  destruct Hc' as [<-|Hc'].
  - exists name. split; [exact Hname|]. split; [exact Htruthy|].
    exists keyState. split; assumption.
  - apply (IH _ _ H c' Hc').
Qed.

(** X6. [_combinationMatchesKeys] answers [true] exactly when the
    combination is bound to the event, every key of its dictionary is in
    the current combination, under its own name or an alias, with the
    event in its current bitmap, and the key of the event is one of them
    and did not have the event in its previous bitmap. *)
Theorem combination_matches_when_its_keys_trigger_the_event :
  forall combinationMatch,
    _combinationMatchesKeys env s keyBeingPressed keyboardState
      combinationMatch i = Some true
    <->
    getEvent (events combinationMatch) i <> None /\
    (forall c,
        In c (JsObject.keys (matcherKeyDictionary combinationMatch)) ->
        exists name, triggering env s keyboardState i c name) /\
    truthy keyBeingPressed = true /\
    (exists c,
        In c (JsObject.keys (matcherKeyDictionary combinationMatch)) /\
        _keyNameAsItAppearsInKeyboardState env s c = Some keyBeingPressed) /\
    (exists keyState,
        JsObject.get (keys keyboardState) keyBeingPressed = Some keyState /\
        bit (previous keyState) i = false).
Proof.
  intros combinationMatch. unfold _combinationMatchesKeys.
  set (candidates := JsObject.keys (matcherKeyDictionary combinationMatch)).
  assert (Hresolves :
            existsb resolvesToKey candidates = true <->
            exists c, In c candidates /\
                      _keyNameAsItAppearsInKeyboardState env s c
                      = Some keyBeingPressed).
  { rewrite existsb_exists. unfold resolvesToKey.
    split; intros (c & Hc & H); exists c; (split; [exact Hc|]).
    - destruct (_keyNameAsItAppearsInKeyboardState env s c) as [name|];
        [|discriminate].
      apply String.eqb_eq in H. congruence.
    - rewrite H. apply String.eqb_refl. }
  assert (Hcompletes :
            completes = true <->
            exists keyState,
              JsObject.get (keys keyboardState) keyBeingPressed = Some keyState /\
              bit (previous keyState) i = false).
  { unfold completes.
    destruct (JsObject.get (keys keyboardState) keyBeingPressed) as [keyState|].
    - split.
      + intros H. exists keyState. split; [reflexivity|].
        apply negb_true_iff. exact H.
      + intros (keyState' & E & H). inversion E; subst.
        apply negb_true_iff. exact H.
    - split; [discriminate|]. intros (? & E & _). discriminate. }
  destruct (getEvent (events combinationMatch) i) as [binding|].
  2:{ split; [discriminate|]. intros (H & _). congruence. }
  split.
  - intros H.
    destruct (someKeyNotPressed env s keyBeingPressed keyboardState i
                candidates false) as [[someNotPressed acc']|] eqn:Hsome;
      [|discriminate].
    assert (Hb : negb someNotPressed && acc' = true) by congruence.
    apply andb_true_iff in Hb. destruct Hb as [Hn Ha].
    apply negb_true_iff in Hn. subst someNotPressed.
    pose proof (someKeyNotPressed_none_missing _ _ _ Hsome) as Hall.
    rewrite (someKeyNotPressed_all_triggering _ _ Hall) in Hsome.
    assert (Hacc : (if truthy keyBeingPressed
                       && existsb resolvesToKey candidates
                    then completes else false) = true) by congruence.
    clear H Hsome.
    destruct (truthy keyBeingPressed); [|discriminate].
    destruct (existsb resolvesToKey candidates); [|discriminate].
    cbn [andb] in Hacc.
    split; [discriminate|]. split; [exact Hall|]. split; [reflexivity|].
    split; [apply Hresolves; reflexivity | apply Hcompletes; exact Hacc].
  - intros (_ & Hall & Htruthy & Hex & Hprev).
    rewrite (someKeyNotPressed_all_triggering _ _ Hall).
    apply Hresolves in Hex. apply Hcompletes in Hprev.
    rewrite Htruthy, Hex, Hprev. reflexivity.
Qed.

End CombinationKeys.

(** ** The order of the combinations *)

Lemma filter_either {A} (p q : A -> bool) l :
  (forall x, p x = true -> q x = true -> False) ->
  Permutation (filter p l ++ filter q l) (filter (fun x => p x || q x) l).
Proof.
  intros Hpq. induction l as [|x l IH]; simpl; [constructor|].
  destruct (p x) eqn:Hp, (q x) eqn:Hq; simpl.
  - destruct (Hpq x Hp Hq).
  - constructor. exact IH.
  - apply Permutation_sym, Permutation_cons_app, Permutation_sym. exact IH.
  - exact IH.
Qed.

Lemma flat_map_filter {A} (f : A -> nat) l ks :
  NoDup ks ->
  Permutation
    (flat_map (fun n => filter (fun x => (f x =? n)%nat) l) ks)
    (filter (fun x => existsb (Nat.eqb (f x)) ks) l).
Proof.
  induction 1 as [|n ks Hn Hks IH]; simpl.
  - induction l as [|x l IHl]; simpl; [constructor | exact IHl].
  - eapply Permutation_trans;
      [apply Permutation_app_head; exact IH|].
    apply (filter_either (fun x => (f x =? n)%nat)
             (fun x => existsb (Nat.eqb (f x)) ks)).
    intros x Hx Hex. apply Nat.eqb_eq in Hx. apply existsb_exists in Hex.
    destruct Hex as (m & Hm & E). apply Nat.eqb_eq in E.
    apply Hn. replace n with m by congruence. exact Hm.
Qed.

Lemma map_flat_map_filter {A B} (g : A -> B) (p : nat -> A -> bool) l ks :
  flat_map (fun n => map g (filter (p n) l)) ks =
  map g (flat_map (fun n => filter (p n) l) ks).
Proof.
  induction ks as [|n ks IH]; simpl; [reflexivity|].
  rewrite map_app, IH. reflexivity.
Qed.

Lemma descending_NoDup l : StronglySorted (fun a b => b < a) l -> NoDup l.
Proof.
  induction 1 as [|a l Hs IH Ha]; constructor; [|exact IH].
  intros Hin. rewrite Forall_forall in Ha. specialize (Ha a Hin). lia.
Qed.

Lemma partition_sizes_In vs :
  forall memo c,
    In c vs ->
    In (matcherSize c)
      (map fst
         (fold_left
            (fun memo c => addToPartition memo (matcherSize c) (matcherId c))
            vs memo)).
Proof.
  assert (Hkeep : forall vs memo n,
            In n (map fst memo) ->
            In n (map fst
                    (fold_left
                       (fun memo c =>
                          addToPartition memo (matcherSize c) (matcherId c))
                       vs memo))).
  { induction vs0 as [|v vs0 IH]; intros memo n Hn; simpl; [exact Hn|].
    apply IH. apply addToPartition_sizes. right; exact Hn. }
  induction vs as [|v vs IH]; intros memo c Hc; [destruct Hc|].
  simpl. destruct Hc as [->|Hc]; [|apply IH; exact Hc].
  apply Hkeep. apply addToPartition_sizes. left; reflexivity.
Qed.

Lemma combinationOrder_Permutation cs :
  Permutation (combinationOrder cs) (map matcherId (JsObject.values cs)).
Proof.
  destruct (combinationOrder_by_size cs) as [-> Hsorted].
  rewrite (map_flat_map_filter matcherId
             (fun n c => (matcherSize c =? n)%nat)).
  apply Permutation_map.
  eapply Permutation_trans;
    [apply flat_map_filter, descending_NoDup, Hsorted|].
  assert (Hall : forall l,
            (forall c, In c l -> In c (JsObject.values cs)) ->
            filter
              (fun x => existsb (Nat.eqb (matcherSize x))
                          (sortDescending (sizesOf cs))) l = l).
  { induction l as [|c l IH]; intros Hl; simpl; [reflexivity|].
    assert (Hc : existsb (Nat.eqb (matcherSize c))
                   (sortDescending (sizesOf cs)) = true).
    { apply existsb_exists. exists (matcherSize c).
      split; [|apply Nat.eqb_refl].
      apply sortDescending_In. unfold sizesOf, combinationsPartitionedBySize.
      apply partition_sizes_In. apply Hl. left; reflexivity. }
    rewrite Hc. f_equal. apply IH. intros c' Hc'. apply Hl. right; exact Hc'. }
  rewrite Hall; [apply Permutation_refl|]. intros c Hc; exact Hc.
Qed.

(** X7. When a sequence that holds no order is matched, the order that
    is computed, tried and stored on the sequence is a rearrangement of
    the ids of the combinations that the sequence holds at that moment,
    as [Object.values] enumerates them: none of them is left out and
    none is added. *)
Theorem computed_order_lists_every_combination :
  forall s event keyName i cid state n groupKey group,
    _tryMatchSequenceWithKeyAliases (currentSequences s cid)
      (map ids (slice (history s) (- Z.of_nat n) (-1)))
    = Some (groupKey, group) ->
    order group = None ->
    let o := matchSequenceOfLength env s event keyName i cid state n in
    exists stored,
      Permutation stored
        (map matcherId (JsObject.values (combinations group))) /\
      o = callFirstMatchingCombination env
            (storeOrder s cid groupKey group stored) event keyName i state
            (combinations group) stored /\
      JsObject.get (currentSequences (finalState o) cid) groupKey
      = Some (mkGroup (combinations group) (Some stored)).
Proof.
  intros s event keyName i cid state n groupKey group Hfound Horder o.
  exists (combinationOrder (combinations group)).
  split; [apply combinationOrder_Permutation|].
  assert (Ho : o = callFirstMatchingCombination env
                     (storeOrder s cid groupKey group
                        (combinationOrder (combinations group)))
                     event keyName i state (combinations group)
                     (combinationOrder (combinations group))).
  { subst o. unfold matchSequenceOfLength. rewrite Hfound, Horder.
    reflexivity. }
  split; [exact Ho|]. rewrite Ho.
  unfold currentSequences at 1.
  rewrite callFirstMatchingCombination_resolution.
  fold (currentSequences
          (storeOrder s cid groupKey group
             (combinationOrder (combinations group))) cid).
  eapply storeOrder_get.
  eapply _tryMatchSequenceWithKeyAliases_get. exact Hfound.
Qed.

(** ** The resolution of handlers runs once *)

Lemma markHandlersMatched_searchIndex actionName indexes :
  forall r,
    searchIndex (finalState (markHandlersMatched actionName indexes r))
    = searchIndex r.
Proof.
  induction indexes as [|index indexes IH]; intros r; simpl; [reflexivity|].
  destruct (unmatchedHandlerStatus r) as [statuses|]; [|reflexivity].
  destruct (nth_error statuses index) as [[count matched]|]; [|reflexivity].
  rewrite IH. destruct (JsObject.lookup matched actionName) as [[]| |]; reflexivity.
Qed.

Lemma resolveAction_searchIndex cl actions actionName r :
  searchIndex (finalState (resolveAction env cl actions actionName r))
  = searchIndex r.
Proof.
  unfold resolveAction.
  destruct (JsObject.lookup (handlersDictionary r) actionName)
    as [[|index l]| |]; try reflexivity.
  destruct (nth_error cl index); [|reflexivity].
  destruct (keyMaps r) as [maps|]; [|reflexivity].
  destruct (nth_error maps index); [|reflexivity].
  destruct (fold_left _ _ _) as [keyMap2 dict].
  rewrite markHandlersMatched_searchIndex. reflexivity.
Qed.

Lemma resolveActions_searchIndex cl actions names :
  forall r,
    searchIndex (finalState (resolveActions env cl actions names r))
    = searchIndex r.
Proof.
  induction names as [|name names IH]; intros r; simpl; [reflexivity|].
  pose proof (resolveAction_searchIndex cl actions name r) as H.
  destruct (resolveAction env cl actions name r) as [[] r'|r']; simpl in *;
    [|exact H].
  rewrite IH. exact H.
Qed.

Lemma resolveComponents_searchIndex cl rest :
  forall r r',
    resolveComponents env cl rest r = Returned tt r' ->
    searchIndex r' = searchIndex r + List.length rest.
Proof.
  induction rest as [|component rest IH]; intros r r' H; simpl in H.
  - inversion H; subst. simpl. lia.
  - destruct (recordHandlers (searchIndex r) (JsObject.keys (handlers component))
                (handlersDictionary r)) as [[] dict|dict]; [|discriminate].
    match type of H with
    | bind (resolveActions env cl ?a ?n ?r1) _ = _ =>
        pose proof (resolveActions_searchIndex cl a n r1) as Hs;
        destruct (resolveActions env cl a n r1) as [[] r2|r2]; simpl in H, Hs;
          [|discriminate]
    end.
    apply IH in H. simpl in H |- *. lia.
Qed.

Lemma initResolution_searchIndex cl r :
  searchIndex (initResolution cl r) = searchIndex r.
Proof.
  unfold initResolution.
  destruct (keyMaps r), (unmatchedHandlerStatus r); reflexivity.
Qed.

(** X8. For a well-formed resolution state and a component of a list
    whose handlers and actions have ordinary names, [resolveHandlers]
    returns.  When the component still had a handler to match, the
    search index ends at the length of the component list (where it was,
    when it was beyond the list already); and once it is at the end of
    the list, a call for any component of the list returns at once with
    the resolution state unchanged: the handlers are resolved by the
    first call that has any to resolve. *)
Theorem handlers_are_resolved_once :
  forall cl cid r,
    ordinaryNames cl ->
    resolutionOk cl r ->
    cid < List.length cl ->
    exists r',
      resolveHandlers env cl cid r = Returned tt r' /\
      (forall count,
          unmatchedHandlersCount cl cid r = Some count ->
          (0 < count)%Z ->
          searchIndex r' = Nat.max (searchIndex r) (List.length cl)) /\
      (List.length cl <= searchIndex r' ->
       forall cid',
         cid' < List.length cl ->
         resolveHandlers env cl cid' r' = Returned tt r').
Proof.
  intros cl cid r Hnames Hok Hcid.
  destruct (resolveHandlers_ready env cl cid r Hnames Hok Hcid)
    as (r' & Hcall & Hready).
  exists r'. split; [exact Hcall|]. split.
  - intros count Hcount Hpos.
    unfold resolveHandlers in Hcall. unfold unmatchedHandlersCount in Hcount.
    pose proof (initResolution_searchIndex cl r) as Hinit.
    destruct (unmatchedHandlerStatus (initResolution cl r)) as [statuses|];
      [|discriminate].
    destruct (nth_error statuses cid) as [[count' matched]|]; [|discriminate].
    simpl in Hcount. inversion Hcount; subst count'.
    apply Z.ltb_lt in Hpos. rewrite Hpos in Hcall.
    apply resolveComponents_searchIndex in Hcall.
    rewrite Hcall, length_skipn.
    destruct (searchIndex (initResolution cl r) <? cid)%nat eqn:Hlt.
    + apply Nat.ltb_lt in Hlt. simpl. lia.
    + apply Nat.ltb_ge in Hlt. lia.
  - intros Hdone cid' Hcid'.
    destruct Hready as (maps & statuses & Hmaps & Hstatuses & _ & Hlen & _).
    unfold resolveHandlers.
    assert (Hinit : initResolution cl r' = r')
      by (unfold initResolution; rewrite Hmaps, Hstatuses; reflexivity).
    rewrite Hinit, Hstatuses.
    destruct (nth_error statuses cid') as [[count matched]|] eqn:Hnth.
    2:{ apply nth_error_None in Hnth. lia. }
    destruct (0 <? count)%Z; [|reflexivity].
    assert (Hlt : (searchIndex r' <? cid')%nat = false)
      by (apply Nat.ltb_ge; lia).
    rewrite Hlt. rewrite skipn_all2 by exact Hdone. reflexivity.
Qed.

(** ** What the handlers of key events keep of the resolution state *)

Section ResolutionInvariant.

Variable J : Strategy -> Prop.

Hypothesis J_same :
  forall s s',
    registered s' = registered s -> resolution s' = resolution s ->
    J s -> J s'.

Hypothesis J_matcher :
  forall s event k i cid,
    J s ->
    J (finalState (_callMatchingHandlerClosestToEventTarget env s event k i cid)).

Lemma _callHandlerIfActionNotHandled_keeps s event k i cid :
  J s -> J (finalState (_callHandlerIfActionNotHandled env s event k i cid)).
Proof.
  intros H. unfold _callHandlerIfActionNotHandled.
  destruct (bit (keyMapEventBitmap (registered s)) i); [|exact H].
  destruct (actionHandled (eventPropagationState s)); [exact H|].
  pose proof (J_matcher s event k i cid H) as Hm.
  destruct (_callMatchingHandlerClosestToEventTarget env s event k i cid)
    as [[|] s'|s']; simpl in *; try exact Hm.
  eapply J_same; [| |exact Hm]; reflexivity.
Qed.

Lemma callThenUpdate_keeps s event k i cid (v : ReturnValue) :
  J s ->
  J (finalState
       (bind (_callHandlerIfActionNotHandled env s event k i cid)
          (fun _ s2 => Returned v (_updateEventPropagationHistory s2 cid)))).
Proof.
  intros H.
  pose proof (_callHandlerIfActionNotHandled_keeps s event k i cid H) as Hc.
  destruct (_callHandlerIfActionNotHandled env s event k i cid) as [[] s'|s'];
    simpl in *; [|exact Hc].
  destruct (_updateEventPropagationHistory_same s' cid) as (A & _ & B & _).
  eapply J_same; eassumption.
Qed.

Lemma recordKeyEvent_keeps type s k : J s -> J (recordKeyEvent env type s k).
Proof.
  intros H.
  destruct (recordKeyEvent_frame env type s k) as (A & _ & _ & _ & _ & B & _).
  eapply J_same; eassumption.
Qed.

Lemma simulateKeypressEvents_keeps queue :
  (forall s event ftid cid options,
      J s -> J (finalState (handleKeypress env s event ftid cid options))) ->
  forall s, J s -> J (finalState (simulateKeypressEvents env s queue)).
Proof.
  intros Hpress. induction queue as [|q queue IH]; intros s H; simpl;
    [exact H|].
  pose proof (Hpress s (simEvent q) (simFocusTreeId q) (simComponentId q)
                (simOptions q) H) as H1.
  destruct (handleKeypress env s (simEvent q) (simFocusTreeId q)
              (simComponentId q) (simOptions q)) as [v s'|s']; simpl in *;
    [apply IH; exact H1 | exact H1].
Qed.

Lemma afterRecording_keeps type s event k ftid cid options :
  (forall s event ftid cid options,
      J s -> J (finalState (handleKeypress env s event ftid cid options))) ->
  J s ->
  J (finalState (afterRecording env type s event k ftid cid options)).
Proof.
  intros Hpress H.
  destruct type; simpl; try (apply callThenUpdate_keeps; exact H).
  unfold finishKeydown.
  pose proof (_callHandlerIfActionNotHandled_keeps s event k keydown cid H)
    as H1.
  destruct (_callHandlerIfActionNotHandled env s event k keydown cid)
    as [[] s1|s1]; simpl in *; [|exact H1].
  set (s2 := if negb (hasKeyPressEvent env k) && simulateMissingKeyPressEvents env
             then _ else s1).
  assert (H2 : J s2).
  { subst s2. destruct (_ && _); [|exact H1].
    eapply J_same; [| |exact H1]; reflexivity. }
  destruct (_isFocusTreeRoot s2 cid).
  - pose proof (simulateKeypressEvents_keeps
                  (keypressEventsToSimulate (combinationState s2)) Hpress s2 H2)
      as H3.
    destruct (simulateKeypressEvents env s2 _) as [[] s3|s3]; simpl in *;
      [|exact H3].
    destruct (_updateEventPropagationHistory_same
                (withKeypressEventsToSimulate s3 []) cid) as (A & _ & B & _).
    eapply J_same; [exact A | exact B |].
    eapply J_same; [| |exact H3]; reflexivity.
  - simpl.
    destruct (_updateEventPropagationHistory_same s2 cid) as (A & _ & B & _).
    eapply J_same; eassumption.
Qed.

Lemma handleKeyEvent_keeps_if type s event ftid cid options :
  (forall s event ftid cid options,
      J s -> J (finalState (handleKeypress env s event ftid cid options))) ->
  J s ->
  J (finalState (handleKeyEvent env s (mkCall type event ftid cid options))).
Proof.
  intros Hpress H. rewrite handleKeyEvent_unfold. cbv zeta.
  destruct (negb (ftid =? focusTreeId s)%nat); [exact H|].
  assert (Hupdate : forall s0, J s0 -> J (_updateEventPropagationHistory s0 cid)).
  { intros s0 H0.
    destruct (_updateEventPropagationHistory_same s0 cid) as (A & _ & B & _).
    eapply J_same; eassumption. }
  destruct (_alreadyEstablishedShouldIgnoreEvent s); [apply Hupdate; exact H|].
  destruct (_isNewKeyEvent s cid); [|apply afterRecording_keeps; assumption].
  assert (H1 : J (firstSighting s event type options))
    by (eapply J_same; [| |exact H]; reflexivity).
  destruct (_alreadyEstablishedShouldIgnoreEvent _);
    [apply Hupdate; exact H1|].
  apply afterRecording_keeps; [exact Hpress|].
  apply recordKeyEvent_keeps. exact H1.
Qed.

Lemma handleKeypress_keeps s event ftid cid options :
  J s -> J (finalState (handleKeypress env s event ftid cid options)).
Proof.
  intros H. unfold handleKeypress.
  destruct (negb (ftid =? focusTreeId s)%nat); [exact H|].
  assert (Hupdate : forall s0, J s0 -> J (_updateEventPropagationHistory s0 cid)).
  { intros s0 H0.
    destruct (_updateEventPropagationHistory_same s0 cid) as (A & _ & B & _).
    eapply J_same; eassumption. }
  destruct (_alreadyEstablishedShouldIgnoreEvent s); [apply Hupdate; exact H|].
  destruct (_isNewKeyEvent s cid); [|apply callThenUpdate_keeps; exact H].
  assert (H1 : J (firstSighting s event keypress options))
    by (eapply J_same; [| |exact H]; reflexivity).
  destruct (_alreadyEstablishedShouldIgnoreEvent _);
    [apply Hupdate; exact H1|].
  apply callThenUpdate_keeps.
  apply (recordKeyEvent_keeps keypress). exact H1.
Qed.

Lemma handleKeyEvents_keeps calls :
  forall s, J s -> J (handleKeyEvents env s calls).
Proof.
  induction calls as [|[type event ftid cid options] calls IH]; intros s H;
    [exact H|].
  unfold handleKeyEvents in *. simpl. apply IH.
  apply handleKeyEvent_keeps_if; [|exact H].
  intros; apply handleKeypress_keeps; assumption.
Qed.

End ResolutionInvariant.

(** ** The handlers bound for a component are its own *)

Lemma updateNth_nth {A} (l : list A) n x :
  forall m y,
    nth_error (updateNth l n x) m = Some y ->
    (m = n /\ y = x) \/ nth_error l m = Some y.
Proof.
  revert n. induction l as [|z l IH]; intros [|n] [|m] y H; simpl in *;
    try discriminate; auto.
  - inversion H; subst. left; split; reflexivity.
  - destruct (IH n m y H) as [[-> ->]|H']; [left; split; reflexivity | auto].
Qed.

Lemma bindKeyMatcher_own component handlerComponentIndex h st keyMatcher :
  (forall h', h = Some h' ->
              exists name, JsObject.get (handlers component) name = Some h') ->
  ownHandlers component (fst st) ->
  ownHandlers component
    (fst (bindKeyMatcher env handlerComponentIndex h st keyMatcher)).
Proof.
  intros Hh Hown. destruct st as [km dict]. unfold bindKeyMatcher.
  destruct (match JsObject.get dict _ with Some _ => _ | None => false end);
    [exact Hown|].
  simpl fst in *.
  intros p g name c i b h'. unfold sequencesOf at 1. simpl sequences. cbv iota.
  rewrite JsObject_get_set.
  destruct (String.eqb p (prefix keyMatcher)) eqn:Ep; [|apply Hown].
  apply String.eqb_eq in Ep. subst p.
  intros Hg; inversion Hg; subst g; clear Hg. simpl combinations.
  rewrite JsObject_get_set.
  set (group := match JsObject.get (sequencesOf km) (prefix keyMatcher) with
                | Some g => g
                | None => mkGroup JsObject.empty None
                end).
  assert (Hgroup : forall name c i b h',
            JsObject.get (combinations group) name = Some c ->
            getEvent (events c) i = Some b ->
            handler b = Some h' ->
            exists name', JsObject.get (handlers component) name' = Some h').
  { subst group.
    destruct (JsObject.get (sequencesOf km) (prefix keyMatcher)) as [g|] eqn:Eg.
    - intros name0 c0 i0 b0 h0. apply (Hown _ _ _ _ _ _ _ Eg).
    - intros name0 c0 i0 b0 h0 H. discriminate H. }
  destruct (String.eqb name (id keyMatcher)) eqn:Eid; [|apply Hgroup].
  intros Hc; inversion Hc; subst c; clear Hc.
  destruct (JsObject.get (combinations group) (id keyMatcher))
    as [c0|] eqn:Ec0; simpl events.
  - rewrite getEvent_setEvent.
    destruct (KeyEventBitmapIndex_eqb i (eventBitmapIndex keyMatcher)).
    + intros Hb; inversion Hb; subst b. simpl. exact (Hh h').
    + apply (Hgroup _ _ _ _ _ Ec0).
  - simpl.
    destruct (KeyEventBitmapIndex_eqb i (eventBitmapIndex keyMatcher));
      [|discriminate].
    intros Hb; inversion Hb; subst b. simpl. exact (Hh h').
Qed.

Lemma bindKeyMatchers_own component handlerComponentIndex h keyMatchers :
  (forall h', h = Some h' ->
              exists name, JsObject.get (handlers component) name = Some h') ->
  forall st,
    ownHandlers component (fst st) ->
    ownHandlers component
      (fst (fold_left (bindKeyMatcher env handlerComponentIndex h)
              keyMatchers st)).
Proof.
  intros Hh. induction keyMatchers as [|m ms IH]; intros st Hown; [exact Hown|].
  simpl. apply IH. apply bindKeyMatcher_own; assumption.
Qed.

Lemma markHandlersMatched_keyMaps actionName indexes :
  forall r,
    keyMaps (finalState (markHandlersMatched actionName indexes r)) = keyMaps r.
Proof.
  induction indexes as [|index indexes IH]; intros r; simpl; [reflexivity|].
  destruct (unmatchedHandlerStatus r) as [statuses|]; [|reflexivity].
  destruct (nth_error statuses index) as [[count matched]|]; [|reflexivity].
  rewrite IH. destruct (JsObject.lookup matched actionName) as [[]| |]; reflexivity.
Qed.

(** [handlersOwned] as a property of the component list and the
    resolution state. *)
Let owned (cl : list ComponentOptions) (r : HandlerResolutionState) : Prop :=
  forall maps index component keyMap,
    keyMaps r = Some maps ->
    nth_error cl index = Some component ->
    nth_error maps index = Some keyMap ->
    ownHandlers component keyMap.

Lemma resolveAction_own cl actions actionName r :
  owned cl r ->
  owned cl (finalState (resolveAction env cl actions actionName r)).
Proof.
  intros Hown. unfold resolveAction.
  destruct (JsObject.lookup (handlersDictionary r) actionName)
    as [[|hci l]| |]; try exact Hown.
  destruct (nth_error cl hci) as [component|] eqn:Hc; [|exact Hown].
  destruct (keyMaps r) as [maps|] eqn:Hm; [|exact Hown].
  destruct (nth_error maps hci) as [km|] eqn:Hkm; [|exact Hown].
  set (km1 := mkKeyMap (Some (sequencesOf km)) (eventBitmap km)
                (keyMapLongestSequence km)).
  assert (Hkm1 : ownHandlers component km1).
  { intros p g name c i b h'. unfold km1, sequencesOf at 1. simpl.
    apply (Hown maps hci component km Hm Hc Hkm). }
  pose proof (bindKeyMatchers_own component hci
                (JsObject.get (handlers component) actionName)
                (match JsObject.get actions actionName with
                 | Some l0 => l0
                 | None => []
                 end)
                ltac:(intros h' E; exists actionName; exact E)
                (km1, keySequencesDictionary r) Hkm1) as Hfold.
  destruct (fold_left _ _ (km1, keySequencesDictionary r)) as [km2 dict].
  simpl in Hfold.
  intros maps' index component' keyMap'.
  rewrite markHandlersMatched_keyMaps. simpl.
  intros E Hc' Hk'. inversion E; subst maps'; clear E.
  apply updateNth_nth in Hk'. destruct Hk' as [[-> ->]|Hk'].
  - rewrite Hc in Hc'. inversion Hc'; subst. exact Hfold.
  - apply (Hown maps index component' keyMap' Hm Hc' Hk').
Qed.

Lemma resolveActions_own cl actions names :
  forall r,
    owned cl r -> owned cl (finalState (resolveActions env cl actions names r)).
Proof.
  induction names as [|name names IH]; intros r Hown; simpl; [exact Hown|].
  pose proof (resolveAction_own cl actions name r Hown) as H.
  destruct (resolveAction env cl actions name r) as [[] r'|r']; simpl in *;
    [apply IH; exact H | exact H].
Qed.

Lemma resolveComponents_own cl rest :
  forall r,
    owned cl r -> owned cl (finalState (resolveComponents env cl rest r)).
Proof.
  induction rest as [|component rest IH]; intros r Hown; simpl; [exact Hown|].
  destruct (recordHandlers (searchIndex r) (JsObject.keys (handlers component))
              (handlersDictionary r)) as [[] recorded|recorded]; [|exact Hown].
  match goal with
  | |- context [resolveActions env cl ?a ?n ?r1] =>
      pose proof (resolveActions_own cl a n r1 Hown) as H;
      destruct (resolveActions env cl a n r1) as [[] r2|r2]; simpl in *;
        [|exact H]
  end.
  apply IH. exact H.
Qed.

Lemma resolveHandlers_own cl cid r :
  owned cl r -> owned cl (finalState (resolveHandlers env cl cid r)).
Proof.
  intros Hown. unfold resolveHandlers.
  assert (H0 : owned cl (initResolution cl r)).
  { unfold initResolution.
    destruct (keyMaps r) as [maps|] eqn:Hm.
    - destruct (unmatchedHandlerStatus r); [exact Hown|].
      intros maps' index component keyMap E _ Hk. simpl in E.
      inversion E; subst maps'. apply nth_error_In, in_map_iff in Hk.
      destruct Hk as (? & <- & _). intros p g name c i b h H. discriminate H.
    - intros maps' index component keyMap E _ Hk.
      assert (Hin : In keyMap (map (fun _ => emptyKeyMap) cl)).
      { destruct (unmatchedHandlerStatus r); simpl in E; inversion E; subst;
          eapply nth_error_In; eassumption. }
      apply in_map_iff in Hin. destruct Hin as (? & <- & _).
      intros p g name c i b h H. discriminate H. }
  destruct (unmatchedHandlerStatus (initResolution cl r)) as [statuses|];
    [|exact H0].
  destruct (nth_error statuses cid) as [[count matched]|]; [|exact H0].
  destruct (0 <? count)%Z; [|exact H0].
  apply resolveComponents_own.
  destruct (searchIndex (initResolution cl r) <? cid)%nat; exact H0.
Qed.

(** The handler that a call of the matcher calls is one of [component]. *)
Let ownCall (component : ComponentOptions) (event : KeyboardEvent)
  (s : Strategy) (o : Outcome Strategy bool) : Prop :=
  match o with
  | Returned true s' =>
      exists name h,
        JsObject.get (handlers component) name = Some h /\
        effects s' = HandlerCalled h event :: effects s
  | _ => True
  end.

Lemma callFirstMatchingCombination_own component s event keyName i state cs ord :
  (forall id c b h,
      JsObject.get cs id = Some c ->
      getEvent (events c) i = Some b ->
      handler b = Some h ->
      exists name, JsObject.get (handlers component) name = Some h) ->
  ownCall component event s
    (callFirstMatchingCombination env s event keyName i state cs ord).
Proof.
  intros Hown. induction ord as [|id ord IH]; simpl; [exact I|].
  destruct (JsObject.get cs id) as [c|] eqn:Hc; [|exact I].
  destruct (_combinationMatchesKeys env s keyName state c i) as [[|]|];
    [|exact IH|exact I].
  destruct (getEvent (events c) i) as [b|] eqn:Hb; [|exact I].
  destruct (handler b) as [h|] eqn:Hh; [|exact I].
  simpl. destruct (Hown id c b h Hc Hb Hh) as [name Hname].
  exists name, h. split; [exact Hname | reflexivity].
Qed.

Lemma currentSequences_own s cid component k g :
  handlersOwned s ->
  nth_error (componentList (registered s)) cid = Some component ->
  JsObject.get (currentSequences s cid) k = Some g ->
  forall id c i b h,
    JsObject.get (combinations g) id = Some c ->
    getEvent (events c) i = Some b ->
    handler b = Some h ->
    exists name, JsObject.get (handlers component) name = Some h.
Proof.
  intros Hown Hc Hg. unfold currentSequences in Hg.
  destruct (keyMaps (resolution s)) as [maps|] eqn:Hm; [|discriminate].
  destruct (nth_error maps cid) as [km|] eqn:Hkm; [|discriminate].
  intros id c i b h. apply (Hown maps cid component km Hm Hc Hkm _ _ _ _ _ _ _ Hg).
Qed.

Lemma storeOrder_own s cid k g o :
  handlersOwned s ->
  JsObject.get (currentSequences s cid) k = Some g ->
  handlersOwned (storeOrder s cid k g o).
Proof.
  intros Hown Hg. unfold storeOrder, currentSequences in *.
  destruct (keyMaps (resolution s)) as [maps|] eqn:Hm; [|exact Hown].
  destruct (nth_error maps cid) as [km|] eqn:Hkm; [|exact Hown].
  intros maps' index component keyMap E Hc Hk. simpl in E, Hc.
  inversion E; subst maps'; clear E.
  apply updateNth_nth in Hk. destruct Hk as [[-> ->]|Hk];
    [|apply (Hown maps index component keyMap Hm Hc Hk)].
  intros p g' id c i b h. unfold sequencesOf at 1. simpl sequences. cbv iota.
  rewrite JsObject_get_set.
  destruct (String.eqb p k) eqn:Ep;
    [|apply (Hown maps cid component km Hm Hc Hkm)].
  intros E; inversion E; subst g'. simpl combinations.
  apply (Hown maps cid component km Hm Hc Hkm _ _ _ _ _ _ _ Hg).
Qed.

Lemma matchSequenceOfLength_keeps s event keyName i cid state n :
  handlersOwned s ->
  handlersOwned
    (finalState (matchSequenceOfLength env s event keyName i cid state n)).
Proof.
  intros Hown. unfold matchSequenceOfLength.
  destruct (_tryMatchSequenceWithKeyAliases (currentSequences s cid) _)
    as [[groupKey group]|] eqn:Hmatch; [|exact Hown].
  apply _tryMatchSequenceWithKeyAliases_get in Hmatch.
  assert (Hkeep : forall s0 ord,
            handlersOwned s0 ->
            handlersOwned
              (finalState
                 (callFirstMatchingCombination env s0 event keyName i state
                    (combinations group) ord))).
  { intros s0 ord H0.
    pose proof (callFirstMatchingCombination_resolution env s0 event keyName i
                  state (combinations group) ord) as Hr.
    destruct (callFirstMatchingCombination_effects env s0 event keyName i state
                (combinations group) ord) as [(Hreg & _) _].
    intros maps index c km. rewrite Hr, Hreg. apply H0. }
  destruct (order group) as [cached|]; cbv zeta; apply Hkeep;
    [exact Hown | apply storeOrder_own; assumption].
Qed.

Lemma matchSequences_keeps event keyName i cid state n :
  forall s,
    handlersOwned s ->
    handlersOwned (finalState (matchSequences env s event keyName i cid state n)).
Proof.
  induction n as [|n IH]; intros s Hown; simpl.
  - pose proof (matchSequenceOfLength_keeps s event keyName i cid state 0 Hown)
      as Hkeep.
    destruct (matchSequenceOfLength env s event keyName i cid state 0)
      as [[|] s'|s']; simpl in *; exact Hkeep.
  - pose proof (matchSequenceOfLength_keeps s event keyName i cid state (S n)
                  Hown) as Hkeep.
    destruct (matchSequenceOfLength env s event keyName i cid state (S n))
      as [[|] s'|s']; simpl in *; try exact Hkeep.
    apply IH. exact Hkeep.
Qed.

Lemma matchSequenceOfLength_own component s event keyName i cid state n :
  handlersOwned s ->
  nth_error (componentList (registered s)) cid = Some component ->
  ownCall component event s
    (matchSequenceOfLength env s event keyName i cid state n).
Proof.
  intros Hown Hc. unfold matchSequenceOfLength.
  destruct (_tryMatchSequenceWithKeyAliases (currentSequences s cid) _)
    as [[groupKey group]|] eqn:Hmatch; [|exact I].
  apply _tryMatchSequenceWithKeyAliases_get in Hmatch.
  pose proof (currentSequences_own s cid component groupKey group Hown Hc Hmatch)
    as Hgroup.
  destruct (order group) as [cached|]; cbv zeta.
  - apply callFirstMatchingCombination_own.
    intros id c b h. apply Hgroup.
  - set (s1 := storeOrder s cid groupKey group _).
    pose proof (callFirstMatchingCombination_own component s1 event keyName i
                  state (combinations group)
                  (combinationOrder (combinations group))
                  ltac:(intros id c b h; apply Hgroup)) as Hcall.
    destruct (callFirstMatchingCombination env s1 event keyName i state _ _)
      as [[|] s'|s']; simpl in *; try exact I.
    destruct Hcall as (name & h & Hname & He). exists name, h.
    split; [exact Hname|]. rewrite He. subst s1.
    rewrite (proj2 (storeOrder_same s cid groupKey group _)). reflexivity.
Qed.

Lemma matchSequences_own component event keyName i cid state n :
  forall s,
    handlersOwned s ->
    nth_error (componentList (registered s)) cid = Some component ->
    ownCall component event s
      (matchSequences env s event keyName i cid state n).
Proof.
  induction n as [|n IH]; intros s Hown Hc; simpl.
  - pose proof (matchSequenceOfLength_own component s event keyName i cid state 0
                  Hown Hc) as Hcall.
    destruct (matchSequenceOfLength env s event keyName i cid state 0)
      as [[|] s'|s']; simpl in *; trivial.
  - pose proof (matchSequenceOfLength_own component s event keyName i cid state
                  (S n) Hown Hc) as Hcall.
    pose proof (matchSequenceOfLength_keeps s event keyName i cid state (S n)
                  Hown) as Hkeep.
    destruct (matchSequenceOfLength_effects env s event keyName i cid state (S n))
      as [(Hreg & _) He].
    destruct (matchSequenceOfLength env s event keyName i cid state (S n))
      as [[|] s'|s']; simpl in *; trivial.
    assert (Hc' : nth_error (componentList (registered s')) cid = Some component)
      by (rewrite Hreg; exact Hc).
    pose proof (IH s' Hkeep Hc') as Hcall'.
    destruct (matchSequences env s' event keyName i cid state n)
      as [[|] s''|s'']; simpl in *; trivial.
    rewrite <- He. exact Hcall'.
Qed.

Lemma _callMatchingHandlerClosestToEventTarget_own s event keyName i cid :
  handlersOwned s ->
  let o := _callMatchingHandlerClosestToEventTarget env s event keyName i cid in
  handlersOwned (finalState o) /\
  forall component,
    nth_error (componentList (registered s)) cid = Some component ->
    ownCall component event s o.
Proof.
  intros Hown. unfold _callMatchingHandlerClosestToEventTarget.
  pose proof (resolveHandlers_own (componentList (registered s)) cid
                (resolution s) Hown) as Hr.
  destruct (resolveHandlers env (componentList (registered s)) cid (resolution s))
    as [[] r|r]; simpl in Hr |- *; [|split; [exact Hr | intros; exact I]].
  assert (H1 : handlersOwned (withResolution s r)) by exact Hr.
  destruct (keyMaps r) as [maps|]; [|split; [exact H1 | intros; exact I]].
  destruct (nth_error maps cid) as [km|];
    [|split; [exact H1 | intros; exact I]].
  destruct (isEmpty (sequences km)); [split; [exact H1 | intros; exact I]|].
  destruct (eventBitmap km) as [bitmap|];
    [|split; [exact H1 | intros; exact I]].
  destruct (negb (bit bitmap i)); [split; [exact H1 | intros; exact I]|].
  destruct (keyMapLongestSequence km) as [n|];
    [|split; [exact H1 | intros; exact I]].
  split.
  - apply matchSequences_keeps. exact H1.
  - intros component Hc.
    apply (matchSequences_own component event keyName i cid _ n
             (withResolution s r) H1 Hc).
Qed.

(** X9. When the key map resolved for each component binds handlers of
    that component only, as it does before any handler is resolved: a
    handler that the matcher calls for a component is one that this
    component defines, and every series of key events leaves the key maps
    in that state. *)
Theorem handler_called_is_defined_by_the_component :
  forall s,
    handlersOwned s ->
    (forall event keyName i cid component s',
        nth_error (componentList (registered s)) cid = Some component ->
        _callMatchingHandlerClosestToEventTarget env s event keyName i cid
        = Returned true s' ->
        exists name h,
          JsObject.get (handlers component) name = Some h /\
          effects s' = HandlerCalled h event :: effects s) /\
    (forall calls, handlersOwned (handleKeyEvents env s calls)).
Proof.
  intros s Hown. split.
  - intros event keyName i cid component s' Hc Hcall.
    destruct (_callMatchingHandlerClosestToEventTarget_own s event keyName i cid
                Hown) as [_ H].
    specialize (H component Hc). rewrite Hcall in H. exact H.
  - intros calls.
    apply (handleKeyEvents_keeps handlersOwned); [| |exact Hown].
    + intros s0 s0' Hreg Hres H0 maps index component keyMap.
      rewrite Hreg, Hres. apply H0.
    + intros s0 event k i cid H0.
      apply _callMatchingHandlerClosestToEventTarget_own. exact H0.
Qed.

(** ** Events that are ignored *)

Lemma ignored_call s type event cid options :
  ignoring s = true ->
  handleKeyEvent env s (mkCall type event (focusTreeId s) cid options)
  = Returned (match type with keydown => Some false | _ => None end)
      (_updateEventPropagationHistory s cid).
Proof.
  intros H. rewrite handleKeyEvent_unfold. cbv zeta.
  rewrite Nat.eqb_refl. simpl negb. cbv iota.
  unfold _alreadyEstablishedShouldIgnoreEvent. unfold ignoring in H.
  rewrite H. reflexivity.
Qed.

Lemma rejected_call s type event cid options :
  ignoring s = false ->
  _isNewKeyEvent s cid = true ->
  ignoreEventsCondition options event = true ->
  handleKeyEvent env s (mkCall type event (focusTreeId s) cid options)
  = Returned (match type with keydown => Some false | _ => None end)
      (_updateEventPropagationHistory (firstSighting s event type options) cid).
Proof.
  intros Hi Hnew Hreject. rewrite handleKeyEvent_unfold. cbv zeta.
  rewrite Nat.eqb_refl. simpl negb. cbv iota.
  unfold ignoring in Hi.
  change (_alreadyEstablishedShouldIgnoreEvent s)
    with (ignoreEvent (eventPropagationState s)).
  rewrite Hi, Hnew, firstSighting_ignoreEvent, Hreject. reflexivity.
Qed.

Lemma bubble_step type event ftid options first n s :
  handleKeyEvents env s (bubble type event ftid options first (S n)) =
  handleKeyEvents env
    (finalState (handleKeyEvent env s (mkCall type event ftid first options)))
    (bubble type event ftid options (S first) n).
Proof. reflexivity. Qed.

Lemma bubble_ignored type event options m :
  forall first s,
    ignoring s = true ->
    first + S m = List.length (componentList (registered s)) ->
    let s' :=
      handleKeyEvents env s (bubble type event (focusTreeId s) options first (S m))
    in
    combinationState s' = combinationState s /\
    effects s' = effects s /\
    resolution s' = resolution s /\
    keyEventCounter s' = keyEventCounter s /\
    eventPropagationState s' = mkPropagation 0 false false.
Proof.
  induction m as [|m IH]; intros first s Hi Hlen; cbv zeta;
    rewrite bubble_step, (ignored_call s type event first options Hi);
    simpl finalState.
  - assert (Hroot : _isFocusTreeRoot s first = true)
      by (unfold _isFocusTreeRoot; apply Z.leb_le; lia).
    unfold bubble, handleKeyEvents. simpl.
    unfold _updateEventPropagationHistory. rewrite Hroot.
    repeat split.
  - assert (Hroot : _isFocusTreeRoot s first = false)
      by (unfold _isFocusTreeRoot; apply Z.leb_gt; lia).
    set (s1 := _updateEventPropagationHistory s first).
    assert (H1 : ignoring s1 = true /\ focusTreeId s1 = focusTreeId s /\
                 registered s1 = registered s /\
                 combinationState s1 = combinationState s /\
                 effects s1 = effects s /\ resolution s1 = resolution s /\
                 keyEventCounter s1 = keyEventCounter s).
    { subst s1. unfold _updateEventPropagationHistory. rewrite Hroot.
      repeat split. exact Hi. }
    destruct H1 as (Hi1 & Hft1 & Hreg1 & Hc1 & He1 & Hr1 & Hk1).
    specialize (IH (S first) s1 Hi1).
    rewrite Hreg1 in IH. specialize (IH ltac:(lia)). cbv zeta in IH.
    rewrite Hft1 in IH.
    destruct IH as (A & B & C & D & E).
    split; [etransitivity; [exact A | exact Hc1]|].
    split; [etransitivity; [exact B | exact He1]|].
    split; [etransitivity; [exact C | exact Hr1]|].
    split; [etransitivity; [exact D | exact Hk1] | exact E].
Qed.

(** X19. An event that [ignoreEventsCondition] rejects when the
    innermost component sees it first is ignored by every component it
    bubbles through: after the calls of the components 0 to the root the
    key combination state and the handler resolution state are as they
    were, no handler has been called, the event has been counted once
    and the event propagation state is cleared for the next event. *)
Theorem rejected_event_is_ignored_by_every_component :
  forall type s event options,
    1 <= List.length (componentList (registered s)) ->
    previousIndex s = 0 ->
    ignoring s = false ->
    ignoreEventsCondition options event = true ->
    let s' :=
      handleKeyEvents env s
        (bubble type event (focusTreeId s) options 0
           (List.length (componentList (registered s)))) in
    combinationState s' = combinationState s /\
    resolution s' = resolution s /\
    handlerCalls s' = handlerCalls s /\
    ignoreEventsConditionCalls s' = S (ignoreEventsConditionCalls s) /\
    keyEventCounter s' = S (keyEventCounter s) /\
    eventPropagationState s' = mkPropagation 0 false false.
Proof.
  intros type s event options Hlen Hprev Hi Hreject.
  destruct (List.length (componentList (registered s))) as [|n] eqn:En; [lia|].
  cbv zeta. rewrite bubble_step.
  assert (Hnew : _isNewKeyEvent s 0 = true) by reflexivity.
  rewrite (rejected_call s type event 0 options Hi Hnew Hreject).
  simpl finalState.
  set (s0 := firstSighting s event type options).
  destruct n as [|n].
  - assert (Hroot : _isFocusTreeRoot s0 0 = true)
      by (unfold _isFocusTreeRoot; subst s0; simpl; rewrite En; reflexivity).
    unfold bubble, handleKeyEvents. simpl.
    unfold _updateEventPropagationHistory. rewrite Hroot.
    repeat split.
  - assert (Hroot : _isFocusTreeRoot s0 0 = false)
      by (unfold _isFocusTreeRoot; subst s0; simpl; rewrite En;
          apply Z.leb_gt; lia).
    set (s1 := _updateEventPropagationHistory s0 0).
    assert (H1 : ignoring s1 = true /\ focusTreeId s1 = focusTreeId s /\
                 registered s1 = registered s /\
                 combinationState s1 = combinationState s /\
                 effects s1 = IgnoreEventsConditionCalled event :: effects s /\
                 resolution s1 = resolution s /\
                 keyEventCounter s1 = S (keyEventCounter s)).
    { subst s1. unfold _updateEventPropagationHistory. rewrite Hroot.
      subst s0. unfold ignoring. simpl. repeat split. exact Hreject. }
    destruct H1 as (Hi1 & Hft1 & Hreg1 & Hc1 & He1 & Hr1 & Hk1).
    pose proof (bubble_ignored type event options n 1 s1 Hi1) as Hrest.
    rewrite Hreg1, En in Hrest. specialize (Hrest eq_refl). cbv zeta in Hrest.
    rewrite Hft1 in Hrest.
    destruct Hrest as (A & B & C & D & E).
    split; [etransitivity; [exact A | exact Hc1]|].
    split; [etransitivity; [exact C | exact Hr1]|].
    split; [unfold handlerCalls; rewrite B, He1; reflexivity|].
    split; [unfold ignoreEventsConditionCalls; rewrite B, He1; reflexivity|].
    split; [etransitivity; [exact D | exact Hk1] | exact E].
Qed.

(** ** The state of a key after its event is recorded *)

(** X20. After the recording step of a handler the key of the event is
    in the current combination with the bitmap of the event as its
    current bitmap.  Its previous bitmap is the current bitmap it had
    when the event was added to a combination that already held the key,
    and an empty bitmap when the key is new to the combination or a new
    combination was started.  The ids of the combination are those that
    serialize its keys. *)
Theorem recorded_key_has_the_bitmap_of_its_event :
  forall type s k,
    1 <= longestSequence (registered s) ->
    let recorded := _getCurrentKeyCombination (recordKeyEvent env type s k) in
    JsObject.get (keys recorded) k =
      Some (mkKeyState
              (if startsNewCombination type s k then newBitmap env None
               else
                 match JsObject.get (keys (_getCurrentKeyCombination s)) k with
                 | Some existing =>
                     KeyEventBitmapManager.clone (current existing)
                 | None => newBitmap env None
                 end)
              (newBitmap env (Some type))) /\
    ids recorded = serialize env (keys recorded).
Proof.
  intros type s k Hlong recorded. subst recorded.
  destruct (startsNewCombination type s k) eqn:Hstarts.
  - assert (Hstart : _getCurrentKeyCombination (recordKeyEvent env type s k) =
                     _getCurrentKeyCombination
                       (_startNewKeyCombination env s k type)).
    { destruct type; simpl in Hstarts |- *;
        [unfold recordKeydown | unfold recordKeypress | unfold recordKeyup];
        rewrite Hstarts; reflexivity. }
    rewrite Hstart, (_startNewKeyCombination_current env s k type Hlong).
    simpl. split; [|reflexivity]. apply JsObject_get_set_same.
  - rewrite (recordKeyEvent_adds env type s k Hstarts).
    rewrite _addToCurrentKeyCombination_get, String.eqb_refl.
    split.
    + destruct (JsObject.get (keys (_getCurrentKeyCombination s)) k);
        reflexivity.
    + rewrite _addToCurrentKeyCombination_current. reflexivity.
Qed.

(** ** A component that is not of the list *)

(** X21. For a component id beyond the end of the component list the
    search for a handler throws: the resolution state has no entry for
    it, and [_callHandlerIfActionNotHandled] throws with it when the key
    map event bitmap has the event and no action was handled yet. *)
Theorem component_id_beyond_the_list_throws :
  forall s event k i cid,
    resolutionOk (componentList (registered s)) (resolution s) ->
    List.length (componentList (registered s)) <= cid ->
    let thrown :=
      withResolution s
        (initResolution (componentList (registered s)) (resolution s)) in
    _callMatchingHandlerClosestToEventTarget env s event k i cid = Threw thrown /\
    (bit (keyMapEventBitmap (registered s)) i = true ->
     actionHandled (eventPropagationState s) = false ->
     _callHandlerIfActionNotHandled env s event k i cid = Threw thrown).
Proof.
  intros s event k i cid Hok Hcid thrown.
  assert (Hcall : _callMatchingHandlerClosestToEventTarget env s event k i cid
                  = Threw thrown).
  { unfold _callMatchingHandlerClosestToEventTarget, resolveHandlers.
    destruct (initResolution_ready _ _ Hok)
      as (maps & statuses & _ & Hs & _ & Hls & _).
    rewrite Hs.
    assert (Hnone : nth_error statuses cid = None)
      by (apply nth_error_None; lia).
    rewrite Hnone. reflexivity. }
  split; [exact Hcall|].
  intros Hbit Hhandled. unfold _callHandlerIfActionNotHandled.
  rewrite Hbit, Hhandled, Hcall. reflexivity.
Qed.

(** ** The handlers dictionary lists the nearest component first *)

Lemma StronglySorted_snoc l x :
  StronglySorted le l -> Forall (fun i => i <= x) l ->
  StronglySorted le (l ++ [x]).
Proof.
  induction 1 as [|a l Hs IH Ha]; intros Hx; simpl.
  - constructor; constructor.
  - inversion Hx; subst. constructor; [apply IH; assumption|].
    apply Forall_app. split; [exact Ha|]. constructor; [assumption|constructor].
Qed.

Lemma recordHandlers_sorted index names :
  forall dict,
    (forall name l,
        JsObject.get dict name = Some l ->
        StronglySorted le l /\ Forall (fun i => i <= index) l) ->
    forall name l,
      JsObject.get (finalState (recordHandlers index names dict)) name = Some l ->
      StronglySorted le l /\ Forall (fun i => i <= index) l.
Proof.
  induction names as [|n names IH]; intros dict Hd; [exact Hd|].
  rewrite recordHandlers_cons.
  destruct (JsObject.get dict n) as [l0|] eqn:E.
  - apply IH. intros name l. rewrite JsObject_get_set.
    destruct (String.eqb name n); [|apply Hd].
    intros H; inversion H; subst l. destruct (Hd n l0 E) as [Hs Hb].
    split; [apply StronglySorted_snoc; assumption|].
    apply Forall_app. split; [exact Hb|]. constructor; [lia|constructor].
  - destruct (JsObject.inherited n); [exact Hd|].
    apply IH. intros name l. rewrite !JsObject_get_set.
    destruct (String.eqb name n); [|apply Hd].
    intros H; inversion H; subst l.
    split; [constructor; constructor|]. constructor; [lia|constructor].
Qed.

Lemma markHandlersMatched_dictionary actionName indexes :
  forall r,
    handlersDictionary (finalState (markHandlersMatched actionName indexes r))
    = handlersDictionary r.
Proof.
  induction indexes as [|index indexes IH]; intros r; simpl; [reflexivity|].
  destruct (unmatchedHandlerStatus r) as [statuses|]; [|reflexivity].
  destruct (nth_error statuses index) as [[count matched]|]; [|reflexivity].
  rewrite IH. destruct (JsObject.lookup matched actionName) as [[]| |]; reflexivity.
Qed.

Lemma resolveAction_dictionary cl actions actionName r :
  handlersDictionary (finalState (resolveAction env cl actions actionName r))
  = handlersDictionary r.
Proof.
  unfold resolveAction.
  destruct (JsObject.lookup (handlersDictionary r) actionName)
    as [[|index l]| |]; try reflexivity.
  destruct (nth_error cl index); [|reflexivity].
  destruct (keyMaps r) as [maps|]; [|reflexivity].
  destruct (nth_error maps index); [|reflexivity].
  destruct (fold_left _ _ _) as [keyMap2 dict].
  rewrite markHandlersMatched_dictionary. reflexivity.
Qed.

Lemma resolveActions_dictionary cl actions names :
  forall r,
    handlersDictionary (finalState (resolveActions env cl actions names r))
    = handlersDictionary r.
Proof.
  induction names as [|name names IH]; intros r; simpl; [reflexivity|].
  pose proof (resolveAction_dictionary cl actions name r) as H.
  destruct (resolveAction env cl actions name r) as [[] r'|r']; simpl in *;
    [|exact H].
  rewrite IH. exact H.
Qed.

Lemma nearestFirst_later r r' :
  handlersDictionary r' = handlersDictionary r ->
  searchIndex r <= searchIndex r' ->
  nearestFirst r -> nearestFirst r'.
Proof.
  intros Hd Hs H name l Hl. rewrite Hd in Hl.
  destruct (H name l Hl) as [A B]. split; [exact A|].
  eapply Forall_impl; [|exact B]. intros i Hi. simpl in Hi. lia.
Qed.

Lemma resolveComponents_nearestFirst cl rest :
  forall r,
    nearestFirst r ->
    nearestFirst (finalState (resolveComponents env cl rest r)).
Proof.
  induction rest as [|component rest IH]; intros r H; simpl; [exact H|].
  pose proof (recordHandlers_sorted (searchIndex r)
                (JsObject.keys (handlers component)) (handlersDictionary r) H)
    as Hsorted.
  destruct (recordHandlers (searchIndex r) (JsObject.keys (handlers component))
              (handlersDictionary r)) as [[] recorded|recorded];
    [|exact Hsorted].
  set (r1 := mkResolution _ _ _ _ _).
  assert (H1 : nearestFirst r1) by exact Hsorted.
  pose proof (resolveActions_dictionary cl (actions component)
                (JsObject.keys (actions component)) r1) as Hd.
  pose proof (resolveActions_searchIndex cl (actions component)
                (JsObject.keys (actions component)) r1) as Hs.
  destruct (resolveActions env cl (actions component)
              (JsObject.keys (actions component)) r1) as [[] r2|r2];
    simpl finalState in *; simpl bind.
  - apply IH. apply (nearestFirst_later r1);
      [exact Hd | simpl; rewrite Hs; apply Nat.le_succ_diag_r | exact H1].
  - apply (nearestFirst_later r1);
      [exact Hd | rewrite Hs; apply Nat.le_refl | exact H1].
Qed.

Lemma resolveHandlers_nearestFirst cl cid r :
  nearestFirst r -> nearestFirst (finalState (resolveHandlers env cl cid r)).
Proof.
  intros H. unfold resolveHandlers.
  assert (H0 : nearestFirst (initResolution cl r)).
  { apply (nearestFirst_later r); [| |exact H]; unfold initResolution;
      destruct (keyMaps r); destruct (unmatchedHandlerStatus r); simpl;
      reflexivity || lia. }
  destruct (unmatchedHandlerStatus (initResolution cl r)) as [statuses|];
    [|exact H0].
  destruct (nth_error statuses cid) as [[count matched]|]; [|exact H0].
  destruct (0 <? count)%Z; [|exact H0].
  apply resolveComponents_nearestFirst.
  destruct (searchIndex (initResolution cl r) <? cid)%nat eqn:E; [|exact H0].
  apply Nat.ltb_lt in E.
  apply (nearestFirst_later (initResolution cl r)); simpl;
    [reflexivity | lia | exact H0].
Qed.

Lemma matchSequences_dictionary event keyName i cid state n :
  forall s,
    let s' := finalState (matchSequences env s event keyName i cid state n) in
    handlersDictionary (resolution s') = handlersDictionary (resolution s) /\
    searchIndex (resolution s') = searchIndex (resolution s).
Proof.
  assert (Hstore : forall s k g o,
            handlersDictionary (resolution (storeOrder s cid k g o))
            = handlersDictionary (resolution s) /\
            searchIndex (resolution (storeOrder s cid k g o))
            = searchIndex (resolution s)).
  { intros s k g o. unfold storeOrder.
    destruct (keyMaps (resolution s)) as [maps|]; [|split; reflexivity].
    destruct (nth_error maps cid); split; reflexivity. }
  assert (Hone : forall s m,
            let s' :=
              finalState (matchSequenceOfLength env s event keyName i cid state m)
            in
            handlersDictionary (resolution s') = handlersDictionary (resolution s)
            /\ searchIndex (resolution s') = searchIndex (resolution s)).
  { intros s m. cbv zeta. unfold matchSequenceOfLength.
    destruct (_tryMatchSequenceWithKeyAliases (currentSequences s cid) _)
      as [[groupKey group]|]; [|split; reflexivity].
    destruct (order group) as [cached|]; cbv zeta;
      rewrite callFirstMatchingCombination_resolution;
      [split; reflexivity | apply Hstore]. }
  induction n as [|n IH]; intros s; cbv zeta; simpl.
  - specialize (Hone s 0). cbv zeta in Hone.
    destruct (matchSequenceOfLength env s event keyName i cid state 0)
      as [[|] s'|s']; simpl in *; exact Hone.
  - specialize (Hone s (S n)). cbv zeta in Hone.
    destruct (matchSequenceOfLength env s event keyName i cid state (S n))
      as [[|] s'|s']; simpl in *; try exact Hone.
    specialize (IH s'). cbv zeta in IH. destruct IH as [A B], Hone as [C D].
    split; congruence.
Qed.

Lemma _callMatchingHandlerClosestToEventTarget_nearestFirst s event k i cid :
  nearestFirst (resolution s) ->
  nearestFirst
    (resolution
       (finalState (_callMatchingHandlerClosestToEventTarget env s event k i cid))).
Proof.
  intros H. unfold _callMatchingHandlerClosestToEventTarget.
  pose proof (resolveHandlers_nearestFirst (componentList (registered s)) cid
                (resolution s) H) as Hr.
  destruct (resolveHandlers env (componentList (registered s)) cid (resolution s))
    as [[] r|r]; simpl in Hr |- *; [|exact Hr].
  destruct (keyMaps r) as [maps|]; [|exact Hr].
  destruct (nth_error maps cid) as [km|]; [|exact Hr].
  destruct (isEmpty (sequences km)); [exact Hr|].
  destruct (eventBitmap km) as [bitmap|]; [|exact Hr].
  destruct (negb (bit bitmap i)); [exact Hr|].
  destruct (keyMapLongestSequence km) as [n|]; [|exact Hr].
  destruct (matchSequences_dictionary event k i cid
              (_getCurrentKeyCombination (withResolution s r)) n
              (withResolution s r)) as [A B].
  apply (nearestFirst_later r); [exact A | rewrite B; simpl; lia | exact Hr].
Qed.

(** X22. The components that [handlersDictionary] lists for an action
    stay in ascending order through the resolution of handlers and
    through every series of key events: the first of the list, whose
    handler is the one that is bound to the key sequences of the action,
    is the component nearest to the event target among those listed. *)
Theorem handlers_dictionary_lists_the_nearest_component_first :
  forall s,
    nearestFirst (resolution s) ->
    (forall cid,
        nearestFirst
          (finalState
             (resolveHandlers env (componentList (registered s)) cid
                (resolution s)))) /\
    (forall calls name index rest,
        JsObject.get
          (handlersDictionary (resolution (handleKeyEvents env s calls))) name
        = Some (index :: rest) ->
        Forall (fun other => index <= other) rest).
Proof.
  intros s H. split.
  - intros cid. apply resolveHandlers_nearestFirst. exact H.
  - intros calls name index rest Hget.
    assert (Hkept : nearestFirst (resolution (handleKeyEvents env s calls))).
    { apply (handleKeyEvents_keeps (fun s0 => nearestFirst (resolution s0)));
        [| |exact H].
      - intros s0 s0' _ Hres H0. rewrite Hres. exact H0.
      - intros s0 event k i cid H0.
        apply _callMatchingHandlerClosestToEventTarget_nearestFirst. exact H0. }
    destruct (Hkept name (index :: rest) Hget) as [Hsorted _].
    inversion Hsorted; subst. assumption.
Qed.

End FurtherProperties.

(** * Properties of the registration *)

Section RegistrationProperties.

Variable env : Collaborators.
Variable library : RegistrationCollaborators.

(** ** What building the actions changes *)

Lemma summaryExtended_refl s : summaryExtended s s.
Proof. unfold summaryExtended. repeat split; auto. Qed.

Lemma summaryExtended_trans s1 s2 s3 :
  summaryExtended s1 s2 -> summaryExtended s2 s3 -> summaryExtended s1 s3.
Proof.
  unfold summaryExtended.
  intros (A1 & A2 & A3 & A4 & A5 & A6 & A7 & A8 & A9 & A10 & A11 & A12)
         (B1 & B2 & B3 & B4 & B5 & B6 & B7 & B8 & B9 & B10 & B11 & B12).
  repeat split; try congruence; [lia|].
  intros i Hi. apply B3, A3, Hi.
Qed.

Lemma setBit_keeps b i j :
  bit b j = true -> bit (KeyEventBitmapManager.setBit b i) j = true.
Proof. destruct i, j; simpl; auto. Qed.

Lemma setBit_sets b i : bit (KeyEventBitmapManager.setBit b i) i = true.
Proof. destruct i; reflexivity. Qed.

Lemma configCovered_extended s s' name m :
  summaryExtended s s' ->
  configCovered library s name m -> configCovered library s' name m.
Proof.
  intros (_ & Hl & Hb & _) (A & B & C).
  split; [exact A|]. split; [lia|]. intros Hp. apply Hb, C, Hp.
Qed.

Lemma actionsCovered_extended s s' actions :
  summaryExtended s s' ->
  actionsCovered library s actions -> actionsCovered library s' actions.
Proof.
  intros He H name l m Hl Hm.
  eapply configCovered_extended; [exact He|]. eapply H; eassumption.
Qed.

(** A list can be pushed under [name] in the dictionary being built: it
    has one, or one is created, the name not being inherited. *)
Let listable (memo : JsObject.t (list ActionConfiguration)) (name : string)
  : Prop :=
  JsObject.get memo name = None -> JsObject.inherited name = false.

Lemma addKeyMapOption_covered options cid name memo s keyMapOption :
  actionsCovered library s memo ->
  let o := addKeyMapOption library options cid name memo s keyMapOption in
  summaryExtended s (finalState o) /\
  (forall memo' s',
      o = Returned memo' s' ->
      actionsCovered library s' memo' /\
      listable memo name /\
      exists parsed,
        parse library (fst (keySequenceAndEvent options keyMapOption))
          (snd (keySequenceAndEvent options keyMapOption)) = Some parsed /\
        JsObject.get memo' name =
          Some ((match JsObject.get memo name with Some l => l | None => [] end)
                ++ [mkMatcher (sequencePrefix parsed) name (sequenceSize parsed)
                      (combinationId parsed) (combinationKeyDictionary parsed)
                      (combinationSize parsed)
                      (combinationEventBitmapIndex parsed)]) /\
        (forall name', name' <> name ->
                       JsObject.get memo' name' = JsObject.get memo name')) /\
  (parse library (fst (keySequenceAndEvent options keyMapOption))
     (snd (keySequenceAndEvent options keyMapOption)) <> None ->
   listable memo name ->
   exists memo' s', o = Returned memo' s').
Proof.
  intros Hmemo. unfold addKeyMapOption, listable.
  destruct (keySequenceAndEvent options keyMapOption) as [keySequence e].
  simpl fst; simpl snd.
  destruct (parse library keySequence e) as [parsed|] eqn:Hparse.
  2:{ split; [apply summaryExtended_refl|].
      split; [intros memo' s' H; discriminate H|].
      intros Hne. destruct (Hne eq_refl). }
  cbv zeta.
  match goal with
  | |- context [Threw ?x] => set (s1 := x)
  end.
  set (config := mkMatcher _ _ _ _ _ _ _).
  assert (Hext : summaryExtended s s1).
  { subst s1. unfold summaryExtended. simpl.
    destruct (longestSequence (registered s) <? sequenceSize parsed)%nat eqn:E;
      simpl; repeat split; auto.
    - apply Nat.ltb_lt in E. lia.
    - intros i; apply setBit_keeps.
    - intros i; apply setBit_keeps. }
  assert (Hconfig : configCovered library s1 name config).
  { split; [reflexivity|]. split.
    - subst s1 config. simpl.
      destruct (longestSequence (registered s) <? sequenceSize parsed)%nat eqn:E;
        simpl; [lia|]. apply Nat.ltb_ge in E. exact E.
    - intros Hp. subst config. simpl eventBitmapIndex.
      rewrite (Hp _ _ _ Hparse). subst s1. simpl.
      destruct (longestSequence (registered s) <? sequenceSize parsed)%nat;
        apply setBit_sets. }
  assert (Hcovered : forall memo',
            JsObject.get memo' name =
              Some ((match JsObject.get memo name with
                     | Some l => l
                     | None => []
                     end) ++ [config]) ->
            (forall name', name' <> name ->
                           JsObject.get memo' name' = JsObject.get memo name') ->
            actionsCovered library s1 memo').
  { intros memo' Hname Hother name' l m Hl Hm.
    destruct (String.eqb name' name) eqn:E.
    - apply String.eqb_eq in E. subst name'. rewrite Hname in Hl.
      inversion Hl; subst l. apply in_app_or in Hm.
      destruct Hm as [Hm|[<-|[]]]; [|exact Hconfig].
      destruct (JsObject.get memo name) as [l0|] eqn:El; [|destruct Hm].
      eapply configCovered_extended; [exact Hext|].
      eapply Hmemo; eassumption.
    - apply String.eqb_neq in E. rewrite (Hother _ E) in Hl.
      eapply configCovered_extended; [exact Hext|].
      eapply Hmemo; eassumption. }
  unfold JsObject.lookup.
  destruct (JsObject.get memo name) as [l|] eqn:El; cbv beta iota zeta.
  - rewrite El. simpl finalState.
    assert (Hget : JsObject.get (JsObject.set memo name (l ++ [config])) name
                   = Some (l ++ [config]) /\
                   forall name', name' <> name ->
                     JsObject.get (JsObject.set memo name (l ++ [config])) name'
                     = JsObject.get memo name').
    { split; [apply JsObject_get_set_same|].
      intros name' Hne. rewrite JsObject_get_set.
      apply String.eqb_neq in Hne. rewrite Hne. reflexivity. }
    split; [exact Hext|]. split; [|eauto].
    intros memo' s' H. injection H as Hmemo' Hs'. subst memo' s'.
    split; [apply Hcovered; apply Hget|].
    split; [intros H; discriminate H|].
    exists parsed. split; [reflexivity|]. exact Hget.
  - destruct (JsObject.inherited name) eqn:Ei; cbv beta iota zeta.
    + rewrite El. simpl finalState.
      split; [exact Hext|]. split; [intros memo' s' H; discriminate H|].
      intros _ Hl. specialize (Hl eq_refl). discriminate Hl.
    + rewrite JsObject_get_set_same. simpl finalState.
      assert (Hget :
                JsObject.get
                  (JsObject.set (JsObject.set memo name []) name ([] ++ [config]))
                  name = Some ([] ++ [config]) /\
                forall name', name' <> name ->
                  JsObject.get
                    (JsObject.set (JsObject.set memo name []) name
                       ([] ++ [config])) name'
                  = JsObject.get memo name').
      { split; [apply JsObject_get_set_same|].
        intros name' Hne. rewrite !JsObject_get_set.
        apply String.eqb_neq in Hne. rewrite Hne. reflexivity. }
      split; [exact Hext|]. split; [|eauto].
      intros memo' s' H. injection H as Hmemo' Hs'. subst memo' s'.
      split; [apply Hcovered; apply Hget|].
      split; [reflexivity|].
      exists parsed. split; [reflexivity|]. exact Hget.
Qed.

Lemma addKeyMapOptions_covered options cid name keyMapOptions :
  forall memo s,
    actionsCovered library s memo ->
    let o := addKeyMapOptions library options cid name keyMapOptions memo s in
    summaryExtended s (finalState o) /\
    (forall memo' s',
        o = Returned memo' s' ->
        actionsCovered library s' memo' /\
        (forall name', name' <> name ->
                       JsObject.get memo' name' = JsObject.get memo name') /\
        (keyMapOptions <> [] -> listable memo name) /\
        exists parsed,
          parseOptions library options keyMapOptions = Some parsed /\
          JsObject.get memo' name =
            match parsed with
            | [] => JsObject.get memo name
            | _ =>
                Some ((match JsObject.get memo name with
                       | Some l => l
                       | None => []
                       end) ++ map (configurationOf name) parsed)
            end) /\
    (parseOptions library options keyMapOptions <> None ->
     (keyMapOptions <> [] -> listable memo name) ->
     exists memo' s', o = Returned memo' s').
Proof.
  induction keyMapOptions as [|keyMapOption rest IH]; intros memo s Hmemo;
    simpl.
  - split; [apply summaryExtended_refl|]. split.
    + intros memo' s' H. inversion H; subst.
      split; [exact Hmemo|]. split; [reflexivity|].
      split; [intros Hne; destruct (Hne eq_refl)|].
      exists []. split; reflexivity.
    + intros _ _. eauto.
  - destruct (addKeyMapOption_covered options cid name memo s keyMapOption Hmemo)
      as (Hext & Hone & Hreturns1).
    destruct (addKeyMapOption library options cid name memo s keyMapOption)
      as [memo1 s1|s1] eqn:Hcall; simpl in Hext |- *.
    + destruct (Hone memo1 s1 eq_refl)
        as (Hmemo1 & Hlistable & parsed & Hparse & Hname & Hother).
      destruct (IH memo1 s1 Hmemo1) as (Hext' & Hrest & Hreturns).
      assert (Hlistable1 : rest <> [] -> listable memo1 name).
      { intros _ Hnone. rewrite Hname in Hnone. discriminate Hnone. }
      split; [eapply summaryExtended_trans; eassumption|]. split.
      * intros memo' s' H.
        destruct (Hrest memo' s' H) as (Hcov & Hother' & _ & ps & Hps & Hname').
        split; [exact Hcov|]. split.
        { intros name' Hne. rewrite (Hother' name' Hne). apply Hother, Hne. }
        split; [intros _; exact Hlistable|].
        exists (parsed :: ps). rewrite Hparse, Hps. split; [reflexivity|].
        rewrite Hname'. rewrite Hname.
        destruct ps as [|p ps]; [reflexivity|].
        rewrite <- app_assoc. reflexivity.
      * rewrite Hparse. intros Hne _. apply Hreturns; [|exact Hlistable1].
        destruct (parseOptions library options rest); [discriminate|].
        exact Hne.
    + split; [exact Hext|]. split; [intros memo' s' H; discriminate H|].
      intros Hne Hlistable. exfalso.
      destruct Hreturns1 as (? & ? & H); [| |discriminate H].
      * destruct (parse library _ _); [discriminate|].
        intros _. apply Hne; reflexivity.
      * apply Hlistable. discriminate.
Qed.

Lemma addActions_covered actionNameToKeyMap options cid names :
  forall memo s,
    actionsCovered library s memo ->
    NoDup names ->
    let o := addActions library actionNameToKeyMap options cid names memo s in
    summaryExtended s (finalState o) /\
    (forall memo' s',
        o = Returned memo' s' ->
        actionsCovered library s' memo' /\
        (forall name,
            In name names ->
            keyMapOptionsOf library actionNameToKeyMap name <> [] ->
            listable memo name) /\
        forall name,
          if in_dec string_dec name names then
            exists parsed,
              parseOptions library options
                (keyMapOptionsOf library actionNameToKeyMap name)
              = Some parsed /\
              JsObject.get memo' name =
                match parsed with
                | [] => JsObject.get memo name
                | _ =>
                    Some ((match JsObject.get memo name with
                           | Some l => l
                           | None => []
                           end) ++ map (configurationOf name) parsed)
                end
          else JsObject.get memo' name = JsObject.get memo name) /\
    ((forall name,
         In name names ->
         parseOptions library options
           (keyMapOptionsOf library actionNameToKeyMap name) <> None /\
         (keyMapOptionsOf library actionNameToKeyMap name <> [] ->
          listable memo name)) ->
     exists memo' s', o = Returned memo' s').
Proof.
  induction names as [|name names IH]; intros memo s Hmemo Hnodup; simpl.
  - split; [apply summaryExtended_refl|]. split.
    + intros memo' s' H. inversion H; subst. split; [exact Hmemo|].
      split; [intros name []|]. intros name. reflexivity.
    + intros _. eauto.
  - inversion Hnodup as [|? ? Hnotin Hnodup']; subst.
    fold (keyMapOptionsOf library actionNameToKeyMap name).
    destruct (addKeyMapOptions_covered options cid name
                (keyMapOptionsOf library actionNameToKeyMap name) memo s Hmemo)
      as (Hext & Hone & Hreturns1).
    destruct (addKeyMapOptions library options cid name
                (keyMapOptionsOf library actionNameToKeyMap name) memo s)
      as [memo1 s1|s1] eqn:Hcall; simpl in Hext |- *.
    + destruct (Hone memo1 s1 eq_refl)
        as (Hmemo1 & Hother & Hlistable & ps & Hps & Hname).
      destruct (IH memo1 s1 Hmemo1 Hnodup') as (Hext' & Hrest & Hreturns).
      assert (Hsame : forall name', In name' names ->
                JsObject.get memo1 name' = JsObject.get memo name').
      { intros name' Hin. apply Hother. intros ->. exact (Hnotin Hin). }
      split; [eapply summaryExtended_trans; eassumption|]. split.
      * intros memo' s' H. destruct (Hrest memo' s' H) as (Hcov & Hlist & Hget).
        split; [exact Hcov|]. split.
        { intros name' [<-|Hin] Hne; [exact (Hlistable Hne)|].
          intros Hnone. apply (Hlist name' Hin Hne).
          rewrite (Hsame name' Hin). exact Hnone. }
        intros name'. specialize (Hget name').
        destruct (string_dec name name') as [<-|Hne].
        -- destruct (in_dec string_dec name names) as [Hin|_];
             [destruct (Hnotin Hin)|].
           exists ps. split; [exact Hps|]. rewrite Hget. exact Hname.
        -- destruct (in_dec string_dec name' names) as [Hin|Hnin].
           ++ destruct Hget as (ps' & Hps' & Hname').
              exists ps'. split; [exact Hps'|].
              rewrite Hname', (Hother name' (not_eq_sym Hne)). reflexivity.
           ++ rewrite Hget. apply Hother. exact (not_eq_sym Hne).
      * intros Hall. apply Hreturns. intros name' Hin.
        destruct (Hall name' (or_intror Hin)) as [Hp Hl].
        split; [exact Hp|]. intros Hne Hnone. apply (Hl Hne).
        rewrite <- (Hsame name' Hin). exact Hnone.
    + split; [exact Hext|]. split; [intros memo' s' H; discriminate H|].
      intros Hall. exfalso.
      destruct (Hall name (or_introl eq_refl)) as [Hp Hl].
      destruct (Hreturns1 Hp Hl) as (? & ? & H).
      discriminate H.
Qed.

(** ** Objects built by assignment *)

Lemma set_keys_In {V} (o : JsObject.t V) k v k' :
  In k' (map fst (JsObject.set o k v)) <-> k' = k \/ In k' (map fst o).
Proof.
  induction o as [|[k0 v0] o IH]; simpl.
  - split; [intros [<-|[]]; auto | intros [->|[]]; auto].
  - destruct (String.eqb k k0) eqn:E; simpl.
    + apply String.eqb_eq in E. subst k0. intuition congruence.
    + rewrite IH. intuition congruence.
Qed.

Lemma set_NoDup {V} (o : JsObject.t V) k v :
  NoDup (map fst o) -> NoDup (map fst (JsObject.set o k v)).
Proof.
  induction o as [|[k0 v0] o IH]; simpl; intros H.
  - constructor; [intros []|constructor].
  - inversion H as [|? ? Hnotin Hnodup]; subst.
    destruct (String.eqb k k0) eqn:E; simpl; [exact H|].
    constructor; [|apply IH; exact Hnodup].
    rewrite set_keys_In. intros [->|Hin]; [|exact (Hnotin Hin)].
    rewrite String.eqb_refl in E. discriminate.
Qed.

Lemma insertIndex_NoDup n k l :
  NoDup (map snd l) -> ~ In k (map snd l) ->
  NoDup (map snd (JsObject.insertIndex n k l)).
Proof.
  induction l as [|[m k'] l IH]; simpl; intros Hnodup Hnotin.
  - constructor; [intros []|constructor].
  - destruct (n <? m)%N; simpl.
    + constructor; [exact Hnotin | exact Hnodup].
    + inversion Hnodup as [|? ? Hk' Hl]; subst.
      constructor;
        [|apply IH; [exact Hl | intros Hin; apply Hnotin; right; exact Hin]].
      rewrite insertIndex_In. intros [->|Hin]; [|exact (Hk' Hin)].
      apply Hnotin. left; reflexivity.
Qed.

Lemma indexKeys_In {V} (o : JsObject.t V) k :
  In k (map snd (JsObject.indexKeys o)) ->
  In k (map fst o) /\ JsObject.arrayIndex k <> None.
Proof.
  induction o as [|[k0 v0] o IH]; simpl; [intros []|].
  destruct (JsObject.arrayIndex k0) eqn:E.
  - rewrite insertIndex_In. intros [->|Hin].
    + split; [left; reflexivity | congruence].
    + destruct (IH Hin). split; [right; assumption | assumption].
  - intros Hin. destruct (IH Hin). split; [right; assumption | assumption].
Qed.

Lemma stringKeys_In {V} (o : JsObject.t V) k :
  In k (JsObject.stringKeys o) ->
  In k (map fst o) /\ JsObject.arrayIndex k = None.
Proof.
  induction o as [|[k0 v0] o IH]; simpl; [intros []|].
  destruct (JsObject.arrayIndex k0) eqn:E.
  - intros Hin. destruct (IH Hin). split; [right; assumption | assumption].
  - intros [<-|Hin].
    + split; [left; reflexivity | exact E].
    + destruct (IH Hin). split; [right; assumption | assumption].
Qed.

Lemma keys_NoDup {V} (o : JsObject.t V) :
  NoDup (map fst o) -> NoDup (JsObject.keys o).
Proof.
  intros Hnodup. unfold JsObject.keys. apply NoDup_app.
  - induction o as [|[k0 v0] o IH]; simpl; [constructor|].
    inversion Hnodup as [|? ? Hnotin Hrest]; subst.
    destruct (JsObject.arrayIndex k0); [|apply IH; exact Hrest].
    apply insertIndex_NoDup; [apply IH; exact Hrest|].
    intros Hin. apply indexKeys_In in Hin. tauto.
  - induction o as [|[k0 v0] o IH]; simpl; [constructor|].
    inversion Hnodup as [|? ? Hnotin Hrest]; subst.
    destruct (JsObject.arrayIndex k0); [apply IH; exact Hrest|].
    constructor; [|apply IH; exact Hrest].
    intros Hin. apply stringKeys_In in Hin. tauto.
  - intros k Hindex Hstring.
    apply indexKeys_In in Hindex. apply stringKeys_In in Hstring. tauto.
Qed.

Lemma spreadOnto_get {V} (target o : JsObject.t V) k :
  JsObject.get (spreadOnto target o) k =
    match JsObject.get o k with
    | Some v => Some v
    | None => JsObject.get target k
    end.
Proof.
  change (spreadOnto target o)
    with (copyWhere (fun _ => true) o (JsObject.keys o) target).
  destruct (JsObject.get o k) as [v|] eqn:E.
  - rewrite (copyWhere_get_in _ o (JsObject.keys o) target k v); [reflexivity| |exact E].
    apply JsObject_keys_has. unfold JsObject.has. rewrite E. reflexivity.
  - apply copyWhere_get_notin. intros Hin.
    apply JsObject_keys_has in Hin. unfold JsObject.has in Hin.
    rewrite E in Hin. discriminate.
Qed.

Lemma spreadOnto_NoDup {V} (target o : JsObject.t V) :
  NoDup (map fst target) -> NoDup (map fst (spreadOnto target o)).
Proof.
  unfold spreadOnto. generalize (JsObject.keys o) as names.
  intros names. revert target.
  induction names as [|name names IH]; intros target H; simpl; [exact H|].
  apply IH. destruct (JsObject.get o name); [apply set_NoDup|]; exact H.
Qed.

(** ** Hard sequences *)

Lemma _applyHardSequences_get keyMap handlersMap :
  let (hardSequenceKeyMap, includingHardSequenceHandlers) :=
    _applyHardSequences library keyMap handlersMap in
  (forall name,
      JsObject.get includingHardSequenceHandlers name
      = JsObject.get handlersMap name) /\
  (forall name,
      JsObject.get hardSequenceKeyMap name =
        if JsObject.has handlersMap name
           && negb (truthyKeyMapValue (JsObject.lookup keyMap name))
           && isValidKeySerialization library name
        then Some (OneOption (KeySequence name)) else None).
Proof.
  unfold _applyHardSequences.
  set (step := fun (memo : JsObject.t KeyMapValue * JsObject.t Handler)
                   (name : string) => _).
  assert (Hfold : forall names memo,
            let result := fold_left step names memo in
            (forall name,
                JsObject.get (snd result) name =
                  if in_dec string_dec name names
                  then match JsObject.get handlersMap name with
                       | Some h => Some h
                       | None => JsObject.get (snd memo) name
                       end
                  else JsObject.get (snd memo) name) /\
            (forall name,
                JsObject.get (fst result) name =
                  if in_dec string_dec name names
                  then if negb (truthyKeyMapValue (JsObject.lookup keyMap name))
                          && isValidKeySerialization library name
                       then Some (OneOption (KeySequence name))
                       else JsObject.get (fst memo) name
                  else JsObject.get (fst memo) name)).
  { assert (Hstep_snd : forall memo n name,
              JsObject.get (snd (step memo n)) name =
                if String.eqb name n
                then match JsObject.get handlersMap n with
                     | Some h => Some h
                     | None => JsObject.get (snd memo) name
                     end
                else JsObject.get (snd memo) name).
    { intros memo n name. subst step. cbv beta zeta.
      destruct (JsObject.get handlersMap n); simpl;
        rewrite ?JsObject_get_set; destruct (String.eqb name n); reflexivity. }
    assert (Hstep_fst : forall memo n name,
              JsObject.get (fst (step memo n)) name =
                if String.eqb name n
                   && (negb (truthyKeyMapValue (JsObject.lookup keyMap n))
                       && isValidKeySerialization library n)
                then Some (OneOption (KeySequence n))
                else JsObject.get (fst memo) name).
    { intros memo n name. subst step. cbv beta zeta.
      destruct (negb (truthyKeyMapValue (JsObject.lookup keyMap n))
                && isValidKeySerialization library n);
        destruct (JsObject.get handlersMap n); simpl;
        rewrite ?JsObject_get_set, ?andb_true_r, ?andb_false_r;
        reflexivity. }
    clearbody step.
    induction names as [|n names IH]; intros memo; simpl.
    - split; reflexivity.
    - destruct (IH (step memo n)) as [Hs Hf]. split; intros name.
      + rewrite Hs, Hstep_snd.
        destruct (string_dec n name) as [->|Hne].
        * rewrite String.eqb_refl.
          destruct (in_dec string_dec name names);
            destruct (JsObject.get handlersMap name); reflexivity.
        * rewrite (proj2 (String.eqb_neq name n) (not_eq_sym Hne)).
          destruct (in_dec string_dec name names); reflexivity.
      + rewrite Hf, Hstep_fst.
        destruct (string_dec n name) as [->|Hne].
        * rewrite String.eqb_refl. simpl.
          destruct (in_dec string_dec name names);
            destruct (negb _ && _); reflexivity.
        * rewrite (proj2 (String.eqb_neq name n) (not_eq_sym Hne)). simpl.
          destruct (in_dec string_dec name names); reflexivity. }
  specialize (Hfold (JsObject.keys handlersMap) (JsObject.empty, JsObject.empty)).
  cbv zeta in Hfold.
  destruct (fold_left step (JsObject.keys handlersMap)
              (JsObject.empty, JsObject.empty)) as [hard handlers'].
  destruct Hfold as [Hs Hf]. simpl in Hs, Hf. split; intros name.
  - rewrite Hs.
    destruct (in_dec string_dec name (JsObject.keys handlersMap)) as [Hin|Hnin].
    + destruct (JsObject.get handlersMap name) eqn:E; [reflexivity|].
      apply JsObject_keys_has in Hin. unfold JsObject.has in Hin.
      rewrite E in Hin. discriminate.
    + destruct (JsObject.get handlersMap name) eqn:E; [|reflexivity].
      exfalso. apply Hnin. apply JsObject_keys_has. unfold JsObject.has.
      rewrite E. reflexivity.
  - rewrite Hf.
    destruct (in_dec string_dec name (JsObject.keys handlersMap)) as [Hin|Hnin].
    + apply JsObject_keys_has in Hin. rewrite Hin. simpl.
      destruct (negb _ && _); reflexivity.
    + assert (Hhas : JsObject.has handlersMap name = false).
      { destruct (JsObject.has handlersMap name) eqn:E; [|reflexivity].
        exfalso. apply Hnin. apply JsObject_keys_has. exact E. }
      rewrite Hhas. reflexivity.
Qed.

(** ** The options of a component *)

Lemma parseOptions_accepts options keyMapOptions :
  parserAccepts library ->
  parseOptions library options keyMapOptions <> None.
Proof.
  intros Hp. induction keyMapOptions as [|o rest IH]; simpl; [discriminate|].
  destruct (parse library _ _) eqn:E; [|destruct (Hp _ _ E)].
  destruct (parseOptions library options rest); [discriminate | exact IH].
Qed.

Lemma actionsCovered_empty s : actionsCovered library s JsObject.empty.
Proof. intros name l m H; discriminate H. Qed.

Lemma _buildComponentOptions_spec s cid keyMap handlersMap opts :
  let o := _buildComponentOptions library s cid keyMap handlersMap opts in
  summaryExtended s (finalState o) /\
  (forall c s',
      o = Returned c s' ->
      componentId c = cid /\
      options c = componentOptions opts /\
      (forall name,
          JsObject.get (handlers c) name = JsObject.get handlersMap name) /\
      actionsCovered library s' (actions c) /\
      (forall name, accepted library opts keyMap handlersMap name) /\
      forall name,
        exists parsed,
          parseOptions library opts
            (keyMapEntryOptions library keyMap handlersMap name) = Some parsed /\
          JsObject.get (actions c) name =
            match parsed with
            | [] => None
            | _ => Some (map (configurationOf name) parsed)
            end) /\
  ((forall name, accepted library opts keyMap handlersMap name) ->
   exists c s', o = Returned c s').
Proof.
  unfold _buildComponentOptions.
  pose proof (_applyHardSequences_get keyMap handlersMap) as Hhard.
  destruct (_applyHardSequences library keyMap handlersMap)
    as [hardSequenceKeyMap includingHardSequenceHandlers].
  destruct Hhard as [Hhandlers Hhard].
  unfold _buildActionDictionary.
  set (merged := spreadOnto (spreadOnto JsObject.empty keyMap)
                   hardSequenceKeyMap).
  assert (Hmerged : forall name,
            JsObject.get merged name =
              keyMapEntry library keyMap handlersMap name).
  { intros name. unfold merged, keyMapEntry.
    rewrite !spreadOnto_get, Hhard.
    destruct (_ && _ && _); [reflexivity|].
    destruct (JsObject.get keyMap name); reflexivity. }
  assert (Hoptions : forall name,
            keyMapOptionsOf library merged name =
              keyMapEntryOptions library keyMap handlersMap name).
  { intros name. unfold keyMapOptionsOf, keyMapEntryOptions.
    rewrite Hmerged. reflexivity. }
  assert (Hnodup : NoDup (JsObject.keys merged)).
  { apply keys_NoDup. unfold merged.
    apply spreadOnto_NoDup, spreadOnto_NoDup. constructor. }
  destruct (addActions_covered merged opts cid (JsObject.keys merged)
              JsObject.empty s (actionsCovered_empty s) Hnodup)
    as (Hext & Hreturned & Hreturns).
  destruct (addActions library merged opts cid (JsObject.keys merged)
              JsObject.empty s) as [actions' s1|s1] eqn:Hcall;
    simpl in Hext |- *.
  - split; [exact Hext|]. split.
    + intros c s' H. inversion H; subst c s'; clear H. simpl.
      destruct (Hreturned actions' s1 eq_refl) as (Hcov & Hlist & Hget).
      assert (Hparsed : forall name,
                exists parsed,
                  parseOptions library opts (keyMapOptionsOf library merged name)
                  = Some parsed /\
                  JsObject.get actions' name =
                    match parsed with
                    | [] => None
                    | _ => Some (map (configurationOf name) parsed)
                    end).
      { intros name. specialize (Hget name).
        destruct (in_dec string_dec name (JsObject.keys merged)) as [Hin|Hnin].
        - exact Hget.
        - exists []. split; [|exact Hget].
          unfold keyMapOptionsOf.
          destruct (JsObject.get merged name) eqn:E; [|reflexivity].
          exfalso. apply Hnin. apply JsObject_keys_has. unfold JsObject.has.
          rewrite E. reflexivity. }
      split; [reflexivity|]. split; [reflexivity|].
      split; [exact Hhandlers|]. split; [exact Hcov|]. split.
      * intros name. unfold accepted. rewrite <- Hoptions. split.
        -- destruct (Hparsed name) as (parsed & -> & _). discriminate.
        -- intros Hne. apply (Hlist name); [|exact Hne | reflexivity].
           apply JsObject_keys_has. unfold JsObject.has.
           unfold keyMapOptionsOf in Hne.
           destruct (JsObject.get merged name); [reflexivity|].
           destruct (Hne eq_refl).
      * intros name. rewrite <- Hoptions. apply Hparsed.
    + intros _. eauto.
  - split; [exact Hext|]. split; [intros c s' H; discriminate H|].
    intros Hp. exfalso.
    destruct Hreturns as (? & ? & H); [|discriminate H].
    intros name _. rewrite Hoptions. destruct (Hp name) as [Hparse Hname].
    split; [exact Hparse|]. intros Hne _. exact (Hname Hne).
Qed.

(** ** The operations of a session *)

Lemma addHotKeys_spec s keyMap handlersMap opts :
  let s1 :=
    if resetOnNextFocus s then withResetOnNextFocus (_reset env s) false
    else s in
  let cid := List.length (componentList (registered s1)) in
  let built :=
    _buildComponentOptions library (withComponentId s1 cid) cid keyMap
      handlersMap opts in
  match addHotKeys env library s keyMap handlersMap opts with
  | Returned ids s' =>
      exists c s3,
        built = Returned c s3 /\
        s' = withComponentList s3 (componentList (registered s3) ++ [c]) /\
        ids = (focusTreeId s1, cid)
  | Threw s' => built = Threw s'
  end.
Proof.
  cbv zeta. unfold addHotKeys, _addComponentToList.
  set (s1 := if resetOnNextFocus s then _ else s).
  set (cid := List.length (componentList (registered s1))).
  change (componentIdCounter (withComponentId s1 cid)) with cid.
  destruct (_buildComponentOptions_spec (withComponentId s1 cid) cid keyMap
              handlersMap opts) as ((_ & _ & _ & _ & _ & _ & Hft & _ & Hid & _) & _).
  destruct (_buildComponentOptions library (withComponentId s1 cid) cid keyMap
              handlersMap opts) as [c s3|s3]; simpl in *; [|reflexivity].
  exists c, s3. split; [reflexivity|]. split; [reflexivity|].
  rewrite Hft, Hid. reflexivity.
Qed.

Lemma handleKeyEvent_registered s call :
  registered (finalState (handleKeyEvent env s call)) = registered s.
Proof.
  refine (proj2 (handleKeyEvents_holds env (fun _ _ => True) _ [call] s I)).
  intros s0 k i _. split; exact I.
Qed.

Lemma nth_error_snoc {A} (l : list A) x i y :
  nth_error (l ++ [x]) i = Some y ->
  nth_error l i = Some y \/ (i = List.length l /\ y = x).
Proof.
  intros H. destruct (Nat.lt_ge_cases i (List.length l)) as [Hlt|Hge].
  - rewrite nth_error_app1 in H by exact Hlt. left; exact H.
  - rewrite nth_error_app2 in H by exact Hge.
    destruct (i - List.length l) as [|n] eqn:E; simpl in H.
    + inversion H; subst. right. split; [lia | reflexivity].
    + destruct n; discriminate.
Qed.

Lemma perform_numbered s operation :
  numbered (componentList (registered s)) ->
  numbered (componentList (registered (perform env library s operation))).
Proof.
  intros Hn. destruct operation as [km hm opts|ftid cid km hm opts|ftid cid|call];
    simpl.
  - pose proof (addHotKeys_spec s km hm opts) as Hspec. cbv zeta in Hspec.
    set (s1 := if resetOnNextFocus s
               then withResetOnNextFocus (_reset env s) false else s) in *.
    assert (H1 : numbered (componentList (registered s1))).
    { subst s1. destruct (resetOnNextFocus s); [|exact Hn].
      intros i c H. destruct i; discriminate H. }
    set (cid := List.length (componentList (registered s1))) in *.
    destruct (_buildComponentOptions_spec (withComponentId s1 cid) cid km hm opts)
      as ((Hcl & _) & Hreturned & _).
    destruct (addHotKeys env library s km hm opts) as [ids s'|s']; simpl.
    + destruct Hspec as (c & s3 & Hbuilt & -> & _).
      rewrite Hbuilt in Hcl. simpl in Hcl.
      destruct (Hreturned c s3 Hbuilt) as (Hid & _).
      simpl. rewrite Hcl. simpl.
      intros i c' H. apply nth_error_snoc in H.
      destruct H as [H|[-> ->]]; [apply H1; exact H | exact Hid].
    + rewrite Hspec in Hcl. simpl in Hcl. rewrite Hcl. exact H1.
  - unfold updateHotKeys.
    destruct (negb (ftid =? focusTreeId s)%nat || _); [exact Hn|].
    destruct (_buildComponentOptions_spec s cid km hm opts)
      as ((Hcl & _) & Hreturned & _).
    destruct (_buildComponentOptions library s cid km hm opts) as [c s3|s3]
      eqn:Hbuilt; simpl in *.
    + destruct (Hreturned c s3 eq_refl) as (Hid & _). rewrite Hcl.
      intros i c' H. apply updateNth_nth in H.
      destruct H as [[-> ->]|H]; [exact Hid | apply Hn; exact H].
    + rewrite Hcl. exact Hn.
  - destruct (negb (resetOnNextFocus s)); exact Hn.
  - rewrite handleKeyEvent_registered. exact Hn.
Qed.

Lemma session_invariant (Inv : Strategy -> Prop) :
  (forall s operation, Inv s -> Inv (perform env library s operation)) ->
  forall operations s, Inv s -> Inv (session env library s operations).
Proof.
  intros Hstep. unfold session.
  induction operations as [|operation operations IH]; intros s H; simpl;
    [exact H|].
  apply IH, Hstep, H.
Qed.

(** X10. In every state that a new strategy reaches by components
    gaining focus, updating and losing focus and by key events, the
    component at each position of the component list has that position
    as its component id. *)
Theorem components_are_numbered_by_position :
  forall operations,
    numbered
      (componentList
         (registered (session env library (newStrategy env) operations))).
Proof.
  intros operations.
  apply (session_invariant
           (fun s => numbered (componentList (registered s)))).
  - intros s operation. apply perform_numbered.
  - intros i c H. destruct i; discriminate H.
Qed.

(** ** The longest sequence and the events bound *)

(** The invariant of the registered key maps: every key sequence is
    accounted for and the history is within its bound. *)
Let accounted (s : Strategy) : Prop :=
  registeredCovered library s /\ historyBounded (registered s) (history s).

Lemma accounted_extended s s' :
  summaryExtended s s' -> accounted s -> accounted s'.
Proof.
  intros Hext [[Hone Hcov] Hbound].
  pose proof Hext as (Hcl & Hl & _ & _ & Hc & _).
  split; [split|].
  - lia.
  - intros c Hc'. rewrite Hcl in Hc'.
    eapply actionsCovered_extended; [exact Hext|]. apply Hcov, Hc'.
  - unfold historyBounded, history in *. rewrite Hc. lia.
Qed.

Lemma accounted_components s cl c :
  accounted s ->
  actionsCovered library s (actions c) ->
  (forall c', In c' cl -> In c' (componentList (registered s)) \/ c' = c) ->
  accounted (withComponentList s cl).
Proof.
  intros [[Hone Hcov] Hbound] Hc Hcl. split; [split|].
  - exact Hone.
  - intros c' Hin. simpl in Hin.
    destruct (Hcl c' Hin) as [Hold| ->]; [apply Hcov in Hold|];
      intros name l m Hl Hm.
    + exact (Hold name l m Hl Hm).
    + exact (Hc name l m Hl Hm).
  - exact Hbound.
Qed.

Lemma updateNth_In {A} (l : list A) n x y :
  In y (updateNth l n x) -> In y l \/ y = x.
Proof.
  revert n. induction l as [|z l IH]; intros [|n] H; simpl in *; auto.
  - destruct H as [<-|H]; auto.
  - destruct H as [<-|H]; auto. destruct (IH n H); auto.
Qed.

Lemma perform_accounted s operation :
  accounted s -> accounted (perform env library s operation).
Proof.
  intros Ha. destruct operation as [km hm opts|ftid cid km hm opts|ftid cid|call];
    simpl.
  - pose proof (addHotKeys_spec s km hm opts) as Hspec. cbv zeta in Hspec.
    set (s1 := if resetOnNextFocus s
               then withResetOnNextFocus (_reset env s) false else s) in *.
    assert (H1 : accounted s1).
    { subst s1. destruct (resetOnNextFocus s); [|exact Ha].
      split; [split|].
      - simpl. lia.
      - intros c [].
      - unfold historyBounded, history. simpl.
        destruct (List.length (history s) <? 1)%nat; simpl; lia. }
    set (cid := List.length (componentList (registered s1))) in *.
    assert (H2 : accounted (withComponentId s1 cid)) by exact H1.
    destruct (_buildComponentOptions_spec (withComponentId s1 cid) cid km hm opts)
      as (Hext & Hreturned & _).
    destruct (addHotKeys env library s km hm opts) as [ids s'|s']; simpl.
    + destruct Hspec as (c & s3 & Hbuilt & -> & _).
      rewrite Hbuilt in Hext. simpl in Hext.
      destruct (Hreturned c s3 Hbuilt) as (_ & _ & _ & Hcov & _).
      apply (accounted_components s3 _ c);
        [exact (accounted_extended _ _ Hext H2) | exact Hcov|].
      intros c' Hin. apply in_app_or in Hin.
      destruct Hin as [Hin|[<-|[]]]; auto.
    + rewrite Hspec in Hext. simpl in Hext.
      exact (accounted_extended _ _ Hext H2).
  - unfold updateHotKeys.
    destruct (negb (ftid =? focusTreeId s)%nat || _); [exact Ha|].
    destruct (_buildComponentOptions_spec s cid km hm opts)
      as (Hext & Hreturned & _).
    destruct (_buildComponentOptions library s cid km hm opts) as [c s3|s3]
      eqn:Hbuilt; simpl in *.
    + destruct (Hreturned c s3 eq_refl) as (_ & _ & _ & Hcov & _).
      apply (accounted_components s3 _ c);
        [exact (accounted_extended _ _ Hext Ha) | exact Hcov|].
      intros c' Hin. apply updateNth_In in Hin. exact Hin.
    + exact (accounted_extended _ _ Hext Ha).
  - destruct (negb (resetOnNextFocus s)); exact Ha.
  - destruct Ha as [[Hone Hcov] Hbound].
    destruct (handleKeyEvents_holds env historyBounded
                (historyBounded_maintained env) [call] s Hbound) as [Hb Hr].
    unfold handleKeyEvents in Hb, Hr. simpl in Hb, Hr.
    split; [split|exact Hb].
    + rewrite Hr. exact Hone.
    + rewrite Hr. intros c Hc name l m Hl Hm.
      destruct (Hcov c Hc name l m Hl Hm) as (A & B & C).
      split; [exact A|]. split; rewrite Hr; assumption.
Qed.

Lemma session_accounted operations :
  accounted (session env library (newStrategy env) operations).
Proof.
  apply (session_invariant accounted).
  - intros s operation. apply perform_accounted.
  - split; [split|].
    + simpl. lia.
    + intros c [].
    + unfold historyBounded. simpl. lia.
Qed.

(** X11. In every state that a new strategy reaches by components
    gaining focus, updating and losing focus and by key events,
    [longestSequence] is 1 at least and no shorter than any key sequence
    of an action of a registered component, and the key combination
    history holds [longestSequence + 1] combinations at most. *)
Theorem longest_sequence_covers_the_registered_sequences :
  forall operations,
    let s := session env library (newStrategy env) operations in
    1 <= longestSequence (registered s) /\
    (forall c name l m,
        In c (componentList (registered s)) ->
        JsObject.get (actions c) name = Some l ->
        In m l ->
        sequenceLength m <= longestSequence (registered s)) /\
    List.length (history s) <= longestSequence (registered s) + 1.
Proof.
  intros operations s.
  destruct (session_accounted operations) as [[Hone Hcov] Hbound].
  split; [exact Hone|]. split; [|exact Hbound].
  intros c name l m Hc Hl Hm. apply (Hcov c Hc name l m Hl Hm).
Qed.

(** X12. When the parser binds a combination to the event it is given:
    in every state that a new strategy reaches by components gaining
    focus, updating and losing focus and by key events, the key map
    event bitmap has the bit of the event of every key sequence of every
    action of a registered component, so that
    [_callHandlerIfActionNotHandled] passes over no event that a
    registered key sequence is bound to. *)
Theorem key_map_event_bitmap_covers_the_registered_events :
  parserKeepsEvent library ->
  forall operations,
    let s := session env library (newStrategy env) operations in
    forall c name l m,
      In c (componentList (registered s)) ->
      JsObject.get (actions c) name = Some l ->
      In m l ->
      actionName m = name /\
      bit (keyMapEventBitmap (registered s)) (eventBitmapIndex m) = true.
Proof.
  intros Hparser operations s c name l m Hc Hl Hm.
  destruct (session_accounted operations) as [[_ Hcov] _].
  destruct (Hcov c Hc name l m Hl Hm) as (A & _ & B).
  split; [exact A | exact (B Hparser)].
Qed.

(** ** Gaining and losing focus *)

(** X13. [removeHotKeys] answers whether the component is further than
    one step from the component that handled a key event last.  The
    first [addHotKeys] after it, when it returns, has started the next
    focus tree: it returns the next focus tree id and the component id 0,
    the component it registers is the only one of the list, nothing is
    resolved, the event propagation state is cleared, the history holds
    one combination at most, and every key event that still carries the
    id of the focus tree before is discarded: the handlers return [true]
    and leave the strategy as it is. *)
Theorem focus_after_a_blur_starts_a_new_focus_tree :
  forall s ftid cid keyMap handlersMap opts ids s',
    addHotKeys env library (snd (removeHotKeys s ftid cid)) keyMap handlersMap
      opts = Returned ids s' ->
    fst (removeHotKeys s ftid cid) =
      (previousComponentIndex (eventPropagationState s) + 1 <? cid)%nat /\
    ids = (focusTreeId s + 1, 0) /\
    focusTreeId s' = focusTreeId s + 1 /\
    resetOnNextFocus s' = false /\
    (exists c, componentList (registered s') = [c] /\ componentId c = 0) /\
    unresolved s' /\
    eventPropagationState s' = mkPropagation 0 false false /\
    List.length (history s') <= 1 /\
    (forall call,
        callFocusTreeId call = focusTreeId s ->
        handleKeyEvent env s' call = Returned (Some true) s').
Proof.
  intros s ftid cid keyMap handlersMap opts ids s' Hadd.
  split; [unfold removeHotKeys; destruct (resetOnNextFocus s); reflexivity|].
  pose proof (addHotKeys_spec (snd (removeHotKeys s ftid cid)) keyMap
                handlersMap opts) as Hspec.
  cbv zeta in Hspec. rewrite Hadd in Hspec.
  assert (Hflag : resetOnNextFocus (snd (removeHotKeys s ftid cid)) = true)
    by (unfold removeHotKeys; simpl; destruct (resetOnNextFocus s) eqn:E;
        simpl; [exact E | reflexivity]).
  rewrite Hflag in Hspec.
  set (sB := snd (removeHotKeys s ftid cid)) in *.
  assert (HB : focusTreeId sB = focusTreeId s /\ history sB = history s).
  { subst sB. unfold removeHotKeys. simpl.
    destruct (resetOnNextFocus s); split; reflexivity. }
  destruct HB as [HBft HBh].
  destruct Hspec as (c & s3 & Hbuilt & -> & ->).
  destruct (_buildComponentOptions_spec
              (withComponentId (withResetOnNextFocus (_reset env sB) false)
                 (List.length
                    (componentList
                       (registered (withResetOnNextFocus (_reset env sB) false)))))
              (List.length
                 (componentList
                    (registered (withResetOnNextFocus (_reset env sB) false))))
              keyMap handlersMap opts) as (Hext & Hreturned & _).
  rewrite Hbuilt in Hext. simpl finalState in Hext.
  destruct (Hreturned c s3 Hbuilt) as (Hid & _).
  destruct Hext as (Hcl & _ & _ & Hres & Hcomb & Hprop & Hft & _ & _ & Hreset & _).
  simpl in Hcl, Hres, Hcomb, Hprop, Hft, Hreset, Hid.
  assert (Hft' : focusTreeId (withComponentList s3
                                (componentList (registered s3) ++ [c]))
                 = focusTreeId s + 1)
    by (simpl; rewrite Hft, HBft; reflexivity).
  split; [simpl; rewrite HBft; reflexivity|].
  split; [exact Hft'|].
  split; [exact Hreset|].
  split; [exists c; simpl; rewrite Hcl; split; [reflexivity | exact Hid]|].
  split; [split; simpl; [exact Hres | rewrite Hcomb; reflexivity]|].
  split; [exact Hprop|].
  split.
  { unfold history. simpl. rewrite Hcomb. simpl.
    destruct (List.length (history sB) <? 1)%nat; simpl; lia. }
  intros [type event ftid' cid' options] Hcall. simpl in Hcall. subst ftid'.
  rewrite handleKeyEvent_unfold. cbv zeta. rewrite Hft'.
  assert (Hne : (focusTreeId s =? focusTreeId s + 1)%nat = false)
    by (apply Nat.eqb_neq; lia).
  rewrite Hne. reflexivity.
Qed.

(** ** Registered components handle key events *)

Lemma addHotKeys_unresolved s keyMap handlersMap opts :
  unresolved s \/ resetOnNextFocus s = true ->
  let s' := finalState (addHotKeys env library s keyMap handlersMap opts) in
  unresolved s' /\ resetOnNextFocus s' = false.
Proof.
  intros Hs.
  pose proof (addHotKeys_spec s keyMap handlersMap opts) as Hspec.
  cbv zeta in Hspec |- *.
  set (s1 := if resetOnNextFocus s
             then withResetOnNextFocus (_reset env s) false else s) in *.
  assert (H1 : unresolved s1 /\ resetOnNextFocus s1 = false).
  { subst s1. destruct (resetOnNextFocus s) eqn:E.
    - split; [split; reflexivity | reflexivity].
    - destruct Hs as [Hs|Hs]; [split; [exact Hs | exact E] | discriminate]. }
  set (cid := List.length (componentList (registered s1))) in *.
  destruct (_buildComponentOptions_spec (withComponentId s1 cid) cid keyMap
              handlersMap opts)
    as ((_ & _ & _ & Hres & Hcomb & _ & _ & _ & _ & Hreset & _) & _).
  destruct H1 as [[A B] C].
  destruct (addHotKeys env library s keyMap handlersMap opts) as [ids s'|s'];
    simpl.
  - destruct Hspec as (c & s3 & Hbuilt & -> & _).
    rewrite Hbuilt in Hres, Hcomb, Hreset. simpl in Hres, Hcomb, Hreset |- *.
    split; [split|]; simpl; congruence.
  - rewrite Hspec in Hres, Hcomb, Hreset. simpl in Hres, Hcomb, Hreset.
    split; [split|]; congruence.
Qed.

Lemma session_focus_unresolved registrations :
  forall s,
    unresolved s /\ resetOnNextFocus s = false ->
    unresolved (session env library s (map focusOn registrations)).
Proof.
  unfold session.
  induction registrations as [|r rest IH]; intros s [H0 H1]; simpl;
    [exact H0|].
  apply IH. apply addHotKeys_unresolved. left; exact H0.
Qed.

(** X14. After the components of a focus tree have been registered with
    a strategy that has resolved no handler yet (a new one, or one that
    resets on the next focus), a key event delivered to a component of
    the list returns, after any series of such key events: no
    [TypeError] is raised.  The names are ordinary: those of the
    handlers, the actions and the key sequences of the components of the
    list, those that the collaborators give, those of the keys and ids
    recorded before, and those of the keys of the events. *)
Theorem registered_components_handle_key_events :
  forall s registrations calls call,
    unresolved s \/ (resetOnNextFocus s = true /\ registrations <> []) ->
    let s' := session env library s (map focusOn registrations) in
    ordinaryNames (componentList (registered s')) ->
    ordinaryKeys env ->
    ordinaryHistory s ->
    Forall
      (fun c => callComponentId c < List.length (componentList (registered s')))
      (calls ++ [call]) ->
    Forall (fun c => ordinary (normalizeKeyName env (key (callEvent c))))
      (calls ++ [call]) ->
    exists v s'',
      handleKeyEvent env (handleKeyEvents env s' calls) call = Returned v s''.
Proof.
  intros s registrations calls call Hs s' Hnames _ _ Hcalls _.
  assert (Hunresolved : unresolved s').
  { subst s'. destruct registrations as [|r rest].
    - destruct Hs as [Hs|[_ Hne]]; [exact Hs | congruence].
    - change (session env library s (map focusOn (r :: rest)))
        with (session env library
                (finalState
                   (addHotKeys env library s (registrationKeyMap r)
                      (registrationHandlers r) (registrationOptions r)))
                (map focusOn rest)).
      apply session_focus_unresolved. apply addHotKeys_unresolved.
      destruct Hs as [Hs|[Hs _]]; auto. }
  assert (Hok : strategyOk s')
    by (destruct Hunresolved; apply strategyOk_reset; assumption).
  apply Forall_app in Hcalls. destruct Hcalls as [Hcalls Hcall].
  destruct (strategyOk_invariant env calls s' Hok Hcalls) as [Hok' Hreg].
  inversion Hcall as [|? ? Hcid _]; subst.
  rewrite <- Hreg in Hcid.
  destruct call as [type event ftid cid options]. simpl in Hcid.
  destruct type.
  - destruct (handleKeydown_returns env _ event ftid cid options Hok' Hcid)
      as (s'' & H & _).
    eexists; eexists; exact H.
  - destruct (handleKeyEvent_returns env keypress _ event ftid cid options
                ltac:(discriminate) Hok' Hcid) as (s'' & H & _).
    eexists; eexists; exact H.
  - destruct (handleKeyEvent_returns env keyup _ event ftid cid options
                ltac:(discriminate) Hok' Hcid) as (s'' & H & _).
    eexists; eexists; exact H.
Qed.

(** ** When the registration throws *)

(** X15. [addHotKeys] returns exactly when, for every action of the key
    map with the hard sequences applied, the parser accepts each of its
    key sequences and, if it has any, the action is not named after a
    member of [Object.prototype].  When it throws no component has been
    added: the component list is empty after a reset that was due, and
    as it was otherwise; and an [updateHotKeys] that throws has replaced
    no component. *)
Theorem registration_returns_when_every_action_is_accepted :
  forall s keyMap handlersMap opts,
    let o := addHotKeys env library s keyMap handlersMap opts in
    ((exists ids s', o = Returned ids s') <->
     (forall name, accepted library opts keyMap handlersMap name)) /\
    (forall s',
        o = Threw s' ->
        componentList (registered s') =
          if resetOnNextFocus s then [] else componentList (registered s)) /\
    (forall ftid cid s',
        updateHotKeys library s ftid cid keyMap handlersMap opts = Threw s' ->
        componentList (registered s') = componentList (registered s)).
Proof.
  intros s keyMap handlersMap opts o. subst o.
  pose proof (addHotKeys_spec s keyMap handlersMap opts) as Hspec.
  cbv zeta in Hspec.
  set (s1 := if resetOnNextFocus s
             then withResetOnNextFocus (_reset env s) false else s) in *.
  set (cid := List.length (componentList (registered s1))) in *.
  destruct (_buildComponentOptions_spec (withComponentId s1 cid) cid keyMap
              handlersMap opts) as (Hext & Hreturned & Hreturns).
  split; [split|split].
  - intros (ids & s' & H). rewrite H in Hspec.
    destruct Hspec as (c & s3 & Hbuilt & _).
    destruct (Hreturned c s3 Hbuilt) as (_ & _ & _ & _ & Haccepted & _).
    exact Haccepted.
  - intros Hall. destruct (Hreturns Hall) as (c & s3 & Hbuilt).
    destruct (addHotKeys env library s keyMap handlersMap opts) as [ids s'|s'];
      [eauto|].
    rewrite Hbuilt in Hspec. discriminate Hspec.
  - intros s' H. rewrite H in Hspec. rewrite Hspec in Hext.
    destruct Hext as (Hcl & _). simpl in Hcl. rewrite Hcl.
    subst s1. destruct (resetOnNextFocus s); reflexivity.
  - intros ftid cid' s' H. unfold updateHotKeys in H.
    destruct (negb (ftid =? focusTreeId s)%nat || _); [discriminate|].
    destruct (_buildComponentOptions_spec s cid' keyMap handlersMap opts)
      as ((Hcl & _) & _).
    destruct (_buildComponentOptions library s cid' keyMap handlersMap opts)
      as [c s3|s3]; simpl in H, Hcl; [discriminate|].
    inversion H; subst. exact Hcl.
Qed.

(** ** The component that is registered *)

(** X16. The component options that [_buildComponentOptions] returns
    carry the component id, the handlers as they were given, and for
    each name the actions parsed from the options of the key map entry
    of that name, in order, with the name as their action name; the
    entry is the name itself as a key sequence when the name has a
    handler, the key map answers to it with nothing truthy and it is a
    valid key serialization (a hard sequence).  A name whose entry has no
    option has no action. *)
Theorem component_options_hold_the_handlers_and_the_parsed_key_map :
  forall s cid keyMap handlersMap opts c s',
    _buildComponentOptions library s cid keyMap handlersMap opts
    = Returned c s' ->
    componentId c = cid /\
    (forall name,
        JsObject.get (handlers c) name = JsObject.get handlersMap name) /\
    (forall name,
        exists parsed,
          parseOptions library opts
            (keyMapEntryOptions library keyMap handlersMap name) = Some parsed /\
          JsObject.get (actions c) name =
            match parsed with
            | [] => None
            | _ => Some (map (configurationOf name) parsed)
            end).
Proof.
  intros s cid keyMap handlersMap opts c s' H.
  destruct (_buildComponentOptions_spec s cid keyMap handlersMap opts)
    as (_ & Hreturned & _).
  destruct (Hreturned c s' H) as (A & _ & B & _ & _ & C).
  split; [exact A|]. split; [exact B | exact C].
Qed.

(** ** Updating a component *)

(** X17. [updateHotKeys] leaves the strategy as it is for a focus tree
    id other than the current one or a component id that is not of the
    list.  Otherwise, when it returns, the component at that position is
    the one built from the new key map and handlers, the other
    components are as they were, and so are the handler resolution
    state, the key combination state and the event propagation state:
    the handlers resolved before the update stay resolved. *)
Theorem update_replaces_one_component :
  forall s ftid cid keyMap handlersMap opts,
    (ftid <> focusTreeId s \/
     List.length (componentList (registered s)) <= cid ->
     updateHotKeys library s ftid cid keyMap handlersMap opts = Returned tt s) /\
    (forall s',
        ftid = focusTreeId s ->
        cid < List.length (componentList (registered s)) ->
        updateHotKeys library s ftid cid keyMap handlersMap opts
        = Returned tt s' ->
        (exists c s3,
            _buildComponentOptions library s cid keyMap handlersMap opts
            = Returned c s3 /\
            nth_error (componentList (registered s')) cid = Some c) /\
        (forall i,
            i <> cid ->
            nth_error (componentList (registered s')) i
            = nth_error (componentList (registered s)) i) /\
        List.length (componentList (registered s'))
        = List.length (componentList (registered s)) /\
        resolution s' = resolution s /\
        combinationState s' = combinationState s /\
        eventPropagationState s' = eventPropagationState s /\
        focusTreeId s' = focusTreeId s).
Proof.
  intros s ftid cid keyMap handlersMap opts. unfold updateHotKeys. split.
  - intros [Hft|Hcid].
    + apply Nat.eqb_neq in Hft. rewrite Hft. reflexivity.
    + apply nth_error_None in Hcid. rewrite Hcid.
      rewrite orb_true_r. reflexivity.
  - intros s' -> Hcid. rewrite Nat.eqb_refl. simpl negb.
    destruct (nth_error (componentList (registered s)) cid) as [old|] eqn:Hold.
    2:{ apply nth_error_None in Hold. lia. }
    simpl orb. cbv iota.
    destruct (_buildComponentOptions_spec s cid keyMap handlersMap opts)
      as ((Hcl & _ & _ & Hres & Hcomb & Hprop & Hft & _) & _).
    destruct (_buildComponentOptions library s cid keyMap handlersMap opts)
      as [c s3|s3]; simpl; [|discriminate].
    intros H. inversion H; subst s'; clear H.
    simpl in Hcl, Hres, Hcomb, Hprop, Hft |- *. rewrite Hcl.
    split; [exists c, s3; split; [reflexivity|]|].
    { apply (updateNth_nth_same _ _ _ old). exact Hold. }
    split.
    { intros i Hne.
      destruct (nth_error (updateNth (componentList (registered s)) cid c) i)
        as [y|] eqn:E.
      - apply updateNth_nth in E. destruct E as [[-> _]|E]; [congruence|].
        symmetry; exact E.
      - apply nth_error_None in E. rewrite updateNth_length in E.
        symmetry. apply nth_error_None. exact E. }
    split; [apply updateNth_length|].
    repeat split; assumption.
Qed.

(** ** The ids of the combinations *)

Lemma Forall_removelast {A} (P : A -> Prop) l :
  Forall P l -> Forall P (removelast l).
Proof.
  induction 1 as [|x l Hx Hl IH]; simpl; [constructor|].
  destruct l; [constructor|]. constructor; assumption.
Qed.

Lemma history_withHistory s h : history (withHistory s h) = h.
Proof. reflexivity. Qed.

Lemma serialized_maintained :
  maintainedByRecording env (fun _ h => Forall (serialized env) h).
Proof.
  intros s keyName i H. split.
  - unfold _addToCurrentKeyCombination. cbv zeta.
    rewrite history_withHistory. unfold replaceLast.
    apply Forall_app. split; [|constructor; [reflexivity | constructor]].
    destruct (List.length (history s) =? 0)%nat.
    + rewrite history_withHistory, removelast_last. exact H.
    + apply Forall_removelast. exact H.
  - unfold _startNewKeyCombination. cbv zeta.
    change (history (withIncludesKeyUp ?a false)) with (history a).
    rewrite history_withHistory.
    apply Forall_app. split; [|constructor; [reflexivity | constructor]].
    destruct (longestSequence (registered s) <? List.length (history s))%nat;
      [|exact H].
    rewrite history_withHistory.
    destruct (history s); [constructor|]. inversion H; assumption.
Qed.

Lemma perform_serialized s operation :
  Forall (serialized env) (history s) ->
  Forall (serialized env) (history (perform env library s operation)).
Proof.
  intros Hs.
  destruct operation as [km hm opts|ftid cid km hm opts|ftid cid|call]; simpl.
  - pose proof (addHotKeys_spec s km hm opts) as Hspec. cbv zeta in Hspec.
    set (s1 := if resetOnNextFocus s
               then withResetOnNextFocus (_reset env s) false else s) in *.
    assert (H1 : Forall (serialized env) (history s1)).
    { subst s1. destruct (resetOnNextFocus s); [|exact Hs].
      unfold history. simpl.
      destruct (List.length (history s) <? 1)%nat;
        [constructor | constructor; [reflexivity | constructor]]. }
    set (cid := List.length (componentList (registered s1))) in *.
    destruct (_buildComponentOptions_spec (withComponentId s1 cid) cid km hm opts)
      as ((_ & _ & _ & _ & Hcomb & _) & _).
    destruct (addHotKeys env library s km hm opts) as [ids s'|s']; simpl.
    + destruct Hspec as (c & s3 & Hbuilt & -> & _).
      rewrite Hbuilt in Hcomb. simpl in Hcomb.
      unfold history in *. simpl. rewrite Hcomb. exact H1.
    + rewrite Hspec in Hcomb. simpl in Hcomb.
      unfold history in *. rewrite Hcomb. exact H1.
  - unfold updateHotKeys.
    destruct (negb (ftid =? focusTreeId s)%nat || _); [exact Hs|].
    destruct (_buildComponentOptions_spec s cid km hm opts)
      as ((_ & _ & _ & _ & Hcomb & _) & _).
    destruct (_buildComponentOptions library s cid km hm opts) as [c s3|s3];
      simpl in *; unfold history in *; simpl; rewrite Hcomb; exact Hs.
  - destruct (negb (resetOnNextFocus s)); exact Hs.
  - exact (proj1 (handleKeyEvents_holds env _ serialized_maintained [call] s Hs)).
Qed.

(** X18. In every state that a new strategy reaches by components
    gaining focus, updating and losing focus and by key events, each
    combination of the key combination history carries the ids that
    [KeyCombinationSerializer.serialize] gives for its keys: the ids that
    the sequences are matched by describe the keys recorded. *)
Theorem history_ids_serialize_the_keys :
  forall operations,
    Forall (serialized env)
      (history (session env library (newStrategy env) operations)).
Proof.
  intros operations.
  apply (session_invariant (fun s => Forall (serialized env) (history s))).
  - intros s operation. apply perform_serialized.
  - constructor.
Qed.

End RegistrationProperties.

(** * Registration at work *)

(** Registering the inner and the outer component gives the component
    list, the longest sequence and the key map event bitmap of the
    concrete focus tree. *)
Example registering_gives_the_concrete_focus_tree :
  registered ExampleLibrary.focused = registered Example.focused.
Proof. vm_compute. reflexivity. Qed.

(** With [a] bound by the inner component and by the one around it, the
    keydown of [a] calls the handler of the inner component only. *)
Example inner_handler_is_the_one_called :
  filter isHandlerCall
    (effects
       (handleKeyEvents Example.env ExampleLibrary.nested
          [Example.call keydown "a" 0; Example.call keydown "a" 1]))
  = [HandlerCalled 10 (Example.press "a")].
Proof. vm_compute. reflexivity. Qed.

(** The second combination of a sequence calls its handler once the
    first has been released. *)
Example sequence_of_two_combinations_is_matched :
  filter isHandlerCall
    (effects
       (handleKeyEvents Example.env ExampleLibrary.editing
          [Example.call keydown "Control" 0; Example.call keydown "k" 0;
           Example.call keyup "k" 0; Example.call keyup "Control" 0;
           Example.call keydown "s" 0]))
  = [HandlerCalled 30 (Example.press "s")].
Proof. vm_compute. reflexivity. Qed.

(** An action named after a member of [Object.prototype] makes the
    registration throw, although the parser accepts its key sequence, and
    no component is added. *)
Example action_named_after_an_inherited_member_throws :
  let o :=
    addHotKeys Example.env ExampleLibrary.library (newStrategy Example.env)
      (registrationKeyMap ExampleLibrary.inheritedAction)
      (registrationHandlers ExampleLibrary.inheritedAction)
      ExampleLibrary.onKeydown in
  ExampleLibrary.parse "c" keydown <> None /\
  o = Threw (finalState o) /\
  componentList (registered (finalState o)) = [].
Proof. vm_compute. repeat split. discriminate. Qed.

(** A handler named after a member of [Object.prototype] is registered,
    and the first key event that has the handlers resolved throws. *)
Example handler_named_after_an_inherited_member_throws :
  let s :=
    session Example.env ExampleLibrary.library (newStrategy Example.env)
      [focusOn ExampleLibrary.inheritedHandler] in
  let o := handleKeyEvent Example.env s (Example.call keydown "a" 0) in
  List.length (componentList (registered s)) = 1 /\
  o = Threw (finalState o) /\
  effects (finalState o) = [IgnoreEventsConditionCalled (Example.press "a")].
Proof. vm_compute. repeat split. Qed.

(** A combination bound to a sequence after its order was stored is not
    in the order: [s] is bound for the inner component when the
    component around it gains focus, and its keydown calls no handler. *)
Example combination_bound_later_is_not_tried :
  let s :=
    handleKeyEvents Example.env ExampleLibrary.extended
      [Example.call keydown "s" 0; Example.call keydown "s" 1] in
  match JsObject.get (currentSequences s 0) EmptyString with
  | Some group =>
      map fst (combinations group) = ["o"; "s"] /\
      order group = Some ["o"] /\
      filter isHandlerCall (effects s) = [HandlerCalled 10 (Example.press "o")]
  | None => False
  end.
Proof. vm_compute. repeat split. Qed.

(** * The further properties on the concrete focus tree *)

Lemma propagation_state_is_cleared_at_the_root_witness :
  let s := Example.focused in
  let c := Example.call keydown "a" 1 in
  callFocusTreeId c = focusTreeId s /\
  handleKeyEvent Example.env s c
  = Returned (Some false) (finalState (handleKeyEvent Example.env s c)) /\
  _isFocusTreeRoot s (callComponentId c) = true /\
  eventPropagationState (finalState (handleKeyEvent Example.env s c))
  = mkPropagation 0 false false.
Proof.
  cbv zeta.
  assert (H1 : callFocusTreeId (Example.call keydown "a" 1)
               = focusTreeId Example.focused) by reflexivity.
  assert (H2 : handleKeyEvent Example.env Example.focused
                 (Example.call keydown "a" 1)
               = Returned (Some false)
                   (finalState
                      (handleKeyEvent Example.env Example.focused
                         (Example.call keydown "a" 1))))
    by (vm_compute; reflexivity).
  assert (H3 : _isFocusTreeRoot Example.focused
                 (callComponentId (Example.call keydown "a" 1)) = true)
    by reflexivity.
  exact (conj H1 (conj H2 (conj H3
           (proj1 (propagation_state_is_cleared_at_the_root Example.env
                     _ _ _ _ H1 H2) H3)))).
Defined.

(** The collaborators of the examples keep to ordinary names: no member
    of [Object.prototype] has a [+] in its name. *)
Lemma mentionsPlus_joined a k : mentionsPlus (a ++ "+" ++ k) = true.
Proof.
  induction a as [|c a IH]; simpl in *; [reflexivity|].
  rewrite IH. apply orb_true_r.
Qed.

Lemma inherited_without_plus x :
  JsObject.inherited x = true -> mentionsPlus x = false.
Proof.
  unfold JsObject.inherited. intros H.
  apply existsb_exists in H. destruct H as (name & Hin & Heq).
  apply String.eqb_eq in Heq. subst x.
  simpl in Hin.
  repeat (destruct Hin as [<-|Hin]; [reflexivity|]).
  destruct Hin.
Qed.

Lemma ordinary_joined a k : ordinary (a ++ "+" ++ k).
Proof.
  unfold ordinary.
  destruct (JsObject.inherited (a ++ "+" ++ k)) eqn:E; [|reflexivity].
  apply inherited_without_plus in E.
  rewrite mentionsPlus_joined in E. discriminate.
Qed.

Lemma Example_ordinaryKeys : ordinaryKeys Example.env.
Proof.
  split.
  - intros k Hk. simpl. unfold Example.alias. simpl. repeat constructor; exact Hk.
  - intros o Ho. simpl. unfold Example.serialize.
    constructor; [|constructor].
    assert (H : forall l acc,
               Forall ordinary l -> ordinary acc ->
               ordinary
                 (fold_left
                    (fun acc k =>
                       if String.eqb acc EmptyString then k
                       else (acc ++ "+" ++ k)%string) l acc)).
    { induction l as [|k l IH]; intros acc Hl Hacc; simpl; [exact Hacc|].
      inversion Hl; subst. apply IH; [assumption|].
      destruct (String.eqb acc EmptyString); [assumption|apply ordinary_joined]. }
    apply H; [exact Ho|reflexivity].
Qed.

Lemma keypress_and_keyup_return_true_only_for_an_old_focus_tree_witness :
  strategyOk Example.focused /\
  0 < List.length (componentList (registered Example.focused)) /\
  ordinaryKeys Example.env /\
  ordinaryHistory Example.focused /\
  ordinaryKeyMaps (resolution Example.focused) /\
  ordinary (normalizeKeyName Example.env (key (Example.press "a"))) /\
  exists s1 s2,
    handleKeypress Example.env Example.focused (Example.press "a") 0 0
      Example.neverIgnore = Returned None s1 /\
    handleKeyup Example.env Example.focused (Example.press "a") 0 0
      Example.neverIgnore = Returned None s2.
Proof.
  assert (Hok : strategyOk Example.focused)
    by (apply strategyOk_reset; reflexivity).
  assert (Hcid : 0 < List.length (componentList (registered Example.focused)))
    by (simpl; lia).
  assert (Hhistory : ordinaryHistory Example.focused) by constructor.
  assert (Hmaps : ordinaryKeyMaps (resolution Example.focused))
    by (intros maps keyMap groups p g i c Hnone; discriminate Hnone).
  assert (Hkey : ordinary (normalizeKeyName Example.env (key (Example.press "a"))))
    by reflexivity.
  exact (conj Hok (conj Hcid (conj Example_ordinaryKeys (conj Hhistory
           (conj Hmaps (conj Hkey
           (proj2 (proj2 (keypress_and_keyup_return_true_only_for_an_old_focus_tree
                            Example.env Example.focused (Example.press "a") 0 0
                            Example.neverIgnore))
              Hok Hcid Example_ordinaryKeys Hhistory Hmaps Hkey))))))).
Defined.

Lemma keypress_events_to_simulate_after_a_keydown_witness :
  let s := Example.focused in
  let o :=
    handleKeydown Example.env s (Example.press "Shift") (focusTreeId s) 0
      Example.neverIgnore in
  o = Returned (Some false) (finalState o) /\
  _isFocusTreeRoot s 0 = false /\
  queue (finalState o)
  = [mkSimulated (Example.press "Shift") 0 0 Example.neverIgnore].
Proof.
  cbv zeta.
  assert (H : handleKeydown Example.env Example.focused (Example.press "Shift")
                (focusTreeId Example.focused) 0 Example.neverIgnore
              = Returned (Some false)
                  (finalState
                     (handleKeydown Example.env Example.focused
                        (Example.press "Shift") (focusTreeId Example.focused) 0
                        Example.neverIgnore)))
    by (vm_compute; reflexivity).
  assert (Hroot : _isFocusTreeRoot Example.focused 0 = false) by reflexivity.
  exact (conj H (conj Hroot
           (proj2 (proj2 (keypress_events_to_simulate_after_a_keydown
                            Example.env _ _ _ _ _ _ H)) eq_refl Hroot))).
Defined.

Lemma reset_keeps_the_keys_still_pressed_witness :
  history Example.holdingA <> [] /\
  exists kept,
    history (_reset Example.env Example.holdingA) = [kept] /\
    ids kept = serialize Example.env (keys kept) /\
    forall k,
      JsObject.get (keys kept) k =
        match JsObject.get (keys (_getCurrentKeyCombination Example.holdingA)) k
        with
        | Some keyState =>
            if bit (current keyState) keydown
               && negb (bit (current keyState) keyup)
            then Some keyState else None
        | None => None
        end.
Proof.
  assert (H : history Example.holdingA <> []) by (vm_compute; discriminate).
  exact (conj H
           (proj2 (proj2 (proj2 (proj2 (proj2
              (reset_keeps_the_keys_still_pressed Example.env
                 Example.holdingA))))) H)).
Defined.

Lemma every_choice_of_aliases_is_tried_witness :
  let keyMatcher := [("a b", mkGroup JsObject.empty None)] in
  let sequenceIds := [["x"; "a"]; ["b"]] in
  aliasChoice sequenceIds [1; 0] /\
  JsObject.has keyMatcher (join (sequenceIdPermutation sequenceIds [1; 0]))
  = true /\
  _tryMatchSequenceWithKeyAliases keyMatcher sequenceIds <> None.
Proof.
  cbv zeta.
  assert (Hc : aliasChoice [["x"; "a"]; ["b"]] [1; 0])
    by (repeat constructor).
  assert (Hh : JsObject.has [("a b", mkGroup JsObject.empty None)]
                 (join (sequenceIdPermutation [["x"; "a"]; ["b"]] [1; 0]))
               = true) by reflexivity.
  exact (conj Hc (conj Hh
           (proj2 (every_choice_of_aliases_is_tried
                     [("a b", mkGroup JsObject.empty None)]
                     [["x"; "a"]; ["b"]]) [1; 0] Hc Hh))).
Defined.

Lemma combination_matches_when_its_keys_trigger_the_event_witness :
  let s := Example.holdingA in
  let combinationMatch :=
    mkCombinationMatcher EmptyString 1 "a" [("a", true)] 1
      [(keydown, mkBinding "A" keydown (Some 10))] in
  _combinationMatchesKeys Example.env s "a" (_getCurrentKeyCombination s)
    combinationMatch keydown = Some true /\
  exists keyState,
    JsObject.get (keys (_getCurrentKeyCombination s)) "a" = Some keyState /\
    bit (previous keyState) keydown = false.
Proof.
  cbv zeta.
  assert (H : _combinationMatchesKeys Example.env Example.holdingA "a"
                (_getCurrentKeyCombination Example.holdingA)
                (mkCombinationMatcher EmptyString 1 "a" [("a", true)] 1
                   [(keydown, mkBinding "A" keydown (Some 10))]) keydown
              = Some true) by (vm_compute; reflexivity).
  exact (conj H
           (proj2 (proj2 (proj2 (proj2
              (proj1 (combination_matches_when_its_keys_trigger_the_event
                        Example.env Example.holdingA "a"
                        (_getCurrentKeyCombination Example.holdingA) keydown
                        _) H)))))).
Defined.

Lemma computed_order_lists_every_combination_witness :
  let s0 := recordKeyEvent Example.env keydown Example.focused "a" in
  let s :=
    withResolution s0
      (finalState
         (resolveHandlers Example.env (componentList (registered s0)) 0
            (resolution s0))) in
  let o :=
    matchSequenceOfLength Example.env s (Example.press "a") "a" keydown 0
      (_getCurrentKeyCombination s) 1 in
  exists group stored,
    _tryMatchSequenceWithKeyAliases (currentSequences s 0)
      (map ids (slice (history s) (- Z.of_nat 1) (-1)))
    = Some (EmptyString, group) /\
    order group = None /\
    map fst (combinations group) = ["a"; "Shift+a"] /\
    Permutation stored (map matcherId (JsObject.values (combinations group))) /\
    JsObject.get (currentSequences (finalState o) 0) EmptyString
    = Some (mkGroup (combinations group) (Some stored)).
Proof.
  cbv zeta.
  set (s0 := recordKeyEvent Example.env keydown Example.focused "a").
  set (s := withResolution s0
              (finalState
                 (resolveHandlers Example.env (componentList (registered s0)) 0
                    (resolution s0)))).
  assert (Hfound : exists group,
             _tryMatchSequenceWithKeyAliases (currentSequences s 0)
               (map ids (slice (history s) (- Z.of_nat 1) (-1)))
             = Some (EmptyString, group) /\
             order group = None /\
             map fst (combinations group) = ["a"; "Shift+a"]).
  { eexists. split; [vm_compute; reflexivity|]. split; reflexivity. }
  destruct Hfound as (group & Hfound & Horder & Hids).
  destruct (computed_order_lists_every_combination Example.env s
              (Example.press "a") "a" keydown 0 (_getCurrentKeyCombination s) 1
              EmptyString group Hfound Horder) as (stored & Hperm & _ & Hget).
  exists group, stored.
  split; [exact Hfound|]. split; [exact Horder|]. split; [exact Hids|].
  split; [exact Hperm | exact Hget].
Defined.

Lemma handlers_are_resolved_once_witness :
  let cl := [Example.inner; Example.outer] in
  ordinaryNames cl /\
  resolutionOk cl _resetHandlerResolutionState /\
  0 < List.length cl /\
  exists r',
    resolveHandlers Example.env cl 0 _resetHandlerResolutionState
    = Returned tt r' /\
    searchIndex r' = List.length cl /\
    resolveHandlers Example.env cl 1 r' = Returned tt r'.
Proof.
  cbv zeta.
  assert (Hnames : ordinaryNames [Example.inner; Example.outer])
    by reflexivity.
  assert (Hok : resolutionOk [Example.inner; Example.outer]
                  _resetHandlerResolutionState)
    by (split; [apply handlersKnown_empty | exact I]).
  assert (Hcid : 0 < List.length [Example.inner; Example.outer])
    by (simpl; lia).
  split; [exact Hnames|]. split; [exact Hok|]. split; [exact Hcid|].
  destruct (handlers_are_resolved_once Example.env
              [Example.inner; Example.outer] 0 _resetHandlerResolutionState
              Hnames Hok Hcid) as (r' & Hcall & Hran & Honce).
  assert (Hdone : searchIndex r' = List.length [Example.inner; Example.outer])
    by (apply (Hran 2%Z); [reflexivity | lia]).
  exists r'. split; [exact Hcall|]. split; [exact Hdone|].
  apply Honce; [rewrite Hdone; apply Nat.le_refl | simpl; lia].
Defined.

Lemma handler_called_is_defined_by_the_component_witness :
  let s := recordKeyEvent Example.env keydown Example.focused "a" in
  let o :=
    _callMatchingHandlerClosestToEventTarget Example.env s (Example.press "a")
      "a" keydown 0 in
  handlersOwned s /\
  nth_error (componentList (registered s)) 0 = Some Example.inner /\
  o = Returned true (finalState o) /\
  exists name h,
    JsObject.get (handlers Example.inner) name = Some h /\
    effects (finalState o) = HandlerCalled h (Example.press "a") :: effects s.
Proof.
  cbv zeta.
  set (s := recordKeyEvent Example.env keydown Example.focused "a").
  assert (Hown : handlersOwned s)
    by (intros maps index component keyMap H; discriminate H).
  assert (Hc : nth_error (componentList (registered s)) 0 = Some Example.inner)
    by reflexivity.
  assert (Hcall : _callMatchingHandlerClosestToEventTarget Example.env s
                    (Example.press "a") "a" keydown 0
                  = Returned true
                      (finalState
                         (_callMatchingHandlerClosestToEventTarget Example.env s
                            (Example.press "a") "a" keydown 0)))
    by (vm_compute; reflexivity).
  exact (conj Hown (conj Hc (conj Hcall
           (proj1 (handler_called_is_defined_by_the_component Example.env s Hown)
              (Example.press "a") "a" keydown 0 Example.inner _ Hc Hcall)))).
Defined.

Lemma rejected_event_is_ignored_by_every_component_witness :
  let s := Example.focused in
  let rejecting := mkOptions (fun _ => true) in
  let s' :=
    handleKeyEvents Example.env s
      (bubble keydown (Example.press "a") (focusTreeId s) rejecting 0
         (List.length (componentList (registered s)))) in
  1 <= List.length (componentList (registered s)) /\
  previousIndex s = 0 /\
  ignoring s = false /\
  combinationState s' = combinationState s /\
  resolution s' = resolution s /\
  handlerCalls s' = handlerCalls s /\
  ignoreEventsConditionCalls s' = S (ignoreEventsConditionCalls s) /\
  keyEventCounter s' = S (keyEventCounter s) /\
  eventPropagationState s' = mkPropagation 0 false false.
Proof.
  cbv zeta.
  assert (H1 : 1 <= List.length (componentList (registered Example.focused)))
    by (simpl; lia).
  assert (H2 : previousIndex Example.focused = 0) by reflexivity.
  assert (H3 : ignoring Example.focused = false) by reflexivity.
  exact (conj H1 (conj H2 (conj H3
           (rejected_event_is_ignored_by_every_component Example.env keydown
              Example.focused (Example.press "a") (mkOptions (fun _ => true))
              H1 H2 H3 eq_refl)))).
Defined.

Lemma recorded_key_has_the_bitmap_of_its_event_witness :
  let s := Example.holdingA in
  let recorded :=
    _getCurrentKeyCombination (recordKeyEvent Example.env keyup s "a") in
  1 <= longestSequence (registered s) /\
  JsObject.get (keys recorded) "a" =
    Some (mkKeyState (mkBitmap true false false) (mkBitmap true true true)) /\
  ids recorded = serialize Example.env (keys recorded).
Proof.
  cbv zeta.
  assert (H : 1 <= longestSequence (registered Example.holdingA))
    by (vm_compute; lia).
  exact (conj H
           (recorded_key_has_the_bitmap_of_its_event Example.env keyup
              Example.holdingA "a" H)).
Defined.

Lemma component_id_beyond_the_list_throws_witness :
  let s := Example.focused in
  let thrown :=
    withResolution s
      (initResolution (componentList (registered s)) (resolution s)) in
  resolutionOk (componentList (registered s)) (resolution s) /\
  List.length (componentList (registered s)) <= 5 /\
  _callMatchingHandlerClosestToEventTarget Example.env s (Example.press "a")
    "a" keydown 5 = Threw thrown /\
  _callHandlerIfActionNotHandled Example.env s (Example.press "a") "a" keydown 5
  = Threw thrown.
Proof.
  cbv zeta.
  assert (Hok : resolutionOk (componentList (registered Example.focused))
                  (resolution Example.focused))
    by (split; [apply handlersKnown_empty | exact I]).
  assert (Hcid : List.length (componentList (registered Example.focused)) <= 5)
    by (simpl; lia).
  destruct (component_id_beyond_the_list_throws Example.env Example.focused
              (Example.press "a") "a" keydown 5 Hok Hcid) as [A B].
  exact (conj Hok (conj Hcid (conj A (B eq_refl eq_refl)))).
Defined.

Lemma handlers_dictionary_lists_the_nearest_component_first_witness :
  let s := ExampleLibrary.nested in
  let calls := [Example.call keydown "a" 0] in
  nearestFirst (resolution s) /\
  JsObject.get
    (handlersDictionary (resolution (handleKeyEvents Example.env s calls))) "A"
  = Some [0; 1] /\
  Forall (fun other => 0 <= other) [1].
Proof.
  cbv zeta.
  assert (H : nearestFirst (resolution ExampleLibrary.nested))
    by (intros name l Hl; discriminate Hl).
  assert (Hget : JsObject.get
                   (handlersDictionary
                      (resolution
                         (handleKeyEvents Example.env ExampleLibrary.nested
                            [Example.call keydown "a" 0]))) "A"
                 = Some [0; 1]) by (vm_compute; reflexivity).
  exact (conj H (conj Hget
           (proj2 (handlers_dictionary_lists_the_nearest_component_first
                     Example.env ExampleLibrary.nested H)
              [Example.call keydown "a" 0] "A" 0 [1] Hget))).
Defined.

Lemma components_are_numbered_by_position_witness :
  nth_error (componentList (registered ExampleLibrary.focused)) 1
  = Some Example.outer /\
  componentId Example.outer = 1.
Proof.
  assert (H : nth_error (componentList (registered ExampleLibrary.focused)) 1
              = Some Example.outer) by (vm_compute; reflexivity).
  exact (conj H
           (components_are_numbered_by_position Example.env
              ExampleLibrary.library
              [focusOn ExampleLibrary.inner; focusOn ExampleLibrary.outer]
              1 Example.outer H)).
Defined.

Lemma longest_sequence_covers_the_registered_sequences_witness :
  let s := ExampleLibrary.editing in
  let c := hd Example.inner (componentList (registered s)) in
  In c (componentList (registered s)) /\
  JsObject.get (actions c) "SAVE" = Some [ExampleLibrary.saveAction] /\
  In ExampleLibrary.saveAction [ExampleLibrary.saveAction] /\
  sequenceLength ExampleLibrary.saveAction = 2 /\
  sequenceLength ExampleLibrary.saveAction <= longestSequence (registered s).
Proof.
  cbv zeta.
  set (c := hd Example.inner (componentList (registered ExampleLibrary.editing))).
  assert (Hc : In c (componentList (registered ExampleLibrary.editing)))
    by (left; reflexivity).
  assert (Hl : JsObject.get (actions c) "SAVE" = Some [ExampleLibrary.saveAction])
    by reflexivity.
  assert (Hm : In ExampleLibrary.saveAction [ExampleLibrary.saveAction])
    by (left; reflexivity).
  exact (conj Hc (conj Hl (conj Hm (conj eq_refl
           (proj1 (proj2 (longest_sequence_covers_the_registered_sequences
                            Example.env ExampleLibrary.library
                            [focusOn ExampleLibrary.editor]))
              c "SAVE" [ExampleLibrary.saveAction] ExampleLibrary.saveAction
              Hc Hl Hm))))).
Defined.

Lemma key_map_event_bitmap_covers_the_registered_events_witness :
  let s := ExampleLibrary.editing in
  let c := hd Example.inner (componentList (registered s)) in
  parserKeepsEvent ExampleLibrary.library /\
  In c (componentList (registered s)) /\
  (exists l,
      JsObject.get (actions c) "UNDO" = Some l /\
      In ExampleLibrary.undoOnKeyup l) /\
  bit (keyMapEventBitmap (registered s)) keyup = true.
Proof.
  cbv zeta.
  set (c := hd Example.inner (componentList (registered ExampleLibrary.editing))).
  assert (Hp : parserKeepsEvent ExampleLibrary.library).
  { intros keySequence i parsed H. simpl in H. unfold ExampleLibrary.parse in H.
    destruct (String.eqb keySequence EmptyString); [discriminate|].
    inversion H. reflexivity. }
  assert (Hc : In c (componentList (registered ExampleLibrary.editing)))
    by (left; reflexivity).
  assert (Hl : JsObject.get (actions c) "UNDO"
               = Some [mkMatcher EmptyString "UNDO" 1 "Control+z"
                         [("Control", true); ("z", true)] 2 keydown;
                       ExampleLibrary.undoOnKeyup]) by reflexivity.
  assert (Hm : In ExampleLibrary.undoOnKeyup
                 [mkMatcher EmptyString "UNDO" 1 "Control+z"
                    [("Control", true); ("z", true)] 2 keydown;
                  ExampleLibrary.undoOnKeyup])
    by (right; left; reflexivity).
  split; [exact Hp|]. split; [exact Hc|].
  split; [eexists; split; [exact Hl | exact Hm]|].
  exact (proj2 (key_map_event_bitmap_covers_the_registered_events Example.env
                  ExampleLibrary.library Hp [focusOn ExampleLibrary.editor]
                  c "UNDO" _ ExampleLibrary.undoOnKeyup Hc Hl Hm)).
Defined.

Lemma focus_after_a_blur_starts_a_new_focus_tree_witness :
  let blurred := snd (removeHotKeys Example.tapped 0 0) in
  let o :=
    addHotKeys Example.env ExampleLibrary.library blurred
      (registrationKeyMap ExampleLibrary.inner)
      (registrationHandlers ExampleLibrary.inner) ExampleLibrary.onKeydown in
  o = Returned (1, 0) (finalState o) /\
  focusTreeId (finalState o) = 1 /\
  List.length (history (finalState o)) <= 1 /\
  handleKeyEvent Example.env (finalState o) (Example.call keyup "a" 0)
  = Returned (Some true) (finalState o).
Proof.
  cbv zeta.
  set (o := addHotKeys Example.env ExampleLibrary.library
              (snd (removeHotKeys Example.tapped 0 0))
              (registrationKeyMap ExampleLibrary.inner)
              (registrationHandlers ExampleLibrary.inner)
              ExampleLibrary.onKeydown).
  assert (H : o = Returned (1, 0) (finalState o)) by (vm_compute; reflexivity).
  destruct (focus_after_a_blur_starts_a_new_focus_tree Example.env
              ExampleLibrary.library Example.tapped 0 0 _ _ _ _ _ H)
    as (_ & _ & Hft & _ & _ & _ & _ & Hh & Hold).
  split; [exact H|]. split; [exact Hft|]. split; [exact Hh|].
  apply Hold. reflexivity.
Defined.

Lemma registered_components_handle_key_events_witness :
  let s := newStrategy Example.env in
  let registrations := [ExampleLibrary.inner; ExampleLibrary.outer] in
  let s' := session Example.env ExampleLibrary.library s
              (map focusOn registrations) in
  unresolved s /\
  ordinaryNames (componentList (registered s')) /\
  ordinaryKeys Example.env /\
  ordinaryHistory s /\
  Forall
    (fun c => callComponentId c < List.length (componentList (registered s')))
    (Example.tapTwice ++ [Example.call keyup "a" 0]) /\
  Forall
    (fun c => ordinary (normalizeKeyName Example.env (key (callEvent c))))
    (Example.tapTwice ++ [Example.call keyup "a" 0]) /\
  exists v s'',
    handleKeyEvent Example.env (handleKeyEvents Example.env s' Example.tapTwice)
      (Example.call keyup "a" 0) = Returned v s''.
Proof.
  cbv zeta.
  assert (Hs : unresolved (newStrategy Example.env)) by (split; reflexivity).
  assert (Hnames :
            ordinaryNames
              (componentList
                 (registered
                    (session Example.env ExampleLibrary.library
                       (newStrategy Example.env)
                       (map focusOn
                          [ExampleLibrary.inner; ExampleLibrary.outer])))))
    by reflexivity.
  assert (Hcalls :
            Forall
              (fun c =>
                 callComponentId c
                 < List.length
                     (componentList
                        (registered
                           (session Example.env ExampleLibrary.library
                              (newStrategy Example.env)
                              (map focusOn
                                 [ExampleLibrary.inner; ExampleLibrary.outer])))))
              (Example.tapTwice ++ [Example.call keyup "a" 0]))
    by (repeat constructor).
  assert (Hhistory : ordinaryHistory (newStrategy Example.env)) by constructor.
  assert (Hkeys :
            Forall
              (fun c =>
                 ordinary (normalizeKeyName Example.env (key (callEvent c))))
              (Example.tapTwice ++ [Example.call keyup "a" 0]))
    by (repeat constructor).
  exact (conj Hs (conj Hnames (conj Example_ordinaryKeys (conj Hhistory
           (conj Hcalls (conj Hkeys
           (registered_components_handle_key_events Example.env
              ExampleLibrary.library (newStrategy Example.env)
              [ExampleLibrary.inner; ExampleLibrary.outer] Example.tapTwice
              (Example.call keyup "a" 0) (or_introl Hs) Hnames
              Example_ordinaryKeys Hhistory Hcalls Hkeys))))))).
Defined.

Lemma registration_returns_when_every_action_is_accepted_witness :
  let s := newStrategy Example.env in
  let o :=
    addHotKeys Example.env ExampleLibrary.library s
      (registrationKeyMap ExampleLibrary.broken)
      (registrationHandlers ExampleLibrary.broken) ExampleLibrary.onKeydown in
  o = Threw (finalState o) /\
  componentList (registered (finalState o)) = [] /\
  parseOptions ExampleLibrary.library ExampleLibrary.onKeydown
    (keyMapEntryOptions ExampleLibrary.library
       (registrationKeyMap ExampleLibrary.broken)
       (registrationHandlers ExampleLibrary.broken) "NOTHING") = None.
Proof.
  cbv zeta.
  set (o := addHotKeys Example.env ExampleLibrary.library
              (newStrategy Example.env)
              (registrationKeyMap ExampleLibrary.broken)
              (registrationHandlers ExampleLibrary.broken)
              ExampleLibrary.onKeydown).
  assert (H : o = Threw (finalState o)) by (vm_compute; reflexivity).
  split; [exact H|]. split; [|reflexivity].
  exact (proj1 (proj2 (registration_returns_when_every_action_is_accepted Example.env
                         ExampleLibrary.library (newStrategy Example.env)
                         (registrationKeyMap ExampleLibrary.broken)
                         (registrationHandlers ExampleLibrary.broken)
                         ExampleLibrary.onKeydown)) _ H).
Defined.

Lemma component_options_hold_the_handlers_and_the_parsed_key_map_witness :
  let o :=
    _buildComponentOptions ExampleLibrary.library (newStrategy Example.env) 0
      (registrationKeyMap ExampleLibrary.editor)
      (registrationHandlers ExampleLibrary.editor) ExampleLibrary.onKeydown in
  exists c s',
    o = Returned c s' /\
    componentId c = 0 /\
    JsObject.get (handlers c) "Escape" = Some 32 /\
    JsObject.get (actions c) "Escape"
    = Some [mkMatcher EmptyString "Escape" 1 "Escape" [("Escape", true)] 1
              keydown].
Proof.
  cbv zeta.
  destruct (_buildComponentOptions ExampleLibrary.library
              (newStrategy Example.env) 0
              (registrationKeyMap ExampleLibrary.editor)
              (registrationHandlers ExampleLibrary.editor)
              ExampleLibrary.onKeydown) as [c s'|s'] eqn:H.
  - destruct (component_options_hold_the_handlers_and_the_parsed_key_map
                ExampleLibrary.library _ _ _ _ _ _ _ H)
      as (Hid & Hhandlers & Hactions).
    exists c, s'. split; [reflexivity|]. split; [exact Hid|].
    split; [exact (Hhandlers "Escape")|].
    destruct (Hactions "Escape") as (parsed & Hparsed & Hget).
    vm_compute in Hparsed. inversion Hparsed; subst parsed. exact Hget.
  - exfalso. vm_compute in H. discriminate H.
Defined.

Lemma update_replaces_one_component_witness :
  let s := ExampleLibrary.focused in
  let keyMap := registrationKeyMap ExampleLibrary.editor in
  let handlersMap := registrationHandlers ExampleLibrary.editor in
  let o :=
    updateHotKeys ExampleLibrary.library s 0 0 keyMap handlersMap
      ExampleLibrary.onKeydown in
  5 <> focusTreeId s /\
  updateHotKeys ExampleLibrary.library s 5 0 keyMap handlersMap
    ExampleLibrary.onKeydown = Returned tt s /\
  0 < List.length (componentList (registered s)) /\
  o = Returned tt (finalState o) /\
  nth_error (componentList (registered (finalState o))) 1
  = nth_error (componentList (registered s)) 1 /\
  resolution (finalState o) = resolution s.
Proof.
  cbv zeta.
  set (o := updateHotKeys ExampleLibrary.library ExampleLibrary.focused 0 0
              (registrationKeyMap ExampleLibrary.editor)
              (registrationHandlers ExampleLibrary.editor)
              ExampleLibrary.onKeydown).
  assert (Hstale : 5 <> focusTreeId ExampleLibrary.focused)
    by (vm_compute; discriminate).
  assert (Hcid : 0 < List.length (componentList (registered ExampleLibrary.focused)))
    by (vm_compute; lia).
  assert (H : o = Returned tt (finalState o)) by (vm_compute; reflexivity).
  destruct (update_replaces_one_component ExampleLibrary.library
              ExampleLibrary.focused 5 0
              (registrationKeyMap ExampleLibrary.editor)
              (registrationHandlers ExampleLibrary.editor)
              ExampleLibrary.onKeydown) as [Hsame _].
  destruct (update_replaces_one_component ExampleLibrary.library
              ExampleLibrary.focused 0 0
              (registrationKeyMap ExampleLibrary.editor)
              (registrationHandlers ExampleLibrary.editor)
              ExampleLibrary.onKeydown) as [_ Hupdate].
  destruct (Hupdate (finalState o) eq_refl Hcid H)
    as (_ & Hother & _ & Hres & _).
  split; [exact Hstale|]. split; [exact (Hsame (or_introl Hstale))|].
  split; [exact Hcid|]. split; [exact H|].
  split; [apply Hother; discriminate | exact Hres].
Defined.
